(** * Merise plugin: conceptual, logical and physical models

    A shallow embedding of the model-transformation tool chain of the
    plugin (parsers, MCD->MLD and MLD->MPD converters, topological sort
    of the SQL generator, validators, text re-serialisation) together
    with the properties that the specification states about them.

    Conventions of the embedding.

    - A JavaScript string is the Rocq [string] of its UTF-8 bytes.  The
      character classes of the source ([\w], [\s], [\d], the dot, case
      mapping) are modelled on ASCII: [isSpace] has the ASCII white space
      and [isLineTerminator] has LF and CR, where the source also takes
      U+00A0, U+FEFF, U+2028, U+2029 and the other Unicode spaces.  The
      embedding is the source on ASCII text.  A property of a parser on
      a text that is not generated is stated for ASCII text, except on
      lines that the embedding and the source both skip (blank lines and
      comments); where a model carries a free text (the expression of a
      CHECK constraint) the Unicode line terminators are excluded by
      their bytes.
    - A number is a natural number, printed by [ofNumber] with all its
      digits, as the source does up to 2^53 - 1; a property that depends
      on the printed number is stated below that bound.
    - Arrays are lists; an object that the source mutates in place
      through a reference obtained with [find] is the first element of
      the list that satisfies the predicate, updated functionally.
    - [Map<string, _>] used only through [get]/[set] is a [gmap string _];
      a [Map]/[Set] that is iterated is a list in insertion order.
    - [undefined]/[null] results are [None]. *)

From Stdlib Require Import String Ascii List Bool Arith NArith Lia Permutation.
From Stdlib Require Import DecimalString DecimalPos.
From stdpp Require Import base option list strings gmap fin_maps.

Import ListNotations.
Local Open Scope string_scope.
Local Open Scope list_scope.
Local Open Scope nat_scope.

(* ================================================================== *)
(** * JavaScript string primitives *)
(* ================================================================== *)

Module Js.

(** The double quote character, as a one-character string. *)
Definition dq : string := String (ascii_of_nat 34) EmptyString.

(** The line feed character. *)
Definition LF : ascii := ascii_of_nat 10.

Definition isUpper (c : ascii) : bool :=
  let n := nat_of_ascii c in (65 <=? n) && (n <=? 90).

Definition isLower (c : ascii) : bool :=
  let n := nat_of_ascii c in (97 <=? n) && (n <=? 122).

Definition isDigit (c : ascii) : bool :=
  let n := nat_of_ascii c in (48 <=? n) && (n <=? 57).

(** [\w] : letters, digits and the underscore. *)
Definition isWord (c : ascii) : bool :=
  isUpper c || isLower c || isDigit c || (nat_of_ascii c =? 95).

(** [\s] and the characters removed by [trim], on ASCII text: TAB, LF,
    VT, FF, CR, SP.  (The source also takes the Unicode spaces, which
    are not ASCII.) *)
Definition isSpace (c : ascii) : bool :=
  let n := nat_of_ascii c in ((9 <=? n) && (n <=? 13)) || (n =? 32).

(** Line terminators, which the regular-expression dot does not match,
    on ASCII text: LF and CR.  (The source also stops at U+2028 and
    U+2029, see [hasUnicodeLineTerminator].) *)
Definition isLineTerminator (c : ascii) : bool :=
  let n := nat_of_ascii c in (n =? 10) || (n =? 13).

Definition isAsciiChar (c : ascii) : bool := nat_of_ascii c <? 128.

Definition toLowerChar (c : ascii) : ascii :=
  if isUpper c then ascii_of_nat (nat_of_ascii c + 32) else c.

Definition toUpperChar (c : ascii) : ascii :=
  if isLower c then ascii_of_nat (nat_of_ascii c - 32) else c.

Fixpoint toLowerCase (s : string) : string :=
  match s with
  | EmptyString => EmptyString
  | String c r => String (toLowerChar c) (toLowerCase r)
  end.

Fixpoint toUpperCase (s : string) : string :=
  match s with
  | EmptyString => EmptyString
  | String c r => String (toUpperChar c) (toUpperCase r)
  end.

(** [s.startsWith(p)] *)
Definition startsWith (s p : string) : bool := String.prefix p s.

(** [s.includes(p)] *)
Fixpoint includes (s p : string) : bool :=
  String.prefix p s ||
  match s with
  | EmptyString => false
  | String _ r => includes r p
  end.

(** [s.endsWith(p)] : [p] is the suffix of [s] of length [p.length]. *)
Definition endsWith (s p : string) : bool :=
  let ls := String.length s in
  let lp := String.length p in
  (lp <=? ls)%nat && String.eqb (substring (ls - lp) lp s) p.

(** 2^53 - 1, the largest of the integers that the source represents
    exactly and prints with all their digits. *)
Definition maxSafeInteger : N := 9007199254740991.

(** [String(n)] for a non-negative integer up to [maxSafeInteger]. *)
Definition ofNumber (n : N) : string := NilEmpty.string_of_uint (N.to_uint n).

(** A string is truthy when it is not empty. *)
Definition truthy (s : string) : bool := negb (String.eqb s EmptyString).

End Js.

(* ================================================================== *)
(** * Data model ([models/types.ts]) *)
(* ================================================================== *)

Inductive Cardinality := C01 | C11 | C0n | C1n.

Inductive InheritanceStrategy := table_per_class | single_table | table_per_subclass.

Inductive SqlDialect := mariadb | mysql | postgresql.

Inductive ReferentialAction := CASCADE | SET_NULL | SET_DEFAULT | RESTRICT | NO_ACTION.

Inductive ConstraintType := NOT_NULL | UNIQUE | CHECK.

Record McdAttribute := {
  attr_name : string;
  attr_isPrimaryKey : bool;
  attr_isDerived : bool }.

Record McdEntity := {
  ent_name : string;
  ent_attributes : list McdAttribute }.

Record McdRelationParticipant := {
  part_entityName : string;
  part_cardinality : Cardinality }.

Record McdRelation := {
  rel_name : string;
  rel_participants : list McdRelationParticipant;
  rel_attributes : list McdAttribute }.

Record McdInheritance := {
  inh_name : string;
  inh_parentEntity : string;
  inh_childEntities : list string;
  inh_strategy : option InheritanceStrategy }.

Record McdAssociativeEntity := {
  assoc_name : string;
  assoc_relationName : string;
  assoc_attributes : list McdAttribute }.

Record McdModel := {
  mcd_entities : list McdEntity;
  mcd_relations : list McdRelation;
  mcd_inheritances : list McdInheritance;
  mcd_associativeEntities : list McdAssociativeEntity }.

Record MldForeignKey := {
  lfk_columnName : string;
  lfk_referencedTable : string;
  lfk_referencedColumn : string }.

Record MldColumn := {
  lcol_name : string;
  lcol_isPrimaryKey : bool;
  lcol_foreignKey : option MldForeignKey }.

Record MldTable := {
  ltab_name : string;
  ltab_columns : list MldColumn }.

Record MldModel := { mld_tables : list MldTable }.

Record MpdConstraint := {
  con_type : ConstraintType;
  con_expression : option string }.

Record MpdForeignKey := {
  pfk_columnName : string;
  pfk_referencedTable : string;
  pfk_referencedColumn : string;
  pfk_onDelete : option ReferentialAction;
  pfk_onUpdate : option ReferentialAction }.

Record MpdColumn := {
  pcol_name : string;
  pcol_sqlType : string;
  pcol_isPrimaryKey : bool;
  pcol_foreignKey : option MpdForeignKey;
  pcol_constraints : list MpdConstraint }.

Record MpdTable := {
  ptab_name : string;
  ptab_columns : list MpdColumn }.

Record MpdModel := { mpd_tables : list MpdTable }.

Definition Cardinality_eqb (a b : Cardinality) : bool :=
  match a, b with
  | C01, C01 | C11, C11 | C0n, C0n | C1n, C1n => true
  | _, _ => false
  end.

Definition ConstraintType_eqb (a b : ConstraintType) : bool :=
  match a, b with
  | NOT_NULL, NOT_NULL | UNIQUE, UNIQUE | CHECK, CHECK => true
  | _, _ => false
  end.

(* ================================================================== *)
(** * MLD -> MPD ([converter/mldToMpd.ts]) *)
(* ================================================================== *)

Module MldToMpd.

Import Js.

(** [inferSqlType] : ordered, first-match-wins rules on the lower-cased
    column name. *)
Definition inferSqlType (colName : string) (isPrimaryKey : bool)
    (dialect : SqlDialect) (defaultVarcharLength : N) : string :=
  let name := toLowerCase colName in
  if isPrimaryKey && (startsWith name "id" || endsWith name "id") then
    match dialect with postgresql => "SERIAL" | _ => "INT" end
  else if startsWith name "id_" || endsWith name "_id" || String.eqb name "id" then
    "INT"
  else if startsWith name "ref_" || endsWith name "_ref" || String.eqb name "ref" then
    "VARCHAR(20)"
  else if includes name "datetime" || includes name "timestamp" then
    match dialect with postgresql => "TIMESTAMP" | _ => "DATETIME" end
  else if startsWith name "date_" || endsWith name "_date" || String.eqb name "date" then
    "DATE"
  else if startsWith name "prix" || startsWith name "montant" || startsWith name "total"
          || startsWith name "price" || startsWith name "amount" then
    "DECIMAL(10,2)"
  else if startsWith name "quantite" || startsWith name "nombre" || startsWith name "nb_"
          || startsWith name "quantity" || startsWith name "count" || startsWith name "num_" then
    "INT"
  else if endsWith name "_bool" || startsWith name "est_" || startsWith name "is_"
          || startsWith name "has_" || startsWith name "a_" then
    "BOOLEAN"
  else if String.eqb name "description" || String.eqb name "contenu"
          || String.eqb name "content" || String.eqb name "commentaire" then
    "TEXT"
  else if String.eqb name "type_discriminator" || String.eqb name "type" then
    "VARCHAR(50)"
  else
    "VARCHAR(" +:+ ofNumber defaultVarcharLength +:+ ")".

(** The key [`${table}.${column}`] of the [resolvedTypes] map. *)
Definition typeKey (table column : string) : string :=
  table +:+ "." +:+ column.

Section Convert.

Variable dialect : SqlDialect.
Variable defaultVarcharLength : N.

(** First pass, body of the inner loop: columns that are not foreign
    keys are resolved by name. *)
Definition resolveOwn (tableName : string)
    (resolvedTypes : gmap string string) (col : MldColumn) : gmap string string :=
  match lcol_foreignKey col with
  | None =>
      <[typeKey tableName (lcol_name col) :=
          inferSqlType (lcol_name col) (lcol_isPrimaryKey col) dialect defaultVarcharLength]>
        resolvedTypes
  | Some _ => resolvedTypes
  end.

(** The type given to a foreign key: the recorded type of the
    referenced column, [SERIAL] downgraded to [INT]; by name when
    nothing is recorded. *)
Definition propagatedType (resolvedTypes : gmap string string)
    (fk : MldForeignKey) : string :=
  let refKey := typeKey (lfk_referencedTable fk) (lfk_referencedColumn fk) in
  match resolvedTypes !! refKey with
  | Some refType =>
      if truthy refType then
        if String.eqb refType "SERIAL" then "INT" else refType
      else inferSqlType (lfk_referencedColumn fk) false dialect defaultVarcharLength
  | None => inferSqlType (lfk_referencedColumn fk) false dialect defaultVarcharLength
  end.

(** Second pass, body of the inner loop. *)
Definition resolveForeign (tableName : string)
    (resolvedTypes : gmap string string) (col : MldColumn) : gmap string string :=
  match lcol_foreignKey col with
  | Some fk =>
      <[typeKey tableName (lcol_name col) := propagatedType resolvedTypes fk]> resolvedTypes
  | None => resolvedTypes
  end.

Definition firstPass (mld : MldModel) : gmap string string :=
  foldl (fun m t => foldl (resolveOwn (ltab_name t)) m (ltab_columns t))
        ∅ (mld_tables mld).

Definition secondPass (mld : MldModel) (m0 : gmap string string) : gmap string string :=
  foldl (fun m t => foldl (resolveForeign (ltab_name t)) m (ltab_columns t))
        m0 (mld_tables mld).

Definition hasNotNull (cs : list MpdConstraint) : bool :=
  existsb (fun c => ConstraintType_eqb (con_type c) NOT_NULL) cs.

(** Construction of one physical column. *)
Definition buildColumn (resolvedTypes : gmap string string)
    (tableName : string) (col : MldColumn) : MpdColumn :=
  let inferred :=
    inferSqlType (lcol_name col) (lcol_isPrimaryKey col) dialect defaultVarcharLength in
  let sqlType :=
    match resolvedTypes !! typeKey tableName (lcol_name col) with
    | Some ty => if truthy ty then ty else inferred
    | None => inferred
    end in
  let c1 :=
    if lcol_isPrimaryKey col
    then [ {| con_type := NOT_NULL; con_expression := None |} ] else [] in
  let c2 :=
    if includes (toLowerCase (lcol_name col)) "email"
    then c1 ++ [ {| con_type := UNIQUE; con_expression := None |} ] else c1 in
  match lcol_foreignKey col with
  | Some fk =>
      {| pcol_name := lcol_name col;
         pcol_sqlType := sqlType;
         pcol_isPrimaryKey := lcol_isPrimaryKey col;
         pcol_foreignKey :=
           Some {| pfk_columnName := lfk_columnName fk;
                   pfk_referencedTable := lfk_referencedTable fk;
                   pfk_referencedColumn := lfk_referencedColumn fk;
                   pfk_onDelete := Some CASCADE;
                   pfk_onUpdate := Some CASCADE |};
         pcol_constraints :=
           if hasNotNull c2 then c2
           else c2 ++ [ {| con_type := NOT_NULL; con_expression := None |} ] |}
  | None =>
      {| pcol_name := lcol_name col;
         pcol_sqlType := sqlType;
         pcol_isPrimaryKey := lcol_isPrimaryKey col;
         pcol_foreignKey := None;
         pcol_constraints := c2 |}
  end.

Definition buildTable (resolvedTypes : gmap string string) (t : MldTable) : MpdTable :=
  {| ptab_name := ltab_name t;
     ptab_columns := map (buildColumn resolvedTypes (ltab_name t)) (ltab_columns t) |}.

Definition convertMldToMpd (mld : MldModel) : MpdModel :=
  let resolvedTypes := secondPass mld (firstPass mld) in
  {| mpd_tables := map (buildTable resolvedTypes) (mld_tables mld) |}.

End Convert.

(** The columns of a model with the name of their table, in the order
    of the loops. *)
Definition entries (mld : MldModel) : list (string * MldColumn) :=
  flat_map (fun t => map (fun c => (ltab_name t, c)) (ltab_columns t)) (mld_tables mld).

Definition keyOf (e : string * MldColumn) : string :=
  typeKey (fst e) (lcol_name (snd e)).

(** All map keys of the columns of a model. *)
Definition columnKeys (mld : MldModel) : list string := map keyOf (entries mld).

(** [SERIAL] belongs to the primary key alone. *)
Definition downgrade (sqlType : string) : string :=
  if String.eqb sqlType "SERIAL" then "INT" else sqlType.

(** The two passes, as steps on the entries. *)
Definition own (dialect : SqlDialect) (len : N)
    (m : gmap string string) (e : string * MldColumn) : gmap string string :=
  resolveOwn dialect len (fst e) m (snd e).

Definition foreign (dialect : SqlDialect) (len : N)
    (m : gmap string string) (e : string * MldColumn) : gmap string string :=
  resolveForeign dialect len (fst e) m (snd e).

(** Type propagation as the specification states it of a physical
    model: a foreign-key column that references a primary key has the
    type of that key, [SERIAL] downgraded. *)
Definition inheritsKeyTypes (mpd : MpdModel) : Prop :=
  forall t c fk tr r,
    In t (mpd_tables mpd) -> In c (ptab_columns t) -> pcol_foreignKey c = Some fk ->
    In tr (mpd_tables mpd) -> In r (ptab_columns tr) ->
    ptab_name tr = pfk_referencedTable fk -> pcol_name r = pfk_referencedColumn fk ->
    pcol_isPrimaryKey r = true ->
    pcol_sqlType c = downgrade (pcol_sqlType r).

(** The type of the first column of a name in the first table of a
    name. *)
Definition columnType (mpd : MpdModel) (tableName columnName : string) : option string :=
  match List.find (fun t => String.eqb (ptab_name t) tableName) (mpd_tables mpd) with
  | Some t =>
      match List.find (fun c => String.eqb (pcol_name c) columnName) (ptab_columns t) with
      | Some c => Some (pcol_sqlType c)
      | None => None
      end
  | None => None
  end.

(** A key that is itself a foreign key, referenced by a table that
    comes before it: [LIGNE.code] references [PRODUIT.code], the
    primary key of [PRODUIT], which references [ARTICLE.ref_article]. *)
Definition chainOfKeys : MldModel :=
  let column name pk target :=
    {| lcol_name := name; lcol_isPrimaryKey := pk;
       lcol_foreignKey :=
         match target with
         | Some (t, c) => Some {| lfk_columnName := name; lfk_referencedTable := t;
                                  lfk_referencedColumn := c |}
         | None => None
         end |} in
  {| mld_tables :=
       [ {| ltab_name := "LIGNE";
            ltab_columns := [ column "id_ligne" true None;
                              column "code" false (Some ("PRODUIT", "code")) ] |};
         {| ltab_name := "PRODUIT";
            ltab_columns := [ column "code" true (Some ("ARTICLE", "ref_article")) ] |};
         {| ltab_name := "ARTICLE";
            ltab_columns := [ column "ref_article" true None ] |} ] |}.

(** Type propagation where the two passes give it: a foreign-key
    column has the type of the column it references when that column
    is not itself a foreign key ([SERIAL] downgraded), and the type
    inferred from the name of the referenced column when the model has
    no column with the referenced key. *)
Definition propagates (dialect : SqlDialect) (len : N) (mpd : MpdModel) : Prop :=
  forall t c fk,
    In t (mpd_tables mpd) -> In c (ptab_columns t) -> pcol_foreignKey c = Some fk ->
    (forall tr r,
        In tr (mpd_tables mpd) -> In r (ptab_columns tr) -> pcol_foreignKey r = None ->
        ptab_name tr = pfk_referencedTable fk -> pcol_name r = pfk_referencedColumn fk ->
        pcol_sqlType c = downgrade (pcol_sqlType r))
    /\
    ((forall tr r,
         In tr (mpd_tables mpd) -> In r (ptab_columns tr) ->
         typeKey (ptab_name tr) (pcol_name r) <>
         typeKey (pfk_referencedTable fk) (pfk_referencedColumn fk)) ->
     pcol_sqlType c = inferSqlType (pfk_referencedColumn fk) false dialect len).

(** A model in which two tables have the same name. *)
Definition twoTablesOneName : MldModel :=
  let pk name := {| lcol_name := name; lcol_isPrimaryKey := true; lcol_foreignKey := None |} in
  let fk name t c :=
    {| lcol_name := name; lcol_isPrimaryKey := false;
       lcol_foreignKey := Some {| lfk_columnName := name; lfk_referencedTable := t;
                                  lfk_referencedColumn := c |} |} in
  {| mld_tables :=
       [ {| ltab_name := "ADRESSE"; ltab_columns := [pk "id_adresse"] |};
         {| ltab_name := "ARTICLE"; ltab_columns := [pk "ref_article"] |};
         {| ltab_name := "LIGNE"; ltab_columns := [fk "cible" "ADRESSE" "id_adresse"] |};
         {| ltab_name := "LIGNE"; ltab_columns := [fk "cible" "ARTICLE" "ref_article"] |} ] |}.

(** A model with pairwise distinct keys. *)
Definition orders : MldModel :=
  let pk name := {| lcol_name := name; lcol_isPrimaryKey := true; lcol_foreignKey := None |} in
  let fk name t c :=
    {| lcol_name := name; lcol_isPrimaryKey := false;
       lcol_foreignKey := Some {| lfk_columnName := name; lfk_referencedTable := t;
                                  lfk_referencedColumn := c |} |} in
  {| mld_tables :=
       [ {| ltab_name := "CLIENT"; ltab_columns := [pk "id_client"] |};
         {| ltab_name := "COMMANDE";
            ltab_columns := [pk "id_commande"; fk "id_client" "CLIENT" "id_client";
                             fk "ref_article" "ARTICLE" "ref_article"] |} ] |}.

(** ** The logical model under a physical model *)

(** What [convertMldToMpd] copies from a logical column: its name, its
    key flag and the target of its foreign key. *)
Definition logicalColumn (c : MpdColumn) : MldColumn :=
  {| lcol_name := pcol_name c;
     lcol_isPrimaryKey := pcol_isPrimaryKey c;
     lcol_foreignKey :=
       match pcol_foreignKey c with
       | Some fk =>
           Some {| lfk_columnName := pfk_columnName fk;
                   lfk_referencedTable := pfk_referencedTable fk;
                   lfk_referencedColumn := pfk_referencedColumn fk |}
       | None => None
       end |}.

Definition logicalTable (t : MpdTable) : MldTable :=
  {| ltab_name := ptab_name t; ltab_columns := map logicalColumn (ptab_columns t) |}.

Definition logicalPart (mpd : MpdModel) : MldModel :=
  {| mld_tables := map logicalTable (mpd_tables mpd) |}.

Definition isNotNull (c : MpdConstraint) : bool := ConstraintType_eqb (con_type c) NOT_NULL.

(** A key column is NOT NULL once, another column is not; a foreign
    key cascades. *)
Definition guardedKey (c : MpdColumn) : Prop :=
  length (List.filter isNotNull (pcol_constraints c))
  = (if pcol_isPrimaryKey c
     then 1
     else match pcol_foreignKey c with Some _ => 1 | None => 0 end)
  /\ match pcol_foreignKey c with
     | Some fk => pfk_onDelete fk = Some CASCADE /\ pfk_onUpdate fk = Some CASCADE
     | None => True
     end.

(** A column has a type, and a foreign key is never auto-incremented. *)
Definition soundType (c : MpdColumn) : Prop :=
  pcol_sqlType c <> EmptyString
  /\ match pcol_foreignKey c with
     | Some _ => pcol_sqlType c <> "SERIAL"
     | None => True
     end.

(** A property of every column of a physical model. *)
Definition everyColumn (P : MpdColumn -> Prop) (mpd : MpdModel) : Prop :=
  Forall (fun t => Forall P (ptab_columns t)) (mpd_tables mpd).

End MldToMpd.

(* ================================================================== *)
(** * Topological sort of the SQL generator ([sql/sqlGenerator.ts]) *)
(* ================================================================== *)

Module SqlGenerator.

(** An iterated [Map<string, V>] : association list, keys in the order
    of their first insertion, [set] on a present key replaces the value
    in place. *)
Fixpoint mapSet {V} (k : string) (v : V) (m : list (string * V)) : list (string * V) :=
  match m with
  | [] => [(k, v)]
  | (k', v') :: r => if String.eqb k' k then (k', v) :: r else (k', v') :: mapSet k v r
  end.

Fixpoint mapGet {V} (k : string) (m : list (string * V)) : option V :=
  match m with
  | [] => None
  | (k', v') :: r => if String.eqb k' k then Some v' else mapGet k r
  end.

Definition mapHas {V} (k : string) (m : list (string * V)) : bool :=
  match mapGet k m with Some _ => true | None => false end.

Definition mapKeys {V} (m : list (string * V)) : list string := map fst m.

(** A [Set<string>] : list without repetition, in insertion order. *)
Definition setHas (x : string) (s : list string) : bool := existsb (String.eqb x) s.

Definition setAdd (x : string) (s : list string) : list string :=
  if setHas x s then s else s ++ [x].

Definition setDelete (x : string) (s : list string) : list string :=
  List.filter (fun y => negb (String.eqb x y)) s.

(** First loop of [topologicalSort]. *)
Definition initMaps (tables : list MpdTable)
    : list (string * MpdTable) * list (string * list string) :=
  foldl (fun '(tableMap, deps) t =>
           (mapSet (ptab_name t) t tableMap, mapSet (ptab_name t) [] deps))
        ([], []) tables.

(** Second loop: the dependency graph. *)
Definition addDependency (tableMap : list (string * MpdTable)) (t : MpdTable)
    (deps : list (string * list string)) (col : MpdColumn) : list (string * list string) :=
  match pcol_foreignKey col with
  | Some fk =>
      let ref := pfk_referencedTable fk in
      if negb (String.eqb ref (ptab_name t)) && mapHas ref tableMap then
        match mapGet (ptab_name t) deps with
        | Some d => mapSet (ptab_name t) (setAdd ref d) deps
        | None => deps
        end
      else deps
  | None => deps
  end.

Definition buildDeps (tableMap : list (string * MpdTable)) (tables : list MpdTable)
    (deps0 : list (string * list string)) : list (string * list string) :=
  foldl (fun deps t => foldl (addDependency tableMap t) deps (ptab_columns t)) deps0 tables.

(** [tableMap.get(name)!] for each name of a list. *)
Definition tablesOf (tableMap : list (string * MpdTable)) (names : list string)
    : list MpdTable :=
  omap (fun name => mapGet name tableMap) names.

(** A table is ready when none of its dependencies is unresolved. *)
Definition isReady (deps : list (string * list string)) (visited : list string)
    (name : string) : bool :=
  match mapGet name deps with
  | Some d =>
      match List.filter (fun x => negb (setHas x visited)) d with
      | [] => true
      | _ => false
      end
  | None => true
  end.

(** The [while (remaining.size > 0)] loop; [None] when [fuel] iterations
    did not empty [remaining]. *)
Fixpoint kahn (fuel : nat) (tableMap : list (string * MpdTable))
    (deps : list (string * list string))
    (sorted : list MpdTable) (visited remaining : list string)
    : option (list MpdTable) :=
  match remaining with
  | [] => Some sorted
  | _ :: _ =>
      match fuel with
      | 0 => None
      | S fuel' =>
          let ready := List.filter (isReady deps visited) remaining in
          match ready with
          | [] => Some (sorted ++ tablesOf tableMap remaining)
          | _ :: _ =>
              kahn fuel' tableMap deps
                (sorted ++ tablesOf tableMap ready)
                (foldl (fun v name => setAdd name v) visited ready)
                (foldl (fun r name => setDelete name r) remaining ready)
          end
      end
  end.

(** [topologicalSort], its loop bounded by [fuel] iterations. *)
Definition topologicalSortWithin (fuel : nat) (tables : list MpdTable)
    : option (list MpdTable) :=
  let '(tableMap, deps0) := initMaps tables in
  let deps := buildDeps tableMap tables deps0 in
  kahn fuel tableMap deps [] [] (mapKeys tableMap).

(** [t] foreign-key-references the table named [ref], another table of
    the model. *)
Definition dependsOn (tables : list MpdTable) (t : MpdTable) (ref : string) : Prop :=
  ref <> ptab_name t /\
  In ref (map ptab_name tables) /\
  exists col fk, In col (ptab_columns t) /\ pcol_foreignKey col = Some fk /\
                 pfk_referencedTable fk = ref.

(** A reference of one of the columns [cols] of [t] that counts as a
    dependency. *)
Definition refersVia (tables : list MpdTable) (t : MpdTable) (cols : list MpdColumn)
    (ref : string) : Prop :=
  ref <> ptab_name t /\ In ref (map ptab_name tables) /\
  exists col fk, In col cols /\ pcol_foreignKey col = Some fk /\
                 pfk_referencedTable fk = ref.

(** The two maps after the first loop, when the names are distinct. *)
Definition tableEntries (tables : list MpdTable) : list (string * MpdTable) :=
  map (fun t => (ptab_name t, t)) tables.

Definition emptyDeps (tables : list MpdTable) : list (string * list string) :=
  map (fun t => (ptab_name t, [])) tables.

(** A list of tables respects the dependencies when every table comes
    after the tables it references. *)
Definition respectsDependencies (tables l : list MpdTable) : Prop :=
  forall l1 t l2, l = l1 ++ t :: l2 ->
    forall ref, dependsOn tables t ref -> In ref (map ptab_name l1).

(** The result of the sort: the tables of the model, first the tables
    emitted with their dependencies satisfied, then the tables left when
    none is ready, in the order of the model. *)
Definition sortedResult (tables ordered rest : list MpdTable) : Prop :=
  Permutation (ordered ++ rest) tables /\
  respectsDependencies tables ordered /\
  rest = List.filter (fun t => negb (setHas (ptab_name t) (map ptab_name ordered))) tables /\
  (forall t, In t rest ->
     exists ref, dependsOn tables t ref /\ ~ In ref (map ptab_name ordered)).

Definition tableReferring (name : string) (refs : list string) : MpdTable :=
  {| ptab_name := name;
     ptab_columns :=
       {| pcol_name := "id"; pcol_sqlType := "INT"; pcol_isPrimaryKey := true;
          pcol_foreignKey := None; pcol_constraints := [] |}
       :: map (fun ref =>
                 {| pcol_name := "id_" +:+ ref; pcol_sqlType := "INT";
                    pcol_isPrimaryKey := false;
                    pcol_foreignKey :=
                      Some {| pfk_columnName := "id_" +:+ ref;
                              pfk_referencedTable := ref;
                              pfk_referencedColumn := "id";
                              pfk_onDelete := None; pfk_onUpdate := None |};
                    pcol_constraints := [] |}) refs |}.

(** Tables with distinct names: [B] references [A], [C] and [D]
    reference each other, [E] references itself. *)
Definition chainAndCycle : list MpdTable :=
  [ tableReferring "B" ["A"]; tableReferring "C" ["D"]; tableReferring "A" [];
    tableReferring "D" ["C"; "A"]; tableReferring "E" ["E"] ].

(** Two tables with the same name. *)
Definition sameNameTables : list MpdTable :=
  [ tableReferring "T" []; tableReferring "T" ["T"] ].

End SqlGenerator.

(* ================================================================== *)
(** * MCD -> MLD ([converter/mcdToMld.ts]) *)
(* ================================================================== *)

Module McdToMld.

Import Js.

(** In-place update of the object returned by [find]. *)
Fixpoint updateFirst {A} (p : A -> bool) (f : A -> A) (l : list A) : list A :=
  match l with
  | [] => []
  | x :: r => if p x then f x :: r else x :: updateFirst p f r
  end.

(** [idx = findIndex(p); if (idx >= 0) splice(idx, 1)] *)
Fixpoint removeFirst {A} (p : A -> bool) (l : list A) : list A :=
  match l with
  | [] => []
  | x :: r => if p x then r else x :: removeFirst p r
  end.

Definition tableNamed (name : string) (t : MldTable) : bool :=
  String.eqb (ltab_name t) name.

Definition columnNamed (name : string) (c : MldColumn) : bool :=
  String.eqb (lcol_name c) name.

Definition withColumns (f : list MldColumn -> list MldColumn) (t : MldTable) : MldTable :=
  {| ltab_name := ltab_name t; ltab_columns := f (ltab_columns t) |}.

Definition plainColumn (name : string) (isPrimaryKey : bool) : MldColumn :=
  {| lcol_name := name; lcol_isPrimaryKey := isPrimaryKey; lcol_foreignKey := None |}.

Definition foreignColumn (name : string) (isPrimaryKey : bool)
    (referencedTable referencedColumn : string) : MldColumn :=
  {| lcol_name := name;
     lcol_isPrimaryKey := isPrimaryKey;
     lcol_foreignKey :=
       Some {| lfk_columnName := name;
               lfk_referencedTable := referencedTable;
               lfk_referencedColumn := referencedColumn |} |}.

(** [getPrimaryKey] : the name of the first primary-key attribute. *)
Definition getPrimaryKey (entity : option McdEntity) : option string :=
  match entity with
  | None => None
  | Some e =>
      match List.find attr_isPrimaryKey (ent_attributes e) with
      | Some pk => Some (attr_name pk)
      | None => None
      end
  end.

(** The test [if (pk)] on a [string | null] : [null] and the empty
    string are both falsy. *)
Definition whenTruthy (s : option string) : option string :=
  match s with
  | Some v => if truthy v then Some v else None
  | None => None
  end.

(** [makePairKey] : the two names in ascending order, joined by a bar. *)
Definition makePairKey (a b : string) : string :=
  if String.ltb b a then b +:+ "|" +:+ a else a +:+ "|" +:+ b.

Definition pairOf (rel : McdRelation) : option string :=
  match rel_participants rel with
  | [p1; p2] => Some (makePairKey (part_entityName p1) (part_entityName p2))
  | _ => None
  end.

Definition buildPairCount (relations : list McdRelation) : gmap string nat :=
  foldl (fun counts rel =>
           match pairOf rel with
           | Some key => <[key := default 0 (counts !! key) + 1]> counts
           | None => counts
           end) ∅ relations.

Definition isMultipleRelation (rel : McdRelation) (pairCount : gmap string nat) : bool :=
  match pairOf rel with
  | Some key => 1 <? default 0 (pairCount !! key)
  | None => false
  end.

Section WithEntities.

Variable entityMap : gmap string McdEntity.

(** The loop of [addRelationAttributes] and of the associative
    entities: an attribute is appended unless a column of that name
    is already there. *)
Definition pushMissing (flag : McdAttribute -> bool)
    (cols : list MldColumn) (attrs : list McdAttribute) : list MldColumn :=
  foldl (fun cs attr =>
           if existsb (columnNamed (attr_name attr)) cs then cs
           else cs ++ [plainColumn (attr_name attr) (flag attr)])
        cols attrs.

Definition addForeignKey (tables : list MldTable)
    (sourceTableName targetTableName : string) (roleName : option string)
    : list MldTable :=
  match List.find (tableNamed sourceTableName) tables,
        entityMap !! targetTableName with
  | Some sourceTable, Some targetEntity =>
      match whenTruthy (getPrimaryKey (Some targetEntity)) with
      | Some targetPk =>
          let fkColName :=
            match whenTruthy roleName with
            | Some role => targetPk +:+ "_" +:+ role
            | None => targetPk
            end in
          if existsb (columnNamed fkColName) (ltab_columns sourceTable) then tables
          else
            updateFirst (tableNamed sourceTableName)
              (withColumns (fun cs =>
                 cs ++ [foreignColumn fkColName false targetTableName targetPk]))
              tables
      | None => tables
      end
  | _, _ => tables
  end.

Definition addRelationAttributes (tables : list MldTable) (tableName : string)
    (rel : McdRelation) : list MldTable :=
  updateFirst (tableNamed tableName)
    (withColumns (fun cs => pushMissing (fun _ => false) cs (rel_attributes rel)))
    tables.

(** First loop of [createAssociativeTable] : which entities share a
    primary-key name. *)
Definition collectPkNames (participants : list McdRelationParticipant)
    : gmap string (list string) :=
  foldl (fun pkNames p =>
           match whenTruthy (getPrimaryKey (entityMap !! part_entityName p)) with
           | Some pk =>
               <[pk := default [] (pkNames !! pk) ++ [part_entityName p]]> pkNames
           | None => pkNames
           end) ∅ participants.

Definition associativeKeyColumns (participants : list McdRelationParticipant)
    : list MldColumn :=
  let pkNames := collectPkNames participants in
  flat_map (fun p =>
              match whenTruthy (getPrimaryKey (entityMap !! part_entityName p)) with
              | Some pk =>
                  let hasConflict := 1 <? length (default [] (pkNames !! pk)) in
                  let fkColName :=
                    if hasConflict
                    then pk +:+ "_" +:+ toLowerCase (part_entityName p)
                    else pk in
                  [foreignColumn fkColName true (part_entityName p) pk]
              | None => []
              end) participants.

Definition createAssociativeTable (rel : McdRelation) (tables : list MldTable)
    : list MldTable :=
  tables ++
  [ {| ltab_name := rel_name rel;
       ltab_columns :=
         associativeKeyColumns (rel_participants rel) ++
         map (fun attr => plainColumn (attr_name attr) false) (rel_attributes rel) |} ].

Definition isMany (c : Cardinality) : bool :=
  match c with C0n | C1n => true | _ => false end.

Definition isOne (c : Cardinality) : bool :=
  match c with C01 | C11 => true | _ => false end.

Definition handleBinaryRelation (rel : McdRelation) (p1 p2 : McdRelationParticipant)
    (tables : list MldTable) (pairCount : gmap string nat) : list MldTable :=
  let needsRoleSuffix := isMultipleRelation rel pairCount in
  let role := if needsRoleSuffix then Some (rel_name rel) else None in
  let e1 := part_entityName p1 in
  let e2 := part_entityName p2 in
  if isOne (part_cardinality p1) && isMany (part_cardinality p2) then
    addRelationAttributes (addForeignKey tables e1 e2 role) e1 rel
  else if isMany (part_cardinality p1) && isOne (part_cardinality p2) then
    addRelationAttributes (addForeignKey tables e2 e1 role) e2 rel
  else if isOne (part_cardinality p1) && isOne (part_cardinality p2) then
    if Cardinality_eqb (part_cardinality p1) C11 then
      addRelationAttributes (addForeignKey tables e1 e2 role) e1 rel
    else
      addRelationAttributes (addForeignKey tables e2 e1 role) e2 rel
  else
    createAssociativeTable rel tables.

Definition handleNaryRelation (rel : McdRelation) (tables : list MldTable)
    : list MldTable :=
  createAssociativeTable rel tables.

(** Body of the loop over the relations. *)
Definition handleRelation (pairCount : gmap string nat)
    (tables : list MldTable) (rel : McdRelation) : list MldTable :=
  match rel_participants rel with
  | [p1; p2] => handleBinaryRelation rel p1 p2 tables pairCount
  | _ => handleNaryRelation rel tables
  end.

Definition referencesTable (parentName : string) (c : MldColumn) : bool :=
  match lcol_foreignKey c with
  | Some fk => String.eqb (lfk_referencedTable fk) parentName
  | None => false
  end.

(** [table_per_class], effect on the columns of one child table. *)
Definition inheritKey (parentName parentPk : string) (cols : list MldColumn)
    : list MldColumn :=
  if existsb (referencesTable parentName) cols then cols
  else
    let cols1 := foreignColumn parentPk true parentName parentPk :: cols in
    if 1 <? length (List.filter (columnNamed parentPk) cols1) then
      removeFirst (fun c => columnNamed parentPk c &&
                            match lcol_foreignKey c with None => true | Some _ => false end)
                  cols1
    else cols1.

(** [single_table], body of the loop over the children.  The state is
    the table list and whether the parent table object is still an
    element of it: it is found once before the loop, and the loop may
    splice it out (a child named like the parent); later pushes then
    reach an object that is no longer in the model. *)
Definition absorbChild (parentName : string)
    (st : list MldTable * bool) (childName : string) : list MldTable * bool :=
  let '(tables, attached) := st in
  let tables1 :=
    match entityMap !! childName with
    | Some childEntity =>
        if attached then
          updateFirst (tableNamed parentName)
            (withColumns (fun cs =>
               foldl (fun cs attr =>
                        if negb (attr_isPrimaryKey attr) &&
                           negb (existsb (columnNamed (attr_name attr)) cs)
                        then cs ++ [plainColumn (attr_name attr) false]
                        else cs)
                     cs (ent_attributes childEntity)))
            tables
        else tables
    | None => tables
    end in
  (removeFirst (tableNamed childName) tables1,
   attached && negb (String.eqb childName parentName)).

(** [table_per_subclass], effect on the columns of one child table. *)
Definition inheritAttributes (parentEntity : McdEntity) (cols : list MldColumn)
    : list MldColumn :=
  foldl (fun cs attr =>
           if existsb (columnNamed (attr_name attr)) cs then cs
           else plainColumn (attr_name attr) (attr_isPrimaryKey attr) :: cs)
        cols (ent_attributes parentEntity).

Definition handleInheritance (parentName : string) (childNames : list string)
    (strategy : InheritanceStrategy) (tables : list MldTable) : list MldTable :=
  match whenTruthy (getPrimaryKey (entityMap !! parentName)) with
  | None => tables
  | Some parentPk =>
      match strategy with
      | table_per_class =>
          foldl (fun ts childName =>
                   updateFirst (tableNamed childName)
                     (withColumns (inheritKey parentName parentPk)) ts)
                tables childNames
      | single_table =>
          if existsb (tableNamed parentName) tables then
            let tables1 :=
              updateFirst (tableNamed parentName)
                (withColumns (fun cs =>
                   if existsb (columnNamed "type_discriminator") cs then cs
                   else cs ++ [plainColumn "type_discriminator" false]))
                tables in
            fst (foldl (absorbChild parentName) (tables1, true) childNames)
          else tables
      | table_per_subclass =>
          match entityMap !! parentName with
          | None => tables
          | Some parentEntity =>
              removeFirst (tableNamed parentName)
                (foldl (fun ts childName =>
                          updateFirst (tableNamed childName)
                            (withColumns (inheritAttributes parentEntity)) ts)
                       tables childNames)
          end
      end
  end.

(** Body of the loop over the associative entities. *)
Definition handleAssociativeEntity (relations : list McdRelation)
    (tables : list MldTable) (assoc : McdAssociativeEntity) : list MldTable :=
  match List.find (fun r => String.eqb (rel_name r) (assoc_relationName assoc)) relations with
  | None => tables
  | Some rel =>
      let isAssocTable t :=
        tableNamed (rel_name rel) t || tableNamed (assoc_name assoc) t in
      let tables1 :=
        if existsb isAssocTable tables then tables
        else
          tables ++
          [ {| ltab_name := assoc_name assoc;
               ltab_columns :=
                 flat_map (fun p =>
                   match whenTruthy (getPrimaryKey (entityMap !! part_entityName p)) with
                   | Some pk => [foreignColumn pk true (part_entityName p) pk]
                   | None => []
                   end) (rel_participants rel) |} ] in
      updateFirst isAssocTable
        (withColumns (fun cs => pushMissing attr_isPrimaryKey cs (assoc_attributes assoc)))
        tables1
  end.

End WithEntities.


(** The side of a binary relation on which the converter puts the
    foreign key: the name of the owning table and of the referenced
    entity; nothing for a many/many relation. *)
Definition foreignKeySide (rel : McdRelation) : option (string * string) :=
  match rel_participants rel with
  | [p1; p2] =>
      let e1 := part_entityName p1 in
      let e2 := part_entityName p2 in
      if isOne (part_cardinality p1) && isMany (part_cardinality p2) then Some (e1, e2)
      else if isMany (part_cardinality p1) && isOne (part_cardinality p2) then Some (e2, e1)
      else if isOne (part_cardinality p1) && isOne (part_cardinality p2) then
        if Cardinality_eqb (part_cardinality p1) C11 then Some (e1, e2) else Some (e2, e1)
      else None
  | _ => None
  end.

(** The role passed to [addForeignKey] for a relation. *)
Definition roleOf (rel : McdRelation) (pairCount : gmap string nat) : option string :=
  if isMultipleRelation rel pairCount then Some (rel_name rel) else None.

(** The name that [addForeignKey] gives to the column. *)
Definition foreignKeyName (targetPk : string) (roleName : option string) : string :=
  match whenTruthy roleName with
  | Some role => targetPk +:+ "_" +:+ role
  | None => targetPk
  end.

Definition buildEntityMap (entities : list McdEntity) : gmap string McdEntity :=
  foldl (fun m e => <[ent_name e := e]> m) ∅ entities.

Definition entityTable (entity : McdEntity) : MldTable :=
  {| ltab_name := ent_name entity;
     ltab_columns :=
       map (fun attr => plainColumn (attr_name attr) (attr_isPrimaryKey attr))
           (List.filter (fun a => negb (attr_isDerived a)) (ent_attributes entity)) |}.

(** The four phases of [convertMcdToMld], each on the table list of
    the model under construction. *)
Definition afterEntities (mcd : McdModel) : list MldTable :=
  map entityTable (mcd_entities mcd).

Definition afterRelations (mcd : McdModel) : list MldTable :=
  foldl (handleRelation (buildEntityMap (mcd_entities mcd))
                        (buildPairCount (mcd_relations mcd)))
        (afterEntities mcd) (mcd_relations mcd).

Definition afterInheritances (mcd : McdModel) (inheritanceStrategy : InheritanceStrategy)
    : list MldTable :=
  foldl (fun tables inh =>
           handleInheritance (buildEntityMap (mcd_entities mcd))
             (inh_parentEntity inh) (inh_childEntities inh)
             (default inheritanceStrategy (inh_strategy inh)) tables)
        (afterRelations mcd) (mcd_inheritances mcd).

Definition convertMcdToMld (mcd : McdModel) (inheritanceStrategy : InheritanceStrategy)
    : MldModel :=
  {| mld_tables :=
       foldl (handleAssociativeEntity (buildEntityMap (mcd_entities mcd)) (mcd_relations mcd))
             (afterInheritances mcd inheritanceStrategy)
             (mcd_associativeEntities mcd) |}.

(** A relation counts for a pair. *)
Definition countsFor (key : string) (rel : McdRelation) : bool :=
  match pairOf rel with
  | Some k => String.eqb k key
  | None => false
  end.

(** The first table of a name has a column of a name. *)
Definition hasColumn (tables : list MldTable) (tableName columnName : string) : Prop :=
  exists t, List.find (tableNamed tableName) tables = Some t /\
            existsb (columnNamed columnName) (ltab_columns t) = true.

(** [tables'] keeps the first table of every name of [tables], with at
    least its columns. *)
Definition grows (tables tables' : list MldTable) : Prop :=
  forall tableName t, List.find (tableNamed tableName) tables = Some t ->
    exists t', List.find (tableNamed tableName) tables' = Some t' /\
               incl (ltab_columns t) (ltab_columns t').

(** The names of the foreign-key columns of a model. *)
Definition foreignKeyNames (mld : MldModel) : list string :=
  flat_map (fun t =>
    flat_map (fun c => match lcol_foreignKey c with Some _ => [lcol_name c] | None => [] end)
             (ltab_columns t))
    (mld_tables mld).

(** Every table has a primary-key column. *)
Definition allKeyed (tables : list MldTable) : Prop :=
  forall t, In t tables -> existsb lcol_isPrimaryKey (ltab_columns t) = true.

(** A relation of which some participant has a usable key. *)
Definition hasKeyedParticipant (entityMap : gmap string McdEntity) (rel : McdRelation)
    : Prop :=
  exists p pk, In p (rel_participants rel) /\
    whenTruthy (getPrimaryKey (entityMap !! part_entityName p)) = Some pk.

(** An entity has an identifier that becomes a column: a primary-key
    attribute that is not derived. *)
Definition hasStoredKey (e : McdEntity) : Prop :=
  existsb (fun a => attr_isPrimaryKey a && negb (attr_isDerived a)) (ent_attributes e) = true.

(** The identifier by which an entity is referenced has a name. *)
Definition hasNamedKey (e : McdEntity) : Prop :=
  forall pk, getPrimaryKey (Some e) = Some pk -> pk <> EmptyString.

(** The side of a one/many relation on which the converter puts the
    foreign key: the participant of maximum cardinality 1. Result: the
    owner and the other participant. *)
Definition oneSide (p1 p2 : McdRelationParticipant)
    : option (McdRelationParticipant * McdRelationParticipant) :=
  if isOne (part_cardinality p1) && isMany (part_cardinality p2) then Some (p1, p2)
  else if isMany (part_cardinality p1) && isOne (part_cardinality p2) then Some (p2, p1)
  else None.

(** Every foreign key references a table of the list. *)
Definition closedMld (tables : list MldTable) : Prop :=
  forall t c fk, In t tables -> In c (ltab_columns t) -> lcol_foreignKey c = Some fk ->
    In (lfk_referencedTable fk) (map ltab_name tables).

(** Every entity of the map has a table of its name. *)
Definition covers (entityMap : gmap string McdEntity) (tables : list MldTable) : Prop :=
  forall name e, entityMap !! name = Some e -> In name (map ltab_name tables).

(** Every inheritance of the model is converted with the strategy
    [table_per_class], its own or the default one. *)
Definition perClass (mcd : McdModel) (inheritanceStrategy : InheritanceStrategy) : Prop :=
  forall inh, In inh (mcd_inheritances mcd) ->
    default inheritanceStrategy (inh_strategy inh) = table_per_class.

(** The first table of a name has a column that is a foreign key,
    outside of the primary key, to a column of a table. *)
Definition hasForeignKey (tables : list MldTable)
    (tableName columnName referencedTable referencedColumn : string) : Prop :=
  exists t, List.find (tableNamed tableName) tables = Some t /\
    In {| lcol_name := columnName;
          lcol_isPrimaryKey := false;
          lcol_foreignKey :=
            Some {| lfk_columnName := columnName;
                    lfk_referencedTable := referencedTable;
                    lfk_referencedColumn := referencedColumn |} |}
       (ltab_columns t).

(** [tables'] keeps the first table of every name of [tables], with
    its foreign-key columns and with a column of every name it had. *)
Definition keeps (tables tables' : list MldTable) : Prop :=
  forall tableName t, List.find (tableNamed tableName) tables = Some t ->
    exists t', List.find (tableNamed tableName) tables' = Some t' /\
      (forall c, In c (ltab_columns t) -> lcol_foreignKey c <> None ->
                 In c (ltab_columns t')) /\
      (forall c, In c (ltab_columns t) ->
                 existsb (columnNamed (lcol_name c)) (ltab_columns t') = true).

(** The tables when the loop over the relations reaches a place of the
    list. *)
Definition tablesBefore (mcd : McdModel) (i : nat) : list MldTable :=
  foldl (handleRelation (buildEntityMap (mcd_entities mcd))
                        (buildPairCount (mcd_relations mcd)))
        (afterEntities mcd) (take i (mcd_relations mcd)).

(** No column of the first table of a name has a given name. *)
Definition nameFree (tables : list MldTable) (tableName columnName : string) : Prop :=
  forall t, List.find (tableNamed tableName) tables = Some t ->
    existsb (columnNamed columnName) (ltab_columns t) = false.

(** ** Sample models *)

Definition attribute (name : string) (isPrimaryKey : bool) : McdAttribute :=
  {| attr_name := name; attr_isPrimaryKey := isPrimaryKey; attr_isDerived := false |}.

Definition participant (entityName : string) (c : Cardinality) : McdRelationParticipant :=
  {| part_entityName := entityName; part_cardinality := c |}.


(** Two relations between the same two entities, each with a foreign
    key. *)
Definition deliveryAndBilling : McdModel :=
  {| mcd_entities :=
       [ {| ent_name := "COMMANDE";
            ent_attributes := [attribute "id_commande" true; attribute "date_commande" false] |};
         {| ent_name := "ADRESSE";
            ent_attributes := [attribute "id_adresse" true; attribute "rue" false] |} ];
     mcd_relations :=
       [ {| rel_name := "livraison";
            rel_participants := [participant "COMMANDE" C11; participant "ADRESSE" C0n];
            rel_attributes := [] |};
         {| rel_name := "facturation";
            rel_participants := [participant "ADRESSE" C0n; participant "COMMANDE" C11];
            rel_attributes := [] |} ];
     mcd_inheritances := [];
     mcd_associativeEntities := [] |}.

(** Two many/many relations between the same two entities. *)
Definition writtenAndTranslated : McdModel :=
  {| mcd_entities :=
       [ {| ent_name := "AUTEUR"; ent_attributes := [attribute "id_auteur" true] |};
         {| ent_name := "LIVRE"; ent_attributes := [attribute "id_livre" true] |} ];
     mcd_relations :=
       [ {| rel_name := "ecrit";
            rel_participants := [participant "AUTEUR" C0n; participant "LIVRE" C1n];
            rel_attributes := [] |};
         {| rel_name := "traduit";
            rel_participants := [participant "AUTEUR" C0n; participant "LIVRE" C0n];
            rel_attributes := [] |} ];
     mcd_inheritances := [];
     mcd_associativeEntities := [] |}.

(** An entity whose only identifier is a derived attribute. *)
Definition derivedKey : McdModel :=
  {| mcd_entities :=
       [ {| ent_name := "FACTURE";
            ent_attributes :=
              [ {| attr_name := "numero"; attr_isPrimaryKey := true; attr_isDerived := true |};
                attribute "montant" false ] |} ];
     mcd_relations := [];
     mcd_inheritances := [];
     mcd_associativeEntities := [] |}.

(** A many/many relation of an entity with itself. *)
Definition sponsorship : McdModel :=
  {| mcd_entities :=
       [ {| ent_name := "PERSONNE";
            ent_attributes := [attribute "id_personne" true; attribute "nom" false] |} ];
     mcd_relations :=
       [ {| rel_name := "parraine";
            rel_participants := [participant "PERSONNE" C0n; participant "PERSONNE" C0n];
            rel_attributes := [] |} ];
     mcd_inheritances := [];
     mcd_associativeEntities := [] |}.

(** Inheritance, a ternary relation and an associative entity. *)
Definition library : McdModel :=
  {| mcd_entities :=
       [ {| ent_name := "PERSONNE";
            ent_attributes := [attribute "id_personne" true; attribute "nom" false] |};
         {| ent_name := "ADHERENT";
            ent_attributes := [attribute "id_adherent" true; attribute "date_adhesion" false] |};
         {| ent_name := "LIVRE"; ent_attributes := [attribute "ref_livre" true] |};
         {| ent_name := "SALLE"; ent_attributes := [attribute "id_salle" true] |} ];
     mcd_relations :=
       [ {| rel_name := "consulte";
            rel_participants :=
              [participant "ADHERENT" C0n; participant "LIVRE" C0n; participant "SALLE" C0n];
            rel_attributes := [attribute "date_consultation" false] |};
         {| rel_name := "emprunte";
            rel_participants := [participant "ADHERENT" C01; participant "LIVRE" C0n];
            rel_attributes := [] |} ];
     mcd_inheritances :=
       [ {| inh_name := "est_un"; inh_parentEntity := "PERSONNE";
            inh_childEntities := ["ADHERENT"]; inh_strategy := None |} ];
     mcd_associativeEntities :=
       [ {| assoc_name := "PRET"; assoc_relationName := "emprunte";
            assoc_attributes := [attribute "date_retour" false] |} ] |}.


(** Two relations between the same two entities, the owner of which
    already has an attribute with the name of the first foreign key. *)
Definition takenName : McdModel :=
  {| mcd_entities :=
       [ {| ent_name := "COMMANDE";
            ent_attributes :=
              [attribute "id_commande" true; attribute "id_adresse_livraison" false] |};
         {| ent_name := "ADRESSE";
            ent_attributes := [attribute "id_adresse" true; attribute "rue" false] |} ];
     mcd_relations :=
       [ {| rel_name := "livraison";
            rel_participants := [participant "COMMANDE" C11; participant "ADRESSE" C0n];
            rel_attributes := [] |};
         {| rel_name := "facturation";
            rel_participants := [participant "ADRESSE" C0n; participant "COMMANDE" C11];
            rel_attributes := [] |} ];
     mcd_inheritances := [];
     mcd_associativeEntities := [] |}.

End McdToMld.

(* ================================================================== *)
(** * Validation ([validation/validator.ts]) *)
(* ================================================================== *)

Module Validator.

Import Js.

Inductive Level := error | warning | info.

Record ValidationMessage := {
  level : Level;
  message : string }.

Definition has (x : string) (s : list string) : bool := existsb (String.eqb x) s.

Definition quoted (s : string) : string := dq +:+ s +:+ dq.

Definition validateMcd (model : McdModel) : list ValidationMessage :=
  let missingPk :=
    flat_map (fun entity =>
      if existsb attr_isPrimaryKey (ent_attributes entity) then []
      else [ {| level := error;
                message := "Entité " +:+ quoted (ent_name entity)
                           +:+ " : aucun identifiant [PK] défini." |} ])
      (mcd_entities model) in
  let usedEntities :=
    flat_map (fun rel => map part_entityName (rel_participants rel)) (mcd_relations model)
    ++ flat_map (fun inh => inh_parentEntity inh :: inh_childEntities inh)
                (mcd_inheritances model) in
  let orphans :=
    flat_map (fun entity =>
      if has (ent_name entity) usedEntities then []
      else [ {| level := warning;
                message := "Entité orpheline : " +:+ quoted (ent_name entity)
                           +:+ " n'apparaît dans aucune relation." |} ])
      (mcd_entities model) in
  let entityNames := map ent_name (mcd_entities model) in
  let undefinedParticipants :=
    flat_map (fun rel =>
      flat_map (fun p =>
        if has (part_entityName p) entityNames then []
        else [ {| level := error;
                  message := "Relation " +:+ quoted (rel_name rel) +:+ " : entité "
                             +:+ quoted (part_entityName p) +:+ " non définie." |} ])
        (rel_participants rel))
      (mcd_relations model) in
  let undefinedMembers :=
    flat_map (fun inh =>
      (if has (inh_parentEntity inh) entityNames then []
       else [ {| level := error;
                 message := "Héritage " +:+ quoted (inh_name inh) +:+ " : entité parent "
                            +:+ quoted (inh_parentEntity inh) +:+ " non définie." |} ])
      ++ flat_map (fun child =>
           if has child entityNames then []
           else [ {| level := error;
                     message := "Héritage " +:+ quoted (inh_name inh) +:+ " : entité enfant "
                                +:+ quoted child +:+ " non définie." |} ])
           (inh_childEntities inh))
      (mcd_inheritances model) in
  let tooFewParticipants :=
    flat_map (fun rel =>
      if length (rel_participants rel) <? 2 then
        [ {| level := error;
             message := "Relation " +:+ quoted (rel_name rel)
                        +:+ " : doit avoir au moins 2 participants." |} ]
      else [])
      (mcd_relations model) in
  missingPk ++ orphans ++ undefinedParticipants ++ undefinedMembers ++ tooFewParticipants.

(** ** Cycle detection *)

(** The adjacency map of [detectCycles], used through [has]/[get]/[set]. *)
Definition adjacency (model : MldModel) : gmap string (list string) :=
  foldl (fun adj table =>
           let adj1 :=
             match adj !! ltab_name table with
             | Some _ => adj
             | None => <[ltab_name table := []]> adj
             end in
           foldl (fun adj col =>
                    match lcol_foreignKey col with
                    | Some fk =>
                        <[ltab_name table :=
                            default [] (adj !! ltab_name table) ++ [lfk_referencedTable fk]]> adj
                    | None => adj
                    end) adj1 (ltab_columns table))
        ∅ (mld_tables model).

(** The variables shared by the calls of [dfs]. *)
Record DfsState := {
  visited : list string;
  inStack : list string;
  path : list string;
  cycles : list (list string) }.

(** [path.indexOf(x)], then [path.slice(index)] *)
Fixpoint sliceFrom (x : string) (p : list string) : option (list string) :=
  match p with
  | [] => None
  | y :: r => if String.eqb y x then Some p else sliceFrom x r
  end.

(** [dfs] ; the recursion depth is bounded by [fuel]. *)
Fixpoint dfs (fuel : nat) (adj : gmap string (list string)) (node : string)
    (st : DfsState) : DfsState :=
  match fuel with
  | 0 => st
  | S fuel' =>
      let st1 := {| visited := visited st ++ [node];
                    inStack := inStack st ++ [node];
                    path := path st ++ [node];
                    cycles := cycles st |} in
      let st2 :=
        foldl (fun s neighbor =>
                 if negb (has neighbor (visited s)) then dfs fuel' adj neighbor s
                 else if has neighbor (inStack s) then
                   match sliceFrom neighbor (path s) with
                   | Some tail =>
                       {| visited := visited s; inStack := inStack s; path := path s;
                          cycles := cycles s ++ [tail ++ [neighbor]] |}
                   | None => s
                   end
                 else s)
              st1 (default [] (adj !! node)) in
      {| visited := visited st2;
         inStack := List.filter (fun y => negb (String.eqb node y)) (inStack st2);
         path := removelast (path st2);
         cycles := cycles st2 |}
  end.

Definition detectCycles (fuel : nat) (model : MldModel) : list (list string) :=
  let adj := adjacency model in
  cycles
    (foldl (fun s table =>
              if negb (has (ltab_name table) (visited s))
              then dfs fuel adj (ltab_name table) s else s)
           {| visited := []; inStack := []; path := []; cycles := [] |}
           (mld_tables model)).

(** [cycle.join(' → ')] *)
Fixpoint joinWith (sep : string) (l : list string) : string :=
  match l with
  | [] => EmptyString
  | [x] => x
  | x :: r => x +:+ sep +:+ joinWith sep r
  end.

(** [validateMld] ; [fuel] bounds the depth of the cycle search. *)
Definition validateMld (fuel : nat) (model : MldModel) : list ValidationMessage :=
  let tableNames := map ltab_name (mld_tables model) in
  let perTable :=
    flat_map (fun table =>
      (if existsb lcol_isPrimaryKey (ltab_columns table) then []
       else [ {| level := warning;
                 message := "Table " +:+ quoted (ltab_name table)
                            +:+ " : aucune clé primaire définie." |} ])
      ++ flat_map (fun col =>
           match lcol_foreignKey col with
           | Some fk =>
               if has (lfk_referencedTable fk) tableNames then []
               else [ {| level := error;
                         message := "Table " +:+ quoted (ltab_name table) +:+ ", colonne "
                                    +:+ quoted (lcol_name col)
                                    +:+ " : FK vers table inexistante "
                                    +:+ quoted (lfk_referencedTable fk) +:+ "." |} ]
           | None => []
           end) (ltab_columns table))
      (mld_tables model) in
  perTable ++
  map (fun cycle =>
         {| level := warning;
            message := "Cycle de références FK détecté : " +:+ joinWith " → " cycle +:+ "." |})
      (detectCycles fuel model).

Definition validateMpd (model : MpdModel) : list ValidationMessage :=
  let tableNames := map ptab_name (mpd_tables model) in
  flat_map (fun table =>
    flat_map (fun col =>
      match pcol_foreignKey col with
      | Some fk =>
          if has (pfk_referencedTable fk) tableNames then []
          else [ {| level := error;
                    message := "Table " +:+ quoted (ptab_name table) +:+ ", colonne "
                               +:+ quoted (pcol_name col)
                               +:+ " : FK vers table inexistante "
                               +:+ quoted (pfk_referencedTable fk) +:+ "." |} ]
      | None => []
      end) (ptab_columns table))
    (mpd_tables model).

(** The message about a foreign key to a table that is not in the
    model. *)
Definition danglingMessage (tableName columnName referencedTable : string)
    : ValidationMessage :=
  {| level := error;
     message := "Table " +:+ quoted tableName +:+ ", colonne " +:+ quoted columnName
                +:+ " : FK vers table inexistante " +:+ quoted referencedTable +:+ "." |}.

(** Models with an entity or a table without primary key. *)
Definition keylessMcd : McdModel :=
  {| mcd_entities :=
       [ {| ent_name := "NOTE";
            ent_attributes :=
              [ {| attr_name := "texte"; attr_isPrimaryKey := false;
                   attr_isDerived := false |} ] |} ];
     mcd_relations := []; mcd_inheritances := []; mcd_associativeEntities := [] |}.

Definition keylessTable : MldTable :=
  {| ltab_name := "NOTE";
     ltab_columns :=
       [ {| lcol_name := "texte"; lcol_isPrimaryKey := false; lcol_foreignKey := None |} ] |}.

Definition keylessMld : MldModel := {| mld_tables := [keylessTable] |}.

Definition keylessMpd : MpdModel :=
  {| mpd_tables :=
       [ {| ptab_name := "NOTE";
            ptab_columns :=
              [ {| pcol_name := "texte"; pcol_sqlType := "TEXT"; pcol_isPrimaryKey := false;
                   pcol_foreignKey := None; pcol_constraints := [] |} ] |} ] |}.

(** What the three validators report about an entity [e] and a table
    [t] without primary key. *)
Definition missingKeyReports (mcd : McdModel) (e : McdEntity) (fuel : nat)
    (mld : MldModel) (t : MldTable) (mpd : MpdModel) : Prop :=
  In {| level := error;
        message := "Entité " +:+ quoted (ent_name e) +:+ " : aucun identifiant [PK] défini." |}
     (validateMcd mcd) /\
  In {| level := warning;
        message := "Table " +:+ quoted (ltab_name t) +:+ " : aucune clé primaire définie." |}
     (validateMld fuel mld) /\
  (forall m, In m (validateMld fuel mld) -> level m = error ->
     exists t' col fk,
       In t' (mld_tables mld) /\ In col (ltab_columns t') /\ lcol_foreignKey col = Some fk /\
       ~ In (lfk_referencedTable fk) (map ltab_name (mld_tables mld)) /\
       m = danglingMessage (ltab_name t') (lcol_name col) (lfk_referencedTable fk)) /\
  (forall m, In m (validateMpd mpd) ->
     exists t' col fk,
       In t' (mpd_tables mpd) /\ In col (ptab_columns t') /\ pcol_foreignKey col = Some fk /\
       ~ In (pfk_referencedTable fk) (map ptab_name (mpd_tables mpd)) /\
       m = danglingMessage (ptab_name t') (pcol_name col) (pfk_referencedTable fk)).

(** A conceptual model passes validation when the validator reports
    no error. *)
Definition passesValidation (model : McdModel) : Prop :=
  forall m, In m (validateMcd model) -> level m <> error.

Definition isError (m : ValidationMessage) : bool :=
  match level m with error => true | _ => false end.

(** What [validateMcd] requires of a conceptual model. *)
Definition validMcd (model : McdModel) : Prop :=
  let defined name := In name (map ent_name (mcd_entities model)) in
  (forall e, In e (mcd_entities model) ->
     existsb attr_isPrimaryKey (ent_attributes e) = true)
  /\ (forall r p, In r (mcd_relations model) -> In p (rel_participants r) ->
        defined (part_entityName p))
  /\ (forall i, In i (mcd_inheritances model) ->
        defined (inh_parentEntity i)
        /\ forall child, In child (inh_childEntities i) -> defined child)
  /\ (forall r, In r (mcd_relations model) -> 2 <= length (rel_participants r)).

(** Every foreign key of a physical model references a table of the
    model. *)
Definition closedMpd (model : MpdModel) : Prop :=
  forall t c fk, In t (mpd_tables model) -> In c (ptab_columns t) ->
    pcol_foreignKey c = Some fk ->
    In (pfk_referencedTable fk) (map ptab_name (mpd_tables model)).

End Validator.

(* ================================================================== *)
(** * Text primitives of the parsers *)
(* ================================================================== *)

(** The parsers work on character lists; names stored in a model are
    converted to [string]. *)
Module Text.

Import Js.

Definition text := list ascii.

Definition txt (s : string) : text := list_ascii_of_string s.
Definition str (t : text) : string := string_of_list_ascii t.

Definition ch (s : string) : ascii :=
  match s with String c _ => c | EmptyString => Ascii.zero end.

Fixpoint takeWhile (p : ascii -> bool) (s : text) : text :=
  match s with
  | [] => []
  | c :: r => if p c then c :: takeWhile p r else []
  end.

Fixpoint dropWhile (p : ascii -> bool) (s : text) : text :=
  match s with
  | [] => []
  | c :: r => if p c then dropWhile p r else s
  end.

Definition isEmpty {A} (s : list A) : bool :=
  match s with [] => true | _ => false end.

Definition trimStart (s : text) : text := dropWhile isSpace s.
Definition trimEnd (s : text) : text := rev (dropWhile isSpace (rev s)).
Definition trim (s : text) : text := trimEnd (trimStart s).

(** [s.split('\n')] *)
Fixpoint splitOn (sep : ascii) (s : text) : list text :=
  match s with
  | [] => [[]]
  | c :: r =>
      if Ascii.eqb c sep then [] :: splitOn sep r
      else match splitOn sep r with
           | l :: ls => (c :: l) :: ls
           | [] => [[c]]
           end
  end.

Definition splitLines (s : text) : list text := splitOn LF s.

(** [lines.join('\n')] *)
Fixpoint joinLines (l : list text) : text :=
  match l with
  | [] => []
  | [x] => x
  | x :: r => x ++ LF :: joinLines r
  end.

Fixpoint startsWith (s p : text) : bool :=
  match p, s with
  | [], _ => true
  | _ :: _, [] => false
  | a :: p', b :: s' => Ascii.eqb a b && startsWith s' p'
  end.

Definition endsWith (s p : text) : bool := startsWith (rev s) (rev p).

Fixpoint includes (s p : text) : bool :=
  startsWith s p ||
  match s with
  | [] => false
  | _ :: r => includes r p
  end.

Definition containsChar (c : ascii) (s : text) : bool := existsb (Ascii.eqb c) s.

(** [s.substring(s.indexOf(c) + 1)] when [c] occurs in [s] *)
Fixpoint afterFirst (c : ascii) (s : text) : text :=
  match s with
  | [] => []
  | d :: r => if Ascii.eqb d c then r else afterFirst c r
  end.

(** [s.substring(0, s.indexOf(c))] when [c] occurs in [s] *)
Fixpoint beforeFirst (c : ascii) (s : text) : text :=
  match s with
  | [] => []
  | d :: r => if Ascii.eqb d c then [] else d :: beforeFirst c r
  end.

(** [s.replace(c, '')] : the first occurrence is removed. *)
Fixpoint removeFirstChar (c : ascii) (s : text) : text :=
  match s with
  | [] => []
  | d :: r => if Ascii.eqb d c then r else d :: removeFirstChar c r
  end.

(** [s.replace(/,\s*$/, '')] : only the last comma can be followed by
    white space alone up to the end; the text is cut there. *)
Definition stripTrailingComma (s : text) : text :=
  match dropWhile isSpace (rev s) with
  | c :: r => if Ascii.eqb c (ch ",") then rev r else s
  | [] => s
  end.

Definition lowerText (s : text) : text := map toLowerChar s.
Definition upperText (s : text) : text := map toUpperChar s.

(** A literal at the start of [s], letter case ignored (flag [i]) ; the
    remainder of the text. *)
Fixpoint stripPrefixCI (lit s : text) : option text :=
  match lit, s with
  | [], _ => Some s
  | _ :: _, [] => None
  | a :: lit', b :: s' =>
      if Ascii.eqb (toLowerChar a) (toLowerChar b) then stripPrefixCI lit' s' else None
  end.

(** An unanchored search: the match at the leftmost position. *)
Fixpoint firstMatch {A} (m : text -> option A) (s : text) : option A :=
  match m s with
  | Some r => Some r
  | None =>
      match s with
      | [] => None
      | _ :: r => firstMatch m r
      end
  end.

Definition hasLineTerminator (s : text) : bool := existsb isLineTerminator s.

(** U+2028 and U+2029, the line terminators of the source that are not
    ASCII, as their UTF-8 bytes. *)
Definition lineSeparator : text :=
  [ascii_of_nat 226; ascii_of_nat 128; ascii_of_nat 168].

Definition paragraphSeparator : text :=
  [ascii_of_nat 226; ascii_of_nat 128; ascii_of_nat 169].

Definition hasUnicodeLineTerminator (s : text) : bool :=
  includes s lineSeparator || includes s paragraphSeparator.

(** A text of ASCII characters, on which the character classes of the
    embedding are those of the source. *)
Definition isAsciiText (s : text) : bool := forallb isAsciiChar s.

End Text.

(* ================================================================== *)
(** * MCD parser ([parser/mcdParser.ts]) *)
(* ================================================================== *)

Module McdParser.

Import Js Text.

Record RawBlock := {
  keyword : text;
  name : text;
  extra : text;
  body : text }.

Record ParseResult := {
  model : McdModel;
  errors : list string;
  warnings : list string }.

(** ** Block extraction *)

(** [/^(\w+)\s+(\w+)\s*(.*?)\s*\{?\s*$/] on a trimmed line.  The three
    greedy groups before the lazy one take every character they can;
    the lazy group stops in front of the longest suffix made of white
    space, at most one opening brace, and white space.  The dot does not
    match a line terminator. *)
Definition matchHeader (line : text) : option (text * text * text) :=
  let kw := takeWhile isWord line in
  let r1 := dropWhile isWord line in
  let ws := takeWhile isSpace r1 in
  let r2 := dropWhile isSpace r1 in
  let nm := takeWhile isWord r2 in
  let r3 := dropWhile isSpace (dropWhile isWord r2) in
  let x := trimEnd r3 in
  let ex := if endsWith x (txt "{") then trimEnd (removelast x) else x in
  if negb (isEmpty kw) && negb (isEmpty ws) && negb (isEmpty nm)
     && negb (hasLineTerminator ex)
  then Some (kw, nm, ex) else None.

(** The position of the scan of [extractBlocks] : at top level (outer
    loop), looking for the opening brace on a following line, or
    collecting the body of a block at a brace depth. *)
Inductive ScanState :=
| TopLevel
| SeekBrace (kw nm ex : text)
| InBody (kw nm ex bd : text) (depth : nat).

(** The depth after the characters of one body line; the scan of the
    line stops when the depth reaches 0. *)
Fixpoint scanDepth (depth : nat) (l : text) : nat :=
  match l with
  | [] => depth
  | c :: r =>
      let d := if Ascii.eqb c (ch "{") then S depth
               else if Ascii.eqb c (ch "}") then pred depth else depth in
      if d =? 0 then 0 else scanDepth d r
  end.

(** The block pushed at the end of an iteration of the outer loop. *)
Definition closeBlock (kw nm ex bd : text) : RawBlock :=
  {| keyword := kw; name := nm;
     extra := trim (removeFirstChar (ch "{") ex);
     body := trim bd |}.

(** A line of the source is a comment or blank line. *)
Definition isSkipped (line : text) : bool :=
  isEmpty line || startsWith line (txt "//") || startsWith line (txt "#").

(** One line of the source: the new position and the blocks pushed. *)
Definition scanLine (st : ScanState) (raw : text) : ScanState * list RawBlock :=
  match st with
  | TopLevel =>
      let line := trim raw in
      if isSkipped line then (TopLevel, [])
      else
        match matchHeader line with
        | None => (TopLevel, [])
        | Some (kw, nm, ex) =>
            if containsChar (ch "{") line then
              let afterBrace := trim (afterFirst (ch "{") line) in
              if endsWith afterBrace (txt "}") then
                (TopLevel,
                 [ {| keyword := kw; name := nm; extra := ex;
                      body := trim (removelast afterBrace) |} ])
              else
                (InBody kw nm ex
                   (if isEmpty afterBrace then [] else afterBrace ++ [LF]) 1, [])
            else (SeekBrace kw nm ex, [])
        end
  | SeekBrace kw nm ex =>
      if startsWith (trim raw) (txt "{") then (InBody kw nm ex [] 1, [])
      else (SeekBrace kw nm ex, [])
  | InBody kw nm ex bd depth =>
      let d := scanDepth depth raw in
      if 0 <? d then (InBody kw nm ex (bd ++ raw ++ [LF]) d, [])
      else (TopLevel, [closeBlock kw nm ex (bd ++ beforeFirst (ch "}") raw ++ [LF])])
  end.

(** The lines are exhausted: a block under construction is pushed. *)
Definition scanEnd (st : ScanState) : list RawBlock :=
  match st with
  | TopLevel => []
  | SeekBrace kw nm ex => [closeBlock kw nm ex []]
  | InBody kw nm ex bd _ => [closeBlock kw nm ex bd]
  end.

Fixpoint scan (st : ScanState) (lines : list text) : list RawBlock :=
  match lines with
  | [] => scanEnd st
  | l :: r => let '(st', blocks) := scanLine st l in blocks ++ scan st' r
  end.



Definition extractBlocks (source : text) : list RawBlock :=
  scan TopLevel (splitLines source).

(** ** Items of a body *)

Record SplitState := {
  parts : list text;
  current : text;
  nesting : Z }.

Definition pushTrimmed (ps : list text) (cur : text) : list text :=
  let t := trim cur in if isEmpty t then ps else ps ++ [t].

Definition splitOutsideParens (s : text) : list text :=
  let final :=
    foldl (fun st c =>
             if Ascii.eqb c (ch "(") || Ascii.eqb c (ch "[") then
               {| parts := parts st; current := current st ++ [c];
                  nesting := (nesting st + 1)%Z |}
             else if Ascii.eqb c (ch ")") || Ascii.eqb c (ch "]") then
               {| parts := parts st; current := current st ++ [c];
                  nesting := (nesting st - 1)%Z |}
             else if Ascii.eqb c (ch ",") && (nesting st =? 0)%Z then
               {| parts := pushTrimmed (parts st) (current st); current := [];
                  nesting := nesting st |}
             else
               {| parts := parts st; current := current st ++ [c];
                  nesting := nesting st |})
          {| parts := []; current := []; nesting := 0%Z |} s in
  pushTrimmed (parts final) (current final).

Definition normalizeBodyItems (bd : text) : list text :=
  flat_map (fun line =>
    let trimmed := trim line in
    if isEmpty trimmed then []
    else
      flat_map (fun part =>
                  let cleaned := trim (stripTrailingComma part) in
                  if isEmpty cleaned then [] else [cleaned])
               (splitOutsideParens trimmed))
    (splitLines bd).

(** ** Attributes *)

(** [/^(\w+)\s*(\[.*\])?\s*$/] : a name, then nothing or a bracketed
    group that ends at the last character before trailing white space. *)
Definition matchAttribute (s : text) : option (text * text) :=
  let nm := takeWhile isWord s in
  let r := dropWhile isSpace (dropWhile isWord s) in
  if isEmpty nm then None
  else if isEmpty r then Some (nm, [])
  else
    let g := trimEnd r in
    if startsWith g (txt "[") && endsWith g (txt "]") && (2 <=? length g)
       && negb (hasLineTerminator g)
    then Some (nm, g) else None.

Definition parseAttribute (s : text) : option McdAttribute :=
  match matchAttribute s with
  | None => None
  | Some (nm, flags) =>
      Some {| attr_name := str nm;
              attr_isPrimaryKey := includes flags (txt "PK");
              attr_isDerived := includes flags (txt "DERIVED") |}
  end.

Definition parseAttributes (items : list text) : list McdAttribute :=
  omap parseAttribute items.

(** ** Entities *)

Definition parseEntityBlock (block : RawBlock) (st : McdModel * list string)
    : McdModel * list string :=
  let '(m, errs) := st in
  let entity :=
    {| ent_name := str (name block);
       ent_attributes := parseAttributes (normalizeBodyItems (body block)) |} in
  let errs1 :=
    if isEmpty (List.filter attr_isPrimaryKey (ent_attributes entity))
    then errs ++ ["Entité " +:+ dq +:+ ent_name entity +:+ dq +:+ " n'a pas d'identifiant [PK]."]
    else errs in
  ({| mcd_entities := mcd_entities m ++ [entity];
      mcd_relations := mcd_relations m;
      mcd_inheritances := mcd_inheritances m;
      mcd_associativeEntities := mcd_associativeEntities m |}, errs1).

(** ** Relations *)

(** [/^(\w+)\s*\(\s*([\d],[n\d])\s*\)$/] : the entity name and the text
    of the cardinality. *)
Definition matchParticipant (item : text) : option (text * text) :=
  let nm := takeWhile isWord item in
  match dropWhile isSpace (dropWhile isWord item) with
  | open :: r1 =>
      match dropWhile isSpace r1 with
      | d :: comma :: m :: r2 =>
          match dropWhile isSpace r2 with
          | [close] =>
              if negb (isEmpty nm) && Ascii.eqb open (ch "(") && isDigit d
                 && Ascii.eqb comma (ch ",")
                 && (Ascii.eqb m (ch "n") || isDigit m) && Ascii.eqb close (ch ")")
              then Some (nm, [d; comma; m]) else None
          | _ => None
          end
      | _ => None
      end
  | [] => None
  end.

(** [isValidCardinality], with the value of the enumeration. *)
Definition validCardinality (c : text) : option Cardinality :=
  if String.eqb (str c) "0,1" then Some C01
  else if String.eqb (str c) "1,1" then Some C11
  else if String.eqb (str c) "0,n" then Some C0n
  else if String.eqb (str c) "1,n" then Some C1n
  else None.


(** Body of the loop over the items of a relation block. *)
Definition parseRelationItem (relationName : text)
    (st : McdRelation * list string) (item : text) : McdRelation * list string :=
  let '(relation, errs) := st in
  match matchParticipant item with
  | Some (entityName, cardinality) =>
      match validCardinality cardinality with
      | None =>
          (relation,
           errs ++ ["Cardinalité invalide " +:+ dq +:+ str cardinality +:+ dq
                    +:+ " pour l'entité " +:+ dq +:+ str entityName +:+ dq
                    +:+ " dans la relation " +:+ dq +:+ str relationName +:+ dq +:+ "."])
      | Some c =>
          ({| rel_name := rel_name relation;
              rel_participants :=
                rel_participants relation ++
                [ {| part_entityName := str entityName; part_cardinality := c |} ];
              rel_attributes := rel_attributes relation |}, errs)
      end
  | None =>
      match parseAttribute item with
      | Some attr =>
          ({| rel_name := rel_name relation;
              rel_participants := rel_participants relation;
              rel_attributes := rel_attributes relation ++ [attr] |}, errs)
      | None => (relation, errs)
      end
  end.

(** The participant that an item adds to a relation, if any. *)
Definition acceptedParticipant (item : text) : list McdRelationParticipant :=
  match matchParticipant item with
  | Some (entityName, cardinality) =>
      match validCardinality cardinality with
      | Some c => [ {| part_entityName := str entityName; part_cardinality := c |} ]
      | None => []
      end
  | None => []
  end.


Definition parseRelationBlock (block : RawBlock) (st : McdModel * list string)
    : McdModel * list string :=
  let '(m, errs) := st in
  let '(relation, errs1) :=
    foldl (parseRelationItem (name block))
          ({| rel_name := str (name block); rel_participants := []; rel_attributes := [] |},
           errs)
          (normalizeBodyItems (body block)) in
  let errs2 :=
    if length (rel_participants relation) <? 2
    then errs1 ++ ["La relation " +:+ dq +:+ str (name block) +:+ dq
                   +:+ " doit avoir au moins 2 participants (trouvé: "
                   +:+ ofNumber (N.of_nat (length (rel_participants relation))) +:+ ")."]
    else errs1 in
  ({| mcd_entities := mcd_entities m;
      mcd_relations := mcd_relations m ++ [relation];
      mcd_inheritances := mcd_inheritances m;
      mcd_associativeEntities := mcd_associativeEntities m |}, errs2).

(** ** Inheritance *)

(** A keyword, letter case ignored, then white space; what follows. *)
Definition afterKeyword (kw : string) (s : text) : option (text * text) :=
  match stripPrefixCI (txt kw) s with
  | Some r =>
      let ws := takeWhile isSpace r in
      if isEmpty ws then None else Some (ws, dropWhile isSpace r)
  | None => None
  end.

(** [/^KEYWORD\s+(\w+)$/i] *)
Definition matchKeywordName (kw : string) (s : text) : option text :=
  match afterKeyword kw s with
  | Some (_, r) => if negb (isEmpty r) && forallb isWord r then Some r else None
  | None => None
  end.

(** [/^CHILDREN\s+(.+)$/i] : the group is what follows the white space;
    when nothing follows, the white space gives up its last character
    to the group. *)
Definition matchChildren (s : text) : option text :=
  match afterKeyword "CHILDREN" s with
  | Some (ws, r) =>
      match r with
      | _ :: _ => if hasLineTerminator r then None else Some r
      | [] =>
          match rev ws with
          | c :: _ :: _ => if isLineTerminator c then None else Some [c]
          | _ => None
          end
      end
  | None => None
  end.

Definition parseStrategy (s : text) : option InheritanceStrategy :=
  if String.eqb (str s) "table_per_class" then Some table_per_class
  else if String.eqb (str s) "single_table" then Some single_table
  else if String.eqb (str s) "table_per_subclass" then Some table_per_subclass
  else None.

(** Body of the loop over the lines of an inheritance block. *)
Definition parseInheritanceLine (st : McdInheritance * list string) (line : text)
    : McdInheritance * list string :=
  let '(inh, errs) := st in
  let trimmed := stripTrailingComma (trim line) in
  if isEmpty trimmed then st
  else
    match matchKeywordName "PARENT" trimmed with
    | Some parent =>
        ({| inh_name := inh_name inh; inh_parentEntity := str parent;
            inh_childEntities := inh_childEntities inh;
            inh_strategy := inh_strategy inh |}, errs)
    | None =>
        match matchChildren trimmed with
        | Some children =>
            ({| inh_name := inh_name inh; inh_parentEntity := inh_parentEntity inh;
                inh_childEntities :=
                  map str (List.filter (fun c => negb (isEmpty c))
                                       (map trim (splitOn (ch ",") children)));
                inh_strategy := inh_strategy inh |}, errs)
        | None =>
            match matchKeywordName "STRATEGY" trimmed with
            | Some strat =>
                match parseStrategy strat with
                | Some s =>
                    ({| inh_name := inh_name inh; inh_parentEntity := inh_parentEntity inh;
                        inh_childEntities := inh_childEntities inh;
                        inh_strategy := Some s |}, errs)
                | None =>
                    (inh, errs ++ ["Stratégie d'héritage inconnue : "
                                   +:+ dq +:+ str strat +:+ dq +:+ "."])
                end
            | None => st
            end
        end
    end.

Definition parseInheritanceBlock (block : RawBlock) (st : McdModel * list string)
    : McdModel * list string :=
  let '(m, errs) := st in
  let '(inh, errs1) :=
    foldl parseInheritanceLine
          ({| inh_name := str (name block); inh_parentEntity := EmptyString;
              inh_childEntities := []; inh_strategy := None |}, errs)
          (splitLines (body block)) in
  let errs2 :=
    if truthy (inh_parentEntity inh) then errs1
    else errs1 ++ ["Héritage " +:+ dq +:+ str (name block) +:+ dq +:+ " : PARENT non défini."] in
  let errs3 :=
    if isEmpty (inh_childEntities inh)
    then errs2 ++ ["Héritage " +:+ dq +:+ str (name block) +:+ dq
                   +:+ " : aucun CHILDREN défini."]
    else errs2 in
  ({| mcd_entities := mcd_entities m;
      mcd_relations := mcd_relations m;
      mcd_inheritances := mcd_inheritances m ++ [inh];
      mcd_associativeEntities := mcd_associativeEntities m |}, errs3).

(** ** Associative entities *)

Definition parseAssociativeBlock (block : RawBlock) (st : McdModel * list string)
    : McdModel * list string :=
  let '(m, errs) := st in
  match matchKeywordName "ON" (extra block) with
  | None =>
      (m, errs ++ ["Entité associative " +:+ dq +:+ str (name block) +:+ dq
                   +:+ " : mot-clé ON manquant (syntaxe: ASSOCIATIVE nom ON relation { ... })."])
  | Some relationName =>
      ({| mcd_entities := mcd_entities m;
          mcd_relations := mcd_relations m;
          mcd_inheritances := mcd_inheritances m;
          mcd_associativeEntities :=
            mcd_associativeEntities m ++
            [ {| assoc_name := str (name block);
                 assoc_relationName := str relationName;
                 assoc_attributes := parseAttributes (normalizeBodyItems (body block)) |} ] |},
       errs)
  end.

(** ** The parser *)

(** Body of the loop over the blocks. *)
Definition parseBlock (st : McdModel * list string) (block : RawBlock)
    : McdModel * list string :=
  let kw := str (upperText (keyword block)) in
  if String.eqb kw "ENTITY" then parseEntityBlock block st
  else if String.eqb kw "RELATION" then parseRelationBlock block st
  else if String.eqb kw "INHERITANCE" then parseInheritanceBlock block st
  else if String.eqb kw "ASSOCIATIVE" then parseAssociativeBlock block st
  else (fst st, snd st ++ ["Mot-clé inconnu : " +:+ dq +:+ str (keyword block) +:+ dq]).

Definition emptyModel : McdModel :=
  {| mcd_entities := []; mcd_relations := [];
     mcd_inheritances := []; mcd_associativeEntities := [] |}.

Definition orphanWarnings (m : McdModel) : list string :=
  let usedEntities :=
    flat_map (fun rel => map part_entityName (rel_participants rel)) (mcd_relations m)
    ++ flat_map (fun inh => inh_parentEntity inh :: inh_childEntities inh)
                (mcd_inheritances m) in
  flat_map (fun entity =>
              if existsb (String.eqb (ent_name entity)) usedEntities then []
              else ["Entité orpheline détectée : " +:+ dq +:+ ent_name entity +:+ dq
                    +:+ " n'apparaît dans aucune relation."])
           (mcd_entities m).

(** The result of the parser for a list of blocks. *)
Definition parseBlocks (blocks : list RawBlock) : ParseResult :=
  let '(m, errs) := foldl parseBlock (emptyModel, []) blocks in
  {| model := m; errors := errs; warnings := orphanWarnings m |}.

Definition parseMcd (source : text) : ParseResult :=
  parseBlocks (extractBlocks source).

(** The messages expected for a rejected cardinality and for a
    relation with fewer than two participants. *)
Definition invalidCardinalityError (cardinality entityName relationName : text) : string :=
  "Cardinalité invalide " +:+ dq +:+ str cardinality +:+ dq
  +:+ " pour l'entité " +:+ dq +:+ str entityName +:+ dq
  +:+ " dans la relation " +:+ dq +:+ str relationName +:+ dq +:+ ".".

Definition tooFewParticipantsError (relationName : text) (found : nat) : string :=
  "La relation " +:+ dq +:+ str relationName +:+ dq
  +:+ " doit avoir au moins 2 participants (trouvé: "
  +:+ ofNumber (N.of_nat found) +:+ ").".


(** A piece of text that is not empty and has no white space at its
    ends. *)
Definition isTrimmed (p : text) : Prop := isEmpty p = false /\ trim p = p.

Definition unknownKeywordError (kw : text) : string :=
  "Mot-clé inconnu : " +:+ dq +:+ str kw +:+ dq.

Definition missingIdentifierError (entityName : text) : string :=
  "Entité " +:+ dq +:+ str entityName +:+ dq +:+ " n'a pas d'identifiant [PK].".

(** The entity that [parseEntityBlock] makes of a block. *)
Definition entityOf (block : RawBlock) : McdEntity :=
  {| ent_name := str (name block);
     ent_attributes := parseAttributes (normalizeBodyItems (body block)) |}.



End McdParser.

(* ================================================================== *)
(** * MLD parser ([parser/mldParser.ts]) *)
(* ================================================================== *)

Module MldParser.

Import Js Text.

Record MldParseResult := {
  model : MldModel;
  errors : list string }.

(** [/^TABLE\s+(\w+)\s*\{?\s*$/i] *)
Definition matchTableHeader (line : text) : option text :=
  match stripPrefixCI (txt "TABLE") line with
  | Some r =>
      let ws := takeWhile isSpace r in
      let r1 := dropWhile isSpace r in
      let nm := takeWhile isWord r1 in
      let r2 := dropWhile isSpace (dropWhile isWord r1) in
      let r3 := match r2 with
                | c :: r' => if Ascii.eqb c (ch "{") then dropWhile isSpace r' else r2
                | [] => []
                end in
      if negb (isEmpty ws) && negb (isEmpty nm) && isEmpty r3 then Some nm else None
  | None => None
  end.

(** The pattern of a column line: a name [(\w+)], white space [\s*],
    then any characters up to the end of the text, none of them a line
    terminator.  Result: the name and the flags. *)
Definition matchColumn (s : text) : option (text * text) :=
  let nm := takeWhile isWord s in
  let flags := dropWhile isSpace (dropWhile isWord s) in
  if negb (isEmpty nm) && negb (hasLineTerminator flags) then Some (nm, flags) else None.

(** A literal flag, letter case ignored, anywhere in the text. *)
Definition hasFlag (lit : string) (flags : text) : bool :=
  match firstMatch (stripPrefixCI (txt lit)) flags with
  | Some _ => true
  | None => false
  end.

(** The start of a foreign-key flag at the head of the text,
    [\[FK\s*->\s*(\w+)\.(\w+)] : both names and what follows. *)
Definition matchReference (s : text) : option (text * text * text) :=
  match stripPrefixCI (txt "[FK") s with
  | Some r =>
      match stripPrefixCI (txt "->") (dropWhile isSpace r) with
      | Some r1 =>
          let r2 := dropWhile isSpace r1 in
          let tbl := takeWhile isWord r2 in
          match dropWhile isWord r2 with
          | dot :: r3 =>
              let col := takeWhile isWord r3 in
              if Ascii.eqb dot (ch ".") && negb (isEmpty tbl) && negb (isEmpty col)
              then Some (tbl, col, dropWhile isWord r3) else None
          | [] => None
          end
      | None => None
      end
  | None => None
  end.

(** [/\[FK\s*->\s*(\w+)\.(\w+)\]/i] at the head of the text. *)
Definition matchForeignKeyAt (s : text) : option (text * text) :=
  match matchReference s with
  | Some (tbl, col, close :: _) =>
      if Ascii.eqb close (ch "]") then Some (tbl, col) else None
  | _ => None
  end.

Definition parseMldColumn (line : text) : option MldColumn :=
  let cleaned := trim (stripTrailingComma line) in
  match matchColumn cleaned with
  | None => None
  | Some (nm, flags) =>
      Some {| lcol_name := str nm;
              lcol_isPrimaryKey := hasFlag "[PK]" flags;
              lcol_foreignKey :=
                match firstMatch matchForeignKeyAt flags with
                | Some (tbl, col) =>
                    Some {| lfk_columnName := str nm;
                            lfk_referencedTable := str tbl;
                            lfk_referencedColumn := str col |}
                | None => None
                end |}
  end.

(** The position of the scan: between tables, or reading the columns
    of a table. *)
Record ParseState := {
  tables : list MldTable;
  errs : list string;
  open : option MldTable }.

Definition pushColumn (t : MldTable) (c : MldColumn) : MldTable :=
  {| ltab_name := ltab_name t; ltab_columns := ltab_columns t ++ [c] |}.

(** One line of the source. *)
Definition parseLine (st : ParseState) (raw : text) : ParseState :=
  let line := trim raw in
  match open st with
  | None =>
      match matchTableHeader line with
      | Some nm =>
          {| tables := tables st; errs := errs st;
             open := Some {| ltab_name := str nm; ltab_columns := [] |} |}
      | None => st
      end
  | Some table =>
      if String.eqb (str line) "}" then
        {| tables := tables st ++ [table]; errs := errs st; open := None |}
      else if isEmpty line then st
      else
        match parseMldColumn line with
        | Some col =>
            {| tables := tables st; errs := errs st; open := Some (pushColumn table col) |}
        | None =>
            if containsChar (ch "}") line then
              {| tables := tables st ++ [table]; errs := errs st; open := None |}
            else
              {| tables := tables st;
                 errs := errs st ++
                   ["Colonne MLD invalide : " +:+ dq +:+ str line +:+ dq
                    +:+ " dans la table " +:+ dq +:+ ltab_name table +:+ dq +:+ "."];
                 open := Some table |}
        end
  end.

(** The text of the model [MldToMpd.chainOfKeys]. *)
Definition chainOfKeysSource : text :=
  joinLines
    [ txt "TABLE LIGNE {"; txt "    id_ligne [PK]"; txt "    code [FK -> PRODUIT.code]";
      txt "}";
      txt "TABLE PRODUIT {"; txt "    code [PK] [FK -> ARTICLE.ref_article]"; txt "}";
      txt "TABLE ARTICLE {"; txt "    ref_article [PK]"; txt "}" ].

Definition invalidColumnError (line : text) (tableName : string) : string :=
  "Colonne MLD invalide : " +:+ dq +:+ str line +:+ dq
  +:+ " dans la table " +:+ dq +:+ tableName +:+ dq +:+ ".".

(** The lines are exhausted: a table under construction is pushed. *)
Definition finish (st : ParseState) : MldParseResult :=
  {| model := {| mld_tables :=
                   match open st with
                   | Some table => tables st ++ [table]
                   | None => tables st
                   end |};
     errors := errs st |}.

Definition parseLines (st : ParseState) (lines : list text) : MldParseResult :=
  finish (foldl parseLine st lines).

Definition parseMld (source : text) : MldParseResult :=
  parseLines {| tables := []; errs := []; open := None |} (splitLines source).

End MldParser.

(* ================================================================== *)
(** * MPD parser ([parser/mpdParser.ts]) *)
(* ================================================================== *)

Module MpdParser.

Import Js Text.

Record MpdParseResult := {
  model : MpdModel;
  errors : list string }.

(** [(?:\(\d+(?:,\d+)?\))?] at the head of the text: the characters
    taken and what follows. *)
Definition matchSize (s : text) : text * text :=
  match s with
  | open :: r =>
      let d1 := takeWhile isDigit r in
      let r1 := dropWhile isDigit r in
      if Ascii.eqb open (ch "(") && negb (isEmpty d1) then
        match r1 with
        | c :: r2 =>
            if Ascii.eqb c (ch ")") then (open :: d1 ++ [c], r2)
            else if Ascii.eqb c (ch ",") then
              let d2 := takeWhile isDigit r2 in
              match dropWhile isDigit r2 with
              | c2 :: r3 =>
                  if negb (isEmpty d2) && Ascii.eqb c2 (ch ")")
                  then (open :: d1 ++ c :: d2 ++ [c2], r3)
                  else ([], s)
              | [] => ([], s)
              end
            else ([], s)
        | [] => ([], s)
        end
      else ([], s)
  | [] => ([], s)
  end.

(** The pattern of a column line: a name [(\w+)], white space [\s+],
    a type [(\w+(?:\(\d+(?:,\d+)?\))?)], white space [\s*], then any
    characters up to the end of the text, none of them a line
    terminator.  Result: name, type and flags. *)
Definition matchBase (s : text) : option (text * text * text) :=
  let nm := takeWhile isWord s in
  let r := dropWhile isWord s in
  let ws := takeWhile isSpace r in
  let r1 := dropWhile isSpace r in
  let ty := takeWhile isWord r1 in
  let '(size, r2) := matchSize (dropWhile isWord r1) in
  let flags := dropWhile isSpace r2 in
  if negb (isEmpty nm) && negb (isEmpty ws) && negb (isEmpty ty)
     && negb (hasLineTerminator flags)
  then Some (nm, ty ++ size, flags) else None.

(** [/\[NOT\s*NULL\]/i] at the head of the text. *)
Definition matchNotNullAt (s : text) : option unit :=
  match stripPrefixCI (txt "[NOT") s with
  | Some r =>
      match stripPrefixCI (txt "NULL]") (dropWhile isSpace r) with
      | Some _ => Some tt
      | None => None
      end
  | None => None
  end.

(** [/\[CHECK\(([^)]+)\)\]/i] at the head of the text. *)
Definition matchCheckAt (s : text) : option text :=
  match stripPrefixCI (txt "[CHECK(") s with
  | Some r =>
      let e := takeWhile (fun c => negb (Ascii.eqb c (ch ")"))) r in
      match dropWhile (fun c => negb (Ascii.eqb c (ch ")"))) r with
      | _ :: c :: _ => if negb (isEmpty e) && Ascii.eqb c (ch "]") then Some e else None
      | _ => None
      end
  | None => None
  end.

(** [\w+(?:\s+\w+)?] at the head of the text, in the order in which the
    matcher tries them: two words when possible, then one word.  Each
    candidate comes with what follows it. *)
Definition actionCandidates (s : text) : list (text * text) :=
  let w1 := takeWhile isWord s in
  let r1 := dropWhile isWord s in
  if isEmpty w1 then []
  else
    let ws := takeWhile isSpace r1 in
    let r2 := dropWhile isSpace r1 in
    let w2 := takeWhile isWord r2 in
    (if negb (isEmpty ws) && negb (isEmpty w2)
     then [(w1 ++ ws ++ w2, dropWhile isWord r2)] else [])
    ++ [(w1, r1)].

(** [\s+ON\s+KEYWORD\s+] at the head of the text. *)
Definition matchOnClause (kw : string) (s : text) : option text :=
  let ws := takeWhile isSpace s in
  match stripPrefixCI (txt "ON") (dropWhile isSpace s) with
  | Some r =>
      let ws1 := takeWhile isSpace r in
      match stripPrefixCI (txt kw) (dropWhile isSpace r) with
      | Some r1 =>
          let ws2 := takeWhile isSpace r1 in
          if negb (isEmpty ws) && negb (isEmpty ws1) && negb (isEmpty ws2)
          then Some (dropWhile isSpace r1) else None
      | None => None
      end
  | None => None
  end.

Definition closes (s : text) : bool :=
  match s with c :: _ => Ascii.eqb c (ch "]") | [] => false end.

(** [(?:\s+ON\s+UPDATE\s+(\w+(?:\s+\w+)?))?\]] at the head of the text:
    the captured action, if the optional group took part. *)
Definition matchUpdateTail (s : text) : option (option text) :=
  let viaGroup :=
    match matchOnClause "UPDATE" s with
    | Some r =>
        match List.find (fun '(_, rest) => closes rest) (actionCandidates r) with
        | Some (a, _) => Some (Some a)
        | None => None
        end
    | None => None
    end in
  match viaGroup with
  | Some u => Some u
  | None => if closes s then Some None else None
  end.

(** Both optional groups and the closing bracket. *)
Definition matchActionsTail (s : text) : option (option text * option text) :=
  let viaGroup :=
    match matchOnClause "DELETE" s with
    | Some r =>
        List.fold_right
          (fun '(a, rest) later =>
             match matchUpdateTail rest with
             | Some u => Some (Some a, u)
             | None => later
             end)
          None (actionCandidates r)
    | None => None
    end in
  match viaGroup with
  | Some res => Some res
  | None =>
      match matchUpdateTail s with
      | Some u => Some (None, u)
      | None => None
      end
  end.

(** The foreign-key expression at the head of the text. *)
Definition matchForeignKeyAt (s : text)
    : option (text * text * option text * option text) :=
  match MldParser.matchReference s with
  | Some (tbl, col, r) =>
      match matchActionsTail r with
      | Some (d, u) => Some (tbl, col, d, u)
      | None => None
      end
  | None => None
  end.

Definition parseReferentialAction (value : option text) : option ReferentialAction :=
  match value with
  | None => None
  | Some v =>
      if isEmpty v then None
      else
        let upper := str (trim (upperText v)) in
        if String.eqb upper "CASCADE" then Some CASCADE
        else if String.eqb upper "SET NULL" then Some SET_NULL
        else if String.eqb upper "SET DEFAULT" then Some SET_DEFAULT
        else if String.eqb upper "RESTRICT" then Some RESTRICT
        else if String.eqb upper "NO ACTION" then Some NO_ACTION
        else None
  end.

(** [parseMpdColumn] : the column, or the error pushed. *)
Definition parseMpdColumn (line : text) (tableName : string) : MpdColumn + string :=
  let cleaned := trim (stripTrailingComma line) in
  match matchBase cleaned with
  | None =>
      inr ("Colonne MPD invalide dans " +:+ dq +:+ tableName +:+ dq +:+ " : "
           +:+ dq +:+ str cleaned +:+ dq +:+ ".")
  | Some (nm, ty, flagString) =>
      let c1 :=
        match firstMatch matchNotNullAt flagString with
        | Some _ => [ {| con_type := NOT_NULL; con_expression := None |} ]
        | None => []
        end in
      let c2 :=
        if MldParser.hasFlag "[UNIQUE]" flagString
        then c1 ++ [ {| con_type := UNIQUE; con_expression := None |} ] else c1 in
      let c3 :=
        match firstMatch matchCheckAt flagString with
        | Some e => c2 ++ [ {| con_type := CHECK; con_expression := Some (str e) |} ]
        | None => c2
        end in
      inl {| pcol_name := str nm;
             pcol_sqlType := str ty;
             pcol_isPrimaryKey := MldParser.hasFlag "[PK]" flagString;
             pcol_foreignKey :=
               match firstMatch matchForeignKeyAt flagString with
               | Some (tbl, col, d, u) =>
                   Some {| pfk_columnName := str nm;
                           pfk_referencedTable := str tbl;
                           pfk_referencedColumn := str col;
                           pfk_onDelete := parseReferentialAction d;
                           pfk_onUpdate := parseReferentialAction u |}
               | None => None
               end;
             pcol_constraints := c3 |}
  end.

Record ParseState := {
  tables : list MpdTable;
  errs : list string;
  open : option MpdTable }.

Definition pushColumn (t : MpdTable) (c : MpdColumn) : MpdTable :=
  {| ptab_name := ptab_name t; ptab_columns := ptab_columns t ++ [c] |}.

(** One line of the source. *)
Definition parseLine (st : ParseState) (raw : text) : ParseState :=
  let line := trim raw in
  match open st with
  | None =>
      match MldParser.matchTableHeader line with
      | Some nm =>
          {| tables := tables st; errs := errs st;
             open := Some {| ptab_name := str nm; ptab_columns := [] |} |}
      | None => st
      end
  | Some table =>
      if startsWith line (txt "}") then
        {| tables := tables st ++ [table]; errs := errs st; open := None |}
      else if isEmpty line then st
      else
        match parseMpdColumn line (ptab_name table) with
        | inl col =>
            {| tables := tables st; errs := errs st; open := Some (pushColumn table col) |}
        | inr e =>
            {| tables := tables st; errs := errs st ++ [e]; open := Some table |}
        end
  end.

Definition finish (st : ParseState) : MpdParseResult :=
  {| model := {| mpd_tables :=
                   match open st with
                   | Some table => tables st ++ [table]
                   | None => tables st
                   end |};
     errors := errs st |}.

Definition parseLines (st : ParseState) (lines : list text) : MpdParseResult :=
  finish (foldl parseLine st lines).

Definition parseMpd (source : text) : MpdParseResult :=
  parseLines {| tables := []; errs := []; open := None |} (splitLines source).

End MpdParser.

(* ================================================================== *)
(** * Text of a model ([main.ts]) *)
(* ================================================================== *)

Module Serializer.

Import Js Text.

(** [flags.join(' ')] *)
Fixpoint joinSpaces (l : list text) : text :=
  match l with
  | [] => []
  | [x] => x
  | x :: r => x ++ txt " " ++ joinSpaces r
  end.

Definition withFlags (def : text) (flags : list text) : text :=
  if isEmpty flags then def else def ++ txt " " ++ joinSpaces flags.

Definition mldColumnLine (col : MldColumn) : text :=
  let f1 := if lcol_isPrimaryKey col then [txt "[PK]"] else [] in
  let f2 :=
    match lcol_foreignKey col with
    | Some fk =>
        f1 ++ [txt "[FK -> " ++ txt (lfk_referencedTable fk) ++ txt "."
               ++ txt (lfk_referencedColumn fk) ++ txt "]"]
    | None => f1
    end in
  withFlags (txt "    " ++ txt (lcol_name col)) f2.

Definition mldTableLines (table : MldTable) : list text :=
  [txt "TABLE " ++ txt (ltab_name table) ++ txt " {"]
  ++ map mldColumnLine (ltab_columns table)
  ++ [txt "}"; []].

Definition generateMldText (model : MldModel) : text :=
  trim (joinLines (flat_map mldTableLines (mld_tables model))).

Definition actionText (a : ReferentialAction) : text :=
  match a with
  | CASCADE => txt "CASCADE"
  | SET_NULL => txt "SET NULL"
  | SET_DEFAULT => txt "SET DEFAULT"
  | RESTRICT => txt "RESTRICT"
  | NO_ACTION => txt "NO ACTION"
  end.

Definition constraintFlags (c : MpdConstraint) : list text :=
  match con_type c with
  | NOT_NULL => [txt "[NOT NULL]"]
  | UNIQUE => [txt "[UNIQUE]"]
  | CHECK =>
      match con_expression c with
      | Some e => if truthy e then [txt "[CHECK(" ++ txt e ++ txt ")]"] else []
      | None => []
      end
  end.

Definition mpdColumnLine (col : MpdColumn) : text :=
  let f1 := if pcol_isPrimaryKey col then [txt "[PK]"] else [] in
  let f2 := f1 ++ flat_map constraintFlags (pcol_constraints col) in
  let f3 :=
    match pcol_foreignKey col with
    | Some fk =>
        f2 ++ [txt "[FK -> " ++ txt (pfk_referencedTable fk) ++ txt "."
               ++ txt (pfk_referencedColumn fk)
               ++ match pfk_onDelete fk with
                  | Some a => txt " ON DELETE " ++ actionText a
                  | None => []
                  end
               ++ match pfk_onUpdate fk with
                  | Some a => txt " ON UPDATE " ++ actionText a
                  | None => []
                  end
               ++ txt "]"]
    | None => f2
    end in
  withFlags (txt "    " ++ txt (pcol_name col) ++ txt " " ++ txt (pcol_sqlType col)) f3.

Definition mpdTableLines (table : MpdTable) : list text :=
  [txt "TABLE " ++ txt (ptab_name table) ++ txt " {"]
  ++ map mpdColumnLine (ptab_columns table)
  ++ [txt "}"; []].

Definition generateMpdText (model : MpdModel) : text :=
  trim (joinLines (flat_map mpdTableLines (mpd_tables model))).

(** ** Well-formed models *)

(** A name of the grammar: a word that is not empty. *)
Definition isName (s : string) : bool :=
  negb (isEmpty (txt s)) && forallb isWord (txt s).

(** The flags of a column line. *)
Inductive Flag :=
| FlagPk
| FlagNotNull
| FlagUnique
| FlagCheck (expression : text)
| FlagFk (referencedTable referencedColumn : text)
         (onDelete onUpdate : option ReferentialAction).

Definition flagText (f : Flag) : text :=
  match f with
  | FlagPk => txt "[PK]"
  | FlagNotNull => txt "[NOT NULL]"
  | FlagUnique => txt "[UNIQUE]"
  | FlagCheck e => txt "[CHECK(" ++ e ++ txt ")]"
  | FlagFk tbl col d u =>
      txt "[FK -> " ++ tbl ++ txt "." ++ col
      ++ match d with Some a => txt " ON DELETE " ++ actionText a | None => [] end
      ++ match u with Some a => txt " ON UPDATE " ++ actionText a | None => [] end
      ++ txt "]"
  end.

Definition mldFlags (col : MldColumn) : list Flag :=
  (if lcol_isPrimaryKey col then [FlagPk] else [])
  ++ match lcol_foreignKey col with
     | Some fk => [FlagFk (txt (lfk_referencedTable fk)) (txt (lfk_referencedColumn fk))
                          None None]
     | None => []
     end.

Definition constraintFlag (c : MpdConstraint) : list Flag :=
  match con_type c with
  | NOT_NULL => [FlagNotNull]
  | UNIQUE => [FlagUnique]
  | CHECK =>
      match con_expression c with
      | Some e => if truthy e then [FlagCheck (txt e)] else []
      | None => []
      end
  end.

Definition mpdFlags (col : MpdColumn) : list Flag :=
  (if pcol_isPrimaryKey col then [FlagPk] else [])
  ++ flat_map constraintFlag (pcol_constraints col)
  ++ match pcol_foreignKey col with
     | Some fk => [FlagFk (txt (pfk_referencedTable fk)) (txt (pfk_referencedColumn fk))
                          (pfk_onDelete fk) (pfk_onUpdate fk)]
     | None => []
     end.

(** A logical model that the micro-syntax can express: names are
    words, and a foreign key is named after its column. *)
Definition wellFormedMldColumn (col : MldColumn) : bool :=
  isName (lcol_name col)
  && match lcol_foreignKey col with
     | Some fk =>
         String.eqb (lfk_columnName fk) (lcol_name col)
         && isName (lfk_referencedTable fk) && isName (lfk_referencedColumn fk)
     | None => true
     end.

Definition wellFormedMld (m : MldModel) : bool :=
  forallb (fun t => isName (ltab_name t) && forallb wellFormedMldColumn (ltab_columns t))
          (mld_tables m).

(** A type of the grammar: a word, then nothing, or one or two numbers
    between parentheses. *)
Definition isSizeSuffix (r : text) : bool :=
  match r with
  | [] => true
  | open :: r1 =>
      let d1 := takeWhile isDigit r1 in
      Ascii.eqb open (ch "(") && negb (isEmpty d1)
      && match dropWhile isDigit r1 with
         | [c] => Ascii.eqb c (ch ")")
         | c :: r2 =>
             let d2 := takeWhile isDigit r2 in
             Ascii.eqb c (ch ",") && negb (isEmpty d2)
             && match dropWhile isDigit r2 with
                | [c2] => Ascii.eqb c2 (ch ")")
                | _ => false
                end
         | [] => false
         end
  end.

Definition isSqlType (s : string) : bool :=
  negb (isEmpty (takeWhile isWord (txt s))) && isSizeSuffix (dropWhile isWord (txt s)).

(** The expression of a CHECK constraint that the flag can carry: not
    empty, without closing parenthesis, opening bracket or line
    terminator (LF, CR, U+2028, U+2029). *)
Definition isCheckExpression (e : string) : bool :=
  negb (isEmpty (txt e))
  && forallb (fun c => negb (Ascii.eqb c (ch ")")) && negb (Ascii.eqb c (ch "["))
                       && negb (isLineTerminator c)) (txt e)
  && negb (hasUnicodeLineTerminator (txt e)).

(** The constraints in the order in which the parser produces them:
    NOT NULL, UNIQUE, CHECK, each at most once. *)
Definition canonicalConstraints (cs : list MpdConstraint) : bool :=
  let plain ty c :=
    ConstraintType_eqb (con_type c) ty
    && match con_expression c with None => true | Some _ => false end in
  let r1 := match cs with c :: r => if plain NOT_NULL c then r else cs | [] => cs end in
  let r2 := match r1 with c :: r => if plain UNIQUE c then r else r1 | [] => r1 end in
  match r2 with
  | [] => true
  | [c] =>
      ConstraintType_eqb (con_type c) CHECK
      && match con_expression c with Some e => isCheckExpression e | None => false end
  | _ => false
  end.

Definition wellFormedMpdColumn (col : MpdColumn) : bool :=
  isName (pcol_name col) && isSqlType (pcol_sqlType col)
  && canonicalConstraints (pcol_constraints col)
  && match pcol_foreignKey col with
     | Some fk =>
         String.eqb (pfk_columnName fk) (pcol_name col)
         && isName (pfk_referencedTable fk) && isName (pfk_referencedColumn fk)
     | None => true
     end.

Definition wellFormedMpd (m : MpdModel) : bool :=
  forallb (fun t => isName (ptab_name t) && forallb wellFormedMpdColumn (ptab_columns t))
          (mpd_tables m).

(** A logical column of which [convertMldToMpd] makes the constraints
    in the order of the parser: a foreign key outside of the primary
    key whose name contains [email] gets UNIQUE before NOT NULL. *)
Definition keepsOrder (col : MldColumn) : bool :=
  match lcol_foreignKey col with
  | Some _ => lcol_isPrimaryKey col
              || negb (Js.includes (Js.toLowerCase (lcol_name col)) "email")
  | None => true
  end.

(** A conceptual model in which the names that become names of tables
    and columns are words: the names of the entities, of the relations,
    of the associative entities, and of their attributes. *)
Definition wordAttributes (attrs : list McdAttribute) : bool :=
  forallb (fun a => isName (attr_name a)) attrs.

Definition wordNames (mcd : McdModel) : bool :=
  forallb (fun e => isName (ent_name e) && wordAttributes (ent_attributes e))
          (mcd_entities mcd)
  && forallb (fun r => isName (rel_name r) && wordAttributes (rel_attributes r))
             (mcd_relations mcd)
  && forallb (fun a => isName (assoc_name a) && wordAttributes (assoc_attributes a))
             (mcd_associativeEntities mcd).

(** What [parseMpd] makes of a table and of a column line of the
    logical model: the table without column, and the error that quotes
    the line without its indentation. *)
Definition emptyTable (t : MldTable) : MpdTable :=
  {| ptab_name := ltab_name t; ptab_columns := [] |}.

Definition untypedColumnError (tableName : string) (col : MldColumn) : string :=
  "Colonne MPD invalide dans " +:+ dq +:+ tableName +:+ dq +:+ " : "
  +:+ dq +:+ str (trim (mldColumnLine col)) +:+ dq +:+ ".".

(** ** The flags as the parsers read them *)

Definition isWordText (s : text) : bool := negb (isEmpty s) && forallb isWord s.

Definition wellFormedFlag (f : Flag) : bool :=
  match f with
  | FlagCheck e => isCheckExpression (str e)
  | FlagFk tbl col _ _ => isWordText tbl && isWordText col
  | _ => true
  end.

(** What [withFlags] appends to the definition of a column. *)
Definition flagSuffix (fs : list Flag) : text :=
  match fs with
  | [] => []
  | _ => ch " " :: joinSpaces (map flagText fs)
  end.

(** The first result of a function on a list. *)
Fixpoint firstSome {A B} (f : A -> option B) (l : list A) : option B :=
  match l with
  | [] => None
  | x :: r => match f x with Some y => Some y | None => firstSome f r end
  end.

(** A matcher reduced to the fact that it matches. *)
Definition found {A} (m : text -> option A) (s : text) : option unit :=
  match m s with Some _ => Some tt | None => None end.

Definition pkOf (f : Flag) : option unit :=
  match f with FlagPk => Some tt | _ => None end.

Definition notNullOf (f : Flag) : option unit :=
  match f with FlagNotNull => Some tt | _ => None end.

Definition uniqueOf (f : Flag) : option unit :=
  match f with FlagUnique => Some tt | _ => None end.

Definition checkOf (f : Flag) : option text :=
  match f with FlagCheck e => Some e | _ => None end.

Definition mldReferenceOf (f : Flag) : option (text * text) :=
  match f with FlagFk tbl col None None => Some (tbl, col) | _ => None end.

Definition mpdReferenceOf (f : Flag) : option (text * text * option text * option text) :=
  match f with
  | FlagFk tbl col d u => Some (tbl, col, option_map actionText d, option_map actionText u)
  | _ => None
  end.

(** ** Models equal up to the order of their parts *)

Definition sameMldTable (a b : MldTable) : Prop :=
  ltab_name a = ltab_name b /\ Permutation (ltab_columns a) (ltab_columns b).

Definition sameMld (a b : MldModel) : Prop :=
  exists ts, Permutation (mld_tables a) ts /\ Forall2 sameMldTable ts (mld_tables b).

(** The constraints of a column are compared up to their order as well. *)
Definition sameMpdColumn (a b : MpdColumn) : Prop :=
  pcol_name a = pcol_name b /\ pcol_sqlType a = pcol_sqlType b
  /\ pcol_isPrimaryKey a = pcol_isPrimaryKey b
  /\ pcol_foreignKey a = pcol_foreignKey b
  /\ Permutation (pcol_constraints a) (pcol_constraints b).

Definition sameMpdTable (a b : MpdTable) : Prop :=
  ptab_name a = ptab_name b
  /\ exists cs, Permutation (ptab_columns a) cs /\ Forall2 sameMpdColumn cs (ptab_columns b).

Definition sameMpd (a b : MpdModel) : Prop :=
  exists ts, Permutation (mpd_tables a) ts /\ Forall2 sameMpdTable ts (mpd_tables b).

(** The claim on both models. *)
Definition roundTrips (mld : MldModel) (mpd : MpdModel) : Prop :=
  sameMld (MldParser.model (MldParser.parseMld (generateMldText mld))) mld
  /\ sameMpd (MpdParser.model (MpdParser.parseMpd (generateMpdText mpd))) mpd.

(** ** Sample models *)

Definition clients : MldModel :=
  {| mld_tables :=
       [ {| ltab_name := "CLIENT";
            ltab_columns :=
              [ {| lcol_name := "id_client"; lcol_isPrimaryKey := true;
                   lcol_foreignKey := None |};
                {| lcol_name := "nom"; lcol_isPrimaryKey := false;
                   lcol_foreignKey := None |} ] |};
         {| ltab_name := "COMMANDE";
            ltab_columns :=
              [ {| lcol_name := "id_commande"; lcol_isPrimaryKey := true;
                   lcol_foreignKey := None |};
                {| lcol_name := "id_client"; lcol_isPrimaryKey := false;
                   lcol_foreignKey :=
                     Some {| lfk_columnName := "id_client";
                             lfk_referencedTable := "CLIENT";
                             lfk_referencedColumn := "id_client" |} |} ] |} ] |}.

Definition clientsTyped : MpdModel :=
  {| mpd_tables :=
       [ {| ptab_name := "CLIENT";
            ptab_columns :=
              [ {| pcol_name := "id_client"; pcol_sqlType := "INT";
                   pcol_isPrimaryKey := true; pcol_foreignKey := None;
                   pcol_constraints :=
                     [ {| con_type := NOT_NULL; con_expression := None |} ] |};
                {| pcol_name := "solde"; pcol_sqlType := "DECIMAL(10,2)";
                   pcol_isPrimaryKey := false; pcol_foreignKey := None;
                   pcol_constraints :=
                     [ {| con_type := UNIQUE; con_expression := None |};
                       {| con_type := CHECK; con_expression := Some "solde >= 0" |} ] |} ] |};
         {| ptab_name := "COMMANDE";
            ptab_columns :=
              [ {| pcol_name := "id_client"; pcol_sqlType := "INT";
                   pcol_isPrimaryKey := false;
                   pcol_foreignKey :=
                     Some {| pfk_columnName := "id_client";
                             pfk_referencedTable := "CLIENT";
                             pfk_referencedColumn := "id_client";
                             pfk_onDelete := Some CASCADE;
                             pfk_onUpdate := Some SET_NULL |};
                   pcol_constraints :=
                     [ {| con_type := NOT_NULL; con_expression := None |} ] |} ] |} ] |}.

(** A column that [convertMldToMpd] produces for a foreign key whose
    name contains "email": UNIQUE is pushed before NOT NULL. *)
Definition emailReference : MpdModel :=
  {| mpd_tables :=
       [ {| ptab_name := "SESSION";
            ptab_columns :=
              [ {| pcol_name := "email"; pcol_sqlType := "VARCHAR(255)";
                   pcol_isPrimaryKey := false;
                   pcol_foreignKey :=
                     Some {| pfk_columnName := "email";
                             pfk_referencedTable := "COMPTE";
                             pfk_referencedColumn := "email";
                             pfk_onDelete := Some CASCADE;
                             pfk_onUpdate := Some CASCADE |};
                   pcol_constraints :=
                     [ {| con_type := UNIQUE; con_expression := None |};
                       {| con_type := NOT_NULL; con_expression := None |} ] |} ] |} ] |}.

(** A CHECK constraint whose expression calls a function. *)
Definition checkedLength : MpdModel :=
  {| mpd_tables :=
       [ {| ptab_name := "CLIENT";
            ptab_columns :=
              [ {| pcol_name := "nom"; pcol_sqlType := "VARCHAR(50)";
                   pcol_isPrimaryKey := false; pcol_foreignKey := None;
                   pcol_constraints :=
                     [ {| con_type := CHECK;
                          con_expression := Some "LENGTH(nom) > 0" |} ] |} ] |} ] |}.

End Serializer.

(* ================================================================== *)
(** * SQL script ([sql/sqlGenerator.ts]) *)
(* ================================================================== *)

Module SqlScript.

Import Js SqlGenerator.

(** The separator of [lines.join('\n')]. *)
Definition nl : string := String LF EmptyString.

(** [isMysqlFamily] *)
Definition isMysqlFamily (dialect : SqlDialect) : bool :=
  match dialect with mariadb | mysql => true | postgresql => false end.

Definition isPostgresql (dialect : SqlDialect) : bool :=
  match dialect with postgresql => true | _ => false end.

(** [formatSqlType] *)
Definition formatSqlType (sqlType : string) (dialect : SqlDialect) : string :=
  if isPostgresql dialect && String.eqb sqlType "DATETIME" then "TIMESTAMP"
  else if isPostgresql dialect && String.eqb sqlType "DOUBLE" then "DOUBLE PRECISION"
  else if isMysqlFamily dialect && String.eqb sqlType "SERIAL" then "INT"
  else if isMysqlFamily dialect && String.eqb sqlType "BOOLEAN" then "TINYINT(1)"
  else sqlType.

(** The string of a referential action. *)
Definition actionName (a : ReferentialAction) : string :=
  match a with
  | CASCADE => "CASCADE"
  | SET_NULL => "SET NULL"
  | SET_DEFAULT => "SET DEFAULT"
  | RESTRICT => "RESTRICT"
  | NO_ACTION => "NO ACTION"
  end.

(** The identifier quote of a dialect. *)
Definition quoteOf (dialect : SqlDialect) : string :=
  if isPostgresql dialect then dq else "`".

(** Inline constraints, body of the [switch]. *)
Definition constraintSql (c : MpdConstraint) : string :=
  match con_type c with
  | NOT_NULL => " NOT NULL"
  | UNIQUE => " UNIQUE"
  | CHECK =>
      match con_expression c with
      | Some e => if truthy e then " CHECK (" +:+ e +:+ ")" else EmptyString
      | None => EmptyString
      end
  end.

(** The test for [AUTO_INCREMENT]. *)
Definition autoIncrement (col : MpdColumn) (dialect : SqlDialect) : bool :=
  pcol_isPrimaryKey col && isMysqlFamily dialect && String.eqb (pcol_sqlType col) "INT"
  && (startsWith (toLowerCase (pcol_name col)) "id"
      || endsWith (toLowerCase (pcol_name col)) "id")
  && match pcol_foreignKey col with None => true | Some _ => false end.

Definition columnDef (col : MpdColumn) (dialect : SqlDialect) : string :=
  let q := quoteOf dialect in
  let def0 :=
    "    " +:+ q +:+ pcol_name col +:+ q +:+ " "
    +:+ formatSqlType (pcol_sqlType col) dialect in
  let def1 := foldl (fun def c => def +:+ constraintSql c) def0 (pcol_constraints col) in
  if autoIncrement col dialect then def1 +:+ " AUTO_INCREMENT" else def1.

Definition foreignKeyDef (table : MpdTable) (fk : MpdForeignKey) (dialect : SqlDialect)
    : string :=
  let q := quoteOf dialect in
  let onDelete := match pfk_onDelete fk with Some a => actionName a | None => "CASCADE" end in
  let onUpdate := match pfk_onUpdate fk with Some a => actionName a | None => "CASCADE" end in
  if isMysqlFamily dialect then
    let constraintName :=
      "fk_" +:+ toLowerCase (ptab_name table) +:+ "_" +:+ toLowerCase (pfk_columnName fk) in
    "    CONSTRAINT " +:+ q +:+ constraintName +:+ q +:+ " FOREIGN KEY (" +:+ q
    +:+ pfk_columnName fk +:+ q +:+ ") REFERENCES " +:+ q +:+ pfk_referencedTable fk +:+ q
    +:+ " (" +:+ q +:+ pfk_referencedColumn fk +:+ q +:+ ")"
    +:+ " ON DELETE " +:+ onDelete +:+ " ON UPDATE " +:+ onUpdate
  else
    "    FOREIGN KEY (" +:+ q +:+ pfk_columnName fk +:+ q +:+ ") REFERENCES " +:+ q
    +:+ pfk_referencedTable fk +:+ q +:+ "(" +:+ q +:+ pfk_referencedColumn fk +:+ q +:+ ")"
    +:+ " ON DELETE " +:+ onDelete +:+ " ON UPDATE " +:+ onUpdate.

(** The parts of a CREATE TABLE between the parentheses: the columns,
    the primary key when there is one, the foreign keys. *)
Definition tableParts (table : MpdTable) (dialect : SqlDialect) : list string :=
  let q := quoteOf dialect in
  let colDefs := map (fun col => columnDef col dialect) (ptab_columns table) in
  let pkColumns :=
    map (fun col => q +:+ pcol_name col +:+ q)
        (List.filter pcol_isPrimaryKey (ptab_columns table)) in
  let fkDefs :=
    omap (fun col =>
            match pcol_foreignKey col with
            | Some fk => Some (foreignKeyDef table fk dialect)
            | None => None
            end) (ptab_columns table) in
  colDefs
  ++ (if 0 <? length pkColumns
      then ["    PRIMARY KEY (" +:+ Validator.joinWith ", " pkColumns +:+ ")"] else [])
  ++ fkDefs.

(** [generateCreateTable] *)
Definition generateCreateTable (table : MpdTable) (dialect : SqlDialect) : string :=
  let q := quoteOf dialect in
  Validator.joinWith nl
    [ "CREATE TABLE " +:+ q +:+ ptab_name table +:+ q +:+ " (";
      Validator.joinWith ("," +:+ nl) (tableParts table dialect);
      if isMysqlFamily dialect
      then ") ENGINE=InnoDB DEFAULT CHARSET=utf8mb4 COLLATE=utf8mb4_unicode_ci;"
      else ");" ].

Definition header (dialect : SqlDialect) : list string :=
  let dialectLabel :=
    match dialect with
    | mariadb => "MariaDB"
    | mysql => "MYSQL"
    | postgresql => "POSTGRESQL"
    end in
  [ "-- ============================================";
    "-- Script SQL généré par le plugin Merise";
    "-- Dialecte : " +:+ dialectLabel;
    "-- ============================================";
    EmptyString ].

(** The script for tables in the order of their creation. *)
Definition script (sorted : list MpdTable) (dialect : SqlDialect) : string :=
  Validator.joinWith nl
    (header dialect
     ++ flat_map (fun table => [generateCreateTable table dialect; EmptyString]) sorted).

(** [generateSql], the loop of the sort bounded by [fuel] iterations. *)
Definition generateSqlWithin (fuel : nat) (model : MpdModel) (dialect : SqlDialect)
    : option string :=
  match topologicalSortWithin fuel (mpd_tables model) with
  | Some sorted => Some (script sorted dialect)
  | None => None
  end.

(** A type that is none of the two spellings replaced for a dialect:
    [DATETIME] and [DOUBLE] for PostgreSQL, [SERIAL] and [BOOLEAN] for
    MariaDB and MySQL. *)
Definition keptBy (dialect : SqlDialect) (sqlType : string) : Prop :=
  if isPostgresql dialect
  then sqlType <> "DATETIME" /\ sqlType <> "DOUBLE"
  else sqlType <> "SERIAL" /\ sqlType <> "BOOLEAN".

(** Tables in a chain of references. *)
Definition chain : list MpdTable :=
  [ tableReferring "LIGNE" ["COMMANDE"; "ARTICLE"]; tableReferring "COMMANDE" ["CLIENT"];
    tableReferring "CLIENT" []; tableReferring "ARTICLE" [] ].

Definition chainRank (name : string) : nat :=
  if String.eqb name "LIGNE" then 2 else if String.eqb name "COMMANDE" then 1 else 0.

(** Tables without reference to each other. *)
Definition islands : list MpdTable :=
  [ tableReferring "B" ["B"]; tableReferring "A" ["X"]; tableReferring "C" [] ].

End SqlScript.

(* ================================================================== *)
(** * Mermaid labels and identifiers ([renderer/mcdRenderer.ts]) *)
(* ================================================================== *)

Module Mermaid.

Import Js.

(** [text.replace(/c/g, new)] for a single character [c]. *)
Fixpoint replaceAll (c : ascii) (new : string) (s : string) : string :=
  match s with
  | EmptyString => EmptyString
  | String a r =>
      if Ascii.eqb a c then new +:+ replaceAll c new r else String a (replaceAll c new r)
  end.

Definition quoteChar : ascii := ascii_of_nat 34.
Definition ampersand : ascii := ascii_of_nat 38.

(** [sanitize] : double quotes become apostrophes, then ampersands
    become entities. *)
Definition sanitize (text : string) : string :=
  replaceAll ampersand "&amp;" (replaceAll quoteChar "'" text).

(** [safeId] : every character outside of [a-zA-Z0-9_] becomes an
    underscore.  The source works on UTF-16 code units, the embedding
    on bytes: they agree on ASCII names. *)
Fixpoint safeId (name : string) : string :=
  match name with
  | EmptyString => EmptyString
  | String a r => String (if isWord a then a else "_"%char) (safeId r)
  end.

(** [entityLabel] *)
Definition entityLabel (entity : McdEntity) : string :=
  let attrParts :=
    map (fun attr =>
           if attr_isPrimaryKey attr then "<u>" +:+ sanitize (attr_name attr) +:+ "</u>"
           else if attr_isDerived attr then "<i>/" +:+ sanitize (attr_name attr) +:+ "/</i>"
           else sanitize (attr_name attr))
        (ent_attributes entity) in
  let label := "<b>" +:+ sanitize (ent_name entity) +:+ "</b>" in
  if 0 <? length attrParts
  then label +:+ "<br/>────<br/>" +:+ Validator.joinWith "<br/>" attrParts
  else label.

(** A character occurs in a string. *)
Fixpoint occurs (c : ascii) (s : string) : bool :=
  match s with
  | EmptyString => false
  | String a r => Ascii.eqb a c || occurs c r
  end.

Fixpoint allChars (p : ascii -> bool) (s : string) : bool :=
  match s with
  | EmptyString => true
  | String a r => p a && allChars p r
  end.

Definition isAscii (c : ascii) : bool := nat_of_ascii c <? 128.

End Mermaid.

(* ================================================================== *)
(** * Properties of the MLD -> MPD conversion *)
(* ================================================================== *)

Module MldToMpdFacts.

Import Js MldToMpd.

Lemma inferSqlType_truthy colName isPrimaryKey dialect len :
  truthy (inferSqlType colName isPrimaryKey dialect len) = true.
Proof.
  unfold inferSqlType.
  repeat match goal with
         | |- context [if ?b then _ else _] => destruct b
         end;
    try (destruct dialect; reflexivity).
Qed.

Lemma propagatedType_truthy dialect len m fk :
  truthy (propagatedType dialect len m fk) = true.
Proof.
  unfold propagatedType.
  destruct (m !! _) as [ty|]; [|apply inferSqlType_truthy].
  destruct (truthy ty) eqn:Hty; [|apply inferSqlType_truthy].
  destruct (String.eqb ty "SERIAL"); [reflexivity|exact Hty].
Qed.

(** Two elements of a list with the same image under a function that is
    injective on the list are equal. *)
Lemma NoDup_map_inj {A B} (f : A -> B) (l : list A) x y :
  NoDup (map f l) -> In x l -> In y l -> f x = f y -> x = y.
Proof.
  induction l as [|a l IH]; simpl; intros Hnd Hx Hy Hf; [contradiction|].
  apply NoDup_cons in Hnd as [Hna Hnd].
  destruct Hx as [->|Hx], Hy as [->|Hy]; auto.
  - exfalso. apply Hna. rewrite Hf. apply list_elem_of_In, in_map, Hy.
  - exfalso. apply Hna. rewrite <- Hf. apply list_elem_of_In, in_map, Hx.
Qed.

Section Passes.

Variable dialect : SqlDialect.
Variable len : N.

(** The nested loops visit the entries in order. *)
Lemma nested_foldl {S} (f : string -> S -> MldColumn -> S) (tables : list MldTable) (s : S) :
  foldl (fun m t => foldl (f (ltab_name t)) m (ltab_columns t)) s tables =
  foldl (fun m e => f (fst e) m (snd e)) s
        (flat_map (fun t => map (fun c => (ltab_name t, c)) (ltab_columns t)) tables).
Proof.
  revert s. induction tables as [|t ts IH]; intros s; simpl; [reflexivity|].
  rewrite foldl_app, <- IH. f_equal.
  generalize (ltab_columns t) s. clear.
  intros cols. induction cols as [|c cs IH]; intros s; simpl; [reflexivity|apply IH].
Qed.

Lemma firstPass_entries mld :
  firstPass dialect len mld = foldl (own dialect len) ∅ (entries mld).
Proof. apply (nested_foldl (resolveOwn dialect len)). Qed.

Lemma secondPass_entries mld m0 :
  secondPass dialect len mld m0 = foldl (foreign dialect len) m0 (entries mld).
Proof. apply (nested_foldl (resolveForeign dialect len)). Qed.

(** The first pass leaves alone the keys of no column without foreign key. *)
Lemma own_lookup_other es m k :
  (forall e, In e es -> lcol_foreignKey (snd e) = None -> keyOf e <> k) ->
  foldl (own dialect len) m es !! k = m !! k.
Proof.
  revert m. induction es as [|e es IH]; intros m Hk; simpl; [reflexivity|].
  rewrite IH by (intros e' He'; apply Hk; right; exact He').
  unfold own, resolveOwn.
  destruct (lcol_foreignKey (snd e)) eqn:Hfk; [reflexivity|].
  apply lookup_insert_ne. apply (Hk e); [left; reflexivity|exact Hfk].
Qed.

(** The first pass records the type inferred for a column without
    foreign key. *)
Lemma own_lookup_entry es m e :
  NoDup (map keyOf es) -> In e es -> lcol_foreignKey (snd e) = None ->
  foldl (own dialect len) m es !! keyOf e =
    Some (inferSqlType (lcol_name (snd e)) (lcol_isPrimaryKey (snd e)) dialect len).
Proof.
  revert m. induction es as [|a es IH]; intros m Hnd Hin Hfk; simpl; [contradiction|].
  apply NoDup_cons in Hnd as [Hna Hnd].
  destruct Hin as [->|Hin].
  - rewrite own_lookup_other.
    + unfold own, resolveOwn. rewrite Hfk. apply lookup_insert_eq.
    + intros e' He' _ Heq. apply Hna. rewrite <- Heq.
      apply list_elem_of_In, in_map, He'.
  - apply IH; assumption.
Qed.

(** The second pass leaves alone the keys of no foreign-key column. *)
Lemma foreign_lookup_other es m k :
  (forall e, In e es -> lcol_foreignKey (snd e) <> None -> keyOf e <> k) ->
  foldl (foreign dialect len) m es !! k = m !! k.
Proof.
  revert m. induction es as [|e es IH]; intros m Hk; simpl; [reflexivity|].
  rewrite IH by (intros e' He'; apply Hk; right; exact He').
  unfold foreign, resolveForeign.
  destruct (lcol_foreignKey (snd e)) eqn:Hfk; [|reflexivity].
  apply lookup_insert_ne. apply (Hk e); [left; reflexivity|congruence].
Qed.

(** The second pass records for a foreign-key column the type propagated
    from the map as the loop finds it at that column. *)
Lemma foreign_lookup_entry pre e post m fk :
  lcol_foreignKey (snd e) = Some fk ->
  (forall e', In e' post -> keyOf e' <> keyOf e) ->
  foldl (foreign dialect len) m (pre ++ e :: post) !! keyOf e =
    Some (propagatedType dialect len (foldl (foreign dialect len) m pre) fk).
Proof.
  intros Hfk Hpost. rewrite foldl_app. simpl.
  rewrite foreign_lookup_other by (intros e' He' _; apply Hpost, He').
  unfold foreign at 1, resolveForeign. rewrite Hfk. apply lookup_insert_eq.
Qed.

End Passes.

(** The columns of the result are built from the entries of the model. *)
Lemma convert_column dialect len mld t c :
  In t (mpd_tables (convertMldToMpd dialect len mld)) -> In c (ptab_columns t) ->
  exists e, In e (entries mld) /\ fst e = ptab_name t /\
    c = buildColumn dialect len (secondPass dialect len mld (firstPass dialect len mld))
                    (fst e) (snd e).
Proof.
  unfold convertMldToMpd, entries. simpl. intros Ht Hc.
  apply in_map_iff in Ht as (t0 & <- & Ht0). simpl in Hc.
  apply in_map_iff in Hc as (c0 & <- & Hc0).
  exists (ltab_name t0, c0). split; [|split; reflexivity].
  apply in_flat_map. exists t0. split; [exact Ht0|]. apply in_map, Hc0.
Qed.

Lemma buildColumn_name dialect len m tn c :
  pcol_name (buildColumn dialect len m tn c) = lcol_name c.
Proof. unfold buildColumn. destruct (lcol_foreignKey c); reflexivity. Qed.

Lemma buildColumn_foreignKey_None dialect len m tn c :
  pcol_foreignKey (buildColumn dialect len m tn c) = None -> lcol_foreignKey c = None.
Proof. unfold buildColumn. destruct (lcol_foreignKey c); [discriminate|reflexivity]. Qed.

Lemma buildColumn_foreignKey_Some dialect len m tn c fk :
  pcol_foreignKey (buildColumn dialect len m tn c) = Some fk ->
  exists fk0, lcol_foreignKey c = Some fk0 /\
    pfk_referencedTable fk = lfk_referencedTable fk0 /\
    pfk_referencedColumn fk = lfk_referencedColumn fk0.
Proof.
  unfold buildColumn. destruct (lcol_foreignKey c) as [fk0|]; [|discriminate].
  simpl. intros [= <-]. exists fk0. auto.
Qed.

Lemma buildColumn_sqlType dialect len m tn c ty :
  m !! typeKey tn (lcol_name c) = Some ty -> truthy ty = true ->
  pcol_sqlType (buildColumn dialect len m tn c) = ty.
Proof.
  intros Hm Hty. unfold buildColumn. rewrite Hm, Hty.
  destruct (lcol_foreignKey c); reflexivity.
Qed.

(** The type of a foreign-key column of the result, in a model with
    pairwise distinct keys: the type propagated from the state of the map
    when the second pass reaches the column. *)
Lemma foreign_column_type dialect len mld pre e post fk :
  NoDup (columnKeys mld) -> entries mld = pre ++ e :: post ->
  lcol_foreignKey (snd e) = Some fk ->
  pcol_sqlType (buildColumn dialect len
                  (secondPass dialect len mld (firstPass dialect len mld)) (fst e) (snd e)) =
  propagatedType dialect len (foldl (foreign dialect len) (firstPass dialect len mld) pre) fk.
Proof.
  intros Hnd Hes Hfk. apply buildColumn_sqlType; [|apply propagatedType_truthy].
  rewrite secondPass_entries, Hes. apply foreign_lookup_entry; [exact Hfk|].
  intros e' He' Heq. unfold columnKeys in Hnd. rewrite Hes, map_app in Hnd. simpl in Hnd.
  apply NoDup_app in Hnd as (_ & _ & Hnd). apply NoDup_cons in Hnd as [Hna _].
  apply Hna. rewrite <- Heq. apply list_elem_of_In, in_map, He'.
Qed.

(** Every entry of the model is a column of the result. *)
Lemma entry_column dialect len mld e :
  In e (entries mld) ->
  exists t c, In t (mpd_tables (convertMldToMpd dialect len mld)) /\ In c (ptab_columns t) /\
    ptab_name t = fst e /\ pcol_name c = lcol_name (snd e).
Proof.
  unfold entries, convertMldToMpd. simpl. intros He.
  apply in_flat_map in He as (t0 & Ht0 & He).
  apply in_map_iff in He as (c0 & <- & Hc0).
  eexists (buildTable _ _ _ t0), (buildColumn _ _ _ (ltab_name t0) c0).
  split; [apply in_map, Ht0|]. split; [simpl; apply in_map, Hc0|].
  split; [reflexivity|apply buildColumn_name].
Qed.

(** X24.  In a logical model whose [table.column] keys are pairwise distinct,
    a foreign-key column of the physical model returned by
    [convertMldToMpd] has the type of the column it references whenever
    that column is not itself a foreign key, with [SERIAL] replaced by
    [INT]; and when the model has no column with the referenced key, its
    type is inferred from the name of the referenced column. *)
Theorem convertMldToMpd_propagates dialect len mld :
  NoDup (columnKeys mld) ->
  propagates dialect len (convertMldToMpd dialect len mld).
Proof.
  intros Hnd t c fk Ht Hc Hfk.
  destruct (convert_column _ _ _ _ _ Ht Hc) as (e & He & _ & ->).
  destruct (buildColumn_foreignKey_Some _ _ _ _ _ _ Hfk) as (fk0 & Hfk0 & Hrt & Hrc).
  destruct (in_split _ _ He) as (pre & post & Hes).
  rewrite (foreign_column_type _ _ _ _ _ _ _ Hnd Hes Hfk0).
  assert (Hpre : forall e', In e' pre -> In e' (entries mld)).
  { intros e' He'. rewrite Hes. apply in_or_app. left. exact He'. }
  split.
  - intros tr r Htr Hr Hrfk Hname Hcol.
    destruct (convert_column _ _ _ _ _ Htr Hr) as (er & Her & Hern & ->).
    apply buildColumn_foreignKey_None in Hrfk.
    rewrite buildColumn_name in Hcol.
    assert (Hkey : keyOf er = typeKey (lfk_referencedTable fk0) (lfk_referencedColumn fk0)).
    { unfold keyOf. rewrite Hern, Hname, Hcol, Hrt, Hrc. reflexivity. }
    assert (Hother : forall e', In e' (entries mld) ->
                       lcol_foreignKey (snd e') <> None -> keyOf e' <> keyOf er).
    { intros e' He' Hfk' Heq.
      assert (e' = er) by (eapply NoDup_map_inj; eauto). subst e'. congruence. }
    assert (Hown : firstPass dialect len mld !! keyOf er =
                   Some (inferSqlType (lcol_name (snd er)) (lcol_isPrimaryKey (snd er))
                           dialect len)).
    { rewrite firstPass_entries. apply own_lookup_entry; assumption. }
    rewrite (buildColumn_sqlType _ _ _ _ _ _
               (eq_trans (eq_trans (f_equal (fun m => m !! keyOf er)
                                      (secondPass_entries dialect len mld _))
                                   (foreign_lookup_other dialect len _ _ _ Hother)) Hown)
               (inferSqlType_truthy _ _ _ _)).
    unfold propagatedType. rewrite <- Hkey.
    rewrite foreign_lookup_other by (intros e' He'; apply Hother, Hpre, He').
    rewrite Hown, inferSqlType_truthy. reflexivity.
  - intros Hnone.
    assert (Hno : forall e', In e' (entries mld) ->
                    keyOf e' <> typeKey (lfk_referencedTable fk0) (lfk_referencedColumn fk0)).
    { intros e' He'. destruct (entry_column dialect len _ _ He') as (t' & c' & Ht' & Hc' & Hn & Hcn).
      specialize (Hnone t' c' Ht' Hc'). unfold keyOf. rewrite <- Hn, <- Hcn, <- Hrt, <- Hrc.
      exact Hnone. }
    unfold propagatedType.
    rewrite foreign_lookup_other by (intros e' He' _; apply Hno, Hpre, He').
    rewrite firstPass_entries, own_lookup_other by (intros e' He' _; apply Hno, He').
    rewrite lookup_empty, Hrc. reflexivity.
Qed.

(** The theorem applies to a model with distinct keys. *)
Lemma convertMldToMpd_propagates_orders :
  propagates postgresql 255 (convertMldToMpd postgresql 255 orders).
Proof.
  apply (convertMldToMpd_propagates postgresql 255 orders).
  apply (bool_decide_unpack _). vm_compute. exact I.
Defined.

(** The keys have to be distinct: with two tables of the same name, the
    foreign key [cible] of the first table [LIGNE] references the
    primary key [ADRESSE.id_adresse], of type [SERIAL], and receives
    [VARCHAR(20)], the type propagated to the column of the same key in
    the second table [LIGNE]. *)
Lemma convertMldToMpd_shared_key_mistyped :
  ~ propagates postgresql 255 (convertMldToMpd postgresql 255 twoTablesOneName).
Proof.
  intros H.
  pose (mpd := convertMldToMpd postgresql 255 twoTablesOneName).
  destruct (mpd_tables mpd) as [|ta [|tb [|t1 rest]]] eqn:Hts; try discriminate Hts.
  destruct (ptab_columns t1) as [|c cs] eqn:Hcs;
    [vm_compute in Hts; injection Hts as <- <- <- <-; discriminate Hcs|].
  destruct (ptab_columns ta) as [|r rs] eqn:Hrs;
    [vm_compute in Hts; injection Hts as <- <- <- <-; discriminate Hrs|].
  destruct (pcol_foreignKey c) as [fk|] eqn:Hfk;
    [|vm_compute in Hts; injection Hts as <- <- <- <-;
      injection Hcs as <- <-; discriminate Hfk].
  assert (Ht1 : In t1 (mpd_tables mpd)) by (rewrite Hts; simpl; auto).
  assert (Hta : In ta (mpd_tables mpd)) by (rewrite Hts; simpl; auto).
  assert (Hc : In c (ptab_columns t1)) by (rewrite Hcs; simpl; auto).
  assert (Hr : In r (ptab_columns ta)) by (rewrite Hrs; simpl; auto).
  destruct (H t1 c fk Ht1 Hc Hfk) as [Ha _].
  vm_compute in Hts. injection Hts as <- <- <- <-.
  injection Hcs as <- <-. injection Hrs as <- <-. injection Hfk as <-.
  specialize (Ha _ _ Hta Hr eq_refl eq_refl eq_refl).
  vm_compute in Ha. discriminate Ha.
Qed.

(** C1.  The second pass reads the type of a referenced key before it
    is set when the key is itself a foreign key of a table that comes
    later.  In [chainOfKeys], which [parseMld] returns for
    [chainOfKeysSource] and whose keys are pairwise distinct,
    [LIGNE.code] references the primary key [PRODUIT.code]; for
    PostgreSQL the key receives [VARCHAR(20)], propagated from
    [ARTICLE.ref_article], and the column that references it receives
    [VARCHAR(255)], inferred from its name: the foreign key does not
    have the type of the primary key it references. *)
Theorem convertMldToMpd_chain_mistyped :
  MldParser.parseMld MldParser.chainOfKeysSource
  = {| MldParser.model := chainOfKeys; MldParser.errors := [] |}
  /\ NoDup (columnKeys chainOfKeys)
  /\ columnType (convertMldToMpd postgresql 255 chainOfKeys) "PRODUIT" "code"
     = Some "VARCHAR(20)"
  /\ columnType (convertMldToMpd postgresql 255 chainOfKeys) "LIGNE" "code"
     = Some "VARCHAR(255)"
  /\ ~ inheritsKeyTypes (convertMldToMpd postgresql 255 chainOfKeys).
Proof.
  split; [vm_compute; reflexivity|].
  split; [apply (bool_decide_unpack _); vm_compute; exact I|].
  split; [vm_compute; reflexivity|].
  split; [vm_compute; reflexivity|].
  intros H.
  let m := eval vm_compute in (convertMldToMpd postgresql 255 chainOfKeys) in
  assert (Hm : convertMldToMpd postgresql 255 chainOfKeys = m) by (vm_compute; reflexivity).
  rewrite Hm in H.
  pose proof (H _ _ _ _ _ (or_introl eq_refl) (or_intror (or_introl eq_refl)) eq_refl
                (or_intror (or_introl eq_refl)) (or_introl eq_refl)
                eq_refl eq_refl eq_refl) as Htype.
  vm_compute in Htype. discriminate Htype.
Qed.

End MldToMpdFacts.

(* ================================================================== *)
(** * Properties of the topological sort *)
(* ================================================================== *)

Module SqlGeneratorFacts.

Import SqlGenerator.

(** ** Insertion-ordered maps and sets *)

Lemma setHas_In x s : setHas x s = true <-> In x s.
Proof.
  unfold setHas. rewrite existsb_exists. split.
  - intros (y & Hy & Heq). apply String.eqb_eq in Heq. subst. exact Hy.
  - intros H. exists x. split; [exact H|apply String.eqb_refl].
Qed.

Lemma setHas_app x s1 s2 : setHas x (s1 ++ s2) = setHas x s1 || setHas x s2.
Proof. unfold setHas. apply existsb_app. Qed.

Lemma setAdd_has x y s : setHas x (setAdd y s) = String.eqb x y || setHas x s.
Proof.
  unfold setAdd. destruct (setHas y s) eqn:Hy.
  - destruct (String.eqb_spec x y) as [->|]; [rewrite Hy|]; reflexivity.
  - rewrite setHas_app. simpl. rewrite orb_false_r. apply orb_comm.
Qed.

Lemma setAdd_all_has x ys s :
  setHas x (foldl (fun v name => setAdd name v) s ys) = setHas x s || setHas x ys.
Proof.
  revert s. induction ys as [|y ys IH]; intros s; simpl.
  - rewrite orb_false_r. reflexivity.
  - rewrite IH, setAdd_has. destruct (String.eqb x y), (setHas x s); reflexivity.
Qed.

Lemma setDelete_all ys s :
  foldl (fun r name => setDelete name r) s ys =
  List.filter (fun n => negb (setHas n ys)) s.
Proof.
  revert s. induction ys as [|y ys IH]; intros s; simpl.
  - induction s as [|a s IHs]; simpl; [reflexivity|]. f_equal. exact IHs.
  - rewrite IH. unfold setDelete. clear IH.
    induction s as [|a s IHs]; simpl; [reflexivity|].
    rewrite (String.eqb_sym a y).
    destruct (String.eqb y a); simpl; [exact IHs|].
    destruct (setHas a ys); simpl; [exact IHs|]. f_equal. exact IHs.
Qed.

Lemma mapGet_mapSet_eq {V} k (v : V) m : mapGet k (mapSet k v m) = Some v.
Proof.
  induction m as [|[k' v'] m IH]; simpl.
  - rewrite String.eqb_refl. reflexivity.
  - destruct (String.eqb k' k) eqn:E; simpl; rewrite E; [reflexivity|exact IH].
Qed.

Lemma mapGet_mapSet_ne {V} k k' (v : V) m :
  k <> k' -> mapGet k' (mapSet k v m) = mapGet k' m.
Proof.
  intros Hne. induction m as [|[k0 v0] m IH]; simpl.
  - destruct (String.eqb_spec k k'); [contradiction|reflexivity].
  - destruct (String.eqb_spec k0 k) as [->|]; simpl.
    + destruct (String.eqb_spec k k'); [contradiction|reflexivity].
    + destruct (String.eqb k0 k'); [reflexivity|exact IH].
Qed.

Lemma mapSet_fresh {V} k (v : V) m :
  ~ In k (mapKeys m) -> mapSet k v m = m ++ [(k, v)].
Proof.
  induction m as [|[k0 v0] m IH]; simpl; intros Hk; [reflexivity|].
  destruct (String.eqb_spec k0 k) as [->|]; [exfalso; auto|].
  f_equal. apply IH. auto.
Qed.

Lemma mapSet_keys_present {V} k (v : V) m :
  In k (mapKeys m) -> mapKeys (mapSet k v m) = mapKeys m.
Proof.
  induction m as [|[k0 v0] m IH]; simpl; intros Hk; [contradiction|].
  destruct (String.eqb_spec k0 k) as [->|Hne]; simpl; [reflexivity|].
  f_equal. apply IH. destruct Hk; [contradiction|assumption].
Qed.

Lemma mapGet_Some_key {V} k (v : V) m : mapGet k m = Some v -> In k (mapKeys m).
Proof.
  induction m as [|[k0 v0] m IH]; simpl; [discriminate|].
  destruct (String.eqb_spec k0 k); auto.
Qed.

Lemma mapGet_key_Some {V} k (m : list (string * V)) :
  In k (mapKeys m) -> exists v, mapGet k m = Some v.
Proof.
  induction m as [|[k0 v0] m IH]; simpl; [contradiction|].
  destruct (String.eqb_spec k0 k); [eauto|]. intros [?|?]; [contradiction|auto].
Qed.

Lemma mapHas_In {V} k (m : list (string * V)) : mapHas k m = true <-> In k (mapKeys m).
Proof.
  unfold mapHas. split.
  - destruct (mapGet k m) eqn:E; [intros _; eapply mapGet_Some_key, E|discriminate].
  - intros H. destruct (mapGet_key_Some _ _ H) as [v ->]. reflexivity.
Qed.

(** ** The two maps of the first loop *)

Lemma initMaps_distinct tables :
  NoDup (map ptab_name tables) ->
  initMaps tables = (tableEntries tables, emptyDeps tables).
Proof.
  unfold initMaps. intros Hnd.
  enough (H : forall done todo, NoDup (map ptab_name (done ++ todo)) ->
            foldl (fun '(tableMap, deps) t =>
                     (mapSet (ptab_name t) t tableMap, mapSet (ptab_name t) [] deps))
                  (tableEntries done, emptyDeps done) todo =
            (tableEntries (done ++ todo), emptyDeps (done ++ todo))).
  { apply (H [] tables Hnd). }
  intros done todo. revert done.
  induction todo as [|t todo IH]; intros done Hnd'; simpl.
  - rewrite app_nil_r. reflexivity.
  - assert (Hfresh : ~ In (ptab_name t) (map ptab_name done)).
    { rewrite map_app in Hnd'. simpl in Hnd'. apply NoDup_app in Hnd' as (_ & Hd & _).
      intros Hin. apply (Hd (ptab_name t)); [apply list_elem_of_In, Hin|left]. }
    rewrite !mapSet_fresh.
    + replace (done ++ t :: todo) with ((done ++ [t]) ++ todo) in *
        by (rewrite <- app_assoc; reflexivity).
      rewrite <- (IH (done ++ [t]) Hnd'). unfold tableEntries, emptyDeps.
      rewrite !map_app. reflexivity.
    + unfold mapKeys, emptyDeps. rewrite map_map. exact Hfresh.
    + unfold mapKeys, tableEntries. rewrite map_map. exact Hfresh.
Qed.

Lemma tableEntries_keys tables : mapKeys (tableEntries tables) = map ptab_name tables.
Proof. unfold mapKeys, tableEntries. rewrite map_map. reflexivity. Qed.

Lemma tableEntries_get tables t :
  NoDup (map ptab_name tables) -> In t tables ->
  mapGet (ptab_name t) (tableEntries tables) = Some t.
Proof.
  induction tables as [|a tables IH]; simpl; intros Hnd Hin; [contradiction|].
  apply NoDup_cons in Hnd as [Hna Hnd].
  destruct Hin as [->|Hin]; [rewrite String.eqb_refl; reflexivity|].
  destruct (String.eqb_spec (ptab_name a) (ptab_name t)) as [E|]; [|auto].
  exfalso. apply Hna. rewrite E. apply list_elem_of_In, in_map, Hin.
Qed.

(** ** The dependency graph *)

Section Dependencies.

Variable tables : list MpdTable.

Let tableMap := tableEntries tables.

Local Abbreviation refersVia := (refersVia tables).

Lemma dependsOn_refersVia t ref :
  dependsOn tables t ref <-> refersVia t (ptab_columns t) ref.
Proof. reflexivity. Qed.

Lemma addDependency_spec t deps col d0 :
  mapGet (ptab_name t) deps = Some d0 ->
  mapKeys (addDependency tableMap t deps col) = mapKeys deps /\
  (forall k, k <> ptab_name t -> mapGet k (addDependency tableMap t deps col) = mapGet k deps) /\
  exists d, mapGet (ptab_name t) (addDependency tableMap t deps col) = Some d /\
    forall ref, In ref d <-> In ref d0 \/ refersVia t [col] ref.
Proof.
  intros Hd0. unfold addDependency, refersVia.
  destruct (pcol_foreignKey col) as [fk|] eqn:Hfk.
  - destruct (negb (String.eqb (pfk_referencedTable fk) (ptab_name t))
              && mapHas (pfk_referencedTable fk) tableMap) eqn:Hc.
    + rewrite Hd0. apply andb_prop in Hc as [Hne Hhas].
      apply negb_true_iff, String.eqb_neq in Hne.
      apply mapHas_In in Hhas. unfold tableMap in Hhas. rewrite tableEntries_keys in Hhas.
      split; [apply mapSet_keys_present; eapply mapGet_Some_key, Hd0|].
      split; [intros k Hk; apply mapGet_mapSet_ne; congruence|].
      eexists. split; [apply mapGet_mapSet_eq|].
      intros ref. rewrite <- setHas_In, setAdd_has, orb_true_iff, setHas_In, String.eqb_eq.
      split.
      * intros [->|H]; [right|left; exact H].
        split; [exact Hne|]. split; [exact Hhas|].
        exists col, fk. simpl. auto.
      * intros [H|(_ & _ & c & f & [<-|[]] & Hf & <-)]; [right; exact H|].
        left. congruence.
    + split; [reflexivity|]. split; [reflexivity|].
      exists d0. split; [exact Hd0|]. intros ref. split; [auto|].
      intros [H|(Hne & Hin & c & f & [<-|[]] & Hf & <-)]; [exact H|].
      exfalso. assert (f = fk) by congruence. subst f.
      apply andb_false_iff in Hc as [Hc|Hc].
      * apply negb_false_iff, String.eqb_eq in Hc. contradiction.
      * apply not_true_iff_false in Hc. apply Hc, mapHas_In.
        unfold tableMap. rewrite tableEntries_keys. exact Hin.
  - split; [reflexivity|]. split; [reflexivity|].
    exists d0. split; [exact Hd0|]. intros ref. split; [auto|].
    intros [H|(_ & _ & c & f & [<-|[]] & Hf & _)]; [exact H|congruence].
Qed.

Lemma refersVia_cons t col cols ref :
  refersVia t (col :: cols) ref <-> refersVia t [col] ref \/ refersVia t cols ref.
Proof.
  unfold refersVia. simpl. split.
  - intros (H1 & H2 & c & f & [<-|Hc] & Hf); [left|right]; eauto 10.
  - intros [(H1 & H2 & c & f & [<-|[]] & Hf)|(H1 & H2 & c & f & Hc & Hf)]; eauto 10.
Qed.

Lemma addDependencies_spec t cols deps d0 :
  mapGet (ptab_name t) deps = Some d0 ->
  mapKeys (foldl (addDependency tableMap t) deps cols) = mapKeys deps /\
  (forall k, k <> ptab_name t ->
     mapGet k (foldl (addDependency tableMap t) deps cols) = mapGet k deps) /\
  exists d, mapGet (ptab_name t) (foldl (addDependency tableMap t) deps cols) = Some d /\
    forall ref, In ref d <-> In ref d0 \/ refersVia t cols ref.
Proof.
  revert deps d0. induction cols as [|col cols IH]; intros deps d0 Hd0; simpl.
  - split; [reflexivity|]. split; [reflexivity|]. exists d0. split; [exact Hd0|].
    intros ref. split; [auto|]. intros [H|(_ & _ & c & f & [] & _)]. exact H.
  - destruct (addDependency_spec t deps col d0 Hd0) as (Hk1 & Ho1 & d1 & Hd1 & Hin1).
    destruct (IH _ _ Hd1) as (Hk2 & Ho2 & d2 & Hd2 & Hin2).
    split; [congruence|]. split; [intros k Hk; rewrite Ho2, Ho1; auto|].
    exists d2. split; [exact Hd2|]. intros ref.
    rewrite Hin2, Hin1, (refersVia_cons t col cols). tauto.
Qed.

Lemma buildDeps_spec todo deps :
  NoDup (map ptab_name todo) ->
  (forall t, In t todo -> mapGet (ptab_name t) deps = Some []) ->
  mapKeys (buildDeps tableMap todo deps) = mapKeys deps /\
  (forall k, ~ In k (map ptab_name todo) ->
     mapGet k (buildDeps tableMap todo deps) = mapGet k deps) /\
  (forall t, In t todo ->
     exists d, mapGet (ptab_name t) (buildDeps tableMap todo deps) = Some d /\
       forall ref, In ref d <-> dependsOn tables t ref).
Proof.
  unfold buildDeps. revert deps.
  induction todo as [|a todo IH]; intros deps Hnd Hinit; simpl.
  - split; [reflexivity|]. split; [reflexivity|]. intros t [].
  - apply NoDup_cons in Hnd as [Hna Hnd].
    assert (Hna' : ~ In (ptab_name a) (map ptab_name todo))
      by (intros H; apply Hna, list_elem_of_In, H).
    destruct (addDependencies_spec a (ptab_columns a) deps [] (Hinit a (or_introl eq_refl)))
      as (Hk1 & Ho1 & d1 & Hd1 & Hin1).
    destruct (IH (foldl (addDependency tableMap a) deps (ptab_columns a)) Hnd)
      as (Hk2 & Ho2 & Hall).
    { intros t Ht. rewrite Ho1; [apply Hinit; right; exact Ht|].
      intros E. apply Hna'. rewrite <- E. apply in_map, Ht. }
    split; [congruence|]. split.
    + intros k Hk. simpl in Hk. rewrite Ho2 by tauto. apply Ho1. intros ->. tauto.
    + intros t [<-|Ht]; [|apply Hall, Ht].
      exists d1. split; [rewrite Ho2 by exact Hna'; exact Hd1|].
      intros ref. rewrite Hin1, dependsOn_refersVia. simpl. tauto.
Qed.

End Dependencies.

(** ** The loop *)

Lemma filter_filter {A} (p q : A -> bool) l :
  List.filter q (List.filter p l) = List.filter (fun x => p x && q x) l.
Proof.
  induction l as [|a l IH]; simpl; [reflexivity|].
  destruct (p a); simpl; [destruct (q a); simpl; congruence|exact IH].
Qed.

Lemma filter_map_commute {A B} (f : A -> B) (p : B -> bool) l :
  List.filter p (map f l) = map f (List.filter (fun x => p (f x)) l).
Proof.
  induction l as [|a l IH]; simpl; [reflexivity|].
  destruct (p (f a)); simpl; congruence.
Qed.

Lemma filter_nil_all {A} (p : A -> bool) l :
  List.filter p l = [] -> forall x, In x l -> p x = false.
Proof.
  induction l as [|a l IH]; simpl; intros H x Hx; [contradiction|].
  destruct (p a) eqn:E; [discriminate|]. destruct Hx as [<-|Hx]; auto.
Qed.

Lemma filter_shorter {A} (p : A -> bool) l x :
  In x l -> p x = false -> length (List.filter p l) < length l.
Proof.
  induction l as [|a l IH]; simpl; intros Hx Hp; [contradiction|].
  pose proof (List.filter_length_le p l) as Hle.
  destruct Hx as [->|Hx].
  - rewrite Hp. lia.
  - specialize (IH Hx Hp). destruct (p a); simpl; lia.
Qed.

Lemma filter_partition {A} (p r : A -> bool) l :
  Permutation (List.filter p l)
    (List.filter (fun x => p x && r x) l ++ List.filter (fun x => p x && negb (r x)) l).
Proof.
  induction l as [|a l IH]; simpl; [constructor|].
  destruct (p a), (r a); simpl; auto.
  apply Permutation_cons_app. exact IH.
Qed.

Section Loop.

Variable tables : list MpdTable.
Hypothesis distinct : NoDup (map ptab_name tables).

Variable deps : list (string * list string).
Hypothesis deps_spec :
  forall t, In t tables ->
    exists d, mapGet (ptab_name t) deps = Some d /\
      forall ref, In ref d <-> dependsOn tables t ref.

Let names := map ptab_name tables.
Let tableMap := tableEntries tables.

Lemma isReady_true visited t :
  In t tables -> isReady deps visited (ptab_name t) = true ->
  forall ref, dependsOn tables t ref -> In ref visited.
Proof.
  intros Ht Hr ref Href. unfold isReady in Hr.
  destruct (deps_spec t Ht) as (d & Hd & Hin). rewrite Hd in Hr.
  destruct (List.filter _ d) eqn:Hf; [|discriminate].
  apply Hin in Href. pose proof (filter_nil_all _ _ Hf ref Href) as H.
  apply negb_false_iff, setHas_In in H. exact H.
Qed.

Lemma isReady_false visited t :
  In t tables -> isReady deps visited (ptab_name t) = false ->
  exists ref, dependsOn tables t ref /\ ~ In ref visited.
Proof.
  intros Ht Hr. unfold isReady in Hr.
  destruct (deps_spec t Ht) as (d & Hd & Hin). rewrite Hd in Hr.
  destruct (List.filter _ d) as [|ref l] eqn:Hf; [discriminate|].
  assert (Hm : In ref (List.filter (fun x => negb (setHas x visited)) d))
    by (rewrite Hf; left; reflexivity).
  apply filter_In in Hm as [Hm Hv]. exists ref. split; [apply Hin, Hm|].
  intros H. apply setHas_In in H. rewrite H in Hv. discriminate.
Qed.

(** The tables of a selection of the names are the tables selected. *)
Lemma tablesOf_filter (p : string -> bool) :
  tablesOf tableMap (List.filter p names) =
  List.filter (fun t => p (ptab_name t)) tables.
Proof.
  unfold tablesOf, names.
  assert (H : forall l, (forall t, In t l -> In t tables) ->
            omap (fun name => mapGet name tableMap) (List.filter p (map ptab_name l)) =
            List.filter (fun t => p (ptab_name t)) l).
  { induction l as [|a l IH]; intros Hsub; simpl; [reflexivity|].
    destruct (p (ptab_name a)); simpl.
    - unfold tableMap. rewrite tableEntries_get by (auto; apply Hsub; left; reflexivity).
      f_equal. apply IH. intros t Ht. apply Hsub. right. exact Ht.
    - apply IH. intros t Ht. apply Hsub. right. exact Ht. }
  apply H. auto.
Qed.

Local Abbreviation respectsDependencies := (respectsDependencies tables).
Local Abbreviation sortedResult := (sortedResult tables).

Lemma respectsDependencies_app l new :
  respectsDependencies l ->
  (forall t ref, In t new -> dependsOn tables t ref -> In ref (map ptab_name l)) ->
  respectsDependencies (l ++ new).
Proof.
  intros Hl Hnew l1 t l2 Heq ref Href.
  apply app_eq_app in Heq as [m [[Hl1 Hl2]|[Hl1 Hl2]]].
  - destruct m as [|t' m].
    + rewrite app_nil_r in Hl1. subst l1. simpl in Hl2.
      apply (Hnew t ref); [rewrite <- Hl2; left; reflexivity|exact Href].
    + simpl in Hl2. injection Hl2 as -> ->. apply (Hl l1 t' m Hl1 ref Href).
  - subst l1. rewrite map_app. apply in_or_app. left.
    apply (Hnew t ref); [rewrite Hl2; apply in_or_app; right; left; reflexivity|exact Href].
Qed.

Lemma setHas_filter n (q : string -> bool) l :
  setHas n (List.filter q l) = setHas n l && q n.
Proof.
  induction l as [|a l IH]; simpl; [reflexivity|].
  destruct (q a) eqn:Hq; simpl; rewrite IH.
  - destruct (String.eqb_spec n a) as [->|]; simpl; [rewrite Hq|]; reflexivity.
  - destruct (String.eqb_spec n a) as [->|]; simpl; [|reflexivity].
    rewrite Hq, andb_false_r. reflexivity.
Qed.

Lemma kahn_done fuel sorted visited :
  kahn fuel tableMap deps sorted visited [] = Some sorted.
Proof. destruct fuel; reflexivity. Qed.

Lemma kahn_flush fuel sorted visited remaining :
  remaining <> [] -> List.filter (isReady deps visited) remaining = [] ->
  kahn (S fuel) tableMap deps sorted visited remaining =
  Some (sorted ++ tablesOf tableMap remaining).
Proof.
  intros Hne Hf. destruct remaining; [contradiction|].
  cbn [kahn]. rewrite Hf. reflexivity.
Qed.

Lemma kahn_emit fuel sorted visited remaining :
  remaining <> [] -> List.filter (isReady deps visited) remaining <> [] ->
  kahn (S fuel) tableMap deps sorted visited remaining =
  kahn fuel tableMap deps
    (sorted ++ tablesOf tableMap (List.filter (isReady deps visited) remaining))
    (foldl (fun v name => setAdd name v) visited
           (List.filter (isReady deps visited) remaining))
    (foldl (fun r name => setDelete name r) remaining
           (List.filter (isReady deps visited) remaining)).
Proof.
  intros Hne Hf. destruct remaining; [contradiction|].
  cbn [kahn]. cbv zeta.
  destruct (List.filter (isReady deps visited) (s :: remaining)); [contradiction|reflexivity].
Qed.

Lemma kahn_spec fuel : forall sorted visited remaining,
  (forall n, setHas n visited = setHas n (map ptab_name sorted)) ->
  remaining = List.filter (fun n => negb (setHas n visited)) names ->
  length remaining <= fuel ->
  Permutation
    (sorted ++ List.filter (fun t => negb (setHas (ptab_name t) visited)) tables) tables ->
  respectsDependencies sorted ->
  exists ordered rest,
    kahn fuel tableMap deps sorted visited remaining = Some (ordered ++ rest) /\
    sortedResult ordered rest.
Proof.
  induction fuel as [|fuel IH]; intros sorted visited remaining Hvis Hrem Hlen HP Hord;
    (assert (Hcase : remaining = [] \/ remaining <> [])
       by (destruct remaining; [left; reflexivity|right; discriminate]));
    destruct Hcase as [Hnil|Hne];
    try (exfalso; destruct remaining; [congruence|simpl in Hlen; lia]);
    try (rewrite Hnil, kahn_done;
         exists sorted, []; split; [rewrite app_nil_r; reflexivity|];
         assert (Hnone : List.filter (fun t => negb (setHas (ptab_name t) visited)) tables = [])
           by (rewrite <- (tablesOf_filter (fun n => negb (setHas n visited)));
               fold names; rewrite <- Hrem, Hnil; reflexivity);
         rewrite Hnone in HP;
         split; [exact HP|]; split; [exact Hord|]; split; [|intros t []];
         rewrite <- Hnone; apply List.filter_ext; intros t; rewrite Hvis; reflexivity).
  - set (q := fun n => negb (setHas n visited) && isReady deps visited n).
    assert (Hready : List.filter (isReady deps visited) remaining = List.filter q names).
    { rewrite Hrem. apply filter_filter. }
    assert (Hcase : List.filter (isReady deps visited) remaining = [] \/
                    List.filter (isReady deps visited) remaining <> [])
      by (destruct (List.filter (isReady deps visited) remaining);
          [left; reflexivity|right; discriminate]).
    destruct Hcase as [Hf|Hf].
    + rewrite (kahn_flush fuel sorted visited remaining Hne Hf).
      exists sorted, (tablesOf tableMap remaining). split; [reflexivity|].
      assert (Hrest : tablesOf tableMap remaining =
                List.filter (fun t => negb (setHas (ptab_name t) visited)) tables).
      { rewrite Hrem. apply tablesOf_filter. }
      rewrite Hrest. split; [exact HP|]. split; [exact Hord|].
      split; [apply List.filter_ext; intros t; rewrite Hvis; reflexivity|].
      intros t Ht. apply filter_In in Ht as [Ht Hv].
      assert (Hin : In (ptab_name t) remaining).
      { rewrite Hrem. apply filter_In. split; [apply in_map, Ht|exact Hv]. }
      destruct (isReady_false visited t Ht (filter_nil_all _ _ Hf _ Hin)) as (ref & Hd & Hn).
      exists ref. split; [exact Hd|]. intros H. apply Hn.
      apply setHas_In. rewrite Hvis. apply setHas_In, H.
    + rewrite (kahn_emit fuel sorted visited remaining Hne Hf).
      remember (List.filter (isReady deps visited) remaining) as ready eqn:Hdef.
      assert (Hof : tablesOf tableMap ready = List.filter (fun t => q (ptab_name t)) tables).
      { rewrite Hready. apply tablesOf_filter. }
      assert (Hnames : map ptab_name (tablesOf tableMap ready) = ready).
      { rewrite Hof, <- filter_map_commute. symmetry. exact Hready. }
      assert (Hvis' : forall n, setHas n (foldl (fun v name => setAdd name v) visited ready) =
                                setHas n visited || setHas n ready).
      { intros n. apply setAdd_all_has. }
      apply IH.
      * intros n. rewrite Hvis', map_app, setHas_app, Hnames, Hvis. reflexivity.
      * rewrite setDelete_all, Hrem at 1. rewrite filter_filter.
        apply List.filter_ext. intros n. rewrite Hvis', negb_orb. reflexivity.
      * rewrite setDelete_all.
        assert (Hex : exists x, In x ready)
          by (destruct ready as [|x xs]; [contradiction|exists x; left; reflexivity]).
        destruct Hex as [x Hx].
        assert (Hxr : In x remaining) by (rewrite Hdef in Hx; apply filter_In in Hx; tauto).
        pose proof (filter_shorter (fun n => negb (setHas n ready)) remaining x Hxr) as Hs.
        cbv beta in Hs. apply setHas_In in Hx. rewrite Hx in Hs. specialize (Hs eq_refl). lia.
      * rewrite <- app_assoc. rewrite <- HP at 2. apply Permutation_app_head.
        rewrite (filter_partition (fun t => negb (setHas (ptab_name t) visited))
                                  (fun t => isReady deps visited (ptab_name t)) tables).
        rewrite Hof. apply Permutation_app_head.
        erewrite List.filter_ext_in; [reflexivity|].
        intros t Ht. simpl. rewrite Hvis'. rewrite Hready, setHas_filter.
        assert (Hn : setHas (ptab_name t) names = true)
          by (apply setHas_In, in_map, Ht).
        rewrite Hn. unfold q. simpl.
        destruct (setHas (ptab_name t) visited), (isReady deps visited (ptab_name t));
          reflexivity.
      * apply respectsDependencies_app; [exact Hord|].
        intros t ref Ht Href. rewrite Hof in Ht. apply filter_In in Ht as [Ht Hq].
        unfold q in Hq. apply andb_prop in Hq as [_ Hq].
        apply setHas_In. rewrite <- Hvis. apply setHas_In.
        apply (isReady_true visited t Ht Hq ref Href).
Qed.

End Loop.

(** C2 (amended).  For tables with pairwise distinct names the sort
    ends within as many iterations as there are tables and returns every
    table of the model exactly once: first tables each of which comes
    after all the other tables it references, then, when no table with
    emitted dependencies is left, all remaining tables in the order of
    the model, each of them with a dependency that was not emitted. *)
Theorem topologicalSort_sorts tables fuel :
  NoDup (map ptab_name tables) -> length tables <= fuel ->
  exists ordered rest,
    topologicalSortWithin fuel tables = Some (ordered ++ rest) /\
    sortedResult tables ordered rest.
Proof.
  intros Hnd Hfuel. unfold topologicalSortWithin.
  rewrite (initMaps_distinct tables Hnd).
  destruct (buildDeps_spec tables tables (emptyDeps tables) Hnd) as (_ & _ & Hdeps).
  { intros t Ht. clear -Hnd Ht.
    induction tables as [|a l IH]; simpl; [contradiction|].
    apply NoDup_cons in Hnd as [Hna Hnd].
    destruct Ht as [->|Ht]; [rewrite String.eqb_refl; reflexivity|].
    destruct (String.eqb_spec (ptab_name a) (ptab_name t)) as [E|]; [|auto].
    exfalso. apply Hna. rewrite E. apply list_elem_of_In, in_map, Ht. }
  rewrite tableEntries_keys.
  apply (kahn_spec tables Hnd _ Hdeps fuel [] [] (map ptab_name tables)).
  - reflexivity.
  - simpl. symmetry. apply forallb_filter_id. apply forallb_forall. reflexivity.
  - rewrite length_map. exact Hfuel.
  - simpl. rewrite forallb_filter_id; [reflexivity|]. apply forallb_forall. reflexivity.
  - intros l1 t l2 Heq. destruct l1; discriminate.
Qed.

(** The theorem applies to five tables with a chain, a cycle and a
    self-reference. *)
Lemma topologicalSort_sorts_chainAndCycle :
  exists ordered rest,
    topologicalSortWithin 5 chainAndCycle = Some (ordered ++ rest) /\
    sortedResult chainAndCycle ordered rest.
Proof.
  apply (topologicalSort_sorts chainAndCycle 5).
  - apply (bool_decide_unpack _). vm_compute. exact I.
  - simpl. lia.
Defined.

(** C2 as stated fails for two tables of the same name: the sort
    returns the second one alone. *)
Lemma topologicalSort_drops_same_name :
  ~ exists ordered rest,
      topologicalSortWithin 2 sameNameTables = Some (ordered ++ rest) /\
      sortedResult sameNameTables ordered rest.
Proof.
  intros (ordered & rest & Hrun & Hperm & _).
  assert (Hout : topologicalSortWithin 2 sameNameTables = Some [tableReferring "T" ["T"]])
    by (vm_compute; reflexivity).
  rewrite Hout in Hrun. injection Hrun as Hrun.
  apply Permutation_length in Hperm. rewrite <- Hrun in Hperm. discriminate Hperm.
Qed.

End SqlGeneratorFacts.

(* ================================================================== *)
(** * Properties of the MCD -> MLD conversion *)
(* ================================================================== *)

Module McdToMldFacts.

Import Js McdToMld.

(** ** In-place updates *)

Lemma find_first {A} (p : A -> bool) pre x post :
  (forall y, In y pre -> p y = false) -> p x = true ->
  List.find p (pre ++ x :: post) = Some x.
Proof.
  intros Hpre Hx. induction pre as [|a pre IH]; simpl.
  - rewrite Hx. reflexivity.
  - rewrite (Hpre a) by (left; reflexivity). apply IH.
    intros y Hy. apply Hpre. right. exact Hy.
Qed.

Lemma updateFirst_first {A} (p : A -> bool) f pre x post :
  (forall y, In y pre -> p y = false) -> p x = true ->
  updateFirst p f (pre ++ x :: post) = pre ++ f x :: post.
Proof.
  intros Hpre Hx. induction pre as [|a pre IH]; simpl.
  - rewrite Hx. reflexivity.
  - rewrite (Hpre a) by (left; reflexivity). f_equal. apply IH.
    intros y Hy. apply Hpre. right. exact Hy.
Qed.

(** ** Binary relations with a foreign key *)

Section ForeignKey.

Variable entityMap : gmap string McdEntity.

(** The effect of [addForeignKey] followed by [addRelationAttributes]
    when the owning table is there, the referenced entity has a key and
    the name of the column is free. *)
Lemma addForeignKey_then_attributes pre T post owner target role rel pk :
  (forall t, In t pre -> tableNamed owner t = false) -> tableNamed owner T = true ->
  whenTruthy (getPrimaryKey (entityMap !! target)) = Some pk ->
  existsb (columnNamed (foreignKeyName pk role)) (ltab_columns T) = false ->
  addRelationAttributes
    (addForeignKey entityMap (pre ++ T :: post) owner target role) owner rel =
  pre ++
  {| ltab_name := ltab_name T;
     ltab_columns :=
       pushMissing (fun _ => false)
         (ltab_columns T ++ [foreignColumn (foreignKeyName pk role) false target pk])
         (rel_attributes rel) |} :: post.
Proof.
  intros Hpre HT Hpk Hfree. unfold addForeignKey, addRelationAttributes.
  rewrite (find_first _ _ _ _ Hpre HT).
  destruct (entityMap !! target) as [e|] eqn:He; [|discriminate Hpk].
  rewrite Hpk. fold (foreignKeyName pk role). rewrite Hfree.
  rewrite (updateFirst_first _ _ _ _ _ Hpre HT).
  rewrite updateFirst_first; [reflexivity|exact Hpre|exact HT].
Qed.

End ForeignKey.

(** ** Relations between the same two entities *)

Lemma makePairKey_sym a b : makePairKey a b = makePairKey b a.
Proof.
  unfold makePairKey, String.ltb.
  pose proof (String.compare_antisym a b) as Hanti.
  destruct (String.compare a b) eqn:E1, (String.compare b a) eqn:E2;
    simpl in Hanti; try discriminate Hanti; try reflexivity.
  apply String.compare_eq_iff in E1. subst. reflexivity.
Qed.

Lemma buildPairCount_from (m : gmap string nat) relations key :
  default 0 (foldl (fun counts rel =>
                      match pairOf rel with
                      | Some k => <[k := default 0 (counts !! k) + 1]> counts
                      | None => counts
                      end) m relations !! key) =
  default 0 (m !! key) + length (List.filter (countsFor key) relations).
Proof.
  revert m. induction relations as [|r rs IH]; intros m; simpl; [lia|].
  rewrite IH. unfold countsFor at 2.
  destruct (pairOf r) as [k|]; [|lia].
  destruct (String.eqb_spec k key) as [->|Hne]; simpl.
  - rewrite lookup_insert_eq. simpl. lia.
  - rewrite lookup_insert_ne by exact Hne. lia.
Qed.

Lemma buildPairCount_count relations key :
  default 0 (buildPairCount relations !! key) =
  length (List.filter (countsFor key) relations).
Proof. unfold buildPairCount. rewrite buildPairCount_from, lookup_empty. reflexivity. Qed.

Lemma filter_two {A} (p : A -> bool) (l : list A) i j x y :
  i <> j -> l !! i = Some x -> l !! j = Some y -> p x = true -> p y = true ->
  2 <= length (List.filter p l).
Proof.
  revert i j. induction l as [|a l IH]; intros i j Hne Hi Hj Hx Hy; [destruct i; discriminate|].
  assert (Hone : forall k z, l !! k = Some z -> p z = true -> 1 <= length (List.filter p l)).
  { clear. induction l as [|b l IH]; intros k z Hk Hz; [destruct k; discriminate|].
    simpl. destruct k as [|k]; simpl in Hk.
    - injection Hk as ->. rewrite Hz. simpl. lia.
    - specialize (IH k z Hk Hz). destruct (p b); simpl; lia. }
  simpl. destruct i as [|i], j as [|j]; simpl in Hi, Hj.
  - congruence.
  - injection Hi as ->. rewrite Hx. simpl. specialize (Hone j y Hj Hy). lia.
  - injection Hj as ->. rewrite Hy. simpl. specialize (Hone i x Hi Hx). lia.
  - assert (i <> j) by congruence. specialize (IH i j ltac:(assumption) Hi Hj Hx Hy).
    destruct (p a); simpl; lia.
Qed.

(** Two relations at different places of the list, between the same two
    entities, are both multiple relations. *)
Lemma isMultipleRelation_twice relations i j r1 r2 key :
  i <> j -> relations !! i = Some r1 -> relations !! j = Some r2 ->
  pairOf r1 = Some key -> pairOf r2 = Some key ->
  isMultipleRelation r1 (buildPairCount relations) = true.
Proof.
  intros Hne Hi Hj H1 H2. unfold isMultipleRelation. rewrite H1.
  rewrite buildPairCount_count. apply Nat.ltb_lt.
  apply (filter_two (countsFor key) relations i j r1 r2 Hne Hi Hj);
    unfold countsFor; [rewrite H1|rewrite H2]; apply String.eqb_refl.
Qed.

(** ** Steps that only add columns and tables *)

Lemma grows_refl tables : grows tables tables.
Proof. intros n t Ht. exists t. split; [exact Ht|apply incl_refl]. Qed.

Lemma grows_trans t1 t2 t3 : grows t1 t2 -> grows t2 t3 -> grows t1 t3.
Proof.
  intros H12 H23 n t Ht. destruct (H12 n t Ht) as (t' & Ht' & Hi).
  destruct (H23 n t' Ht') as (t'' & Ht'' & Hi'). exists t''.
  split; [exact Ht''|]. eapply incl_tran; eauto.
Qed.

Lemma grows_app tables new : grows tables (tables ++ new).
Proof.
  intros n t Ht. exists t. split; [|apply incl_refl].
  induction tables as [|a l IH]; simpl in *; [discriminate|].
  destruct (tableNamed n a); [exact Ht|apply IH, Ht].
Qed.

Lemma grows_updateFirst (p : MldTable -> bool) f tables :
  (forall cs, incl cs (f cs)) -> grows tables (updateFirst p (withColumns f) tables).
Proof.
  intros Hf n t Ht. induction tables as [|a l IH]; simpl in *; [discriminate|].
  destruct (p a); simpl.
  - unfold tableNamed in *. simpl. destruct (String.eqb (ltab_name a) n).
    + injection Ht as <-. eexists. split; [reflexivity|apply Hf].
    + exists t. split; [exact Ht|apply incl_refl].
  - destruct (tableNamed n a); [|apply IH, Ht].
    exists t. split; [exact Ht|apply incl_refl].
Qed.

Lemma pushMissing_incl flag cs attrs : incl cs (pushMissing flag cs attrs).
Proof.
  unfold pushMissing. revert cs. induction attrs as [|a attrs IH]; intros cs; simpl.
  - apply incl_refl.
  - eapply incl_tran; [|apply IH].
    destruct (existsb _ cs); [apply incl_refl|apply incl_appl, incl_refl].
Qed.

Lemma grows_foldl {A} (step : list MldTable -> A -> list MldTable) (l : list A) tables :
  (forall ts a, grows ts (step ts a)) -> grows tables (foldl step tables l).
Proof.
  intros Hstep. revert tables. induction l as [|a l IH]; intros tables; simpl.
  - apply grows_refl.
  - eapply grows_trans; [apply Hstep|apply IH].
Qed.

Lemma hasColumn_grows tables tables' n c :
  hasColumn tables n c -> grows tables tables' -> hasColumn tables' n c.
Proof.
  intros (t & Ht & Hc) Hg. destruct (Hg n t Ht) as (t' & Ht' & Hi).
  exists t'. split; [exact Ht'|].
  apply existsb_exists in Hc as (x & Hx & Hn). apply existsb_exists.
  exists x. split; [apply Hi, Hx|exact Hn].
Qed.

Lemma find_split {A} (p : A -> bool) l x :
  List.find p l = Some x ->
  exists pre post, l = pre ++ x :: post /\ (forall y, In y pre -> p y = false) /\ p x = true.
Proof.
  induction l as [|a l IH]; simpl; [discriminate|].
  destruct (p a) eqn:Ha.
  - intros [= ->]. exists [], l. split; [reflexivity|]. split; [intros y []|exact Ha].
  - intros H. destruct (IH H) as (pre & post & -> & Hpre & Hx).
    exists (a :: pre), post. split; [reflexivity|]. split; [|exact Hx].
    intros y [<-|Hy]; [exact Ha|apply Hpre, Hy].
Qed.

Lemma existsb_incl {A} (p : A -> bool) l l' :
  incl l l' -> existsb p l = true -> existsb p l' = true.
Proof.
  intros Hi H. apply existsb_exists in H as (x & Hx & Hp).
  apply existsb_exists. exists x. split; [apply Hi, Hx|exact Hp].
Qed.

(** [pushMissing] leaves a column for every attribute. *)
Lemma pushMissing_has flag cs attrs a :
  In a attrs -> existsb (columnNamed (attr_name a)) (pushMissing flag cs attrs) = true.
Proof.
  unfold pushMissing. revert cs. induction attrs as [|x attrs IH]; intros cs; [intros []|].
  intros [->|Ha]; [|apply IH, Ha]. simpl.
  apply (existsb_incl _ _ _ (pushMissing_incl flag _ attrs)).
  destruct (existsb (columnNamed (attr_name a)) cs) eqn:E; [exact E|].
  rewrite existsb_app. simpl. unfold columnNamed at 2. simpl.
  rewrite String.eqb_refl, orb_true_r. reflexivity.
Qed.

Lemma in_removeFirst_other {A} (p : A -> bool) l x :
  In x l -> p x = false -> In x (removeFirst p l).
Proof.
  intros Hx Hp. induction l as [|a l IH]; [destruct Hx|].
  simpl. destruct (p a) eqn:Ha.
  - destruct Hx as [->|Hx]; [congruence|exact Hx].
  - destruct Hx as [->|Hx]; [left; reflexivity|right; apply IH, Hx].
Qed.

(** ** Steps that keep the foreign keys *)

Lemma keeps_refl tables : keeps tables tables.
Proof.
  intros n t Ht. exists t. split; [exact Ht|]. split; [auto|].
  intros c Hc. apply existsb_exists. exists c. split; [exact Hc|apply String.eqb_refl].
Qed.

Lemma keeps_trans t1 t2 t3 : keeps t1 t2 -> keeps t2 t3 -> keeps t1 t3.
Proof.
  intros H12 H23 n t Ht. destruct (H12 n t Ht) as (t' & Ht' & Hk & Hn).
  destruct (H23 n t' Ht') as (t'' & Ht'' & Hk' & Hn'). exists t''.
  split; [exact Ht''|]. split; [auto|].
  intros c Hc. specialize (Hn c Hc). apply existsb_exists in Hn as (c' & Hc' & Heq).
  unfold columnNamed in Heq. apply String.eqb_eq in Heq. rewrite <- Heq. apply Hn', Hc'.
Qed.

Lemma keeps_grows tables tables' : grows tables tables' -> keeps tables tables'.
Proof.
  intros Hg n t Ht. destruct (Hg n t Ht) as (t' & Ht' & Hi). exists t'.
  split; [exact Ht'|]. split; [intros c Hc _; apply Hi, Hc|].
  intros c Hc. apply existsb_exists. exists c. split; [apply Hi, Hc|apply String.eqb_refl].
Qed.

Lemma keeps_foldl {A} (step : list MldTable -> A -> list MldTable) (l : list A) tables :
  (forall ts a, In a l -> keeps ts (step ts a)) -> keeps tables (foldl step tables l).
Proof.
  revert tables. induction l as [|a l IH]; intros tables Hstep; simpl.
  - apply keeps_refl.
  - eapply keeps_trans; [apply Hstep; left; reflexivity|].
    apply IH. intros ts b Hb. apply Hstep. right. exact Hb.
Qed.

Lemma keeps_updateFirst (p : MldTable -> bool) f tables :
  (forall cs c, In c cs -> lcol_foreignKey c <> None -> In c (f cs)) ->
  (forall cs c, In c cs -> existsb (columnNamed (lcol_name c)) (f cs) = true) ->
  keeps tables (updateFirst p (withColumns f) tables).
Proof.
  intros Hk Hn n t Ht.
  assert (Hrefl : forall t0 : MldTable,
            (forall c, In c (ltab_columns t0) -> lcol_foreignKey c <> None ->
                       In c (ltab_columns t0))
            /\ (forall c, In c (ltab_columns t0) ->
                          existsb (columnNamed (lcol_name c)) (ltab_columns t0) = true)).
  { intros t0. split; [auto|]. intros c Hc. apply existsb_exists.
    exists c. split; [exact Hc|apply String.eqb_refl]. }
  induction tables as [|a l IH]; simpl in *; [discriminate|].
  destruct (p a); simpl.
  - unfold tableNamed in *. simpl. destruct (String.eqb (ltab_name a) n).
    + injection Ht as <-. eexists. split; [reflexivity|]. simpl. split; [apply Hk|apply Hn].
    + exists t. split; [exact Ht|apply Hrefl].
  - destruct (tableNamed n a); [|apply IH, Ht].
    exists t. split; [exact Ht|apply Hrefl].
Qed.

Lemma hasForeignKey_keeps tables tables' n c rt rc :
  hasForeignKey tables n c rt rc -> keeps tables tables' -> hasForeignKey tables' n c rt rc.
Proof.
  intros (t & Ht & Hc) Hk. destruct (Hk n t Ht) as (t' & Ht' & Hfk & _).
  exists t'. split; [exact Ht'|]. apply Hfk; [exact Hc|discriminate].
Qed.

Lemma hasColumn_keeps tables tables' n c :
  hasColumn tables n c -> keeps tables tables' -> hasColumn tables' n c.
Proof.
  intros (t & Ht & Hc) Hk. destruct (Hk n t Ht) as (t' & Ht' & _ & Hn).
  exists t'. split; [exact Ht'|].
  apply existsb_exists in Hc as (x & Hx & Heq).
  unfold columnNamed in Heq. apply String.eqb_eq in Heq. rewrite <- Heq. apply Hn, Hx.
Qed.

Section Steps.

Variable entityMap : gmap string McdEntity.

Lemma grows_addForeignKey tables owner target role :
  grows tables (addForeignKey entityMap tables owner target role).
Proof.
  unfold addForeignKey.
  destruct (List.find _ tables); [|apply grows_refl].
  destruct (entityMap !! target); [|apply grows_refl].
  destruct (whenTruthy _); [|apply grows_refl].
  destruct (existsb _ _); [apply grows_refl|].
  apply grows_updateFirst. intros cs. apply incl_appl, incl_refl.
Qed.

Lemma grows_addRelationAttributes tables owner rel :
  grows tables (addRelationAttributes tables owner rel).
Proof. apply grows_updateFirst. intros cs. apply pushMissing_incl. Qed.

Lemma grows_handleRelation pairCount tables rel :
  grows tables (handleRelation entityMap pairCount tables rel).
Proof.
  assert (Hfk : forall owner target role,
            grows tables (addRelationAttributes
                            (addForeignKey entityMap tables owner target role) owner rel)).
  { intros. eapply grows_trans; [apply grows_addForeignKey|apply grows_addRelationAttributes]. }
  unfold handleRelation, handleNaryRelation, handleBinaryRelation, createAssociativeTable.
  destruct (rel_participants rel) as [|p1 [|p2 [|p3 ps]]]; try apply grows_app.
  repeat match goal with |- context [if ?b then _ else _] => destruct b end;
    try apply Hfk; apply grows_app.
Qed.

Lemma grows_handleAssociativeEntity relations tables assoc :
  grows tables (handleAssociativeEntity entityMap relations tables assoc).
Proof.
  unfold handleAssociativeEntity.
  destruct (List.find _ relations) as [rel|]; [|apply grows_refl].
  eapply grows_trans; [|apply grows_updateFirst; intros cs; apply pushMissing_incl].
  destruct (existsb _ tables); [apply grows_refl|apply grows_app].
Qed.

(** After a relation with a foreign key is handled, the owning table
    has the foreign key, outside of the primary key, to the key of the
    referenced entity, and a column for every attribute of the
    relation. *)
Lemma placed_addForeignKey tables owner target role rel T pk :
  List.find (tableNamed owner) tables = Some T ->
  whenTruthy (getPrimaryKey (entityMap !! target)) = Some pk ->
  existsb (columnNamed (foreignKeyName pk role)) (ltab_columns T) = false ->
  hasForeignKey
    (addRelationAttributes (addForeignKey entityMap tables owner target role) owner rel)
    owner (foreignKeyName pk role) target pk
  /\ List.Forall
       (fun a => hasColumn
                   (addRelationAttributes
                      (addForeignKey entityMap tables owner target role) owner rel)
                   owner (attr_name a))
       (rel_attributes rel).
Proof.
  intros HT Hpk Hfree.
  destruct (find_split _ _ _ HT) as (pre & post & -> & Hpre & Hown).
  rewrite (addForeignKey_then_attributes entityMap pre T post owner target role rel pk
             Hpre Hown Hpk Hfree).
  match goal with
  | |- context [pre ++ ?t :: post] =>
      assert (Hfind : List.find (tableNamed owner) (pre ++ t :: post) = Some t)
        by (apply find_first; [exact Hpre|exact Hown])
  end.
  split.
  - eexists. split; [exact Hfind|]. cbn [ltab_columns].
    apply pushMissing_incl, in_or_app. right. left. reflexivity.
  - apply List.Forall_forall. intros a Ha.
    eexists. split; [exact Hfind|]. cbn [ltab_columns].
    apply pushMissing_has, Ha.
Qed.

Lemma placed_handleRelation pairCount tables rel owner target T pk :
  foreignKeySide rel = Some (owner, target) ->
  List.find (tableNamed owner) tables = Some T ->
  whenTruthy (getPrimaryKey (entityMap !! target)) = Some pk ->
  existsb (columnNamed (foreignKeyName pk (roleOf rel pairCount))) (ltab_columns T) = false ->
  hasForeignKey (handleRelation entityMap pairCount tables rel)
                owner (foreignKeyName pk (roleOf rel pairCount)) target pk
  /\ List.Forall
       (fun a => hasColumn (handleRelation entityMap pairCount tables rel) owner (attr_name a))
       (rel_attributes rel).
Proof.
  intros Hside HT Hpk Hfree.
  pose proof (placed_addForeignKey tables owner target (roleOf rel pairCount) rel T pk
                HT Hpk Hfree) as Hfk.
  unfold foreignKeySide in Hside. unfold handleRelation, handleBinaryRelation.
  fold (roleOf rel pairCount).
  destruct (rel_participants rel) as [|p1 [|p2 [|p3 ps]]]; try discriminate Hside.
  repeat match type of Hside with
         | context [if ?b then _ else _] => destruct b
         end; try discriminate Hside; injection Hside as <- <-; exact Hfk.
Qed.

(** [table_per_class] keeps the foreign keys and the names of the
    columns of every table. *)
Lemma keeps_inheritKey parentName parentPk cs :
  (forall c, In c cs -> lcol_foreignKey c <> None ->
             In c (inheritKey parentName parentPk cs))
  /\ (forall c, In c cs ->
                existsb (columnNamed (lcol_name c)) (inheritKey parentName parentPk cs) = true).
Proof.
  unfold inheritKey. destruct (existsb _ cs).
  { split; [auto|]. intros c Hc. apply existsb_exists. exists c.
    split; [exact Hc|apply String.eqb_refl]. }
  destruct (1 <? _).
  - cbn [removeFirst columnNamed foreignColumn lcol_name lcol_foreignKey].
    rewrite andb_false_r. split.
    + intros c Hc Hfk. right. apply in_removeFirst_other; [exact Hc|].
      destruct (lcol_foreignKey c); [apply andb_false_r|congruence].
    + intros c Hc.
      destruct (String.eqb_spec (lcol_name c) parentPk) as [Heq|Hne].
      * cbn [existsb]. unfold columnNamed at 1, foreignColumn. cbn [lcol_name].
        rewrite <- Heq, String.eqb_refl. reflexivity.
      * apply existsb_exists. exists c. split; [|apply String.eqb_refl].
        right. apply in_removeFirst_other; [exact Hc|].
        unfold columnNamed. rewrite (proj2 (String.eqb_neq _ _) Hne). reflexivity.
  - split; [intros c Hc _; right; exact Hc|].
    intros c Hc. apply existsb_exists. exists c.
    split; [right; exact Hc|apply String.eqb_refl].
Qed.

Lemma keeps_perClass parentName childNames tables :
  keeps tables (handleInheritance entityMap parentName childNames table_per_class tables).
Proof.
  unfold handleInheritance. destruct (whenTruthy _) as [parentPk|]; [|apply keeps_refl].
  apply keeps_foldl. intros ts child _. apply keeps_updateFirst.
  - intros cs. apply keeps_inheritKey.
  - intros cs. apply keeps_inheritKey.
Qed.

End Steps.

(** ** Role suffixes *)

Lemma append_inj_r (p a b : string) : p +:+ a = p +:+ b -> a = b.
Proof. induction p as [|c p IH]; simpl; intros H; [exact H|]. injection H as H. auto. Qed.

Lemma foreignKeySide_pairOf rel owner target :
  foreignKeySide rel = Some (owner, target) ->
  pairOf rel = Some (makePairKey owner target).
Proof.
  unfold foreignKeySide, pairOf.
  destruct (rel_participants rel) as [|p1 [|p2 [|p3 ps]]]; try discriminate.
  repeat match goal with |- context [if ?b then _ else _] => destruct b end;
    intros [= <- <-]; try reflexivity; f_equal; apply makePairKey_sym.
Qed.

Lemma find_afterEntities mcd name :
  In name (map ent_name (mcd_entities mcd)) ->
  exists t, List.find (tableNamed name) (afterEntities mcd) = Some t.
Proof.
  unfold afterEntities. induction (mcd_entities mcd) as [|e es IH]; simpl; [contradiction|].
  unfold tableNamed at 1. simpl.
  destruct (String.eqb_spec (ent_name e) name) as [_|Hne]; [eauto|].
  intros [H|H]; [contradiction|]. apply IH, H.
Qed.

(** The relation phase, cut at one relation. *)
Lemma afterRelations_split mcd i rel :
  mcd_relations mcd !! i = Some rel ->
  let step := handleRelation (buildEntityMap (mcd_entities mcd))
                             (buildPairCount (mcd_relations mcd)) in
  afterRelations mcd =
  foldl step (step (foldl step (afterEntities mcd) (take i (mcd_relations mcd))) rel)
        (drop (S i) (mcd_relations mcd)).
Proof.
  intros Hi step. unfold afterRelations. fold step.
  rewrite <- (take_drop_middle _ _ _ Hi) at 1.
  rewrite foldl_app. reflexivity.
Qed.

(** When every inheritance is converted with [table_per_class], a
    binary relation with a foreign key leaves in the result of
    [convertMcdToMld] the foreign key in the table of the owner, and a
    column for each of its attributes, provided the owner is an entity,
    the referenced entity has a key and the name of the column is free
    in the table of the owner when the relation is handled. *)
Lemma convertMcdToMld_places mcd strategy i rel owner target pk :
  perClass mcd strategy ->
  mcd_relations mcd !! i = Some rel ->
  foreignKeySide rel = Some (owner, target) ->
  In owner (map ent_name (mcd_entities mcd)) ->
  whenTruthy (getPrimaryKey (buildEntityMap (mcd_entities mcd) !! target)) = Some pk ->
  nameFree (tablesBefore mcd i) owner
           (foreignKeyName pk (roleOf rel (buildPairCount (mcd_relations mcd)))) ->
  hasForeignKey (mld_tables (convertMcdToMld mcd strategy)) owner
                (foreignKeyName pk (roleOf rel (buildPairCount (mcd_relations mcd))))
                target pk
  /\ List.Forall
       (fun a => hasColumn (mld_tables (convertMcdToMld mcd strategy)) owner (attr_name a))
       (rel_attributes rel).
Proof.
  intros Hper Hi Hside Hown Hpk Hfree.
  unfold convertMcdToMld, afterInheritances. cbn [mld_tables].
  rewrite (afterRelations_split mcd i rel Hi). cbv zeta.
  unfold tablesBefore in Hfree.
  set (step := handleRelation _ _) in *.
  set (before := foldl step (afterEntities mcd) (take i (mcd_relations mcd))) in *.
  destruct (find_afterEntities mcd owner Hown) as (t0 & Ht0).
  destruct (grows_foldl step (take i (mcd_relations mcd)) (afterEntities mcd)
              (fun ts r => grows_handleRelation _ _ ts r) owner t0 Ht0) as (T & HT & _).
  fold before in HT.
  destruct (placed_handleRelation _ _ before rel owner target T pk Hside HT Hpk (Hfree T HT))
    as [Hfk Hattrs].
  fold step in Hfk, Hattrs.
  match goal with
  | |- hasForeignKey ?result _ _ _ _ /\ _ =>
      assert (Hkeeps : keeps (step before rel) result)
  end.
  { eapply keeps_trans; [apply keeps_grows, (grows_foldl step); intros ts r;
                         apply grows_handleRelation|].
    eapply keeps_trans.
    - apply (keeps_foldl
               (fun tables inh =>
                  handleInheritance (buildEntityMap (mcd_entities mcd))
                    (inh_parentEntity inh) (inh_childEntities inh)
                    (default strategy (inh_strategy inh)) tables)).
      intros ts inh Hinh. rewrite (Hper inh Hinh). apply keeps_perClass.
    - apply keeps_grows, (grows_foldl (handleAssociativeEntity _ _)).
      intros ts a. apply grows_handleAssociativeEntity. }
  split; [exact (hasForeignKey_keeps _ _ _ _ _ _ Hfk Hkeeps)|].
  apply List.Forall_forall. intros a Ha.
  exact (hasColumn_keeps _ _ _ _ (proj1 (List.Forall_forall _ _) Hattrs a Ha) Hkeeps).
Qed.





(** A strategy that removes tables loses the foreign key with the
    table: in [library] the relation [emprunte] puts a key on
    [ADHERENT], a table that [single_table] removes. *)
Lemma convertMcdToMld_single_table_drops_owner :
  hasForeignKey (mld_tables (convertMcdToMld library table_per_class))
                "ADHERENT" "ref_livre" "LIVRE" "ref_livre"
  /\ List.find (tableNamed "ADHERENT") (mld_tables (convertMcdToMld library single_table))
     = None.
Proof.
  split; [|vm_compute; reflexivity].
  eexists. split; [vm_compute; reflexivity|]. vm_compute. auto 10.
Qed.

(** C5 (amended).  In a model whose inheritances are all converted with
    [table_per_class], take two relations at different places of the
    list, between the same two entities, each binary with a participant
    of maximum cardinality 1 and with a name that is not empty; let the
    owning entities exist, the referenced entities have a key, and the
    name of each foreign key be free in the table of its owner when the
    relation is handled.  Then in the result of [convertMcdToMld] the
    table of each owner has the foreign key of the relation, named by
    the key of the referenced entity, an underscore and the name of the
    relation; and the two names differ when the names of the relations
    differ and the relations reference the same entity. *)
Theorem convertMcdToMld_role_suffix mcd strategy i j r1 r2
    owner1 target1 owner2 target2 pk1 pk2 :
  perClass mcd strategy ->
  i <> j ->
  mcd_relations mcd !! i = Some r1 -> mcd_relations mcd !! j = Some r2 ->
  foreignKeySide r1 = Some (owner1, target1) ->
  foreignKeySide r2 = Some (owner2, target2) ->
  (owner1 = owner2 /\ target1 = target2 \/ owner1 = target2 /\ target1 = owner2) ->
  rel_name r1 <> EmptyString -> rel_name r2 <> EmptyString ->
  In owner1 (map ent_name (mcd_entities mcd)) ->
  In owner2 (map ent_name (mcd_entities mcd)) ->
  whenTruthy (getPrimaryKey (buildEntityMap (mcd_entities mcd) !! target1)) = Some pk1 ->
  whenTruthy (getPrimaryKey (buildEntityMap (mcd_entities mcd) !! target2)) = Some pk2 ->
  nameFree (tablesBefore mcd i) owner1 (pk1 +:+ "_" +:+ rel_name r1) ->
  nameFree (tablesBefore mcd j) owner2 (pk2 +:+ "_" +:+ rel_name r2) ->
  hasForeignKey (mld_tables (convertMcdToMld mcd strategy)) owner1
                (pk1 +:+ "_" +:+ rel_name r1) target1 pk1 /\
  hasForeignKey (mld_tables (convertMcdToMld mcd strategy)) owner2
                (pk2 +:+ "_" +:+ rel_name r2) target2 pk2 /\
  (rel_name r1 <> rel_name r2 -> target1 = target2 ->
   pk1 +:+ "_" +:+ rel_name r1 <> pk2 +:+ "_" +:+ rel_name r2).
Proof.
  intros Hper Hij Hi Hj Hs1 Hs2 Hpair Hn1 Hn2 Ho1 Ho2 Hpk1 Hpk2 Hf1 Hf2.
  assert (Hkey : makePairKey owner1 target1 = makePairKey owner2 target2).
  { destruct Hpair as [[-> ->]|[-> ->]]; [reflexivity|apply makePairKey_sym]. }
  assert (Hrole : forall r, rel_name r <> EmptyString ->
            isMultipleRelation r (buildPairCount (mcd_relations mcd)) = true ->
            forall pk, foreignKeyName pk (roleOf r (buildPairCount (mcd_relations mcd))) =
                       pk +:+ "_" +:+ rel_name r).
  { intros r Hr Hm pk. unfold foreignKeyName, roleOf, whenTruthy, truthy. rewrite Hm.
    destruct (String.eqb_spec (rel_name r) EmptyString); [contradiction|reflexivity]. }
  pose proof (foreignKeySide_pairOf _ _ _ Hs1) as Hp1.
  pose proof (foreignKeySide_pairOf _ _ _ Hs2) as Hp2.
  rewrite <- Hkey in Hp2.
  pose proof (Hrole r1 Hn1 (isMultipleRelation_twice _ i j r1 r2 _ Hij Hi Hj Hp1 Hp2) pk1)
    as Hname1.
  pose proof (Hrole r2 Hn2 (isMultipleRelation_twice _ j i r2 r1 _
                              (not_eq_sym Hij) Hj Hi Hp2 Hp1) pk2) as Hname2.
  split; [|split].
  - rewrite <- Hname1 in Hf1 |- *.
    exact (proj1 (convertMcdToMld_places mcd strategy i r1 owner1 target1 pk1
                    Hper Hi Hs1 Ho1 Hpk1 Hf1)).
  - rewrite <- Hname2 in Hf2 |- *.
    exact (proj1 (convertMcdToMld_places mcd strategy j r2 owner2 target2 pk2
                    Hper Hj Hs2 Ho2 Hpk2 Hf2)).
  - intros Hne Ht Heq. subst target2. rewrite Hpk1 in Hpk2. injection Hpk2 as <-.
    apply append_inj_r in Heq. apply (append_inj_r "_") in Heq. contradiction.
Qed.

(** The theorem applies to the relations [livraison] and [facturation]
    between [COMMANDE] and [ADRESSE]. *)
Lemma convertMcdToMld_role_suffix_delivery :
  hasForeignKey (mld_tables (convertMcdToMld deliveryAndBilling table_per_class))
                "COMMANDE" "id_adresse_livraison" "ADRESSE" "id_adresse" /\
  hasForeignKey (mld_tables (convertMcdToMld deliveryAndBilling table_per_class))
                "COMMANDE" "id_adresse_facturation" "ADRESSE" "id_adresse" /\
  ("livraison" <> "facturation" -> "ADRESSE" = "ADRESSE" ->
   "id_adresse_livraison" <> "id_adresse_facturation").
Proof.
  apply (convertMcdToMld_role_suffix deliveryAndBilling table_per_class 0 1
           {| rel_name := "livraison";
              rel_participants := [participant "COMMANDE" C11; participant "ADRESSE" C0n];
              rel_attributes := [] |}
           {| rel_name := "facturation";
              rel_participants := [participant "ADRESSE" C0n; participant "COMMANDE" C11];
              rel_attributes := [] |}
           "COMMANDE" "ADRESSE" "COMMANDE" "ADRESSE" "id_adresse" "id_adresse").
  - intros inh [].
  - lia.
  - reflexivity.
  - reflexivity.
  - reflexivity.
  - reflexivity.
  - left. split; reflexivity.
  - discriminate.
  - discriminate.
  - simpl. left. reflexivity.
  - simpl. left. reflexivity.
  - vm_compute. reflexivity.
  - vm_compute. reflexivity.
  - intros t Ht. vm_compute in Ht. injection Ht as <-. vm_compute. reflexivity.
  - intros t Ht. vm_compute in Ht. injection Ht as <-. vm_compute. reflexivity.
Defined.

(** The name has to be free: when the owner already has an attribute
    with the name of the foreign key, [addForeignKey] returns without a
    column, and the relation [livraison] leaves no foreign key. *)
Lemma convertMcdToMld_taken_name :
  foreignKeyNames (convertMcdToMld takenName table_per_class) = ["id_adresse_facturation"].
Proof. vm_compute. reflexivity. Qed.

(** C5 as stated fails for two many/many relations between the same
    two entities: each becomes an associative table, whose foreign keys
    are named by the keys of the entities, without the name of the
    relation. *)
Lemma convertMcdToMld_many_to_many_unsuffixed :
  ~ exists n1 n2,
      In n1 (foreignKeyNames (convertMcdToMld writtenAndTranslated table_per_class)) /\
      In n2 (foreignKeyNames (convertMcdToMld writtenAndTranslated table_per_class)) /\
      n1 <> n2 /\
      Js.endsWith n1 "_ecrit" = true /\ Js.endsWith n2 "_traduit" = true.
Proof.
  intros (n1 & n2 & H1 & _ & _ & He & _).
  vm_compute in H1.
  destruct H1 as [<-|[<-|[<-|[<-|[]]]]]; vm_compute in He; discriminate He.
Qed.

(** ** Primary keys of the tables *)

Import Validator.

(** What a model that passes validation satisfies. *)
Lemma passesValidation_inv mcd :
  passesValidation mcd ->
  (forall e, In e (mcd_entities mcd) -> existsb attr_isPrimaryKey (ent_attributes e) = true) /\
  (forall r p, In r (mcd_relations mcd) -> In p (rel_participants r) ->
     In (part_entityName p) (map ent_name (mcd_entities mcd))) /\
  (forall r, In r (mcd_relations mcd) -> 2 <= length (rel_participants r)).
Proof.
  intros Hv.
  assert (Herr : forall msg, ~ In {| level := error; message := msg |} (validateMcd mcd)).
  { intros msg Hin. exact (Hv _ Hin eq_refl). }
  clear Hv. unfold validateMcd in Herr. split; [|split].
  - intros e He. destruct (existsb _ _) eqn:Hex; [reflexivity|exfalso].
    eapply Herr.
    apply in_or_app. left. apply in_flat_map. exists e. split; [exact He|].
    rewrite Hex. left. reflexivity.
  - intros r p Hr Hp.
    destruct (has (part_entityName p) (map ent_name (mcd_entities mcd))) eqn:Hh.
    + unfold has in Hh. apply existsb_exists in Hh as (x & Hx & Heq).
      apply String.eqb_eq in Heq. subst. exact Hx.
    + exfalso. eapply Herr.
      apply in_or_app. right. apply in_or_app. right. apply in_or_app. left.
      apply in_flat_map. exists r. split; [exact Hr|].
      apply in_flat_map. exists p. split; [exact Hp|].
      rewrite Hh. left. reflexivity.
  - intros r Hr. destruct (length (rel_participants r) <? 2) eqn:Hl.
    + exfalso. eapply Herr.
      do 4 (apply in_or_app; right).
      apply in_flat_map. exists r. split; [exact Hr|].
      rewrite Hl. left. reflexivity.
    + apply Nat.ltb_ge in Hl. exact Hl.
Qed.

Lemma buildEntityMap_lookup entities name :
  In name (map ent_name entities) ->
  exists e, buildEntityMap entities !! name = Some e /\ In e entities.
Proof.
  unfold buildEntityMap. induction entities as [|a es IH] using rev_ind; [intros []|].
  rewrite map_app, foldl_app. simpl. intros Hin.
  destruct (String.eqb_spec (ent_name a) name) as [<-|Hne].
  - exists a. split; [apply lookup_insert_eq|apply in_or_app; right; left; reflexivity].
  - rewrite lookup_insert_ne by exact Hne.
    apply in_app_or in Hin as [Hin|[Hin|[]]]; [|contradiction].
    destruct (IH Hin) as (e & He & Hes). exists e.
    split; [exact He|apply in_or_app; left; exact Hes].
Qed.

Lemma keyed_incl cs cs' :
  existsb lcol_isPrimaryKey cs = true -> incl cs cs' ->
  existsb lcol_isPrimaryKey cs' = true.
Proof.
  intros H Hi. apply existsb_exists in H as (c & Hc & Hk).
  apply existsb_exists. exists c. split; [apply Hi, Hc|exact Hk].
Qed.

Lemma allKeyed_updateFirst (p : MldTable -> bool) f tables :
  (forall cs, existsb lcol_isPrimaryKey cs = true -> existsb lcol_isPrimaryKey (f cs) = true) ->
  allKeyed tables -> allKeyed (updateFirst p (withColumns f) tables).
Proof.
  intros Hf Hall. induction tables as [|a l IH]; simpl; [exact Hall|].
  assert (Hl : allKeyed l) by (intros t Ht; apply Hall; right; exact Ht).
  destruct (p a).
  - intros t [<-|Ht]; [simpl; apply Hf, Hall; left; reflexivity|apply Hl, Ht].
  - intros t [<-|Ht]; [apply Hall; left; reflexivity|apply (IH Hl), Ht].
Qed.

Lemma allKeyed_removeFirst (p : MldTable -> bool) tables :
  allKeyed tables -> allKeyed (removeFirst p tables).
Proof.
  intros Hall. induction tables as [|a l IH]; simpl; [exact Hall|].
  assert (Hl : allKeyed l) by (intros t Ht; apply Hall; right; exact Ht).
  destruct (p a); [exact Hl|].
  intros t [<-|Ht]; [apply Hall; left; reflexivity|apply (IH Hl), Ht].
Qed.

Lemma allKeyed_app tables t :
  allKeyed tables -> existsb lcol_isPrimaryKey (ltab_columns t) = true ->
  allKeyed (tables ++ [t]).
Proof.
  intros Hall Ht t' Hin. apply in_app_or in Hin as [Hin|[<-|[]]]; [apply Hall, Hin|exact Ht].
Qed.

Lemma allKeyed_foldl {A} (step : list MldTable -> A -> list MldTable) (l : list A) tables :
  (forall ts a, In a l -> allKeyed ts -> allKeyed (step ts a)) ->
  allKeyed tables -> allKeyed (foldl step tables l).
Proof.
  revert tables. induction l as [|a l IH]; intros tables Hstep Hall; simpl; [exact Hall|].
  apply IH; [intros ts b Hb; apply Hstep; right; exact Hb|].
  apply Hstep; [left; reflexivity|exact Hall].
Qed.

Section Keys.

Variable entityMap : gmap string McdEntity.

Local Abbreviation hasKeyedParticipant := (hasKeyedParticipant entityMap).

Lemma keyed_participants_columns (name : McdRelationParticipant -> string -> string)
    participants p pk :
  In p participants ->
  whenTruthy (getPrimaryKey (entityMap !! part_entityName p)) = Some pk ->
  existsb lcol_isPrimaryKey
    (flat_map (fun p =>
       match whenTruthy (getPrimaryKey (entityMap !! part_entityName p)) with
       | Some pk => [foreignColumn (name p pk) true (part_entityName p) pk]
       | None => []
       end) participants) = true.
Proof.
  intros Hp Hpk. apply existsb_exists.
  exists (foreignColumn (name p pk) true (part_entityName p) pk). split; [|reflexivity].
  apply in_flat_map. exists p. split; [exact Hp|]. rewrite Hpk. left. reflexivity.
Qed.

Lemma allKeyed_createAssociativeTable rel tables :
  hasKeyedParticipant rel -> allKeyed tables ->
  allKeyed (createAssociativeTable entityMap rel tables).
Proof.
  intros (p & pk & Hp & Hpk) Hall. apply allKeyed_app; [exact Hall|].
  simpl. rewrite existsb_app. apply orb_true_iff. left.
  unfold associativeKeyColumns.
  apply (keyed_participants_columns
           (fun p pk => if 1 <? length (default [] (collectPkNames entityMap
                                                       (rel_participants rel) !! pk))
                        then pk +:+ "_" +:+ toLowerCase (part_entityName p) else pk)
           _ p pk Hp Hpk).
Qed.

Lemma allKeyed_addForeignKey tables owner target role :
  allKeyed tables -> allKeyed (addForeignKey entityMap tables owner target role).
Proof.
  intros Hall. unfold addForeignKey.
  destruct (List.find _ tables); [|exact Hall].
  destruct (entityMap !! target); [|exact Hall].
  destruct (whenTruthy _); [|exact Hall].
  destruct (existsb _ _); [exact Hall|].
  apply allKeyed_updateFirst; [|exact Hall].
  intros cs Hcs. eapply keyed_incl; [exact Hcs|apply incl_appl, incl_refl].
Qed.

Lemma allKeyed_addRelationAttributes tables owner rel :
  allKeyed tables -> allKeyed (addRelationAttributes tables owner rel).
Proof.
  intros Hall. apply allKeyed_updateFirst; [|exact Hall].
  intros cs Hcs. eapply keyed_incl; [exact Hcs|apply pushMissing_incl].
Qed.

Lemma allKeyed_handleRelation pairCount tables rel :
  hasKeyedParticipant rel -> allKeyed tables ->
  allKeyed (handleRelation entityMap pairCount tables rel).
Proof.
  intros Hrel Hall.
  unfold handleRelation, handleNaryRelation, handleBinaryRelation.
  destruct (rel_participants rel) as [|p1 [|p2 [|p3 ps]]] eqn:Hps;
    try (apply allKeyed_createAssociativeTable; assumption).
  repeat match goal with |- context [if ?b then _ else _] => destruct b end;
    try (apply allKeyed_addRelationAttributes, allKeyed_addForeignKey; assumption);
    apply allKeyed_createAssociativeTable; assumption.
Qed.

Lemma keyed_inheritKey parentName parentPk cs :
  existsb lcol_isPrimaryKey cs = true ->
  existsb lcol_isPrimaryKey (inheritKey parentName parentPk cs) = true.
Proof.
  intros Hcs. unfold inheritKey.
  destruct (existsb (referencesTable parentName) cs); [exact Hcs|].
  destruct (1 <? _); [|reflexivity].
  simpl. unfold columnNamed at 1. simpl. rewrite String.eqb_refl. reflexivity.
Qed.

Lemma keyed_inheritAttributes parentEntity cs :
  existsb lcol_isPrimaryKey cs = true ->
  existsb lcol_isPrimaryKey (inheritAttributes parentEntity cs) = true.
Proof.
  unfold inheritAttributes. revert cs.
  induction (ent_attributes parentEntity) as [|a attrs IH]; intros cs Hcs; simpl; [exact Hcs|].
  apply IH. destruct (existsb (columnNamed (attr_name a)) cs); [exact Hcs|].
  simpl. rewrite Hcs. apply orb_true_r.
Qed.

Lemma allKeyed_absorbChild parentName children st :
  allKeyed (fst st) ->
  allKeyed (fst (foldl (absorbChild entityMap parentName) st children)).
Proof.
  revert st. induction children as [|c cs IH]; intros [tables attached] Hall; simpl;
    [exact Hall|].
  apply IH. simpl. apply allKeyed_removeFirst.
  destruct (entityMap !! c); [|exact Hall].
  destruct attached; [|exact Hall].
  apply allKeyed_updateFirst; [|exact Hall].
  intros cols Hcols. eapply keyed_incl; [exact Hcols|].
  clear. generalize (ent_attributes m). intros attrs. revert cols.
  induction attrs as [|a attrs IH]; intros cols; simpl; [apply incl_refl|].
  eapply incl_tran; [|apply IH].
  destruct (_ && _); [apply incl_appl|]; apply incl_refl.
Qed.

Lemma allKeyed_handleInheritance parentName childNames strategy tables :
  allKeyed tables ->
  allKeyed (handleInheritance entityMap parentName childNames strategy tables).
Proof.
  intros Hall. unfold handleInheritance.
  destruct (whenTruthy _) as [parentPk|]; [|exact Hall].
  destruct strategy.
  - apply allKeyed_foldl; [|exact Hall].
    intros ts c _ Hts. apply allKeyed_updateFirst; [|exact Hts].
    intros cs. apply keyed_inheritKey.
  - destruct (existsb _ tables); [|exact Hall].
    apply allKeyed_absorbChild. simpl.
    apply allKeyed_updateFirst; [|exact Hall].
    intros cs Hcs. destruct (existsb (columnNamed "type_discriminator") cs); [exact Hcs|].
    eapply keyed_incl; [exact Hcs|apply incl_appl, incl_refl].
  - destruct (entityMap !! parentName) as [parentEntity|]; [|exact Hall].
    apply allKeyed_removeFirst. apply allKeyed_foldl; [|exact Hall].
    intros ts c _ Hts. apply allKeyed_updateFirst; [|exact Hts].
    intros cs. apply keyed_inheritAttributes.
Qed.

Lemma allKeyed_handleAssociativeEntity relations tables assoc :
  (forall rel, In rel relations -> hasKeyedParticipant rel) ->
  allKeyed tables ->
  allKeyed (handleAssociativeEntity entityMap relations tables assoc).
Proof.
  intros Hrels Hall. unfold handleAssociativeEntity.
  destruct (List.find _ relations) as [rel|] eqn:Hfind; [|exact Hall].
  apply find_some in Hfind as [Hrel _].
  apply allKeyed_updateFirst.
  - intros cs Hcs. eapply keyed_incl; [exact Hcs|apply pushMissing_incl].
  - destruct (existsb _ tables); [exact Hall|].
    apply allKeyed_app; [exact Hall|]. simpl.
    destruct (Hrels rel Hrel) as (p & pk & Hp & Hpk).
    apply (keyed_participants_columns (fun _ pk => pk) _ p pk Hp Hpk).
Qed.

End Keys.

Lemma allKeyed_afterEntities mcd :
  (forall e, In e (mcd_entities mcd) -> hasStoredKey e) -> allKeyed (afterEntities mcd).
Proof.
  intros Hst t Ht. unfold afterEntities in Ht. apply in_map_iff in Ht as (e & <- & He).
  specialize (Hst e He). unfold hasStoredKey in Hst.
  apply existsb_exists in Hst as (a & Ha & Hk). apply andb_prop in Hk as [Hpk Hnd].
  simpl. apply existsb_exists.
  exists (plainColumn (attr_name a) (attr_isPrimaryKey a)). split; [|exact Hpk].
  apply (in_map (fun attr => plainColumn (attr_name attr) (attr_isPrimaryKey attr))).
  apply filter_In. split; [exact Ha|exact Hnd].
Qed.

Lemma valid_relations_keyed mcd :
  passesValidation mcd ->
  (forall e, In e (mcd_entities mcd) -> hasNamedKey e) ->
  forall rel, In rel (mcd_relations mcd) ->
    hasKeyedParticipant (buildEntityMap (mcd_entities mcd)) rel.
Proof.
  intros Hv Hnamed rel Hrel.
  destruct (passesValidation_inv mcd Hv) as (Hpk & Hdef & Htwo).
  specialize (Htwo rel Hrel).
  destruct (rel_participants rel) as [|p ps] eqn:Hps; [simpl in Htwo; lia|].
  assert (Hp : In p (rel_participants rel)) by (rewrite Hps; left; reflexivity).
  destruct (buildEntityMap_lookup _ _ (Hdef rel p Hrel Hp)) as (e & He & Hin).
  specialize (Hpk e Hin).
  destruct (List.find attr_isPrimaryKey (ent_attributes e)) as [a|] eqn:Hfind.
  - exists p, (attr_name a). split; [rewrite Hps; left; reflexivity|].
    rewrite He. simpl. rewrite Hfind. unfold whenTruthy, truthy.
    destruct (String.eqb_spec (attr_name a) EmptyString) as [Hempty|]; [|reflexivity].
    exfalso. apply (Hnamed e Hin (attr_name a)); [|exact Hempty].
    simpl. rewrite Hfind. reflexivity.
  - apply existsb_exists in Hpk as (a & Ha & Hk).
    pose proof (find_none _ _ Hfind a Ha) as Hn. congruence.
Qed.

(** C6 (amended).  For a conceptual model that passes validation, in
    which every entity has a primary-key attribute that is not derived
    and the first primary-key attribute of every entity has a name that
    is not empty, every table of the result of [convertMcdToMld], under
    any inheritance strategy, has a primary-key column. *)
Theorem convertMcdToMld_keyed mcd strategy :
  passesValidation mcd ->
  (forall e, In e (mcd_entities mcd) -> hasStoredKey e) ->
  (forall e, In e (mcd_entities mcd) -> hasNamedKey e) ->
  forall t, In t (mld_tables (convertMcdToMld mcd strategy)) ->
    existsb lcol_isPrimaryKey (ltab_columns t) = true.
Proof.
  intros Hv Hst Hnamed.
  pose proof (valid_relations_keyed mcd Hv Hnamed) as Hrels.
  change (allKeyed (mld_tables (convertMcdToMld mcd strategy))).
  unfold convertMcdToMld. simpl.
  apply (allKeyed_foldl (handleAssociativeEntity _ _)).
  { intros ts a _ Hts. apply allKeyed_handleAssociativeEntity; assumption. }
  unfold afterInheritances.
  apply (allKeyed_foldl (fun tables inh => handleInheritance _ _ _ _ tables)).
  { intros ts a _ Hts. apply allKeyed_handleInheritance. exact Hts. }
  unfold afterRelations. apply (allKeyed_foldl (handleRelation _ _)).
  { intros ts r Hr Hts. apply allKeyed_handleRelation; [apply Hrels, Hr|exact Hts]. }
  apply allKeyed_afterEntities, Hst.
Qed.

(** The theorem applies to a model with inheritance, a ternary relation
    and an associative entity, under the strategy that removes the child
    tables. *)
Lemma convertMcdToMld_keyed_library :
  List.Forall (fun t => existsb lcol_isPrimaryKey (ltab_columns t) = true)
              (mld_tables (convertMcdToMld library single_table)).
Proof.
  apply List.Forall_forall.
  apply (convertMcdToMld_keyed library single_table).
  - intros m Hm. vm_compute in Hm. contradiction.
  - intros e He. vm_compute in He.
    destruct He as [<-|[<-|[<-|[<-|[]]]]]; reflexivity.
  - intros e He pk Hpk. vm_compute in He.
    destruct He as [<-|[<-|[<-|[<-|[]]]]]; vm_compute in Hpk;
      injection Hpk as <-; discriminate.
Defined.

(** C6 as stated fails for an entity whose only identifier is a derived
    attribute: the model passes validation, derived attributes are not
    converted, and the table has no primary-key column. *)
Lemma convertMcdToMld_derived_key_lost :
  passesValidation derivedKey /\
  ~ (forall t, In t (mld_tables (convertMcdToMld derivedKey table_per_class)) ->
       existsb lcol_isPrimaryKey (ltab_columns t) = true).
Proof.
  split.
  - intros m Hm. vm_compute in Hm. destruct Hm as [<-|[]]. discriminate.
  - intros H.
    specialize (H {| ltab_name := "FACTURE"; ltab_columns := [plainColumn "montant" false] |}).
    vm_compute in H. specialize (H (or_introl eq_refl)). discriminate H.
Qed.

(** ** Names of the columns of a table *)

(** C7 fails on the code: a many/many relation of an entity with
    itself passes validation, and both key columns of its associative
    table receive the same name, the key of the entity followed by the
    lower-cased name of the entity. *)
Theorem convertMcdToMld_reflexive_duplicate :
  passesValidation sponsorship /\
  exists t, In t (mld_tables (convertMcdToMld sponsorship table_per_class)) /\
    map lcol_name (ltab_columns t) = ["id_personne_personne"; "id_personne_personne"] /\
    ~ NoDup (map lcol_name (ltab_columns t)).
Proof.
  split.
  - intros m Hm. vm_compute in Hm. contradiction.
  - exists {| ltab_name := "parraine";
              ltab_columns :=
                [ foreignColumn "id_personne_personne" true "PERSONNE" "id_personne";
                  foreignColumn "id_personne_personne" true "PERSONNE" "id_personne" ] |}.
    split; [vm_compute; right; left; reflexivity|].
    split; [reflexivity|].
    simpl. intros Hnd. apply NoDup_cons in Hnd as [Hn _]. apply Hn. left.
Qed.

End McdToMldFacts.

(* ================================================================== *)
(** * Properties of the validators *)
(* ================================================================== *)

Module ValidatorFacts.

Import Js Validator.

Lemma validateMcd_missing_key model e :
  In e (mcd_entities model) -> existsb attr_isPrimaryKey (ent_attributes e) = false ->
  In {| level := error;
        message := "Entité " +:+ quoted (ent_name e) +:+ " : aucun identifiant [PK] défini." |}
     (validateMcd model).
Proof.
  intros He Hk. unfold validateMcd. apply in_or_app. left.
  apply in_flat_map. exists e. split; [exact He|]. rewrite Hk. left. reflexivity.
Qed.

Lemma validateMld_missing_key fuel model t :
  In t (mld_tables model) -> existsb lcol_isPrimaryKey (ltab_columns t) = false ->
  In {| level := warning;
        message := "Table " +:+ quoted (ltab_name t) +:+ " : aucune clé primaire définie." |}
     (validateMld fuel model).
Proof.
  intros Ht Hk. unfold validateMld. apply in_or_app. left.
  apply in_flat_map. exists t. split; [exact Ht|].
  apply in_or_app. left. rewrite Hk. left. reflexivity.
Qed.

(** The errors of [validateMld] are about foreign keys alone. *)
Lemma validateMld_errors fuel model m :
  In m (validateMld fuel model) -> level m = error ->
  exists t col fk,
    In t (mld_tables model) /\ In col (ltab_columns t) /\ lcol_foreignKey col = Some fk /\
    ~ In (lfk_referencedTable fk) (map ltab_name (mld_tables model)) /\
    m = danglingMessage (ltab_name t) (lcol_name col) (lfk_referencedTable fk).
Proof.
  unfold validateMld. intros Hm Hl. apply in_app_or in Hm as [Hm|Hm].
  - apply in_flat_map in Hm as (t & Ht & Hm). apply in_app_or in Hm as [Hm|Hm].
    + destruct (existsb _ _); [destruct Hm|]. destruct Hm as [<-|[]]. discriminate Hl.
    + apply in_flat_map in Hm as (col & Hcol & Hm).
      destruct (lcol_foreignKey col) as [fk|] eqn:Hfk; [|destruct Hm].
      destruct (has _ _) eqn:Hh; [destruct Hm|]. destruct Hm as [<-|[]].
      exists t, col, fk. repeat split; try assumption.
      intros Hin. apply not_true_iff_false in Hh. apply Hh.
      unfold has. apply existsb_exists. eexists. split; [exact Hin|apply String.eqb_refl].
  - apply in_map_iff in Hm as (c & <- & _). discriminate Hl.
Qed.

(** The messages of [validateMpd] are about foreign keys alone. *)
Lemma validateMpd_messages model m :
  In m (validateMpd model) ->
  exists t col fk,
    In t (mpd_tables model) /\ In col (ptab_columns t) /\ pcol_foreignKey col = Some fk /\
    ~ In (pfk_referencedTable fk) (map ptab_name (mpd_tables model)) /\
    m = danglingMessage (ptab_name t) (pcol_name col) (pfk_referencedTable fk).
Proof.
  unfold validateMpd. intros Hm.
  apply in_flat_map in Hm as (t & Ht & Hm).
  apply in_flat_map in Hm as (col & Hcol & Hm).
  destruct (pcol_foreignKey col) as [fk|] eqn:Hfk; [|destruct Hm].
  destruct (has _ _) eqn:Hh; [destruct Hm|]. destruct Hm as [<-|[]].
  exists t, col, fk. repeat split; try assumption.
  intros Hin. apply not_true_iff_false in Hh. apply Hh.
  unfold has. apply existsb_exists. eexists. split; [exact Hin|apply String.eqb_refl].
Qed.

(** C8 (amended).  [validateMcd] reports an error for every entity
    without primary-key attribute.  [validateMld] reports a warning, not
    an error, for every table without primary-key column: its errors are
    about foreign keys to tables that do not exist.  [validateMpd] does
    not look at primary keys: each of its messages is about a foreign key
    to a table that does not exist. *)
Theorem validators_missing_key mcd e fuel mld t mpd :
  In e (mcd_entities mcd) -> existsb attr_isPrimaryKey (ent_attributes e) = false ->
  In t (mld_tables mld) -> existsb lcol_isPrimaryKey (ltab_columns t) = false ->
  missingKeyReports mcd e fuel mld t mpd.
Proof.
  intros He Hek Ht Htk.
  split; [apply validateMcd_missing_key; assumption|].
  split; [apply validateMld_missing_key; assumption|].
  split; [intros m; apply validateMld_errors|intros m; apply validateMpd_messages].
Qed.

(** The theorem applies to models with one entity or table, without
    primary key. *)
Lemma validators_missing_key_note :
  missingKeyReports keylessMcd
    {| ent_name := "NOTE";
       ent_attributes :=
         [ {| attr_name := "texte"; attr_isPrimaryKey := false; attr_isDerived := false |} ] |}
    1 keylessMld keylessTable keylessMpd.
Proof.
  apply validators_missing_key.
  - simpl. left. reflexivity.
  - reflexivity.
  - simpl. left. reflexivity.
  - reflexivity.
Defined.

(** C8 as stated fails at two stages: for a logical model and for a
    physical model with a table without primary key, [validateMld]
    reports no error and [validateMpd] reports nothing. *)
Lemma validators_no_error_for_keyless_table :
  In keylessTable (mld_tables keylessMld) /\
  existsb lcol_isPrimaryKey (ltab_columns keylessTable) = false /\
  (~ exists m, In m (validateMld 1 keylessMld) /\ level m = error) /\
  validateMpd keylessMpd = [].
Proof.
  split; [left; reflexivity|]. split; [reflexivity|]. split; [|reflexivity].
  intros (m & Hm & Hl). vm_compute in Hm. destruct Hm as [<-|[]]. discriminate Hl.
Qed.

End ValidatorFacts.

(* ================================================================== *)
(** * Properties of the text primitives *)
(* ================================================================== *)

Module TextFacts.

Import Js Text.

Lemma str_txt s : str (txt s) = s.
Proof. apply string_of_list_ascii_of_string. Qed.

Lemma txt_str t : txt (str t) = t.
Proof. apply list_ascii_of_string_of_list_ascii. Qed.

(** ** Character classes *)

Lemma isWord_range c :
  isWord c = true ->
  let n := nat_of_ascii c in
  (48 <= n <= 57) \/ (65 <= n <= 90) \/ n = 95 \/ (97 <= n <= 122).
Proof.
  unfold isWord, isUpper, isLower, isDigit. cbv zeta.
  rewrite !orb_true_iff, !andb_true_iff, !Nat.leb_le, Nat.eqb_eq. lia.
Qed.

Lemma isDigit_range c :
  isDigit c = true -> 48 <= nat_of_ascii c <= 57.
Proof. unfold isDigit. rewrite andb_true_iff, !Nat.leb_le. lia. Qed.

Lemma isSpace_range c :
  isSpace c = true -> let n := nat_of_ascii c in (9 <= n <= 13) \/ n = 32.
Proof.
  unfold isSpace. cbv zeta. rewrite orb_true_iff, andb_true_iff, !Nat.leb_le, Nat.eqb_eq. lia.
Qed.

Lemma eqb_code c d : Ascii.eqb c d = true -> nat_of_ascii c = nat_of_ascii d.
Proof. intros H. apply Ascii.eqb_eq in H. subst. reflexivity. Qed.

Lemma isWord_not_space c : isWord c = true -> isSpace c = false.
Proof.
  intros Hw. apply isWord_range in Hw. cbv zeta in Hw.
  destruct (isSpace c) eqn:Hs; [|reflexivity].
  apply isSpace_range in Hs. cbv zeta in Hs. lia.
Qed.

Lemma isDigit_word c : isDigit c = true -> isWord c = true.
Proof. intros H. unfold isWord. rewrite H. destruct (isUpper c), (isLower c); reflexivity. Qed.


(** A word character is none of the punctuation characters of the
    grammar. *)
Lemma isWord_not_char c (d : ascii) :
  isWord c = true -> isWord d = false -> Ascii.eqb c d = false.
Proof.
  intros Hc Hd. destruct (Ascii.eqb_spec c d) as [->|]; [congruence|reflexivity].
Qed.

Lemma isSpace_not_char c (d : ascii) :
  isSpace c = true -> isSpace d = false -> Ascii.eqb c d = false.
Proof.
  intros Hc Hd. destruct (Ascii.eqb_spec c d) as [->|]; [congruence|reflexivity].
Qed.

(** ** Prefixes selected by a character class *)

Lemma takeWhile_app p a b :
  forallb p a = true -> takeWhile p (a ++ b) = a ++ takeWhile p b.
Proof.
  induction a as [|c a IH]; simpl; intros H; [reflexivity|].
  apply andb_prop in H as [Hc Ha]. rewrite Hc, IH by exact Ha. reflexivity.
Qed.

Lemma dropWhile_app p a b :
  forallb p a = true -> dropWhile p (a ++ b) = dropWhile p b.
Proof.
  induction a as [|c a IH]; simpl; intros H; [reflexivity|].
  apply andb_prop in H as [Hc Ha]. rewrite Hc. apply IH, Ha.
Qed.

Lemma takeWhile_all p a : forallb p a = true -> takeWhile p a = a.
Proof.
  intros H. rewrite <- (app_nil_r a) at 1. rewrite takeWhile_app by exact H.
  apply app_nil_r.
Qed.

Lemma dropWhile_all p a : forallb p a = true -> dropWhile p a = [].
Proof.
  intros H. rewrite <- (app_nil_r a). rewrite dropWhile_app by exact H. reflexivity.
Qed.

(** A run of the class, then a character outside of it. *)
Lemma takeWhile_run p a c r :
  forallb p a = true -> p c = false -> takeWhile p (a ++ c :: r) = a.
Proof.
  intros Ha Hc. rewrite takeWhile_app by exact Ha. simpl. rewrite Hc. apply app_nil_r.
Qed.

Lemma dropWhile_run p a c r :
  forallb p a = true -> p c = false -> dropWhile p (a ++ c :: r) = c :: r.
Proof.
  intros Ha Hc. rewrite dropWhile_app by exact Ha. simpl. rewrite Hc. reflexivity.
Qed.

Lemma forallb_weaken {A} (p q : A -> bool) l :
  (forall x, p x = true -> q x = true) -> forallb p l = true -> forallb q l = true.
Proof.
  intros Hpq. induction l as [|a l IH]; simpl; [reflexivity|].
  intros H. apply andb_prop in H as [Ha Hl]. rewrite (Hpq a Ha), (IH Hl). reflexivity.
Qed.

(** ** Lines *)

Lemma splitOn_line sep l :
  existsb (Ascii.eqb sep) l = false -> splitOn sep l = [l].
Proof.
  induction l as [|c l IH]; simpl; intros H; [reflexivity|].
  apply orb_false_iff in H as [Hc Hl]. rewrite Ascii.eqb_sym, Hc, (IH Hl). reflexivity.
Qed.

Lemma splitOn_cons sep l rest :
  existsb (Ascii.eqb sep) l = false ->
  splitOn sep (l ++ sep :: rest) = l :: splitOn sep rest.
Proof.
  induction l as [|c l IH]; simpl; intros H.
  - rewrite Ascii.eqb_refl. reflexivity.
  - apply orb_false_iff in H as [Hc Hl]. rewrite Ascii.eqb_sym, Hc, (IH Hl). reflexivity.
Qed.

(** Splitting what was joined gives the lines back. *)
Lemma splitLines_joinLines lines :
  lines <> [] ->
  (forall l, In l lines -> containsChar LF l = false) ->
  splitLines (joinLines lines) = lines.
Proof.
  unfold splitLines, containsChar.
  induction lines as [|l ls IH]; intros Hne Hlf; [contradiction|].
  destruct ls as [|l2 ls].
  - simpl. apply splitOn_line. apply Hlf. left. reflexivity.
  - change (joinLines (l :: l2 :: ls)) with (l ++ LF :: joinLines (l2 :: ls)).
    rewrite splitOn_cons by (apply Hlf; left; reflexivity).
    f_equal. apply IH; [discriminate|]. intros x Hx. apply Hlf. right. exact Hx.
Qed.

End TextFacts.

(* ================================================================== *)
(** * Properties of the MCD parser *)
(* ================================================================== *)

Module McdParserFacts.

Import Js Text TextFacts McdParser.

(** ** Cardinalities *)


Lemma parseRelationItem_invalid relationName relation errs item entityName cardinality :
  matchParticipant item = Some (entityName, cardinality) ->
  validCardinality cardinality = None ->
  parseRelationItem relationName (relation, errs) item =
  (relation, errs ++ [invalidCardinalityError cardinality entityName relationName]).
Proof. intros Hm Hv. unfold parseRelationItem. rewrite Hm, Hv. reflexivity. Qed.

(** The loop over the items: the participants are those of the items
    that are accepted, errors are only added, and an item with an
    invalid cardinality leaves its error. *)
Lemma parseRelationItems_spec relationName items relation errs :
  let result := foldl (parseRelationItem relationName) (relation, errs) items in
  rel_name (fst result) = rel_name relation /\
  rel_participants (fst result) =
    rel_participants relation ++ flat_map acceptedParticipant items /\
  (forall e, In e errs -> In e (snd result)) /\
  (forall item entityName cardinality,
     In item items -> matchParticipant item = Some (entityName, cardinality) ->
     validCardinality cardinality = None ->
     In (invalidCardinalityError cardinality entityName relationName) (snd result)).
Proof.
  revert relation errs. induction items as [|item items IH]; intros relation errs; simpl.
  - rewrite app_nil_r. repeat split; auto. intros ? ? ? [].
  - destruct (parseRelationItem relationName (relation, errs) item) as [relation1 errs1] eqn:E.
    destruct (IH relation1 errs1) as (Hn & Hp & He & Hi). cbv zeta.
    unfold parseRelationItem, acceptedParticipant in *.
    destruct (matchParticipant item) as [[n c]|] eqn:Hm.
    + destruct (validCardinality c) as [card|] eqn:Hv; injection E as <- <-; simpl in *.
      * rewrite Hn, Hp, <- app_assoc. repeat split; auto.
        intros it n' c' [<-|Hin] Hm' Hv'; [congruence|eauto].
      * rewrite Hn, Hp. repeat split; auto.
        -- intros e Hin. apply He, in_or_app. left. exact Hin.
        -- intros it n' c' [<-|Hin] Hm' Hv'; [|eauto].
           assert (n' = n /\ c' = c) as [-> ->] by (split; congruence).
           apply He, in_or_app. right. left. reflexivity.
    + destruct (parseAttribute item); injection E as <- <-; simpl in *;
        rewrite Hn, Hp; repeat split; auto;
        intros it n' c' [<-|Hin] Hm' Hv'; try congruence; eauto.
Qed.

(** What [parseRelationBlock] adds to the model and to the errors. *)
Lemma parseRelationBlock_spec block m errs :
  exists relation,
    fst (parseRelationBlock block (m, errs)) =
      {| mcd_entities := mcd_entities m;
         mcd_relations := mcd_relations m ++ [relation];
         mcd_inheritances := mcd_inheritances m;
         mcd_associativeEntities := mcd_associativeEntities m |} /\
    rel_name relation = str (name block) /\
    rel_participants relation = flat_map acceptedParticipant (normalizeBodyItems (body block)) /\
    (forall e, In e errs -> In e (snd (parseRelationBlock block (m, errs)))) /\
    (forall item entityName cardinality,
       In item (normalizeBodyItems (body block)) ->
       matchParticipant item = Some (entityName, cardinality) ->
       validCardinality cardinality = None ->
       In (invalidCardinalityError cardinality entityName (name block))
          (snd (parseRelationBlock block (m, errs)))) /\
    (length (rel_participants relation) < 2 ->
     In (tooFewParticipantsError (name block) (length (rel_participants relation)))
        (snd (parseRelationBlock block (m, errs)))).
Proof.
  unfold parseRelationBlock.
  pose proof (parseRelationItems_spec (name block) (normalizeBodyItems (body block))
                {| rel_name := str (name block); rel_participants := [];
                   rel_attributes := [] |} errs) as H.
  cbv zeta in H.
  destruct (foldl _ _ (normalizeBodyItems (body block))) as [relation errs1].
  simpl in H. destruct H as (Hn & Hp & He & Hi).
  exists relation. simpl. split; [reflexivity|]. split; [exact Hn|]. split; [exact Hp|].
  destruct (length (rel_participants relation) <? 2) eqn:Hl; simpl.
  - split; [intros e Hin; apply in_or_app; left; apply He, Hin|].
    split; [intros; apply in_or_app; left; eapply Hi; eauto|].
    intros _. apply in_or_app. right. left. reflexivity.
  - split; [exact He|]. split; [exact Hi|].
    intros Hlt. apply Nat.ltb_ge in Hl. lia.
Qed.

(** ** Errors and relations are only added *)

Lemma parseInheritanceLine_errors st line e :
  In e (snd st) -> In e (snd (parseInheritanceLine st line)).
Proof.
  destruct st as [inh errs]. simpl. intros He. unfold parseInheritanceLine.
  repeat match goal with
         | |- context [if ?b then _ else _] => destruct b
         | |- context [match ?x with _ => _ end] => destruct x
         end; simpl; try exact He.
  apply in_or_app. left. exact He.
Qed.

Lemma parseInheritanceLines_errors lines inh errs e :
  In e errs -> In e (snd (foldl parseInheritanceLine (inh, errs) lines)).
Proof.
  change errs with (snd (inh, errs)) at 1. generalize (inh, errs).
  induction lines as [|l ls IH]; intros st He; simpl; [exact He|].
  apply IH, parseInheritanceLine_errors, He.
Qed.

Lemma parseBlock_mono st block :
  (forall e, In e (snd st) -> In e (snd (parseBlock st block))) /\
  (forall r, In r (mcd_relations (fst st)) ->
             In r (mcd_relations (fst (parseBlock st block)))).
Proof.
  destruct st as [m errs]. unfold parseBlock.
  destruct (String.eqb _ "ENTITY").
  { unfold parseEntityBlock. destruct (isEmpty _); simpl; split; auto.
    intros e He. apply in_or_app. left. exact He. }
  destruct (String.eqb _ "RELATION").
  { destruct (parseRelationBlock_spec block m errs) as (rel & Hm & _ & _ & He & _).
    split; [exact He|]. rewrite Hm. simpl. intros r Hr. apply in_or_app. left. exact Hr. }
  destruct (String.eqb _ "INHERITANCE").
  { unfold parseInheritanceBlock.
    pose proof (parseInheritanceLines_errors (splitLines (body block))
                  {| inh_name := str (name block); inh_parentEntity := EmptyString;
                     inh_childEntities := []; inh_strategy := None |} errs) as Hmono.
    destruct (foldl parseInheritanceLine _ _) as [inh errs1]. simpl in Hmono.
    split; [|auto]. intros e He. specialize (Hmono e He). simpl.
    destruct (truthy _), (isEmpty _); simpl;
      repeat (apply in_or_app; left); exact Hmono. }
  destruct (String.eqb _ "ASSOCIATIVE").
  { unfold parseAssociativeBlock. destruct (matchKeywordName _ _); simpl; split; auto.
    intros e He. apply in_or_app. left. exact He. }
  simpl. split; [|auto]. intros e He. apply in_or_app. left. exact He.
Qed.

Lemma parseBlocks_mono blocks st :
  (forall e, In e (snd st) -> In e (snd (foldl parseBlock st blocks))) /\
  (forall r, In r (mcd_relations (fst st)) ->
             In r (mcd_relations (fst (foldl parseBlock st blocks)))).
Proof.
  revert st. induction blocks as [|b bs IH]; intros st; simpl; [auto|].
  destruct (IH (parseBlock st b)) as [He Hr].
  destruct (parseBlock_mono st b) as [He1 Hr1]. split; auto.
Qed.




(** ** Comment lines *)


Lemma scanLine_skipped line :
  isSkipped (trim line) = true -> scanLine TopLevel line = (TopLevel, []).
Proof. intros H. simpl. rewrite H. reflexivity. Qed.

Lemma extractBlocks_joinLines lines :
  (forall l, In l lines -> containsChar LF l = false) ->
  extractBlocks (joinLines lines) = scan TopLevel lines.
Proof.
  intros Hlf. unfold extractBlocks. destruct lines as [|l ls]; [reflexivity|].
  rewrite splitLines_joinLines; [reflexivity|discriminate|exact Hlf].
Qed.



End McdParserFacts.

(* ================================================================== *)
(** * Facts on the serializers ([main.ts]) and the parsers they feed *)
(* ================================================================== *)

Module SerializerFacts.

Import Js Text Serializer TextFacts.

(** ** Texts that [trim] leaves alone *)

Lemma last_snoc {A} (l : list A) x d : List.last (l ++ [x]) d = x.
Proof.
  induction l as [|a l IH]; [reflexivity|].
  simpl. destruct (l ++ [x]) eqn:E; [destruct l; discriminate|exact IH].
Qed.

Lemma last_append {A} (a b : list A) d : b <> [] -> List.last (a ++ b) d = List.last b d.
Proof.
  intros Hb. destruct (exists_last Hb) as (b' & x & ->).
  rewrite app_assoc, !last_snoc. reflexivity.
Qed.

Lemma trimStart_id s : isSpace (hd (ch " ") s) = false -> trimStart s = s.
Proof.
  unfold trimStart. destruct s as [|c r]; [reflexivity|].
  simpl. intros ->. reflexivity.
Qed.

Lemma trimEnd_id s : isSpace (List.last s (ch " ")) = false -> trimEnd s = s.
Proof.
  unfold trimEnd. destruct s as [|c r] using rev_ind; [reflexivity|].
  rewrite last_snoc, rev_app_distr. simpl. intros ->.
  simpl. rewrite rev_involutive. reflexivity.
Qed.

Lemma trim_id s :
  isSpace (hd (ch " ") s) = false -> isSpace (List.last s (ch " ")) = false -> trim s = s.
Proof.
  intros Hh Hl. unfold trim. rewrite (trimStart_id _ Hh). apply trimEnd_id, Hl.
Qed.

Lemma trim_indent ind s :
  forallb isSpace ind = true ->
  isSpace (hd (ch " ") s) = false -> isSpace (List.last s (ch " ")) = false ->
  trim (ind ++ s) = s.
Proof.
  intros Hi Hh Hl. unfold trim, trimStart.
  rewrite (dropWhile_app _ _ _ Hi).
  fold (trimStart s). rewrite (trimStart_id _ Hh). apply trimEnd_id, Hl.
Qed.

Lemma stripTrailingComma_id s :
  isSpace (List.last s (ch " ")) = false ->
  Ascii.eqb (List.last s (ch " ")) (ch ",") = false ->
  stripTrailingComma s = s.
Proof.
  unfold stripTrailingComma. destruct s as [|c r] using rev_ind; [reflexivity|].
  rewrite last_snoc, rev_app_distr. simpl. intros -> ->. reflexivity.
Qed.

Lemma takeWhile_dropWhile p s : takeWhile p s ++ dropWhile p s = s.
Proof.
  induction s as [|c r IH]; [reflexivity|].
  simpl. destruct (p c); [simpl; rewrite IH|]; reflexivity.
Qed.

Lemma takeWhile_forallb p s : forallb p (takeWhile p s) = true.
Proof.
  induction s as [|c r IH]; [reflexivity|].
  simpl. destruct (p c) eqn:E; [simpl; rewrite E; exact IH|reflexivity].
Qed.

Lemma dropWhile_head p s c r : dropWhile p s = c :: r -> p c = false.
Proof.
  induction s as [|d s IH]; [discriminate|].
  simpl. destruct (p d) eqn:E; [exact IH|].
  intros [= <- _]. exact E.
Qed.

(** A word that is not empty starts a text that [\s*] cannot enter. *)
Lemma dropWhile_space_word w r :
  isWordText w = true -> dropWhile isSpace (w ++ r) = w ++ r.
Proof.
  unfold isWordText. destruct w as [|c w]; [discriminate|].
  simpl. intros [Hc _]%andb_prop. rewrite (isWord_not_space _ Hc). reflexivity.
Qed.

Lemma takeWhile_space_word w r :
  isWordText w = true -> takeWhile isSpace (w ++ r) = [].
Proof.
  unfold isWordText. destruct w as [|c w]; [discriminate|].
  simpl. intros [Hc _]%andb_prop. rewrite (isWord_not_space _ Hc). reflexivity.
Qed.

Lemma isWordText_words w : isWordText w = true -> forallb isWord w = true.
Proof. unfold isWordText. intros [_ H]%andb_prop. exact H. Qed.

Lemma isName_word s : isName s = true -> isWordText (txt s) = true.
Proof. intros H. exact H. Qed.

Lemma word_head w : isWordText w = true -> isSpace (hd (ch " ") w) = false.
Proof.
  unfold isWordText. destruct w as [|c w]; [discriminate|].
  simpl. intros [Hc _]%andb_prop. apply isWord_not_space, Hc.
Qed.

Lemma word_last w :
  isWordText w = true -> isWord (List.last w (ch " ")) = true.
Proof.
  unfold isWordText. destruct w as [|c w] using rev_ind; [discriminate|].
  intros [_ H]%andb_prop. rewrite last_snoc.
  rewrite forallb_app in H. apply andb_prop in H as [_ H].
  simpl in H. rewrite andb_true_r in H. exact H.
Qed.

(** ** The unanchored search *)

Lemma firstMatch_here {A} (m : text -> option A) s r :
  m s = Some r -> firstMatch m s = Some r.
Proof. intros H. destruct s; simpl; rewrite H; reflexivity. Qed.

Lemma firstMatch_next {A} (m : text -> option A) c s :
  m (c :: s) = None -> firstMatch m (c :: s) = firstMatch m s.
Proof. intros H. simpl. rewrite H. reflexivity. Qed.

Lemma firstMatch_found {A} (m : text -> option A) s :
  firstMatch (found m) s = found (firstMatch m) s.
Proof.
  unfold found. induction s as [|c s IH]; simpl.
  - destruct (m []); reflexivity.
  - destruct (m (c :: s)); [reflexivity|exact IH].
Qed.

Section Bracket.

Context {A : Type} (m : text -> option A).

(** Every pattern of the flags starts with an opening bracket. *)
Hypothesis m_empty : m [] = None.
Hypothesis m_bracket : forall c r, Ascii.eqb c (ch "[") = false -> m (c :: r) = None.

Lemma firstMatch_skip a b :
  forallb (fun c => negb (Ascii.eqb c (ch "["))) a = true ->
  firstMatch m (a ++ b) = firstMatch m b.
Proof using m_bracket.
  induction a as [|c a IH]; [reflexivity|].
  simpl app. intros [Hc Ha]%andb_prop.
  rewrite firstMatch_next; [exact (IH Ha)|].
  apply m_bracket. destruct (Ascii.eqb c (ch "[")); [discriminate|reflexivity].
Qed.

End Bracket.

(** ** The flags of a column line *)

Lemma word_no_bracket w :
  forallb isWord w = true -> forallb (fun c => negb (Ascii.eqb c (ch "["))) w = true.
Proof.
  apply forallb_weaken. intros c Hc.
  rewrite (isWord_not_char c (ch "[") Hc); reflexivity.
Qed.

Lemma word_no_terminator w : forallb isWord w = true -> hasLineTerminator w = false.
Proof.
  unfold hasLineTerminator. induction w as [|c w IH]; [reflexivity|].
  simpl. intros [Hc Hw]%andb_prop. rewrite (IH Hw), orb_false_r.
  apply isWord_range in Hc. unfold isLineTerminator. simpl in Hc.
  destruct (Nat.eqb_spec (nat_of_ascii c) 10), (Nat.eqb_spec (nat_of_ascii c) 13);
    simpl; try reflexivity; lia.
Qed.

Lemma checkExpression_inv e :
  isCheckExpression (str e) = true ->
  isEmpty e = false
  /\ forallb (fun c => negb (Ascii.eqb c (ch ")"))) e = true
  /\ forallb (fun c => negb (Ascii.eqb c (ch "["))) e = true
  /\ hasLineTerminator e = false.
Proof.
  unfold isCheckExpression. rewrite txt_str.
  intros [[He Hall]%andb_prop _]%andb_prop. split; [destruct e; [discriminate|reflexivity]|].
  clear He. split; [|split].
  - revert Hall. apply forallb_weaken.
    intros c [[H _]%andb_prop _]%andb_prop. exact H.
  - revert Hall. apply forallb_weaken.
    intros c [[_ H]%andb_prop _]%andb_prop. exact H.
  - unfold hasLineTerminator. induction e as [|c e IH]; [reflexivity|].
    simpl in Hall |- *. apply andb_prop in Hall as [[_ Hc]%andb_prop Hall].
    rewrite (IH Hall), orb_false_r.
    destruct (isLineTerminator c); [discriminate|reflexivity].
Qed.

Lemma actionText_plain a :
  forallb (fun c => negb (Ascii.eqb c (ch "["))) (actionText a) = true
  /\ hasLineTerminator (actionText a) = false.
Proof. destruct a; split; reflexivity. Qed.

Lemma flagText_shape f :
  wellFormedFlag f = true ->
  exists body,
    flagText f = ch "[" :: body
    /\ forallb (fun c => negb (Ascii.eqb c (ch "["))) body = true.
Proof.
  destruct f as [| | |e|tbl col d u]; simpl wellFormedFlag; intros Hf.
  - eexists; split; reflexivity.
  - eexists; split; reflexivity.
  - eexists; split; reflexivity.
  - destruct (checkExpression_inv _ Hf) as (_ & _ & He & _).
    unfold ch in *. eexists; split; [reflexivity|].
    simpl. rewrite forallb_app, He. reflexivity.
  - apply andb_prop in Hf as [Ht Hc].
    apply isWordText_words, word_no_bracket in Ht, Hc.
    pose proof (fun a => proj1 (actionText_plain a)) as Ha.
    unfold ch in *. eexists; split; [reflexivity|].
    simpl. rewrite forallb_app, Ht. simpl. rewrite forallb_app, Hc. simpl.
    destruct d as [d|], u as [u|]; simpl;
      rewrite ?forallb_app, ?Ha; simpl;
      rewrite ?forallb_app, ?Ha; reflexivity.
Qed.

Lemma flagText_last f : List.last (flagText f) (ch " ") = ch "]".
Proof.
  destruct f as [| | |e|tbl col d u]; try reflexivity.
  - unfold flagText. rewrite app_assoc. rewrite last_append; [reflexivity|discriminate].
  - unfold flagText. rewrite !app_assoc. rewrite last_append; [reflexivity|discriminate].
Qed.

Lemma hasLineTerminator_app a b :
  hasLineTerminator (a ++ b) = hasLineTerminator a || hasLineTerminator b.
Proof. apply existsb_app. Qed.

Lemma flagText_line f : wellFormedFlag f = true -> hasLineTerminator (flagText f) = false.
Proof.
  destruct f as [| | |e|tbl col d u]; simpl wellFormedFlag; intros Hf; try reflexivity.
  - destruct (checkExpression_inv _ Hf) as (_ & _ & _ & He).
    unfold flagText. rewrite !hasLineTerminator_app, He. reflexivity.
  - apply andb_prop in Hf as [Ht Hc].
    apply isWordText_words, word_no_terminator in Ht, Hc.
    unfold flagText. rewrite !hasLineTerminator_app, Ht, Hc.
    destruct d as [d|], u as [u|];
      rewrite ?hasLineTerminator_app, ?(proj2 (actionText_plain _)); reflexivity.
Qed.

Lemma joinSpaces_cons x l :
  joinSpaces (x :: l) = x ++ match l with [] => [] | _ => ch " " :: joinSpaces l end.
Proof. destruct l; simpl; [rewrite app_nil_r|]; reflexivity. Qed.

Lemma joinSpaces_head fs :
  forallb wellFormedFlag fs = true ->
  joinSpaces (map flagText fs) = []
  \/ exists r, joinSpaces (map flagText fs) = ch "[" :: r.
Proof.
  destruct fs as [|f fs]; [left; reflexivity|].
  simpl forallb. intros [Hf _]%andb_prop. right.
  simpl map. rewrite joinSpaces_cons.
  destruct (flagText_shape _ Hf) as (body & -> & _).
  eexists. reflexivity.
Qed.

Lemma joinSpaces_last fs :
  fs <> [] -> List.last (joinSpaces (map flagText fs)) (ch " ") = ch "]".
Proof.
  induction fs as [|f fs IH]; [congruence|]. intros _.
  simpl map. rewrite joinSpaces_cons.
  destruct fs as [|g fs]; [rewrite app_nil_r; apply flagText_last|].
  assert (Hne : joinSpaces (map flagText (g :: fs)) <> []).
  { simpl map. rewrite joinSpaces_cons.
    destruct (flagText g) eqn:E; [|discriminate].
    pose proof (flagText_last g) as H. rewrite E in H. discriminate. }
  remember (joinSpaces (map flagText (g :: fs))) as js eqn:Ejs.
  simpl map. cbv iota.
  rewrite last_append by discriminate.
  change (ch " " :: js) with ([ch " "] ++ js).
  rewrite (last_append _ _ _ Hne). apply IH. discriminate.
Qed.

Lemma joinSpaces_line fs :
  forallb wellFormedFlag fs = true ->
  hasLineTerminator (joinSpaces (map flagText fs)) = false.
Proof.
  induction fs as [|f fs IH]; [reflexivity|].
  simpl forallb. intros [Hf Hfs]%andb_prop.
  simpl map. rewrite joinSpaces_cons, hasLineTerminator_app, (flagText_line _ Hf).
  destruct fs as [|g fs]; [reflexivity|].
  remember (joinSpaces (map flagText (g :: fs))) as js eqn:Ejs.
  simpl. apply (IH Hfs).
Qed.

Section Flags.

Context {A : Type} (m : text -> option A) (result : Flag -> option A).

Hypothesis m_empty : m [] = None.
Hypothesis m_bracket : forall c r, Ascii.eqb c (ch "[") = false -> m (c :: r) = None.
Hypothesis m_flag :
  forall f rest,
    wellFormedFlag f = true ->
    rest = [] \/ (exists r, rest = ch " " :: r) ->
    m (flagText f ++ rest) = result f.

(** The search finds the first flag that the pattern accepts. *)
Lemma firstMatch_flags fs :
  forallb wellFormedFlag fs = true ->
  firstMatch m (joinSpaces (map flagText fs)) = firstSome result fs.
Proof using m_empty m_bracket m_flag.
  induction fs as [|f fs IH]; [simpl; rewrite m_empty; reflexivity|].
  simpl forallb. intros [Hf Hfs]%andb_prop.
  simpl map. rewrite joinSpaces_cons. simpl firstSome.
  set (rest := match map flagText fs with [] => [] | _ => ch " " :: joinSpaces (map flagText fs) end).
  assert (Hrest : rest = [] \/ (exists r, rest = ch " " :: r)).
  { subst rest. destruct (map flagText fs); [left; reflexivity|right; eexists; reflexivity]. }
  pose proof (m_flag f rest Hf Hrest) as Hm.
  destruct (result f) as [r|] eqn:Hr; [apply firstMatch_here, Hm|].
  destruct (flagText_shape _ Hf) as (body & Hshape & Hbody).
  rewrite Hshape in Hm |- *. simpl app in Hm |- *.
  rewrite firstMatch_next by exact Hm.
  rewrite (firstMatch_skip m m_bracket _ _ Hbody).
  subst rest. destruct fs as [|g fs]; [simpl; rewrite m_empty; reflexivity|].
  remember (joinSpaces (map flagText (g :: fs))) as js eqn:Ejs.
  simpl map. cbv iota.
  rewrite firstMatch_next by (apply m_bracket; reflexivity).
  apply IH, Hfs.
Qed.

End Flags.

(** ** What each pattern reads in each flag *)

Lemma stripPrefixCI_app lit s : stripPrefixCI lit (lit ++ s) = Some s.
Proof.
  induction lit as [|c lit IH]; [reflexivity|].
  simpl. rewrite Ascii.eqb_refl. exact IH.
Qed.

Lemma lower_bracket c :
  Ascii.eqb c (ch "[") = false ->
  Ascii.eqb (toLowerChar (ch "[")) (toLowerChar c) = false.
Proof.
  intros Hc. change (toLowerChar (ch "[")) with (ch "[").
  unfold toLowerChar. destruct (isUpper c) eqn:U.
  - unfold isUpper in U. apply andb_prop in U as [U1 U2].
    apply Nat.leb_le in U1, U2. apply Ascii.eqb_neq. intros E.
    apply (f_equal nat_of_ascii) in E.
    rewrite nat_ascii_embedding in E by lia.
    change (nat_of_ascii (ch "[")) with 91 in E. lia.
  - rewrite Ascii.eqb_sym. exact Hc.
Qed.

Lemma stripPrefixCI_bracket lit c r :
  Ascii.eqb c (ch "[") = false -> stripPrefixCI (ch "[" :: lit) (c :: r) = None.
Proof.
  intros H.
  change (stripPrefixCI (ch "[" :: lit) (c :: r))
    with (if Ascii.eqb (toLowerChar (ch "[")) (toLowerChar c)
          then stripPrefixCI lit r else None).
  rewrite (lower_bracket _ H). reflexivity.
Qed.

Lemma dropWhile_keep p a b :
  match a with c :: _ => p c | [] => true end = false -> dropWhile p (a ++ b) = a ++ b.
Proof. destruct a as [|c a]; [discriminate|]. simpl. intros ->. reflexivity. Qed.

Lemma takeWhile_keep p a b :
  match a with c :: _ => p c | [] => true end = false -> takeWhile p (a ++ b) = [].
Proof. destruct a as [|c a]; [discriminate|]. simpl. intros ->. reflexivity. Qed.

Lemma isWordText_full w : isWordText w = true -> isEmpty w = false.
Proof. unfold isWordText. destruct w; [discriminate|reflexivity]. Qed.

Lemma literal_bracket (lit : string) c r :
  Ascii.eqb (ch lit) (ch "[") = true ->
  Ascii.eqb c (ch "[") = false ->
  found (stripPrefixCI (txt lit)) (c :: r) = None.
Proof.
  intros Hl Hc. unfold found. destruct lit as [|a lit]; [discriminate|].
  apply Ascii.eqb_eq in Hl. change (ch (String a lit)) with a in Hl. subst a.
  change (txt (String (ch "[") lit)) with (ch "[" :: txt lit).
  rewrite (stripPrefixCI_bracket _ _ _ Hc). reflexivity.
Qed.

Lemma pk_flag f rest : found (stripPrefixCI (txt "[PK]")) (flagText f ++ rest) = pkOf f.
Proof. destruct f; reflexivity. Qed.

Lemma unique_flag f rest :
  found (stripPrefixCI (txt "[UNIQUE]")) (flagText f ++ rest) = uniqueOf f.
Proof. destruct f; reflexivity. Qed.

Lemma notNull_bracket c r :
  Ascii.eqb c (ch "[") = false -> MpdParser.matchNotNullAt (c :: r) = None.
Proof.
  intros Hc. unfold MpdParser.matchNotNullAt.
  change (txt "[NOT") with (ch "[" :: txt "NOT").
  rewrite (stripPrefixCI_bracket _ _ _ Hc). reflexivity.
Qed.

Lemma notNull_flag f rest : MpdParser.matchNotNullAt (flagText f ++ rest) = notNullOf f.
Proof. destruct f; reflexivity. Qed.

Lemma check_bracket c r :
  Ascii.eqb c (ch "[") = false -> MpdParser.matchCheckAt (c :: r) = None.
Proof.
  intros Hc. unfold MpdParser.matchCheckAt.
  change (txt "[CHECK(") with (ch "[" :: txt "CHECK(").
  rewrite (stripPrefixCI_bracket _ _ _ Hc). reflexivity.
Qed.

Lemma check_flag f rest :
  wellFormedFlag f = true -> MpdParser.matchCheckAt (flagText f ++ rest) = checkOf f.
Proof.
  destruct f as [| | |e|tbl col d u]; try reflexivity.
  simpl wellFormedFlag. intros (He & Hp & _ & _)%checkExpression_inv.
  unfold MpdParser.matchCheckAt, flagText.
  rewrite <- !app_assoc, stripPrefixCI_app. cbv beta iota zeta.
  change (txt ")]" ++ rest) with (ch ")" :: ch "]" :: rest).
  rewrite (takeWhile_run _ _ _ _ Hp) by reflexivity.
  rewrite (dropWhile_run _ _ _ _ Hp) by reflexivity.
  rewrite He. reflexivity.
Qed.

Lemma reference_bracket c r :
  Ascii.eqb c (ch "[") = false -> MldParser.matchReference (c :: r) = None.
Proof.
  intros Hc. unfold MldParser.matchReference.
  change (txt "[FK") with (ch "[" :: txt "FK").
  rewrite (stripPrefixCI_bracket _ _ _ Hc). reflexivity.
Qed.

(** The start of a foreign-key flag as the serializers write it. *)
Lemma matchReference_flag tbl col tail :
  isWordText tbl = true -> isWordText col = true ->
  isWord (hd (ch "a") tail) = false ->
  MldParser.matchReference (txt "[FK -> " ++ tbl ++ txt "." ++ col ++ tail)
  = Some (tbl, col, tail).
Proof.
  intros Ht Hc Htail.
  destruct tail as [|x r]; [discriminate|]. simpl in Htail.
  pose proof (isWordText_words _ Ht) as Wt. pose proof (isWordText_words _ Hc) as Wc.
  unfold MldParser.matchReference.
  change (txt "[FK -> " ++ tbl ++ txt "." ++ col ++ x :: r)
    with (txt "[FK" ++ txt " " ++ txt "->" ++ txt " " ++ tbl ++ ch "." :: col ++ x :: r).
  rewrite stripPrefixCI_app. cbv beta iota zeta.
  rewrite (dropWhile_app isSpace (txt " ")) by reflexivity.
  rewrite (dropWhile_keep isSpace (txt "->")) by reflexivity.
  rewrite stripPrefixCI_app. cbv beta iota zeta.
  rewrite (dropWhile_app isSpace (txt " ")) by reflexivity.
  rewrite (dropWhile_space_word _ _ Ht).
  rewrite (takeWhile_run _ _ _ _ Wt) by reflexivity.
  rewrite (dropWhile_run _ _ _ _ Wt) by reflexivity.
  rewrite (takeWhile_run _ _ _ _ Wc Htail), (dropWhile_run _ _ _ _ Wc Htail).
  rewrite (isWordText_full _ Ht), (isWordText_full _ Hc). reflexivity.
Qed.

Lemma mldReference_bracket c r :
  Ascii.eqb c (ch "[") = false -> MldParser.matchForeignKeyAt (c :: r) = None.
Proof.
  intros Hc. unfold MldParser.matchForeignKeyAt.
  rewrite (reference_bracket _ _ Hc). reflexivity.
Qed.

Lemma mldReference_flag f rest :
  wellFormedFlag f = true ->
  MldParser.matchForeignKeyAt (flagText f ++ rest) = mldReferenceOf f.
Proof.
  destruct f as [| | |e|tbl col d u]; try reflexivity.
  simpl wellFormedFlag. intros [Ht Hc]%andb_prop.
  unfold MldParser.matchForeignKeyAt, flagText.
  rewrite <- !app_assoc.
  rewrite (matchReference_flag _ _ _ Ht Hc) by (destruct d, u; reflexivity).
  destruct d, u; reflexivity.
Qed.

Lemma mpdReference_bracket c r :
  Ascii.eqb c (ch "[") = false -> MpdParser.matchForeignKeyAt (c :: r) = None.
Proof.
  intros Hc. unfold MpdParser.matchForeignKeyAt.
  rewrite (reference_bracket _ _ Hc). reflexivity.
Qed.

Lemma mpdReference_flag f rest :
  wellFormedFlag f = true ->
  MpdParser.matchForeignKeyAt (flagText f ++ rest) = mpdReferenceOf f.
Proof.
  destruct f as [| | |e|tbl col d u]; try reflexivity.
  simpl wellFormedFlag. intros [Ht Hc]%andb_prop.
  unfold MpdParser.matchForeignKeyAt, flagText.
  rewrite <- !app_assoc.
  rewrite (matchReference_flag _ _ _ Ht Hc) by (destruct d, u; reflexivity).
  destruct d as [[]|], u as [[]|]; reflexivity.
Qed.

Lemma parseReferentialAction_actionText d :
  MpdParser.parseReferentialAction (option_map actionText d) = d.
Proof. destruct d as [[]|]; reflexivity. Qed.

(** ** The end of a column line *)

Lemma withFlags_suffix def fs : withFlags def (map flagText fs) = def ++ flagSuffix fs.
Proof.
  destruct fs as [|f fs]; [|reflexivity].
  unfold withFlags. simpl. rewrite app_nil_r. reflexivity.
Qed.

Lemma flagSuffix_head fs : flagSuffix fs = [] \/ exists r, flagSuffix fs = ch " " :: r.
Proof. destruct fs; [left|right; eexists]; reflexivity. Qed.

Lemma flagSuffix_flags fs :
  forallb wellFormedFlag fs = true ->
  dropWhile isSpace (flagSuffix fs) = joinSpaces (map flagText fs).
Proof.
  intros Hfs. destruct fs as [|f fs]; [reflexivity|].
  unfold flagSuffix.
  change (dropWhile isSpace (ch " " :: joinSpaces (map flagText (f :: fs))))
    with (dropWhile isSpace (joinSpaces (map flagText (f :: fs)))).
  destruct (joinSpaces_head _ Hfs) as [->|(r & ->)]; reflexivity.
Qed.

Lemma flagSuffix_last fs :
  fs <> [] -> List.last (flagSuffix fs) (ch " ") = ch "]".
Proof.
  intros Hfs. pose proof (joinSpaces_last fs Hfs) as Hl.
  destruct fs as [|f fs]; [congruence|].
  unfold flagSuffix.
  change (ch " " :: joinSpaces (map flagText (f :: fs)))
    with ([ch " "] ++ joinSpaces (map flagText (f :: fs))).
  rewrite last_append; [exact Hl|].
  intros E. rewrite E in Hl. discriminate.
Qed.

(** A line that ends as the serializers end it is left alone by the
    cleaning steps of the column parsers. *)
Lemma line_clean start fs :
  isSpace (hd (ch " ") start) = false ->
  isSpace (List.last start (ch " ")) = false ->
  Ascii.eqb (List.last start (ch " ")) (ch ",") = false ->
  trim (stripTrailingComma (start ++ flagSuffix fs)) = start ++ flagSuffix fs.
Proof.
  intros Hh Hl Hc.
  assert (Hs : start <> []) by (intros ->; discriminate).
  assert (Hlast : isSpace (List.last (start ++ flagSuffix fs) (ch " ")) = false
                  /\ Ascii.eqb (List.last (start ++ flagSuffix fs) (ch " ")) (ch ",") = false).
  { destruct fs as [|f fs].
    - simpl flagSuffix. rewrite app_nil_r. split; assumption.
    - rewrite last_append by discriminate.
      rewrite flagSuffix_last by discriminate. split; reflexivity. }
  destruct Hlast as [H1 H2].
  rewrite (stripTrailingComma_id _ H1 H2).
  apply trim_id; [|exact H1].
  destruct start; [congruence|exact Hh].
Qed.

Lemma hasFlag_found lit flags :
  MldParser.hasFlag lit flags
  = match firstMatch (found (stripPrefixCI (txt lit))) flags with
    | Some _ => true
    | None => false
    end.
Proof.
  rewrite firstMatch_found. unfold MldParser.hasFlag, found.
  destruct (firstMatch _ flags); reflexivity.
Qed.

Lemma hasFlag_flags (lit : string) result fs :
  Ascii.eqb (ch lit) (ch "[") = true ->
  (forall f rest, found (stripPrefixCI (txt lit)) (flagText f ++ rest) = result f) ->
  forallb wellFormedFlag fs = true ->
  MldParser.hasFlag lit (joinSpaces (map flagText fs))
  = match firstSome result fs with Some _ => true | None => false end.
Proof.
  intros Hl Hres Hfs. rewrite hasFlag_found.
  rewrite (firstMatch_flags _ result); try assumption; try reflexivity.
  - unfold found. destruct lit; [discriminate|reflexivity].
  - intros c r Hc. apply literal_bracket; assumption.
  - intros f rest _ _. apply Hres.
Qed.

(** ** A column line of the logical model *)

Lemma matchColumn_line name fs :
  isWordText name = true ->
  forallb wellFormedFlag fs = true ->
  MldParser.matchColumn (name ++ flagSuffix fs)
  = Some (name, joinSpaces (map flagText fs)).
Proof.
  intros Hn Hfs. pose proof (isWordText_words _ Hn) as Wn.
  unfold MldParser.matchColumn.
  assert (Ht : takeWhile isWord (name ++ flagSuffix fs) = name
               /\ dropWhile isWord (name ++ flagSuffix fs) = flagSuffix fs).
  { destruct (flagSuffix_head fs) as [->|(r & ->)].
    - rewrite app_nil_r. split; [apply takeWhile_all|apply dropWhile_all]; exact Wn.
    - split; [apply takeWhile_run|apply dropWhile_run]; try exact Wn; reflexivity. }
  destruct Ht as [-> ->].
  rewrite (flagSuffix_flags _ Hfs), (joinSpaces_line _ Hfs), (isWordText_full _ Hn).
  reflexivity.
Qed.

Lemma word_line_ends w :
  isWordText w = true ->
  isSpace (hd (ch " ") w) = false
  /\ isSpace (List.last w (ch " ")) = false
  /\ Ascii.eqb (List.last w (ch " ")) (ch ",") = false.
Proof.
  intros Hw. pose proof (word_last _ Hw) as Hl.
  split; [apply word_head, Hw|]. split.
  - apply isWord_not_space, Hl.
  - apply isWord_not_char; [exact Hl|reflexivity].
Qed.

Lemma parseMldColumn_line name fs :
  isWordText name = true ->
  forallb wellFormedFlag fs = true ->
  MldParser.parseMldColumn (name ++ flagSuffix fs)
  = Some {| lcol_name := str name;
            lcol_isPrimaryKey :=
              match firstSome pkOf fs with Some _ => true | None => false end;
            lcol_foreignKey :=
              match firstSome mldReferenceOf fs with
              | Some (tbl, col) =>
                  Some {| lfk_columnName := str name;
                          lfk_referencedTable := str tbl;
                          lfk_referencedColumn := str col |}
              | None => None
              end |}.
Proof.
  intros Hn Hfs. unfold MldParser.parseMldColumn.
  destruct (word_line_ends _ Hn) as (H1 & H2 & H3).
  rewrite (line_clean _ _ H1 H2 H3), (matchColumn_line _ _ Hn Hfs).
  rewrite (hasFlag_flags "[PK]" pkOf) by (try reflexivity; try assumption; apply pk_flag).
  rewrite (firstMatch_flags _ mldReferenceOf);
    [reflexivity|reflexivity|apply mldReference_bracket| |exact Hfs].
  intros f rest Hf _. apply mldReference_flag, Hf.
Qed.

Lemma mldColumnLine_flags col :
  mldColumnLine col = txt "    " ++ txt (lcol_name col) ++ flagSuffix (mldFlags col).
Proof.
  unfold mldColumnLine, mldFlags.
  destruct (lcol_isPrimaryKey col), (lcol_foreignKey col) as [fk|];
    unfold withFlags, flagSuffix; simpl; rewrite ?app_nil_r; reflexivity.
Qed.

Lemma mldFlags_wellFormed col :
  wellFormedMldColumn col = true -> forallb wellFormedFlag (mldFlags col) = true.
Proof.
  unfold wellFormedMldColumn, mldFlags. intros [_ Hfk]%andb_prop.
  destruct (lcol_isPrimaryKey col), (lcol_foreignKey col) as [fk|]; try reflexivity;
    apply andb_prop in Hfk as [[_ Ht]%andb_prop Hc];
    apply isName_word in Ht, Hc; simpl; rewrite Ht, Hc; reflexivity.
Qed.

(** The line of a column once trimmed: the indentation is gone. *)
Lemma trim_line start fs :
  isSpace (hd (ch " ") start) = false ->
  isSpace (List.last start (ch " ")) = false ->
  trim (txt "    " ++ start ++ flagSuffix fs) = start ++ flagSuffix fs.
Proof.
  intros H1 H2.
  assert (Hs : start <> []) by (intros ->; discriminate).
  apply trim_indent; [reflexivity| |].
  - destruct start; [congruence|exact H1].
  - destruct fs as [|f fs].
    + simpl flagSuffix. rewrite app_nil_r. exact H2.
    + rewrite last_append by discriminate.
      rewrite flagSuffix_last by discriminate. reflexivity.
Qed.

Lemma trim_mldColumnLine col :
  wellFormedMldColumn col = true ->
  trim (mldColumnLine col) = txt (lcol_name col) ++ flagSuffix (mldFlags col).
Proof.
  unfold wellFormedMldColumn. intros [Hn _]%andb_prop. apply isName_word in Hn.
  destruct (word_line_ends _ Hn) as (H1 & H2 & _).
  rewrite mldColumnLine_flags. apply trim_line; assumption.
Qed.

Lemma parseMldColumn_mldColumnLine col :
  wellFormedMldColumn col = true ->
  MldParser.parseMldColumn (trim (mldColumnLine col)) = Some col.
Proof.
  intros Hcol. pose proof (mldFlags_wellFormed _ Hcol) as Hfs.
  rewrite (trim_mldColumnLine _ Hcol).
  unfold wellFormedMldColumn in Hcol. apply andb_prop in Hcol as [Hn Hfk].
  apply isName_word in Hn.
  rewrite (parseMldColumn_line _ _ Hn Hfs). rewrite str_txt.
  destruct col as [name pk [[cn tbl c]|]]; simpl in *.
  - apply andb_prop in Hfk as [[Hcn _]%andb_prop _].
    apply String.eqb_eq in Hcn. subst cn.
    destruct pk; simpl; rewrite !str_txt; reflexivity.
  - destruct pk; reflexivity.
Qed.

(** ** The generated text and its lines *)

Lemma joinLines_snoc l x : l <> [] -> joinLines (l ++ [x]) = joinLines l ++ LF :: x.
Proof.
  induction l as [|a l IH]; [congruence|]. intros _.
  destruct l as [|b l]; [reflexivity|].
  change (joinLines ((a :: b :: l) ++ [x])) with (a ++ LF :: joinLines ((b :: l) ++ [x])).
  rewrite IH by discriminate.
  change (joinLines (a :: b :: l)) with (a ++ LF :: joinLines (b :: l)).
  rewrite <- app_assoc. reflexivity.
Qed.

Lemma generated_trim hdr body :
  isSpace (hd (ch " ") hdr) = false ->
  trim (joinLines ((hdr :: body ++ [txt "}"]) ++ [[]])) = joinLines (hdr :: body ++ [txt "}"]).
Proof.
  intros Hh. rewrite joinLines_snoc by discriminate.
  assert (Hhdr : hdr <> []) by (intros ->; discriminate).
  set (J := joinLines (hdr :: body ++ [txt "}"])).
  assert (HJ : isSpace (hd (ch " ") J) = false).
  { subst J. destruct (body ++ [txt "}"]) as [|b l] eqn:E; [destruct body; discriminate|].
    change (joinLines (hdr :: b :: l)) with (hdr ++ LF :: joinLines (b :: l)).
    destruct hdr; [congruence|exact Hh]. }
  assert (HL : List.last J (ch " ") = ch "}").
  { subst J. change (hdr :: body ++ [txt "}"]) with ((hdr :: body) ++ [txt "}"]).
    rewrite joinLines_snoc by discriminate.
    change (LF :: txt "}") with ([LF] ++ txt "}").
    rewrite app_assoc, last_append; [reflexivity|discriminate]. }
  assert (HJne : J <> []) by (intros E; rewrite E in HL; discriminate).
  unfold trim. rewrite trimStart_id.
  - unfold trimEnd. rewrite rev_app_distr.
    change (dropWhile isSpace (rev [LF] ++ rev J)) with (dropWhile isSpace (rev J)).
    fold (trimEnd J). apply trimEnd_id. rewrite HL. reflexivity.
  - destruct J; [congruence|exact HJ].
Qed.

Section Lines.

Context {T : Type} (lines : T -> list text) (header : T -> text) (columns : T -> list text).

Hypothesis lines_eq : forall t, lines t = header t :: columns t ++ [txt "}"; []].

Lemma lines_shape ts :
  ts <> [] ->
  exists t body, In t ts /\ flat_map lines ts = (header t :: body ++ [txt "}"]) ++ [[]].
Proof using lines_eq.
  induction ts as [|t ts IH]; [congruence|]. intros _.
  destruct ts as [|u ts].
  - exists t, (columns t). split; [left; reflexivity|].
    simpl. rewrite app_nil_r, lines_eq.
    change (header t :: columns t ++ [txt "}"; []])
      with (header t :: columns t ++ [txt "}"] ++ [[]]).
    rewrite app_assoc. reflexivity.
  - destruct IH as (v & body & Hv & E); [discriminate|].
    exists t, (columns t ++ [txt "}"; []] ++ header v :: body).
    split; [left; reflexivity|].
    change (flat_map lines (t :: u :: ts)) with (lines t ++ flat_map lines (u :: ts)).
    rewrite E, lines_eq. simpl. f_equal.
    rewrite <- !app_assoc. reflexivity.
Qed.

(** The text written for the tables splits back into their lines,
    the last empty line apart. *)
Lemma generated_lines ts :
  ts <> [] ->
  (forall t, In t ts -> isSpace (hd (ch " ") (header t)) = false) ->
  (forall t l, In t ts -> In l (lines t) -> containsChar LF l = false) ->
  exists body,
    flat_map lines ts = body ++ [[]]
    /\ splitLines (trim (joinLines (flat_map lines ts))) = body.
Proof using lines_eq.
  intros Hts Hhead HLF.
  destruct (lines_shape ts Hts) as (t & body & Ht & E).
  exists (header t :: body ++ [txt "}"]). split; [exact E|].
  rewrite E, (generated_trim _ _ (Hhead t Ht)).
  apply splitLines_joinLines; [discriminate|].
  intros l Hl.
  assert (Hin : In l (flat_map lines ts)) by (rewrite E; apply in_or_app; left; exact Hl).
  apply in_flat_map in Hin as (u & Hu & Hlu). exact (HLF u l Hu Hlu).
Qed.

End Lines.

Lemma word_no_LF w : forallb isWord w = true -> containsChar LF w = false.
Proof.
  unfold containsChar. induction w as [|c w IH]; [reflexivity|].
  intros [Hc Hw]%andb_prop.
  change (Ascii.eqb LF c || existsb (Ascii.eqb LF) w = false).
  rewrite (IH Hw), orb_false_r, Ascii.eqb_sym.
  apply isWord_not_char; [exact Hc|reflexivity].
Qed.

Lemma line_no_LF s : hasLineTerminator s = false -> containsChar LF s = false.
Proof.
  unfold hasLineTerminator, containsChar. induction s as [|c s IH]; [reflexivity|].
  intros [Hc Hs]%orb_false_elim.
  change (Ascii.eqb LF c || existsb (Ascii.eqb LF) s = false).
  rewrite (IH Hs), orb_false_r.
  destruct (Ascii.eqb_spec LF c) as [<-|]; [discriminate|reflexivity].
Qed.

Lemma containsChar_app c a b : containsChar c (a ++ b) = containsChar c a || containsChar c b.
Proof. apply existsb_app. Qed.

Lemma flagSuffix_no_LF fs :
  forallb wellFormedFlag fs = true -> containsChar LF (flagSuffix fs) = false.
Proof.
  intros Hfs. destruct fs as [|f fs]; [reflexivity|].
  unfold flagSuffix.
  change (containsChar LF (ch " " :: joinSpaces (map flagText (f :: fs))))
    with (containsChar LF (joinSpaces (map flagText (f :: fs)))).
  apply line_no_LF, joinSpaces_line, Hfs.
Qed.

Lemma header_no_LF name :
  isWordText name = true -> containsChar LF (txt "TABLE " ++ name ++ txt " {") = false.
Proof.
  intros Hn. rewrite !containsChar_app, (word_no_LF _ (isWordText_words _ Hn)).
  reflexivity.
Qed.

(** The header of a table as the serializers write it. *)
Lemma matchTableHeader_header name :
  isWordText name = true ->
  MldParser.matchTableHeader (trim (txt "TABLE " ++ name ++ txt " {")) = Some name.
Proof.
  intros Hn. pose proof (isWordText_words _ Hn) as Wn.
  rewrite trim_id; [|reflexivity|].
  2:{ rewrite !app_assoc, last_append; [reflexivity|discriminate]. }
  unfold MldParser.matchTableHeader.
  change (txt "TABLE " ++ name ++ txt " {")
    with (txt "TABLE" ++ txt " " ++ name ++ ch " " :: txt "{").
  rewrite stripPrefixCI_app. cbv beta iota zeta.
  rewrite (takeWhile_app isSpace (txt " ")) by reflexivity.
  rewrite (dropWhile_app isSpace (txt " ")) by reflexivity.
  rewrite (takeWhile_space_word _ _ Hn), (dropWhile_space_word _ _ Hn).
  rewrite (takeWhile_run _ _ _ _ Wn) by reflexivity.
  rewrite (dropWhile_run _ _ _ _ Wn) by reflexivity.
  rewrite (isWordText_full _ Hn). reflexivity.
Qed.

(** ** The logical model, line by line *)

Lemma mld_parseLine_empty st : MldParser.parseLine st [] = st.
Proof. destruct st as [ts es [t|]]; reflexivity. Qed.

Lemma mld_parseLine_header acc name :
  isName name = true ->
  MldParser.parseLine
    {| MldParser.tables := acc; MldParser.errs := []; MldParser.open := None |}
    (txt "TABLE " ++ txt name ++ txt " {")
  = {| MldParser.tables := acc; MldParser.errs := [];
       MldParser.open := Some {| ltab_name := name; ltab_columns := [] |} |}.
Proof.
  intros Hn. unfold MldParser.parseLine. simpl MldParser.open.
  rewrite (matchTableHeader_header _ (isName_word _ Hn)), str_txt. reflexivity.
Qed.

Lemma word_line_open w r :
  isWordText w = true ->
  String.eqb (str (w ++ r)) "}" = false /\ isEmpty (w ++ r) = false
  /\ startsWith (w ++ r) (txt "}") = false.
Proof.
  unfold isWordText. destruct w as [|c w]; [discriminate|].
  intros [_ [Hc _]%andb_prop]%andb_prop.
  assert (Ascii.eqb c (ch "}") = false) as E by (apply isWord_not_char; [exact Hc|reflexivity]).
  split; [|split; [reflexivity|]].
  - change (Ascii.eqb c (ch "}") && String.eqb (str (w ++ r)) EmptyString = false).
    rewrite E. reflexivity.
  - change (Ascii.eqb (ch "}") c && startsWith (w ++ r) [] = false).
    rewrite Ascii.eqb_sym, E. reflexivity.
Qed.

Lemma mld_parseLine_column acc t col :
  wellFormedMldColumn col = true ->
  MldParser.parseLine
    {| MldParser.tables := acc; MldParser.errs := []; MldParser.open := Some t |}
    (mldColumnLine col)
  = {| MldParser.tables := acc; MldParser.errs := [];
       MldParser.open := Some (MldParser.pushColumn t col) |}.
Proof.
  intros Hcol. unfold MldParser.parseLine. simpl MldParser.open.
  rewrite (parseMldColumn_mldColumnLine _ Hcol), (trim_mldColumnLine _ Hcol).
  unfold wellFormedMldColumn in Hcol. apply andb_prop in Hcol as [Hn _].
  destruct (word_line_open _ (flagSuffix (mldFlags col)) (isName_word _ Hn)) as (-> & -> & _).
  reflexivity.
Qed.

Lemma mld_parseLine_columns acc name pre cols :
  forallb wellFormedMldColumn cols = true ->
  foldl MldParser.parseLine
    {| MldParser.tables := acc; MldParser.errs := [];
       MldParser.open := Some {| ltab_name := name; ltab_columns := pre |} |}
    (map mldColumnLine cols)
  = {| MldParser.tables := acc; MldParser.errs := [];
       MldParser.open := Some {| ltab_name := name; ltab_columns := pre ++ cols |} |}.
Proof.
  revert pre. induction cols as [|c cols IH]; intros pre Hcols.
  - rewrite app_nil_r. reflexivity.
  - simpl in Hcols. apply andb_prop in Hcols as [Hc Hcols].
    simpl map. simpl foldl. rewrite (mld_parseLine_column _ _ _ Hc).
    unfold MldParser.pushColumn. simpl.
    rewrite (IH _ Hcols), <- app_assoc. reflexivity.
Qed.

Lemma mld_parseLine_table acc t :
  isName (ltab_name t) = true ->
  forallb wellFormedMldColumn (ltab_columns t) = true ->
  foldl MldParser.parseLine
    {| MldParser.tables := acc; MldParser.errs := []; MldParser.open := None |}
    (mldTableLines t)
  = {| MldParser.tables := acc ++ [t]; MldParser.errs := []; MldParser.open := None |}.
Proof.
  intros Hn Hcols. unfold mldTableLines.
  rewrite !foldl_app. simpl foldl at 3.
  rewrite (mld_parseLine_header _ _ Hn), (mld_parseLine_columns _ _ _ _ Hcols).
  destruct t as [name cols]. reflexivity.
Qed.

Lemma mld_parseLine_tables acc ts :
  forallb (fun t => isName (ltab_name t) && forallb wellFormedMldColumn (ltab_columns t)) ts
  = true ->
  foldl MldParser.parseLine
    {| MldParser.tables := acc; MldParser.errs := []; MldParser.open := None |}
    (flat_map mldTableLines ts)
  = {| MldParser.tables := acc ++ ts; MldParser.errs := []; MldParser.open := None |}.
Proof.
  revert acc. induction ts as [|t ts IH]; intros acc Hts.
  - rewrite app_nil_r. reflexivity.
  - simpl in Hts. apply andb_prop in Hts as [[Hn Hc]%andb_prop Hts].
    change (flat_map mldTableLines (t :: ts))
      with (mldTableLines t ++ flat_map mldTableLines ts).
    rewrite foldl_app, (mld_parseLine_table _ _ Hn Hc), (IH _ Hts).
    rewrite <- app_assoc. reflexivity.
Qed.

Lemma mldColumnLine_no_LF col :
  wellFormedMldColumn col = true -> containsChar LF (mldColumnLine col) = false.
Proof.
  intros Hcol. rewrite mldColumnLine_flags, !containsChar_app.
  rewrite (flagSuffix_no_LF _ (mldFlags_wellFormed _ Hcol)).
  unfold wellFormedMldColumn in Hcol. apply andb_prop in Hcol as [Hn _].
  rewrite (word_no_LF _ (isWordText_words _ (isName_word _ Hn))). reflexivity.
Qed.

Lemma parseMld_generateMldText m :
  wellFormedMld m = true ->
  MldParser.parseMld (generateMldText m)
  = {| MldParser.model := m; MldParser.errors := [] |}.
Proof.
  destruct m as [ts]. unfold wellFormedMld. simpl mld_tables. intros Hts.
  destruct ts as [|t0 ts0] eqn:Ets; [reflexivity|]. rewrite <- Ets in *.
  assert (Hne : ts <> []) by (subst ts; discriminate). clear Ets t0 ts0.
  unfold MldParser.parseMld, generateMldText, MldParser.parseLines. simpl mld_tables.
  rewrite forallb_forall in Hts.
  destruct (generated_lines mldTableLines
              (fun t => txt "TABLE " ++ txt (ltab_name t) ++ txt " {")
              (fun t => map mldColumnLine (ltab_columns t))
              (fun t => eq_refl) ts Hne) as (body & Hbody & ->).
  - intros t _. reflexivity.
  - intros t l Ht Hl. apply Hts in Ht. apply andb_prop in Ht as [Hn Hc].
    unfold mldTableLines in Hl. apply in_app_or in Hl as [Hl|Hl].
    + destruct Hl as [<-|[]]. apply header_no_LF, isName_word, Hn.
    + apply in_app_or in Hl as [Hl|Hl].
      * apply in_map_iff in Hl as (c & <- & Hin).
        rewrite forallb_forall in Hc. apply mldColumnLine_no_LF, Hc, Hin.
      * destruct Hl as [<-|[<-|[]]]; reflexivity.
  - assert (Hfold : foldl MldParser.parseLine
                      {| MldParser.tables := []; MldParser.errs := []; MldParser.open := None |}
                      body
                    = {| MldParser.tables := ts; MldParser.errs := [];
                         MldParser.open := None |}).
    { pose proof (mld_parseLine_tables [] ts (proj2 (forallb_forall _ _) Hts)) as H.
      rewrite Hbody, foldl_app in H. cbn [foldl] in H.
      rewrite mld_parseLine_empty in H. exact H. }
    rewrite Hfold. reflexivity.
Qed.


(** ** A column line of the physical model *)

Lemma isSizeSuffix_inv size :
  isSizeSuffix size = true ->
  size = []
  \/ exists d1 mid,
       size = ch "(" :: d1 ++ mid ++ [ch ")"]
       /\ isEmpty d1 = false /\ forallb isDigit d1 = true
       /\ (mid = []
           \/ exists d2, mid = ch "," :: d2 /\ isEmpty d2 = false
                         /\ forallb isDigit d2 = true).
Proof.
  destruct size as [|o r1]; [left; reflexivity|]. right.
  unfold isSizeSuffix in H.
  apply andb_prop in H as [[Ho Hd1]%andb_prop H].
  apply Ascii.eqb_eq in Ho. subst o.
  pose proof (takeWhile_dropWhile isDigit r1) as E1.
  pose proof (takeWhile_forallb isDigit r1) as F1.
  destruct (dropWhile isDigit r1) as [|c [|c' t]] eqn:Et; [discriminate| |].
  - apply Ascii.eqb_eq in H. subst c.
    exists (takeWhile isDigit r1), []. rewrite <- E1 at 1.
    repeat split; [|exact F1|left; reflexivity].
    destruct (takeWhile isDigit r1); [discriminate|reflexivity].
  - apply andb_prop in H as [[Hc Hd2]%andb_prop H].
    apply Ascii.eqb_eq in Hc. subst c.
    pose proof (takeWhile_dropWhile isDigit (c' :: t)) as E2.
    pose proof (takeWhile_forallb isDigit (c' :: t)) as F2.
    destruct (dropWhile isDigit (c' :: t)) as [|c2 [|]] eqn:Et2; try discriminate.
    apply Ascii.eqb_eq in H. subst c2.
    exists (takeWhile isDigit r1), (ch "," :: takeWhile isDigit (c' :: t)).
    split; [|split; [|split; [exact F1|]]].
    + rewrite <- E1 at 1. rewrite <- E2 at 1. reflexivity.
    + destruct (takeWhile isDigit r1); [discriminate|reflexivity].
    + right. eexists. split; [reflexivity|]. split; [|exact F2].
      destruct (takeWhile isDigit (c' :: t)); [discriminate|reflexivity].
Qed.

Lemma matchSize_suffix size rest :
  isSizeSuffix size = true ->
  rest = [] \/ (exists r, rest = ch " " :: r) ->
  MpdParser.matchSize (size ++ rest) = (size, rest).
Proof.
  intros Hs Hrest.
  destruct (isSizeSuffix_inv _ Hs) as [->|(d1 & mid & -> & N1 & F1 & Hmid)].
  - destruct Hrest as [->|(r & ->)]; reflexivity.
  - unfold MpdParser.matchSize.
    change ((ch "(" :: d1 ++ mid ++ [ch ")"]) ++ rest)
      with (ch "(" :: (d1 ++ mid ++ [ch ")"]) ++ rest).
    cbv beta iota zeta.
    destruct Hmid as [->|(d2 & -> & N2 & F2)].
    + change ((d1 ++ [] ++ [ch ")"]) ++ rest) with ((d1 ++ [ch ")"]) ++ rest).
      rewrite <- app_assoc.
      change ([ch ")"] ++ rest) with (ch ")" :: rest).
      rewrite (takeWhile_run _ _ _ _ F1) by reflexivity.
      rewrite (dropWhile_run _ _ _ _ F1) by reflexivity.
      rewrite N1. reflexivity.
    + rewrite <- !app_assoc.
      change ((ch "," :: d2) ++ [ch ")"] ++ rest) with (ch "," :: d2 ++ ch ")" :: rest).
      rewrite (takeWhile_run _ _ _ _ F1) by reflexivity.
      rewrite (dropWhile_run _ _ _ _ F1) by reflexivity.
      rewrite N1. cbv beta iota zeta.
      change (Ascii.eqb (ch "(") (ch "(") && negb false) with true. cbv iota.
      change (Ascii.eqb (ch ",") (ch ")")) with false. cbv iota.
      change (Ascii.eqb (ch ",") (ch ",")) with true. cbv iota.
      rewrite (takeWhile_run _ _ _ _ F2) by reflexivity.
      rewrite (dropWhile_run _ _ _ _ F2) by reflexivity.
      rewrite N2.
      change ((ch "," :: d2) ++ [ch ")"]) with (ch "," :: d2 ++ [ch ")"]).
      reflexivity.
Qed.

Lemma isSizeSuffix_last size :
  isSizeSuffix size = true -> size <> [] -> List.last size (ch " ") = ch ")".
Proof.
  intros Hs Hne.
  destruct (isSizeSuffix_inv _ Hs) as [->|(d1 & mid & -> & _)]; [congruence|].
  change (ch "(" :: d1 ++ mid ++ [ch ")"]) with ((ch "(" :: d1) ++ mid ++ [ch ")"]).
  rewrite !app_assoc. apply last_snoc.
Qed.

Lemma isSizeSuffix_head size :
  isSizeSuffix size = true -> isWord (hd (ch " ") size) = false.
Proof.
  intros Hs.
  destruct (isSizeSuffix_inv _ Hs) as [->|(d1 & mid & -> & _)]; reflexivity.
Qed.

Lemma takeWhile_stop p a b d :
  forallb p a = true -> p d = false -> p (hd d b) = false -> takeWhile p (a ++ b) = a.
Proof.
  intros Ha Hd Hb. destruct b as [|c r].
  - rewrite app_nil_r. apply takeWhile_all, Ha.
  - apply takeWhile_run; assumption.
Qed.

Lemma dropWhile_stop p a b d :
  forallb p a = true -> p d = false -> p (hd d b) = false -> dropWhile p (a ++ b) = b.
Proof.
  intros Ha Hd Hb. destruct b as [|c r].
  - rewrite app_nil_r. apply dropWhile_all, Ha.
  - apply dropWhile_run; assumption.
Qed.

(** A type of the grammar: its word and its size. *)
Lemma isSqlType_inv s :
  isSqlType s = true ->
  exists w size,
    txt s = w ++ size /\ isWordText w = true /\ isSizeSuffix size = true.
Proof.
  unfold isSqlType. intros [Hw Hs]%andb_prop.
  exists (takeWhile isWord (txt s)), (dropWhile isWord (txt s)).
  split; [symmetry; apply takeWhile_dropWhile|]. split; [|exact Hs].
  unfold isWordText. rewrite Hw, takeWhile_forallb. reflexivity.
Qed.

Lemma sqlType_last w size :
  isWordText w = true -> isSizeSuffix size = true ->
  isSpace (List.last (w ++ size) (ch " ")) = false
  /\ Ascii.eqb (List.last (w ++ size) (ch " ")) (ch ",") = false.
Proof.
  intros Hw Hs. destruct size as [|o r] eqn:E.
  - rewrite app_nil_r. destruct (word_line_ends _ Hw) as (_ & H2 & H3). split; assumption.
  - rewrite <- E in *. rewrite last_append by (subst; discriminate).
    rewrite (isSizeSuffix_last _ Hs) by (subst; discriminate). split; reflexivity.
Qed.

Lemma suffix_head_plain fs : isWord (hd (ch " ") (flagSuffix fs)) = false.
Proof. destruct fs; reflexivity. Qed.

Lemma matchBase_line name w size fs :
  isWordText name = true -> isWordText w = true -> isSizeSuffix size = true ->
  forallb wellFormedFlag fs = true ->
  MpdParser.matchBase (name ++ ch " " :: (w ++ size) ++ flagSuffix fs)
  = Some (name, w ++ size, joinSpaces (map flagText fs)).
Proof.
  intros Hn Hw Hs Hfs.
  pose proof (isWordText_words _ Hn) as Wn. pose proof (isWordText_words _ Hw) as Ww.
  unfold MpdParser.matchBase.
  rewrite (takeWhile_run _ _ _ _ Wn) by reflexivity.
  rewrite (dropWhile_run _ _ _ _ Wn) by reflexivity.
  change (ch " " :: (w ++ size) ++ flagSuffix fs)
    with (txt " " ++ (w ++ size) ++ flagSuffix fs).
  rewrite (takeWhile_app isSpace (txt " ")) by reflexivity.
  rewrite (dropWhile_app isSpace (txt " ")) by reflexivity.
  rewrite <- !app_assoc.
  rewrite (takeWhile_space_word _ _ Hw), (dropWhile_space_word _ _ Hw).
  assert (Htail : isWord (hd (ch " ") (size ++ flagSuffix fs)) = false).
  { destruct size as [|o r] eqn:E; [apply suffix_head_plain|].
    rewrite <- E in *.
    pose proof (isSizeSuffix_head _ Hs) as H. subst size. exact H. }
  rewrite (takeWhile_stop _ _ _ (ch " ") Ww eq_refl Htail).
  rewrite (dropWhile_stop _ _ _ (ch " ") Ww eq_refl Htail).
  rewrite (matchSize_suffix _ _ Hs (flagSuffix_head fs)).
  rewrite (flagSuffix_flags _ Hfs), (joinSpaces_line _ Hfs).
  rewrite (isWordText_full _ Hn), (isWordText_full _ Hw). reflexivity.
Qed.

Lemma parseMpdColumn_line name w size fs tableName :
  isWordText name = true -> isWordText w = true -> isSizeSuffix size = true ->
  forallb wellFormedFlag fs = true ->
  MpdParser.parseMpdColumn (name ++ ch " " :: (w ++ size) ++ flagSuffix fs) tableName
  = inl {| pcol_name := str name;
           pcol_sqlType := str (w ++ size);
           pcol_isPrimaryKey :=
             match firstSome pkOf fs with Some _ => true | None => false end;
           pcol_foreignKey :=
             match firstSome mpdReferenceOf fs with
             | Some (tbl, col, d, u) =>
                 Some {| pfk_columnName := str name;
                         pfk_referencedTable := str tbl;
                         pfk_referencedColumn := str col;
                         pfk_onDelete := MpdParser.parseReferentialAction d;
                         pfk_onUpdate := MpdParser.parseReferentialAction u |}
             | None => None
             end;
           pcol_constraints :=
             (match firstSome notNullOf fs with
              | Some _ => [ {| con_type := NOT_NULL; con_expression := None |} ]
              | None => []
              end)
             ++ (match firstSome uniqueOf fs with
                 | Some _ => [ {| con_type := UNIQUE; con_expression := None |} ]
                 | None => []
                 end)
             ++ (match firstSome checkOf fs with
                 | Some e => [ {| con_type := CHECK; con_expression := Some (str e) |} ]
                 | None => []
                 end) |}.
Proof.
  intros Hn Hw Hs Hfs. unfold MpdParser.parseMpdColumn.
  assert (Hclean : trim (stripTrailingComma (name ++ ch " " :: (w ++ size) ++ flagSuffix fs))
                   = name ++ ch " " :: (w ++ size) ++ flagSuffix fs).
  { change (name ++ ch " " :: (w ++ size) ++ flagSuffix fs)
      with (name ++ (ch " " :: w ++ size) ++ flagSuffix fs).
    rewrite app_assoc.
    destruct (sqlType_last _ _ Hw Hs) as [H2 H3].
    assert (Hne : ch " " :: w ++ size <> []) by discriminate.
    apply line_clean.
    - destruct name; [discriminate|]. apply (word_head _ Hn).
    - rewrite last_append by exact Hne.
      change (ch " " :: w ++ size) with ([ch " "] ++ (w ++ size)).
      rewrite last_append; [exact H2|]. destruct w; discriminate.
    - rewrite last_append by exact Hne.
      change (ch " " :: w ++ size) with ([ch " "] ++ (w ++ size)).
      rewrite last_append; [exact H3|]. destruct w; discriminate. }
  rewrite Hclean, (matchBase_line _ _ _ _ Hn Hw Hs Hfs).
  rewrite (hasFlag_flags "[PK]" pkOf) by (try reflexivity; try assumption; apply pk_flag).
  rewrite (hasFlag_flags "[UNIQUE]" uniqueOf)
    by (try reflexivity; try assumption; apply unique_flag).
  rewrite (firstMatch_flags _ notNullOf);
    [|reflexivity|apply notNull_bracket|intros; apply notNull_flag|exact Hfs].
  rewrite (firstMatch_flags _ checkOf);
    [|reflexivity|apply check_bracket|intros; apply check_flag; assumption|exact Hfs].
  rewrite (firstMatch_flags _ mpdReferenceOf);
    [|reflexivity|apply mpdReference_bracket
     |intros; apply mpdReference_flag; assumption|exact Hfs].
  destruct (firstSome notNullOf fs), (firstSome uniqueOf fs), (firstSome checkOf fs);
    simpl; rewrite ?app_nil_r; reflexivity.
Qed.

Lemma checkExpression_truthy e : isCheckExpression e = true -> truthy e = true.
Proof.
  unfold isCheckExpression, truthy. intros [[He _]%andb_prop _]%andb_prop.
  destruct e; [discriminate|reflexivity].
Qed.

(** The constraints that the parser can give back. *)
Lemma canonicalConstraints_inv cs :
  canonicalConstraints cs = true ->
  exists (nn uq : bool) (ck : option string),
    cs = (if nn then [ {| con_type := NOT_NULL; con_expression := None |} ] else [])
         ++ (if uq then [ {| con_type := UNIQUE; con_expression := None |} ] else [])
         ++ match ck with
            | Some e => [ {| con_type := CHECK; con_expression := Some e |} ]
            | None => []
            end
    /\ match ck with Some e => isCheckExpression e = true | None => True end.
Proof.
  intros H.
  destruct cs as [|[t1 e1] [|[t2 e2] [|[t3 e3] [|c4 r]]]];
    try destruct t1; try destruct e1 as [e1|];
    try destruct t2; try destruct e2 as [e2|];
    try destruct t3; try destruct e3 as [e3|];
    try discriminate H;
    cbn in H; try discriminate H;
    first
      [ exists false, false, None; split; [reflexivity|exact I]
      | exists true, false, None; split; [reflexivity|exact I]
      | exists false, true, None; split; [reflexivity|exact I]
      | exists true, true, None; split; [reflexivity|exact I]
      | exists false, false, (Some e1); split; [reflexivity|exact H]
      | exists true, false, (Some e2); split; [reflexivity|exact H]
      | exists false, true, (Some e2); split; [reflexivity|exact H]
      | exists true, true, (Some e3); split; [reflexivity|exact H] ].
Qed.

Lemma constraintFlags_flags cs :
  flat_map constraintFlags cs = map flagText (flat_map constraintFlag cs).
Proof.
  induction cs as [|c cs IH]; [reflexivity|].
  change (flat_map constraintFlags (c :: cs))
    with (constraintFlags c ++ flat_map constraintFlags cs).
  change (flat_map constraintFlag (c :: cs))
    with (constraintFlag c ++ flat_map constraintFlag cs).
  rewrite map_app, IH. f_equal.
  unfold constraintFlags, constraintFlag.
  destruct (con_type c); try reflexivity.
  destruct (con_expression c) as [e|]; [|reflexivity].
  destruct (truthy e); reflexivity.
Qed.

Lemma mpdColumnLine_flags col :
  mpdColumnLine col
  = txt "    " ++ (txt (pcol_name col) ++ ch " " :: txt (pcol_sqlType col))
    ++ flagSuffix (mpdFlags col).
Proof.
  unfold mpdColumnLine, mpdFlags. cbv zeta.
  rewrite constraintFlags_flags.
  set (def := txt "    " ++ txt (pcol_name col) ++ txt " " ++ txt (pcol_sqlType col)).
  assert (Hdef : txt "    " ++ (txt (pcol_name col) ++ ch " " :: txt (pcol_sqlType col))
                 ++ flagSuffix (mpdFlags col) = def ++ flagSuffix (mpdFlags col)).
  { subst def. rewrite <- !app_assoc. reflexivity. }
  unfold mpdFlags in Hdef. rewrite Hdef. rewrite <- withFlags_suffix.
  f_equal. rewrite !map_app.
  destruct (pcol_isPrimaryKey col), (pcol_foreignKey col) as [fk|];
    simpl; rewrite ?app_nil_r; try reflexivity; rewrite <- ?app_assoc; reflexivity.
Qed.

Lemma parseMpdColumn_mpdColumnLine col tableName :
  wellFormedMpdColumn col = true ->
  trim (mpdColumnLine col)
  = txt (pcol_name col) ++ ch " " :: txt (pcol_sqlType col) ++ flagSuffix (mpdFlags col)
  /\ forallb wellFormedFlag (mpdFlags col) = true
  /\ MpdParser.parseMpdColumn (trim (mpdColumnLine col)) tableName = inl col.
Proof.
  unfold wellFormedMpdColumn.
  intros [[[Hn Hty]%andb_prop Hcs]%andb_prop Hfk]%andb_prop.
  apply isName_word in Hn.
  destruct (isSqlType_inv _ Hty) as (w & size & Ety & Hw & Hs).
  destruct (canonicalConstraints_inv _ Hcs) as (nn & uq & ck & Ecs & Hck).
  assert (Htruthy : match ck with Some e => truthy e = true | None => True end).
  { destruct ck as [e|]; [apply checkExpression_truthy, Hck|exact I]. }
  assert (Hfs : forallb wellFormedFlag (mpdFlags col) = true).
  { unfold mpdFlags. rewrite Ecs.
    destruct (pcol_isPrimaryKey col), nn, uq, ck as [e|], (pcol_foreignKey col) as [fk|];
      cbv iota in Hck, Htruthy;
      unfold constraintFlag; simpl; rewrite ?Htruthy; simpl; rewrite ?str_txt, ?Hck;
      try reflexivity;
      apply andb_prop in Hfk as [[_ Ht]%andb_prop Hc];
      apply isName_word in Ht, Hc; rewrite Ht, Hc; reflexivity. }
  assert (Htrim : trim (mpdColumnLine col)
                  = txt (pcol_name col) ++ ch " " :: txt (pcol_sqlType col)
                    ++ flagSuffix (mpdFlags col)).
  { rewrite mpdColumnLine_flags.
    change (txt (pcol_name col) ++ ch " " :: txt (pcol_sqlType col) ++ flagSuffix (mpdFlags col))
      with (txt (pcol_name col) ++ (ch " " :: txt (pcol_sqlType col)) ++ flagSuffix (mpdFlags col)).
    rewrite (app_assoc (txt (pcol_name col))).
    apply trim_line.
    - destruct (txt (pcol_name col)); [discriminate|]. apply (word_head _ Hn).
    - rewrite last_append by discriminate.
      change (ch " " :: txt (pcol_sqlType col)) with ([ch " "] ++ txt (pcol_sqlType col)).
      rewrite Ety.
      rewrite last_append; [apply (sqlType_last _ _ Hw Hs)|]. destruct w; discriminate. }
  split; [exact Htrim|]. split; [exact Hfs|].
  rewrite Htrim, Ety.
  rewrite (parseMpdColumn_line _ _ _ _ tableName Hn Hw Hs Hfs).
  rewrite <- Ety, !str_txt. f_equal.
  destruct col as [name ty pk fk cs]. simpl in *. subst cs.
  unfold mpdFlags. simpl pcol_isPrimaryKey. simpl pcol_constraints. simpl pcol_foreignKey.
  destruct pk, nn, uq, ck as [e|], fk as [[cn tbl c d u]|];
    cbv iota in Hck, Htruthy;
    unfold constraintFlag; simpl; rewrite ?Htruthy; simpl;
    rewrite ?str_txt, ?parseReferentialAction_actionText;
    try reflexivity;
    apply andb_prop in Hfk as [[Hcn _]%andb_prop _];
    apply String.eqb_eq in Hcn; cbn [pfk_columnName] in Hcn; subst cn; reflexivity.
Qed.

(** ** The physical model, line by line *)

Lemma mpd_parseLine_empty st : MpdParser.parseLine st [] = st.
Proof. destruct st as [ts es [t|]]; reflexivity. Qed.

Lemma mpd_parseLine_header acc name :
  isName name = true ->
  MpdParser.parseLine
    {| MpdParser.tables := acc; MpdParser.errs := []; MpdParser.open := None |}
    (txt "TABLE " ++ txt name ++ txt " {")
  = {| MpdParser.tables := acc; MpdParser.errs := [];
       MpdParser.open := Some {| ptab_name := name; ptab_columns := [] |} |}.
Proof.
  intros Hn. unfold MpdParser.parseLine. simpl MpdParser.open.
  rewrite (matchTableHeader_header _ (isName_word _ Hn)), str_txt. reflexivity.
Qed.

Lemma mpd_parseLine_column acc t col :
  wellFormedMpdColumn col = true ->
  MpdParser.parseLine
    {| MpdParser.tables := acc; MpdParser.errs := []; MpdParser.open := Some t |}
    (mpdColumnLine col)
  = {| MpdParser.tables := acc; MpdParser.errs := [];
       MpdParser.open := Some (MpdParser.pushColumn t col) |}.
Proof.
  intros Hcol. unfold MpdParser.parseLine. simpl MpdParser.open.
  destruct (parseMpdColumn_mpdColumnLine col (ptab_name t) Hcol) as (Htrim & _ & ->).
  rewrite Htrim.
  unfold wellFormedMpdColumn in Hcol.
  apply andb_prop in Hcol as [[[Hn _]%andb_prop _]%andb_prop _].
  destruct (word_line_open _ (ch " " :: txt (pcol_sqlType col) ++ flagSuffix (mpdFlags col))
              (isName_word _ Hn)) as (_ & -> & ->).
  reflexivity.
Qed.

Lemma mpd_parseLine_columns acc name pre cols :
  forallb wellFormedMpdColumn cols = true ->
  foldl MpdParser.parseLine
    {| MpdParser.tables := acc; MpdParser.errs := [];
       MpdParser.open := Some {| ptab_name := name; ptab_columns := pre |} |}
    (map mpdColumnLine cols)
  = {| MpdParser.tables := acc; MpdParser.errs := [];
       MpdParser.open := Some {| ptab_name := name; ptab_columns := pre ++ cols |} |}.
Proof.
  revert pre. induction cols as [|c cols IH]; intros pre Hcols.
  - rewrite app_nil_r. reflexivity.
  - simpl in Hcols. apply andb_prop in Hcols as [Hc Hcols].
    simpl map. simpl foldl. rewrite (mpd_parseLine_column _ _ _ Hc).
    unfold MpdParser.pushColumn. simpl.
    rewrite (IH _ Hcols), <- app_assoc. reflexivity.
Qed.

Lemma mpd_parseLine_table acc t :
  isName (ptab_name t) = true ->
  forallb wellFormedMpdColumn (ptab_columns t) = true ->
  foldl MpdParser.parseLine
    {| MpdParser.tables := acc; MpdParser.errs := []; MpdParser.open := None |}
    (mpdTableLines t)
  = {| MpdParser.tables := acc ++ [t]; MpdParser.errs := []; MpdParser.open := None |}.
Proof.
  intros Hn Hcols. unfold mpdTableLines.
  rewrite !foldl_app. simpl foldl at 3.
  rewrite (mpd_parseLine_header _ _ Hn), (mpd_parseLine_columns _ _ _ _ Hcols).
  destruct t as [name cols]. reflexivity.
Qed.

Lemma mpd_parseLine_tables acc ts :
  forallb (fun t => isName (ptab_name t) && forallb wellFormedMpdColumn (ptab_columns t)) ts
  = true ->
  foldl MpdParser.parseLine
    {| MpdParser.tables := acc; MpdParser.errs := []; MpdParser.open := None |}
    (flat_map mpdTableLines ts)
  = {| MpdParser.tables := acc ++ ts; MpdParser.errs := []; MpdParser.open := None |}.
Proof.
  revert acc. induction ts as [|t ts IH]; intros acc Hts.
  - rewrite app_nil_r. reflexivity.
  - simpl in Hts. apply andb_prop in Hts as [[Hn Hc]%andb_prop Hts].
    change (flat_map mpdTableLines (t :: ts))
      with (mpdTableLines t ++ flat_map mpdTableLines ts).
    rewrite foldl_app, (mpd_parseLine_table _ _ Hn Hc), (IH _ Hts).
    rewrite <- app_assoc. reflexivity.
Qed.

Lemma mpdColumnLine_no_LF col :
  wellFormedMpdColumn col = true -> containsChar LF (mpdColumnLine col) = false.
Proof.
  intros Hcol.
  destruct (parseMpdColumn_mpdColumnLine col EmptyString Hcol) as (_ & Hfs & _).
  rewrite mpdColumnLine_flags, !containsChar_app, (flagSuffix_no_LF _ Hfs).
  unfold wellFormedMpdColumn in Hcol.
  apply andb_prop in Hcol as [[[Hn Hty]%andb_prop _]%andb_prop _].
  rewrite (word_no_LF _ (isWordText_words _ (isName_word _ Hn))).
  destruct (isSqlType_inv _ Hty) as (w & size & Ety & Hw & Hs).
  change (containsChar LF (ch " " :: txt (pcol_sqlType col)))
    with (containsChar LF (txt (pcol_sqlType col))).
  rewrite Ety, containsChar_app, (word_no_LF _ (isWordText_words _ Hw)).
  destruct (isSizeSuffix_inv _ Hs) as [->|(d1 & mid & -> & _ & F1 & Hmid)]; [reflexivity|].
  assert (D : forall d, forallb isDigit d = true -> containsChar LF d = false).
  { intros d Hd. apply word_no_LF. revert Hd. apply forallb_weaken, isDigit_word. }
  change (containsChar LF (ch "(" :: d1 ++ mid ++ [ch ")"]))
    with (containsChar LF (d1 ++ mid ++ [ch ")"])).
  rewrite !containsChar_app, (D _ F1).
  destruct Hmid as [->|(d2 & -> & _ & F2)]; [reflexivity|].
  change (containsChar LF (ch "," :: d2)) with (containsChar LF d2).
  rewrite (D _ F2). reflexivity.
Qed.

Lemma parseMpd_generateMpdText m :
  wellFormedMpd m = true ->
  MpdParser.parseMpd (generateMpdText m)
  = {| MpdParser.model := m; MpdParser.errors := [] |}.
Proof.
  destruct m as [ts]. unfold wellFormedMpd. simpl mpd_tables. intros Hts.
  destruct ts as [|t0 ts0] eqn:Ets; [reflexivity|]. rewrite <- Ets in *.
  assert (Hne : ts <> []) by (subst ts; discriminate). clear Ets t0 ts0.
  unfold MpdParser.parseMpd, generateMpdText, MpdParser.parseLines. simpl mpd_tables.
  rewrite forallb_forall in Hts.
  destruct (generated_lines mpdTableLines
              (fun t => txt "TABLE " ++ txt (ptab_name t) ++ txt " {")
              (fun t => map mpdColumnLine (ptab_columns t))
              (fun t => eq_refl) ts Hne) as (body & Hbody & ->).
  - intros t _. reflexivity.
  - intros t l Ht Hl. apply Hts in Ht. apply andb_prop in Ht as [Hn Hc].
    unfold mpdTableLines in Hl. apply in_app_or in Hl as [Hl|Hl].
    + destruct Hl as [<-|[]]. apply header_no_LF, isName_word, Hn.
    + apply in_app_or in Hl as [Hl|Hl].
      * apply in_map_iff in Hl as (c & <- & Hin).
        rewrite forallb_forall in Hc. apply mpdColumnLine_no_LF, Hc, Hin.
      * destruct Hl as [<-|[<-|[]]]; reflexivity.
  - assert (Hfold : foldl MpdParser.parseLine
                      {| MpdParser.tables := []; MpdParser.errs := []; MpdParser.open := None |}
                      body
                    = {| MpdParser.tables := ts; MpdParser.errs := [];
                         MpdParser.open := None |}).
    { pose proof (mpd_parseLine_tables [] ts (proj2 (forallb_forall _ _) Hts)) as H.
      rewrite Hbody, foldl_app in H. cbn [foldl] in H.
      rewrite mpd_parseLine_empty in H. exact H. }
    rewrite Hfold. reflexivity.
Qed.

(** ** Both models *)

Lemma sameMld_refl m : sameMld m m.
Proof.
  exists (mld_tables m). split; [reflexivity|].
  induction (mld_tables m) as [|t ts IH]; constructor; [|exact IH].
  split; reflexivity.
Qed.

Lemma sameMpd_refl m : sameMpd m m.
Proof.
  assert (Hcols : forall cs, Forall2 sameMpdColumn cs cs).
  { induction cs as [|c cs IH]; constructor; [|exact IH]. repeat split; reflexivity. }
  exists (mpd_tables m). split; [reflexivity|].
  induction (mpd_tables m) as [|t ts IH]; constructor; [|exact IH].
  split; [reflexivity|]. exists (ptab_columns t). split; [reflexivity|apply Hcols].
Qed.

(** C3 (amended).  A logical model whose names are words and whose
    foreign keys are named after their columns, and a physical model
    that moreover has types of the grammar (a word, then nothing or one
    or two numbers between parentheses) and, on each column, the
    constraints NOT NULL, UNIQUE, CHECK in this order, each at most once,
    the CHECK expression not empty and free of closing parentheses,
    opening brackets and line terminators (LF, CR, U+2028, U+2029):
    [parseMld] gives back the
    first from [generateMldText] and [parseMpd] gives back the second
    from [generateMpdText], unchanged and without error.  Both are then
    equal to the originals up to the order of tables and columns. *)
Theorem generate_then_parse (mld : MldModel) (mpd : MpdModel) :
  wellFormedMld mld = true ->
  wellFormedMpd mpd = true ->
  MldParser.parseMld (generateMldText mld)
  = {| MldParser.model := mld; MldParser.errors := [] |}
  /\ MpdParser.parseMpd (generateMpdText mpd)
     = {| MpdParser.model := mpd; MpdParser.errors := [] |}
  /\ roundTrips mld mpd.
Proof.
  intros Hmld Hmpd.
  pose proof (parseMld_generateMldText _ Hmld) as H1.
  pose proof (parseMpd_generateMpdText _ Hmpd) as H2.
  split; [exact H1|]. split; [exact H2|].
  unfold roundTrips. rewrite H1, H2. split; [apply sameMld_refl|apply sameMpd_refl].
Qed.

(** The theorem applies to a model of clients and orders, with a
    foreign key, referential actions, a sized type and a CHECK. *)
Lemma generate_then_parse_clients :
  MldParser.parseMld (generateMldText clients)
  = {| MldParser.model := clients; MldParser.errors := [] |}
  /\ MpdParser.parseMpd (generateMpdText clientsTyped)
     = {| MpdParser.model := clientsTyped; MpdParser.errors := [] |}
  /\ roundTrips clients clientsTyped.
Proof.
  apply (generate_then_parse clients clientsTyped).
  - vm_compute. reflexivity.
  - vm_compute. reflexivity.
Defined.

(** C3 as stated fails: the CHECK constraint of [checkedLength], whose
    expression contains a closing parenthesis, is written by
    [generateMpdText] and not read back by [parseMpd]; the column comes
    back without constraint, which no reordering repairs. *)
Lemma parseMpd_loses_check : ~ roundTrips clients checkedLength.
Proof.
  intros [_ (ts & Hperm & Hall)].
  assert (Hparse :
    MpdParser.model (MpdParser.parseMpd (generateMpdText checkedLength))
    = {| mpd_tables :=
           [ {| ptab_name := "CLIENT";
                ptab_columns :=
                  [ {| pcol_name := "nom"; pcol_sqlType := "VARCHAR(50)";
                       pcol_isPrimaryKey := false; pcol_foreignKey := None;
                       pcol_constraints := [] |} ] |} ] |})
    by (vm_compute; reflexivity).
  rewrite Hparse in Hperm. simpl in Hperm.
  apply Permutation_length_1_inv in Hperm. subst ts.
  simpl in Hall. inversion Hall as [|t t' l l' Ht _]; subst.
  destruct Ht as [_ (cs & Hcs & Hcols)]. simpl in Hcs, Hcols.
  apply Permutation_length_1_inv in Hcs. subst cs.
  inversion Hcols as [|c c' k k' Hc _]; subst.
  destruct Hc as (_ & _ & _ & _ & Hcon). simpl in Hcon.
  apply Permutation_nil in Hcon. discriminate Hcon.
Qed.

(** The order of the constraints is not kept either: the column of
    [emailReference] comes back with NOT NULL before UNIQUE. *)
Lemma parseMpd_orders_constraints :
  MpdParser.errors (MpdParser.parseMpd (generateMpdText emailReference)) = []
  /\ map pcol_constraints
       (flat_map ptab_columns
          (mpd_tables (MpdParser.model (MpdParser.parseMpd (generateMpdText emailReference)))))
     = [ [ {| con_type := NOT_NULL; con_expression := None |};
           {| con_type := UNIQUE; con_expression := None |} ] ].
Proof. split; vm_compute; reflexivity. Qed.

End SerializerFacts.

(* ================================================================== *)
(** * More on the MLD -> MPD conversion *)
(* ================================================================== *)

Module MldToMpdMore.

Import Js MldToMpd MldToMpdFacts.

Lemma logicalColumn_buildColumn dialect len m tn c :
  logicalColumn (buildColumn dialect len m tn c) = c.
Proof.
  unfold buildColumn, logicalColumn.
  destruct c as [name pk [[cn rt rc]|]]; reflexivity.
Qed.

(** X1.  Erasing the types, the constraints and the referential actions of
    the result of [convertMldToMpd] gives back the logical model: the
    conversion keeps every table and column, in order, with its name, its
    key flag and its foreign key. *)
Theorem convertMldToMpd_keeps_structure dialect len mld :
  logicalPart (convertMldToMpd dialect len mld) = mld.
Proof.
  destruct mld as [tables]. unfold logicalPart, convertMldToMpd. simpl. f_equal.
  rewrite map_map. rewrite <- (map_id tables) at 2. apply map_ext.
  intros [name cols]. unfold logicalTable, buildTable. simpl. f_equal.
  rewrite map_map. rewrite <- (map_id cols) at 2. apply map_ext.
  intros c. apply logicalColumn_buildColumn.
Qed.

Lemma buildColumn_guardedKey dialect len m tn c :
  guardedKey (buildColumn dialect len m tn c).
Proof.
  unfold guardedKey, buildColumn.
  destruct (includes (toLowerCase (lcol_name c)) "email");
    destruct c as [name [|] [fk|]]; simpl; auto.
Qed.

(** X2.  In the result of [convertMldToMpd] a column that is a primary key or
    a foreign key carries NOT NULL exactly once, even when it is both; a
    column that is neither does not carry it; and every foreign key has
    the actions ON DELETE CASCADE and ON UPDATE CASCADE. *)
Theorem convertMldToMpd_guards_keys dialect len mld :
  everyColumn guardedKey (convertMldToMpd dialect len mld).
Proof.
  unfold everyColumn, convertMldToMpd. simpl.
  apply List.Forall_forall. intros t Ht. apply in_map_iff in Ht as (t0 & <- & _).
  apply List.Forall_forall. intros c Hc. simpl in Hc.
  apply in_map_iff in Hc as (c0 & <- & _). apply buildColumn_guardedKey.
Qed.

Lemma inferSqlType_plain name dialect len :
  inferSqlType name false dialect len <> "SERIAL".
Proof.
  unfold inferSqlType. rewrite andb_false_l.
  repeat match goal with
         | |- context [if ?b then _ else _] => destruct b
         end;
    try destruct dialect; discriminate.
Qed.

Lemma propagatedType_plain dialect len m fk :
  propagatedType dialect len m fk <> "SERIAL".
Proof.
  unfold propagatedType.
  destruct (m !! _) as [ty|]; [|apply inferSqlType_plain].
  destruct (truthy ty); [|apply inferSqlType_plain].
  destruct (String.eqb_spec ty "SERIAL"); [discriminate|assumption].
Qed.

(** The second pass leaves in the map, at the key of a foreign-key
    column, a type that it propagated. *)
Lemma foreign_last dialect len es m k :
  (exists e, In e es /\ lcol_foreignKey (snd e) <> None /\ keyOf e = k) ->
  exists m' fk, foldl (foreign dialect len) m es !! k = Some (propagatedType dialect len m' fk).
Proof.
  induction es as [|x es IH] using rev_ind; intros (e & He & Hfk & Hk); [contradiction|].
  rewrite foldl_app. simpl. unfold foreign at 1, resolveForeign.
  destruct (lcol_foreignKey (snd x)) as [fkx|] eqn:Hx.
  - destruct (decide (keyOf x = k)) as [Hxk|Hxk].
    + unfold keyOf in Hxk. rewrite Hxk, lookup_insert_eq. eauto.
    + unfold keyOf in Hxk. rewrite lookup_insert_ne by exact Hxk.
      apply IH. exists e. split; [|split; assumption].
      apply in_app_or in He as [He|[<-|[]]]; [exact He|contradiction].
  - apply IH. exists e. split; [|split; assumption].
    apply in_app_or in He as [He|[<-|[]]]; [exact He|congruence].
Qed.

Lemma truthy_full s : truthy s = true -> s <> EmptyString.
Proof. unfold truthy. destruct (String.eqb_spec s EmptyString); [discriminate|auto]. Qed.

Lemma buildColumn_typed dialect len m tn c :
  pcol_sqlType (buildColumn dialect len m tn c) <> EmptyString.
Proof.
  apply truthy_full. unfold buildColumn.
  assert (H : truthy
    match m !! typeKey tn (lcol_name c) with
    | Some ty =>
        if truthy ty then ty
        else inferSqlType (lcol_name c) (lcol_isPrimaryKey c) dialect len
    | None => inferSqlType (lcol_name c) (lcol_isPrimaryKey c) dialect len
    end = true).
  { destruct (m !! _) as [ty|]; [|apply inferSqlType_truthy].
    destruct (truthy ty) eqn:E; [exact E|apply inferSqlType_truthy]. }
  destruct (lcol_foreignKey c); exact H.
Qed.

(** X3.  Every column of the result of [convertMldToMpd] has a type that is
    not empty, and a foreign-key column never has the auto-increment type
    [SERIAL], whatever the model (tables of the same name included). *)
Theorem convertMldToMpd_sound_types dialect len mld :
  everyColumn soundType (convertMldToMpd dialect len mld).
Proof.
  unfold everyColumn, convertMldToMpd. simpl.
  apply List.Forall_forall. intros t Ht. apply in_map_iff in Ht as (t0 & <- & Ht0).
  apply List.Forall_forall. intros c Hc. simpl in Hc.
  apply in_map_iff in Hc as (c0 & <- & Hc0).
  split; [apply buildColumn_typed|].
  destruct (pcol_foreignKey _) as [fk|] eqn:Hfk; [|exact I].
  apply buildColumn_foreignKey_Some in Hfk as (fk0 & Hfk0 & _).
  destruct (foreign_last dialect len (entries mld) (firstPass dialect len mld)
              (typeKey (ltab_name t0) (lcol_name c0))) as (m' & fk' & Hm).
  { exists (ltab_name t0, c0). split; [|split; [simpl; congruence|reflexivity]].
    unfold entries. apply in_flat_map. exists t0. split; [exact Ht0|].
    apply in_map, Hc0. }
  rewrite <- secondPass_entries in Hm.
  rewrite (buildColumn_sqlType _ _ _ _ _ _ Hm (propagatedType_truthy _ _ _ _)).
  apply propagatedType_plain.
Qed.

End MldToMpdMore.

(* ================================================================== *)
(** * More on the validators *)
(* ================================================================== *)

Module ValidatorMore.

Import Js MldToMpd Validator.

Lemma has_In x s : has x s = true <-> In x s.
Proof.
  unfold has. rewrite existsb_exists. split.
  - intros (y & Hy & Heq). apply String.eqb_eq in Heq. subst. exact Hy.
  - intros H. exists x. split; [exact H|apply String.eqb_refl].
Qed.

Lemma has_not_In x s : has x s = false <-> ~ In x s.
Proof.
  rewrite <- has_In. destruct (has x s); split; congruence.
Qed.

Lemma flat_map_nil {A B} (f : A -> list B) l :
  flat_map f l = [] <-> forall x, In x l -> f x = [].
Proof.
  induction l as [|a l IH]; simpl; [split; [intros _ x []|reflexivity]|].
  split.
  - intros H. apply app_eq_nil in H as [Ha Hl].
    intros x [<-|Hx]; [exact Ha|]. apply IH; assumption.
  - intros H. rewrite (H a (or_introl eq_refl)). apply IH.
    intros x Hx. apply H. right. exact Hx.
Qed.

(** X4.  [validateMcd] reports no error exactly when every entity has a
    primary-key attribute, every participant of a relation and every
    parent and child of an inheritance is an entity of the model, and
    every relation has at least two participants. *)
Theorem validateMcd_passes_iff mcd : passesValidation mcd <-> validMcd mcd.
Proof.
  unfold passesValidation, validMcd, validateMcd. split.
  - intros Hv.
    assert (Herr : forall msg l,
      In {| level := error; message := msg |} l -> incl l (validateMcd mcd) -> False).
    { intros msg l Hin Hl. exact (Hv _ (Hl _ Hin) eq_refl). }
    unfold validateMcd in Herr.
    split; [|split; [|split]].
    + intros e He. destruct (existsb _ _) eqn:Hex; [reflexivity|exfalso].
      eapply Herr; [|apply incl_appl, incl_refl].
      apply in_flat_map. exists e. split; [exact He|]. rewrite Hex. left. reflexivity.
    + intros r p Hr Hp. apply has_In.
      destruct (has _ _) eqn:Hh; [reflexivity|exfalso].
      eapply Herr; [|apply incl_appr, incl_appr, incl_appl, incl_refl].
      apply in_flat_map. exists r. split; [exact Hr|].
      apply in_flat_map. exists p. split; [exact Hp|]. rewrite Hh. left. reflexivity.
    + intros i Hi. split.
      * apply has_In. destruct (has _ _) eqn:Hh; [reflexivity|exfalso].
        eapply Herr; [|apply incl_appr, incl_appr, incl_appr, incl_appl, incl_refl].
        apply in_flat_map. exists i. split; [exact Hi|].
        apply in_or_app. left. rewrite Hh. left. reflexivity.
      * intros child Hc. apply has_In. destruct (has _ _) eqn:Hh; [reflexivity|exfalso].
        eapply Herr; [|apply incl_appr, incl_appr, incl_appr, incl_appl, incl_refl].
        apply in_flat_map. exists i. split; [exact Hi|].
        apply in_or_app. right.
        apply in_flat_map. exists child. split; [exact Hc|]. rewrite Hh. left. reflexivity.
    + intros r Hr. destruct (length (rel_participants r) <? 2) eqn:Hl.
      * exfalso.
        eapply Herr; [|apply incl_appr, incl_appr, incl_appr, incl_appr, incl_refl].
        apply in_flat_map. exists r. split; [exact Hr|]. rewrite Hl. left. reflexivity.
      * apply Nat.ltb_ge in Hl. exact Hl.
  - intros (Hpk & Hpart & Hinh & Htwo) m Hm.
    repeat (apply in_app_or in Hm as [Hm|Hm]).
    + apply in_flat_map in Hm as (e & He & Hm). rewrite (Hpk e He) in Hm. destruct Hm.
    + apply in_flat_map in Hm as (e & He & Hm).
      destruct (has _ _); [destruct Hm|]. destruct Hm as [<-|[]]. discriminate.
    + apply in_flat_map in Hm as (r & Hr & Hm).
      apply in_flat_map in Hm as (p & Hp & Hm).
      rewrite (proj2 (has_In _ _) (Hpart r p Hr Hp)) in Hm. destruct Hm.
    + apply in_flat_map in Hm as (i & Hi & Hm).
      destruct (Hinh i Hi) as [Hparent Hchildren].
      apply in_app_or in Hm as [Hm|Hm].
      * rewrite (proj2 (has_In _ _) Hparent) in Hm. destruct Hm.
      * apply in_flat_map in Hm as (child & Hc & Hm).
        rewrite (proj2 (has_In _ _) (Hchildren child Hc)) in Hm. destruct Hm.
    + apply in_flat_map in Hm as (r & Hr & Hm).
      pose proof (Htwo r Hr) as Hl. apply Nat.ltb_ge in Hl. rewrite Hl in Hm. destruct Hm.
Qed.

Lemma validateMpd_closed mpd : closedMpd mpd -> validateMpd mpd = [].
Proof.
  unfold validateMpd, closedMpd. rewrite flat_map_nil.
  intros H t Ht. apply flat_map_nil. intros c Hc.
  destruct (pcol_foreignKey c) as [fk|] eqn:Hfk; [|reflexivity].
  rewrite (proj2 (has_In _ _) (H t c fk Ht Hc Hfk)). reflexivity.
Qed.

(** X5.  [validateMpd] returns no message exactly when every foreign key of
    the model references a table of the model. *)
Theorem validateMpd_nil_iff mpd : validateMpd mpd = [] <-> closedMpd mpd.
Proof.
  split; [|apply validateMpd_closed].
  unfold validateMpd, closedMpd. rewrite flat_map_nil.
  intros H t c fk Ht Hc Hfk. specialize (H t Ht).
  rewrite flat_map_nil in H. specialize (H c Hc). rewrite Hfk in H.
  apply has_In. destruct (has _ _); [reflexivity|discriminate].
Qed.

Lemma filter_flat_map {A B} (p : B -> bool) (f : A -> list B) l :
  List.filter p (flat_map f l) = flat_map (fun x => List.filter p (f x)) l.
Proof.
  induction l as [|a l IH]; simpl; [reflexivity|].
  rewrite List.filter_app, IH. reflexivity.
Qed.

Lemma filter_warnings {A} (f : A -> string) l :
  List.filter isError (map (fun x => {| level := warning; message := f x |}) l) = [].
Proof. induction l as [|a l IH]; simpl; [reflexivity|exact IH]. Qed.

(** X6.  The messages of [validateMpd] on the result of [convertMldToMpd] are
    the errors of [validateMld] on the logical model, in the same order
    and with the same text: the conversion neither repairs nor breaks a
    reference. *)
Theorem validateMpd_convertMldToMpd dialect len fuel mld :
  validateMpd (convertMldToMpd dialect len mld)
  = List.filter isError (validateMld fuel mld).
Proof.
  unfold validateMld. rewrite List.filter_app, filter_warnings, app_nil_r.
  unfold validateMpd, convertMldToMpd. simpl mpd_tables.
  rewrite filter_flat_map, map_map. simpl ptab_name.
  rewrite flat_map_concat_map, map_map, <- flat_map_concat_map.
  apply flat_map_ext. intros t.
  rewrite List.filter_app.
  replace (List.filter isError
             (if existsb lcol_isPrimaryKey (ltab_columns t) then []
              else [ {| level := warning;
                        message := "Table " +:+ quoted (ltab_name t)
                                   +:+ " : aucune clé primaire définie." |} ]))
    with (@nil ValidationMessage) by (destruct (existsb _ _); reflexivity).
  simpl app. rewrite filter_flat_map. simpl ptab_columns.
  rewrite flat_map_concat_map, map_map, <- flat_map_concat_map.
  apply flat_map_ext. intros c.
  unfold buildColumn. destruct (lcol_foreignKey c) as [fk|]; [|reflexivity].
  simpl. destruct (has _ _); reflexivity.
Qed.

End ValidatorMore.

(* ================================================================== *)
(** * More on the SQL generator *)
(* ================================================================== *)

Module SqlScriptFacts.

Import Js SqlGenerator SqlGeneratorFacts SqlScript.

(** The dependency map that the sort builds for tables with distinct
    names. *)
Lemma buildDeps_distinct tables :
  NoDup (map ptab_name tables) ->
  forall t, In t tables ->
    exists d, mapGet (ptab_name t)
                (buildDeps (tableEntries tables) tables (emptyDeps tables)) = Some d /\
      forall ref, In ref d <-> dependsOn tables t ref.
Proof.
  intros Hnd.
  destruct (buildDeps_spec tables tables (emptyDeps tables) Hnd) as (_ & _ & Hdeps);
    [|exact Hdeps].
  intros t Ht. clear -Hnd Ht.
  induction tables as [|a l IH]; simpl; [contradiction|].
  apply NoDup_cons in Hnd as [Hna Hnd].
  destruct Ht as [->|Ht]; [rewrite String.eqb_refl; reflexivity|].
  destruct (String.eqb_spec (ptab_name a) (ptab_name t)) as [E|]; [|auto].
  exfalso. apply Hna. rewrite E. apply list_elem_of_In, in_map, Ht.
Qed.

Lemma filter_none {A} (p : A -> bool) l :
  (forall x, In x l -> p x = false) -> List.filter p l = [].
Proof.
  induction l as [|a l IH]; simpl; intros H; [reflexivity|].
  rewrite (H a (or_introl eq_refl)). apply IH. intros x Hx. apply H. right. exact Hx.
Qed.

(** The result of the sort for tables with distinct names. *)
Lemma topologicalSort_result tables fuel :
  NoDup (map ptab_name tables) -> length tables <= fuel ->
  exists ordered rest,
    topologicalSortWithin fuel tables = Some (ordered ++ rest) /\
    sortedResult tables ordered rest.
Proof.
  intros Hnd Hfuel. unfold topologicalSortWithin.
  rewrite (initMaps_distinct tables Hnd), tableEntries_keys.
  apply (kahn_spec tables Hnd _ (buildDeps_distinct tables Hnd) fuel []
           [] (map ptab_name tables)).
  - reflexivity.
  - simpl. symmetry. apply forallb_filter_id. apply forallb_forall. reflexivity.
  - rewrite length_map. exact Hfuel.
  - simpl. rewrite forallb_filter_id; [reflexivity|]. apply forallb_forall. reflexivity.
  - intros l1 t l2 Heq. destruct l1; discriminate.
Qed.

(** X7.  When no table of a model with distinct names references another
    table of the model (references to itself and to tables that are not
    in the model do not count), the sort returns the tables in the order
    of the model after one iteration, and [generateSql] writes them in
    that order. *)
Theorem topologicalSort_independent tables fuel dialect :
  NoDup (map ptab_name tables) ->
  (forall t ref, In t tables -> ~ dependsOn tables t ref) ->
  topologicalSortWithin (S fuel) tables = Some tables
  /\ generateSqlWithin (S fuel) {| mpd_tables := tables |} dialect
     = Some (script tables dialect).
Proof.
  intros Hnd Hfree.
  assert (Hsort : topologicalSortWithin (S fuel) tables = Some tables).
  { unfold topologicalSortWithin.
    rewrite (initMaps_distinct tables Hnd), tableEntries_keys.
    pose proof (buildDeps_distinct tables Hnd) as Hdeps.
    set (deps := buildDeps (tableEntries tables) tables (emptyDeps tables)) in *.
    destruct tables as [|t0 ts] eqn:Ets; [reflexivity|]. rewrite <- Ets in *.
    assert (Hne : map ptab_name tables <> []) by (subst tables; discriminate).
    assert (Hready : List.filter (isReady deps []) (map ptab_name tables)
                     = map ptab_name tables).
    { apply forallb_filter_id, forallb_forall. intros n Hn.
      apply in_map_iff in Hn as (t & <- & Ht).
      destruct (Hdeps t Ht) as (d & Hd & Hspec).
      unfold isReady. rewrite Hd.
      destruct d as [|ref d]; [reflexivity|].
      exfalso. apply (Hfree t ref Ht), Hspec. left. reflexivity. }
    rewrite (kahn_emit tables deps fuel [] [] _ Hne) by (rewrite Hready; exact Hne).
    rewrite Hready, setDelete_all.
    replace (List.filter (fun n => negb (setHas n (map ptab_name tables)))
                         (map ptab_name tables)) with (@nil string).
    - rewrite kahn_done. simpl app. f_equal.
      pose proof (tablesOf_filter tables Hnd (fun _ => true)) as H.
      rewrite !forallb_filter_id in H by (apply forallb_forall; reflexivity).
      exact H.
    - symmetry. apply filter_none. intros n Hn.
      apply negb_false_iff, setHas_In, Hn. }
  split; [exact Hsort|]. unfold generateSqlWithin. simpl. rewrite Hsort. reflexivity.
Qed.

(** The theorem applies to three tables: one references itself, one
    references a table that is not in the model. *)
Lemma topologicalSort_independent_islands :
  topologicalSortWithin 1 islands = Some islands
  /\ generateSqlWithin 1 {| mpd_tables := islands |} postgresql
     = Some (script islands postgresql).
Proof.
  apply (topologicalSort_independent islands 0 postgresql).
  - apply (bool_decide_unpack _). vm_compute. exact I.
  - intros t ref Ht (Hne & Hin & col & fk & Hcol & Hfk & Href).
    simpl in Hin.
    destruct Ht as [<-|[<-|[<-|[]]]]; simpl in Hcol, Hne;
      repeat (destruct Hcol as [<-|Hcol];
              [simpl in Hfk; try discriminate Hfk; injection Hfk as <-; simpl in Href;
               subst ref; intuition discriminate|]);
      destruct Hcol.
Defined.

(** X8.  When the references between the tables of a model with distinct
    names have no cycle (some rank decreases along every reference to
    another table of the model), the sort returns all the tables, each
    after the tables it references, and [generateSql] writes one CREATE
    TABLE per table in that order: no statement references a table
    created later. *)
Theorem generateSql_acyclic tables fuel dialect (rank : string -> nat) :
  NoDup (map ptab_name tables) ->
  length tables <= fuel ->
  (forall t ref, In t tables -> dependsOn tables t ref -> rank ref < rank (ptab_name t)) ->
  exists sorted,
    topologicalSortWithin fuel tables = Some sorted
    /\ Permutation sorted tables
    /\ respectsDependencies tables sorted
    /\ generateSqlWithin fuel {| mpd_tables := tables |} dialect
       = Some (script sorted dialect).
Proof.
  intros Hnd Hfuel Hrank.
  destruct (topologicalSort_result tables fuel Hnd Hfuel)
    as (ordered & rest & Hsort & Hperm & Hresp & _ & Hrest).
  assert (Hnone : forall n t, In t rest -> rank (ptab_name t) = n -> False).
  { induction n as [n IH] using lt_wf_ind. intros t Ht Hn.
    destruct (Hrest t Ht) as (ref & Hdep & Hout).
    assert (Htab : In t tables).
    { eapply Permutation_in; [exact Hperm|]. apply in_or_app. right. exact Ht. }
    pose proof (Hrank t ref Htab Hdep) as Hlt.
    destruct Hdep as (_ & Hin & _).
    apply in_map_iff in Hin as (t' & Hname & Ht').
    apply (Permutation_in _ (Permutation_sym Hperm)) in Ht'.
    apply in_app_or in Ht' as [Ht'|Ht'].
    - apply Hout. rewrite <- Hname. apply in_map, Ht'.
    - apply (IH (rank (ptab_name t'))) with (t := t'); [|exact Ht'|reflexivity].
      rewrite Hname. lia. }
  assert (rest = []) as ->.
  { destruct rest as [|t r]; [reflexivity|].
    exfalso. apply (Hnone (rank (ptab_name t)) t); [left|]; reflexivity. }
  rewrite app_nil_r in Hsort, Hperm.
  exists ordered. repeat split; try assumption.
  unfold generateSqlWithin. simpl. rewrite Hsort. reflexivity.
Qed.

(** The theorem applies to the tables of an order: lines, orders,
    clients and articles. *)
Lemma generateSql_acyclic_chain :
  exists sorted,
    topologicalSortWithin 4 chain = Some sorted
    /\ Permutation sorted chain
    /\ respectsDependencies chain sorted
    /\ generateSqlWithin 4 {| mpd_tables := chain |} mariadb
       = Some (script sorted mariadb).
Proof.
  apply (generateSql_acyclic chain 4 mariadb chainRank).
  - apply (bool_decide_unpack _). vm_compute. exact I.
  - simpl. lia.
  - intros t ref Ht (Hne & Hin & col & fk & Hcol & Hfk & Href).
    simpl in Hin.
    destruct Ht as [<-|[<-|[<-|[<-|[]]]]]; simpl in Hcol, Hne;
      repeat (destruct Hcol as [<-|Hcol];
              [simpl in Hfk; try discriminate Hfk; injection Hfk as <-; simpl in Href;
               subst ref; vm_compute; lia|]);
      destruct Hcol.
Defined.

(** X9.  [formatSqlType] never returns one of the two spellings that it
    replaces for the dialect ([DATETIME] and [DOUBLE] for PostgreSQL,
    [SERIAL] and [BOOLEAN] for MariaDB and MySQL, in capital letters);
    it returns a type unchanged exactly when the type is none of the
    two, whatever else it is; and formatting a formatted type changes
    nothing. *)
Theorem formatSqlType_replaces sqlType dialect :
  keptBy dialect (formatSqlType sqlType dialect)
  /\ (formatSqlType sqlType dialect = sqlType <-> keptBy dialect sqlType)
  /\ formatSqlType (formatSqlType sqlType dialect) dialect = formatSqlType sqlType dialect.
Proof.
  assert (Hpg :
    formatSqlType sqlType postgresql
    = if String.eqb sqlType "DATETIME" then "TIMESTAMP"
      else if String.eqb sqlType "DOUBLE" then "DOUBLE PRECISION" else sqlType).
  { unfold formatSqlType. simpl.
    destruct (String.eqb sqlType "DATETIME"), (String.eqb sqlType "DOUBLE"); reflexivity. }
  assert (Hmy : forall d, isMysqlFamily d = true ->
    formatSqlType sqlType d
    = if String.eqb sqlType "SERIAL" then "INT"
      else if String.eqb sqlType "BOOLEAN" then "TINYINT(1)" else sqlType).
  { intros d Hd. unfold formatSqlType. rewrite Hd.
    destruct d; [reflexivity|reflexivity|discriminate]. }
  unfold keptBy.
  destruct dialect; simpl isPostgresql; cbv iota;
    [rewrite (Hmy mariadb eq_refl)|rewrite (Hmy mysql eq_refl)|rewrite Hpg];
    clear Hpg Hmy;
    match goal with
    | |- context [String.eqb sqlType ?a] =>
        destruct (String.eqb_spec sqlType a) as [->|H1];
        [split; [split; discriminate|];
         split; [split; [discriminate|intros [H _]; contradiction]|reflexivity]|]
    end;
    match goal with
    | |- context [String.eqb sqlType ?a] =>
        destruct (String.eqb_spec sqlType a) as [->|H2];
        [split; [split; discriminate|];
         split; [split; [discriminate|intros [_ H]; contradiction]|reflexivity]|]
    end;
    (split; [split; assumption|]);
    (split; [split; [intros _; split; assumption|reflexivity]|]);
    unfold formatSqlType; simpl;
    rewrite (proj2 (String.eqb_neq _ _) H1), (proj2 (String.eqb_neq _ _) H2); reflexivity.
Qed.

End SqlScriptFacts.

(* ================================================================== *)
(** * More on the MCD -> MLD conversion *)
(* ================================================================== *)

Module McdToMldMore.

Import Js McdToMld McdToMldFacts Validator ValidatorFacts ValidatorMore MldToMpd.

Lemma oneSide_foreignKeySide rel p1 p2 owner other :
  rel_participants rel = [p1; p2] ->
  oneSide p1 p2 = Some (owner, other) ->
  foreignKeySide rel = Some (part_entityName owner, part_entityName other).
Proof.
  intros Hparts Hside. unfold foreignKeySide. rewrite Hparts. unfold oneSide in Hside.
  destruct (isOne (part_cardinality p1) && isMany (part_cardinality p2)).
  - injection Hside as <- <-. reflexivity.
  - destruct (isMany (part_cardinality p1) && isOne (part_cardinality p2)); [|discriminate].
    injection Hside as <- <-. reflexivity.
Qed.

(** X10.  In a model whose inheritances are all converted with
    [table_per_class], take a binary relation with one participant of
    maximum cardinality 1, the owner, and one of maximum cardinality n,
    in either order.  When the owner is an entity, the other participant
    has a key, and the table of the owner has no column with the name of
    the foreign key when the relation is handled, the table of the owner
    in the result of [convertMcdToMld] has the foreign key, outside of
    the primary key, to the key of the other participant, and a column
    for every attribute of the relation. *)
Theorem convertMcdToMld_one_to_many mcd strategy i rel p1 p2 owner other pk :
  perClass mcd strategy ->
  mcd_relations mcd !! i = Some rel ->
  rel_participants rel = [p1; p2] ->
  oneSide p1 p2 = Some (owner, other) ->
  In (part_entityName owner) (map ent_name (mcd_entities mcd)) ->
  whenTruthy (getPrimaryKey (buildEntityMap (mcd_entities mcd) !! part_entityName other))
  = Some pk ->
  nameFree (tablesBefore mcd i) (part_entityName owner)
           (foreignKeyName pk (roleOf rel (buildPairCount (mcd_relations mcd)))) ->
  hasForeignKey (mld_tables (convertMcdToMld mcd strategy)) (part_entityName owner)
                (foreignKeyName pk (roleOf rel (buildPairCount (mcd_relations mcd))))
                (part_entityName other) pk
  /\ List.Forall
       (fun a => hasColumn (mld_tables (convertMcdToMld mcd strategy))
                           (part_entityName owner) (attr_name a))
       (rel_attributes rel).
Proof.
  intros Hper Hi Hparts Hside Hown Hpk Hfree.
  apply (convertMcdToMld_places mcd strategy i rel); try assumption.
  apply (oneSide_foreignKeySide rel p1 p2); assumption.
Qed.

(** The theorem applies to the loans of a library, in a model with an
    inheritance: the member, (0,1), receives the key of the book,
    (0,n), declared second. *)
Lemma convertMcdToMld_one_to_many_library :
  hasForeignKey (mld_tables (convertMcdToMld library table_per_class))
                "ADHERENT" "ref_livre" "LIVRE" "ref_livre"
  /\ List.Forall
       (fun a => hasColumn (mld_tables (convertMcdToMld library table_per_class))
                           "ADHERENT" (attr_name a))
       [].
Proof.
  apply (convertMcdToMld_one_to_many library table_per_class 1
           {| rel_name := "emprunte";
              rel_participants := [participant "ADHERENT" C01; participant "LIVRE" C0n];
              rel_attributes := [] |}
           (participant "ADHERENT" C01) (participant "LIVRE" C0n)
           (participant "ADHERENT" C01) (participant "LIVRE" C0n) "ref_livre").
  - intros inh Hinh. simpl in Hinh. destruct Hinh as [<-|[]]. reflexivity.
  - reflexivity.
  - reflexivity.
  - reflexivity.
  - simpl. right. left. reflexivity.
  - vm_compute. reflexivity.
  - intros t Ht. vm_compute in Ht. injection Ht as <-. vm_compute. reflexivity.
Defined.

(** X11.  Without inheritance, the result of [convertMcdToMld] keeps the table
    of every entity (the first table of its name) with at least the
    columns of its attributes that are not derived: relations and
    associative entities add columns and tables and remove nothing. *)
Theorem convertMcdToMld_keeps_entities mcd strategy :
  mcd_inheritances mcd = [] ->
  grows (map entityTable (mcd_entities mcd)) (mld_tables (convertMcdToMld mcd strategy)).
Proof.
  intros Hinh. unfold convertMcdToMld, afterInheritances, afterRelations. simpl.
  rewrite Hinh. simpl.
  eapply grows_trans; [|apply grows_foldl; intros; apply grows_handleAssociativeEntity].
  apply grows_foldl. intros. apply grows_handleRelation.
Qed.

(** The theorem applies to a model with two relations and no
    inheritance. *)
Lemma convertMcdToMld_keeps_entities_delivery :
  grows (map entityTable (mcd_entities deliveryAndBilling))
        (mld_tables (convertMcdToMld deliveryAndBilling single_table)).
Proof. apply (convertMcdToMld_keeps_entities deliveryAndBilling single_table). reflexivity. Defined.

(** ** References to tables that exist *)

Lemma in_updateFirst {A} (p : A -> bool) (g : A -> A) l x :
  In x (updateFirst p g l) -> In x l \/ exists y, In y l /\ x = g y.
Proof.
  induction l as [|a l IH]; simpl; [intros []|].
  destruct (p a); simpl.
  - intros [<-|H]; [right; exists a; auto|left; auto].
  - intros [<-|H]; [left; auto|].
    destruct (IH H) as [H'|(y & Hy & ->)]; [left; auto|right; exists y; auto].
Qed.

Lemma names_updateFirst (p : MldTable -> bool) f ts :
  map ltab_name (updateFirst p (withColumns f) ts) = map ltab_name ts.
Proof.
  induction ts as [|a l IH]; simpl; [reflexivity|].
  destruct (p a); simpl; [reflexivity|rewrite IH; reflexivity].
Qed.

Lemma in_removeFirst {A} (p : A -> bool) l x : In x (removeFirst p l) -> In x l.
Proof.
  induction l as [|a l IH]; simpl; [intros []|].
  destruct (p a); simpl; [auto|]. intros [<-|H]; auto.
Qed.

Lemma closed_updateFirst (p : MldTable -> bool) f ts :
  closedMld ts ->
  (forall cs c fk, In c (f cs) -> lcol_foreignKey c = Some fk ->
     In c cs \/ In (lfk_referencedTable fk) (map ltab_name ts)) ->
  closedMld (updateFirst p (withColumns f) ts).
Proof.
  intros Hts Hf t c fk Ht Hc Hfk. rewrite names_updateFirst.
  apply in_updateFirst in Ht as [Ht|(t0 & Ht0 & ->)].
  - exact (Hts t c fk Ht Hc Hfk).
  - simpl in Hc. destruct (Hf _ c fk Hc Hfk) as [Hc0|Hin]; [|exact Hin].
    exact (Hts t0 c fk Ht0 Hc0 Hfk).
Qed.

Lemma closed_app ts t :
  closedMld ts ->
  (forall c fk, In c (ltab_columns t) -> lcol_foreignKey c = Some fk ->
     In (lfk_referencedTable fk) (map ltab_name ts)) ->
  closedMld (ts ++ [t]).
Proof.
  intros Hts Ht t' c fk Hin Hc Hfk. rewrite map_app. apply in_or_app. left.
  apply in_app_or in Hin as [Hin|[<-|[]]].
  - exact (Hts t' c fk Hin Hc Hfk).
  - exact (Ht c fk Hc Hfk).
Qed.

Lemma pushMissing_plain flag cs attrs c fk :
  In c (pushMissing flag cs attrs) -> lcol_foreignKey c = Some fk -> In c cs.
Proof.
  unfold pushMissing. revert cs. induction attrs as [|a attrs IH]; intros cs; simpl; [auto|].
  intros Hc Hfk. specialize (IH _ Hc Hfk).
  destruct (existsb _ cs); [exact IH|].
  apply in_app_or in IH as [H|[<-|[]]]; [exact H|discriminate Hfk].
Qed.

Lemma getPrimaryKey_entity (entityMap : gmap string McdEntity) name pk :
  whenTruthy (getPrimaryKey (entityMap !! name)) = Some pk ->
  exists e, entityMap !! name = Some e.
Proof. destruct (entityMap !! name) as [e|]; [eauto|discriminate]. Qed.

Section Closed.

Variable entityMap : gmap string McdEntity.

Local Abbreviation sound tables := (closedMld tables /\ covers entityMap tables).

Lemma covers_updateFirst (p : MldTable -> bool) f ts :
  covers entityMap ts -> covers entityMap (updateFirst p (withColumns f) ts).
Proof. intros H n e He. rewrite names_updateFirst. exact (H n e He). Qed.

Lemma covers_app ts new : covers entityMap ts -> covers entityMap (ts ++ new).
Proof. intros H n e He. rewrite map_app. apply in_or_app. left. exact (H n e He). Qed.

Lemma sound_addForeignKey ts owner target role :
  sound ts -> sound (addForeignKey entityMap ts owner target role).
Proof.
  intros [Hc Hv]. unfold addForeignKey.
  destruct (List.find _ ts); [|split; assumption].
  destruct (entityMap !! target) as [e|] eqn:He; [|split; assumption].
  destruct (whenTruthy _); [|split; assumption].
  destruct (existsb _ _); [split; assumption|].
  split; [|apply covers_updateFirst, Hv].
  apply closed_updateFirst; [exact Hc|].
  intros cs c fk Hin Hfk. apply in_app_or in Hin as [Hin|[<-|[]]]; [left; exact Hin|].
  right. injection Hfk as <-. simpl. exact (Hv _ _ He).
Qed.

Lemma sound_addRelationAttributes ts owner rel :
  sound ts -> sound (addRelationAttributes ts owner rel).
Proof.
  intros [Hc Hv]. split; [|apply covers_updateFirst, Hv].
  apply closed_updateFirst; [exact Hc|].
  intros cs c fk Hin Hfk. left. exact (pushMissing_plain _ _ _ _ _ Hin Hfk).
Qed.

Lemma sound_createAssociativeTable rel ts :
  sound ts -> sound (createAssociativeTable entityMap rel ts).
Proof.
  intros [Hc Hv]. unfold createAssociativeTable. split; [|apply covers_app, Hv].
  apply closed_app; [exact Hc|]. simpl. intros c fk Hin Hfk.
  apply in_app_or in Hin as [Hin|Hin].
  - unfold associativeKeyColumns in Hin. apply in_flat_map in Hin as (p & _ & Hin).
    destruct (whenTruthy _) as [pk|] eqn:Hpk; [|destruct Hin].
    destruct Hin as [<-|[]]. injection Hfk as <-. simpl.
    destruct (getPrimaryKey_entity _ _ _ Hpk) as (e & He). exact (Hv _ _ He).
  - apply in_map_iff in Hin as (a & <- & _). discriminate Hfk.
Qed.

Lemma sound_handleRelation pairCount ts rel :
  sound ts -> sound (handleRelation entityMap pairCount ts rel).
Proof.
  intros Hs.
  assert (Hfk : forall owner target role,
            sound (addRelationAttributes
                     (addForeignKey entityMap ts owner target role) owner rel)).
  { intros. apply sound_addRelationAttributes, sound_addForeignKey, Hs. }
  pose proof (sound_createAssociativeTable rel ts Hs) as Hassoc.
  unfold handleRelation, handleNaryRelation, handleBinaryRelation.
  destruct (rel_participants rel) as [|p1 [|p2 [|p3 ps]]]; try exact Hassoc.
  repeat match goal with |- context [if ?b then _ else _] => destruct b end;
    try apply Hfk; exact Hassoc.
Qed.

Lemma inheritKey_in parentName parentPk cs c :
  In c (inheritKey parentName parentPk cs) ->
  In c cs \/ c = foreignColumn parentPk true parentName parentPk.
Proof.
  unfold inheritKey. destruct (existsb _ cs); [auto|].
  destruct (1 <? _).
  - intros H. apply in_removeFirst in H. destruct H as [<-|H]; auto.
  - intros [<-|H]; auto.
Qed.

Lemma sound_perClass parentName childNames ts :
  sound ts -> sound (handleInheritance entityMap parentName childNames table_per_class ts).
Proof.
  intros Hs. unfold handleInheritance.
  destruct (whenTruthy _) as [parentPk|] eqn:Hpk; [|exact Hs].
  destruct (getPrimaryKey_entity _ _ _ Hpk) as (e & He).
  revert ts Hs. induction childNames as [|child children IH]; intros ts Hs; [exact Hs|].
  simpl. apply IH. destruct Hs as [Hc Hv].
  split; [|apply covers_updateFirst, Hv].
  apply closed_updateFirst; [exact Hc|].
  intros cs c fk Hin Hfk. apply inheritKey_in in Hin as [Hin| ->]; [left; exact Hin|].
  right. injection Hfk as <-. simpl. exact (Hv _ _ He).
Qed.

Lemma sound_handleAssociativeEntity relations ts assoc :
  sound ts -> sound (handleAssociativeEntity entityMap relations ts assoc).
Proof.
  intros [Hc Hv]. unfold handleAssociativeEntity.
  destruct (List.find _ relations) as [rel|]; [|split; assumption].
  match goal with
  | |- context [updateFirst ?p (withColumns ?f) ?ts1] =>
      assert (Hs1 : sound ts1)
  end.
  { destruct (existsb _ ts); [split; assumption|].
    split; [|apply covers_app, Hv].
    apply closed_app; [exact Hc|]. simpl. intros c fk Hin Hfk.
    apply in_flat_map in Hin as (p & _ & Hin).
    destruct (whenTruthy _) as [pk|] eqn:Hpk; [|destruct Hin].
    destruct Hin as [<-|[]]. injection Hfk as <-. simpl.
    destruct (getPrimaryKey_entity _ _ _ Hpk) as (e & He). exact (Hv _ _ He). }
  destruct Hs1 as [Hc1 Hv1]. split; [|apply covers_updateFirst, Hv1].
  apply closed_updateFirst; [exact Hc1|].
  intros cs c fk Hin Hfk. left. exact (pushMissing_plain _ _ _ _ _ Hin Hfk).
Qed.

End Closed.

Lemma sound_foldl {A} (P : list MldTable -> Prop)
    (step : list MldTable -> A -> list MldTable) (l : list A) ts :
  (forall ts a, In a l -> P ts -> P (step ts a)) -> P ts -> P (foldl step ts l).
Proof.
  revert ts. induction l as [|a l IH]; intros ts Hstep Hts; simpl; [exact Hts|].
  apply IH; [intros; apply Hstep; [right|]; assumption|].
  apply Hstep; [left; reflexivity|exact Hts].
Qed.

Lemma buildEntityMap_Some entities name e :
  buildEntityMap entities !! name = Some e -> In name (map ent_name entities).
Proof.
  unfold buildEntityMap. induction entities as [|a es IH] using rev_ind; [discriminate|].
  rewrite map_app, foldl_app. simpl. intros H. apply in_or_app.
  destruct (String.eqb_spec (ent_name a) name) as [<-|Hne]; [right; left; reflexivity|].
  rewrite lookup_insert_ne in H by exact Hne. left. exact (IH H).
Qed.

Lemma sound_afterEntities mcd :
  closedMld (afterEntities mcd)
  /\ covers (buildEntityMap (mcd_entities mcd)) (afterEntities mcd).
Proof.
  unfold afterEntities. split.
  - intros t c fk Ht Hc Hfk. apply in_map_iff in Ht as (e & <- & _).
    simpl in Hc. apply in_map_iff in Hc as (a & <- & _). discriminate Hfk.
  - intros n e He. rewrite map_map. simpl. exact (buildEntityMap_Some _ _ _ He).
Qed.

Lemma convertMcdToMld_sound mcd strategy :
  perClass mcd strategy -> closedMld (mld_tables (convertMcdToMld mcd strategy)).
Proof.
  intros Hper. unfold convertMcdToMld, afterInheritances, afterRelations. simpl.
  apply (sound_foldl (fun ts => closedMld ts /\ covers (buildEntityMap (mcd_entities mcd)) ts)).
  { intros ts a _. apply sound_handleAssociativeEntity. }
  apply (sound_foldl (fun ts => closedMld ts /\ covers (buildEntityMap (mcd_entities mcd)) ts)).
  { intros ts inh Hinh. rewrite (Hper inh Hinh). apply sound_perClass. }
  apply (sound_foldl (fun ts => closedMld ts /\ covers (buildEntityMap (mcd_entities mcd)) ts)).
  { intros ts rel _. apply sound_handleRelation. }
  apply sound_afterEntities.
Qed.

Lemma convertMldToMpd_closed dialect len mld :
  closedMld (mld_tables mld) -> closedMpd (convertMldToMpd dialect len mld).
Proof.
  intros Hc t c fk Ht Hcol Hfk. unfold convertMldToMpd in *. simpl in *.
  rewrite map_map. simpl.
  apply in_map_iff in Ht as (t0 & <- & Ht0). simpl in Hcol.
  apply in_map_iff in Hcol as (c0 & <- & Hc0).
  apply MldToMpdFacts.buildColumn_foreignKey_Some in Hfk as (fk0 & Hfk0 & -> & _).
  exact (Hc t0 c0 fk0 Ht0 Hc0 Hfk0).
Qed.

(** X12.  When every inheritance is converted with [table_per_class] (in
    particular when there is none), every foreign key of the result of
    [convertMcdToMld] references a table of the result, whatever the
    conceptual model: [validateMld] reports no error on it, and
    [validateMpd] reports nothing on its conversion to a physical
    model. *)
Theorem convertMcdToMld_references_exist mcd strategy fuel dialect len :
  perClass mcd strategy ->
  closedMld (mld_tables (convertMcdToMld mcd strategy))
  /\ List.filter isError (validateMld fuel (convertMcdToMld mcd strategy)) = []
  /\ validateMpd (convertMldToMpd dialect len (convertMcdToMld mcd strategy)) = [].
Proof.
  intros Hper. pose proof (convertMcdToMld_sound mcd strategy Hper) as Hc.
  split; [exact Hc|]. split.
  - apply SqlScriptFacts.filter_none. intros m Hm.
    destruct (level m) eqn:Hl; unfold isError; rewrite Hl; try reflexivity.
    exfalso. destruct (validateMld_errors _ _ _ Hm Hl) as (t & c & fk & Ht & Hcol & Hfk & Hout & _).
    exact (Hout (Hc t c fk Ht Hcol Hfk)).
  - apply validateMpd_closed, convertMldToMpd_closed, Hc.
Qed.

(** The theorem applies to a model with an inheritance, a ternary
    relation and an associative entity. *)
Lemma convertMcdToMld_references_exist_library :
  closedMld (mld_tables (convertMcdToMld library table_per_class))
  /\ List.filter isError (validateMld 10 (convertMcdToMld library table_per_class)) = []
  /\ validateMpd (convertMldToMpd postgresql 255 (convertMcdToMld library table_per_class)) = [].
Proof.
  apply (convertMcdToMld_references_exist library table_per_class 10 postgresql 255).
  intros inh Hinh. simpl in Hinh. destruct Hinh as [<-|[]]. reflexivity.
Defined.

End McdToMldMore.

(* ================================================================== *)
(** * Labels and identifiers of the diagrams *)
(* ================================================================== *)

Module MermaidFacts.

Import Js Mermaid.

Lemma occurs_append c a b : occurs c (a +:+ b) = occurs c a || occurs c b.
Proof.
  induction a as [|x a IH]; simpl; [reflexivity|].
  rewrite IH, orb_assoc. reflexivity.
Qed.

Lemma replaceAll_removes c new s :
  occurs c new = false -> occurs c (replaceAll c new s) = false.
Proof.
  intros Hnew. induction s as [|a s IH]; simpl; [reflexivity|].
  destruct (Ascii.eqb a c) eqn:E.
  - rewrite occurs_append, Hnew, IH. reflexivity.
  - simpl. rewrite E, IH. reflexivity.
Qed.

Lemma replaceAll_keeps c d new s :
  occurs d new = false -> occurs d s = false -> occurs d (replaceAll c new s) = false.
Proof.
  intros Hnew. induction s as [|a s IH]; simpl; [reflexivity|].
  intros [Ha Hs]%orb_false_elim.
  destruct (Ascii.eqb a c).
  - rewrite occurs_append, Hnew, (IH Hs). reflexivity.
  - simpl. rewrite Ha, (IH Hs). reflexivity.
Qed.

Lemma sanitize_no_quote text : occurs quoteChar (sanitize text) = false.
Proof.
  unfold sanitize. apply replaceAll_keeps; [reflexivity|].
  apply replaceAll_removes. reflexivity.
Qed.

Lemma joinWith_occurs c sep l :
  occurs c sep = false -> Forall (fun s => occurs c s = false) l ->
  occurs c (Validator.joinWith sep l) = false.
Proof.
  intros Hsep. induction 1 as [|x l Hx Hl IH]; [reflexivity|].
  destruct l as [|y l]; [exact Hx|].
  change (Validator.joinWith sep (x :: y :: l))
    with (x +:+ sep +:+ Validator.joinWith sep (y :: l)).
  rewrite !occurs_append, Hx, Hsep, IH. reflexivity.
Qed.

(** X13.  The label of an entity never contains a double quote, whatever the
    names of the entity and of its attributes: a name cannot close the
    quoted label of the node in the diagram. *)
Theorem entityLabel_no_quote entity : occurs quoteChar (entityLabel entity) = false.
Proof.
  unfold entityLabel.
  assert (Hparts : Forall (fun s => occurs quoteChar s = false)
            (map (fun attr =>
                    if attr_isPrimaryKey attr
                    then "<u>" +:+ sanitize (attr_name attr) +:+ "</u>"
                    else if attr_isDerived attr
                         then "<i>/" +:+ sanitize (attr_name attr) +:+ "/</i>"
                         else sanitize (attr_name attr))
                 (ent_attributes entity))).
  { apply List.Forall_forall. intros s Hs. apply in_map_iff in Hs as (a & <- & _).
    destruct (attr_isPrimaryKey a); [|destruct (attr_isDerived a)];
      rewrite ?occurs_append, sanitize_no_quote; reflexivity. }
  destruct (0 <? _).
  - rewrite !occurs_append, sanitize_no_quote.
    rewrite (joinWith_occurs quoteChar "<br/>" _ eq_refl Hparts). reflexivity.
  - rewrite !occurs_append, sanitize_no_quote. reflexivity.
Qed.

(** X14.  The identifier that [safeId] makes of an ASCII name (the names on
    which the embedding is the function of the source) has only letters,
    digits and underscores; [safeId] applied twice is [safeId]; and a
    name is its own identifier exactly when it has only such
    characters. *)
Theorem safeId_word name :
  allChars isAscii name = true ->
  allChars isWord (safeId name) = true
  /\ safeId (safeId name) = safeId name
  /\ (if allChars isWord name then safeId name = name else safeId name <> name).
Proof.
  intros _. induction name as [|a r (IH1 & IH2 & IH3)]; [repeat split|].
  simpl. destruct (isWord a) eqn:Ha; simpl.
  - rewrite Ha, IH1, IH2. repeat split.
    destruct (allChars isWord r); [rewrite IH3; reflexivity|congruence].
  - rewrite IH1, IH2. repeat split. intros E. injection E as E _.
    rewrite <- E in Ha. discriminate Ha.
Qed.

(** The theorem applies to a name with a space and a hyphen. *)
Lemma safeId_word_bon_de_commande :
  allChars isWord (safeId "bon de-commande") = true
  /\ safeId (safeId "bon de-commande") = safeId "bon de-commande"
  /\ (if allChars isWord "bon de-commande"
      then safeId "bon de-commande" = "bon de-commande"
      else safeId "bon de-commande" <> "bon de-commande").
Proof. apply (safeId_word "bon de-commande"). reflexivity. Defined.

End MermaidFacts.

(* ================================================================== *)
(** * More on the parsers *)
(* ================================================================== *)

Module ParserMore.

Import Js Text TextFacts McdParser McdParserFacts Serializer SerializerFacts.

(** ** Trimmed texts *)

Lemma hd_append {A} (a b : list A) d : a <> [] -> hd d (a ++ b) = hd d a.
Proof. destruct a; [congruence|reflexivity]. Qed.

Lemma trimEnd_prefix s : exists t, s = trimEnd s ++ t.
Proof.
  unfold trimEnd. exists (rev (takeWhile isSpace (rev s))).
  rewrite <- rev_app_distr, takeWhile_dropWhile, rev_involutive. reflexivity.
Qed.

Lemma trimEnd_last s :
  trimEnd s <> [] -> isSpace (List.last (trimEnd s) (ch " ")) = false.
Proof.
  unfold trimEnd. destruct (dropWhile isSpace (rev s)) as [|c r] eqn:E; [simpl; congruence|].
  intros _. simpl. rewrite last_snoc. exact (dropWhile_head _ _ _ _ E).
Qed.

Lemma trim_ends s :
  trim s <> [] ->
  isSpace (hd (ch " ") (trim s)) = false /\ isSpace (List.last (trim s) (ch " ")) = false.
Proof.
  unfold trim. intros Hne. split; [|apply trimEnd_last, Hne].
  destruct (trimEnd_prefix (trimStart s)) as (t & Ht).
  assert (Hhd : hd (ch " ") (trimEnd (trimStart s)) = hd (ch " ") (trimStart s)).
  { rewrite Ht at 2. symmetry. apply hd_append, Hne. }
  rewrite Hhd. unfold trimStart.
  destruct (dropWhile isSpace s) as [|c r] eqn:E.
  - exfalso. apply Hne. unfold trimStart. rewrite E. reflexivity.
  - exact (dropWhile_head _ _ _ _ E).
Qed.

Lemma trim_idem s : trim (trim s) = trim s.
Proof.
  destruct (trim s) as [|c r] eqn:E; [reflexivity|]. rewrite <- E.
  destruct (trim_ends s) as [H1 H2]; [rewrite E; discriminate|].
  apply trim_id; assumption.
Qed.

Lemma isTrimmed_trim s : isEmpty (trim s) = false -> isTrimmed (trim s).
Proof. intros H. split; [exact H|apply trim_idem]. Qed.

Lemma pushTrimmed_trimmed ps cur :
  Forall isTrimmed ps -> Forall isTrimmed (pushTrimmed ps cur).
Proof.
  intros Hps. unfold pushTrimmed. destruct (isEmpty (trim cur)) eqn:E; [exact Hps|].
  apply Forall_app. split; [exact Hps|]. constructor; [|constructor].
  apply isTrimmed_trim, E.
Qed.

(** X15.  For an ASCII text, the pieces that [splitOutsideParens] returns and
    the items that [normalizeBodyItems] returns are never empty and have
    no white space at their ends. *)
Theorem items_trimmed s :
  isAsciiText s = true ->
  Forall isTrimmed (splitOutsideParens s) /\ Forall isTrimmed (normalizeBodyItems s).
Proof.
  intros _. split.
  - unfold splitOutsideParens. apply pushTrimmed_trimmed.
    match goal with
    | |- Forall _ (parts (foldl ?step ?st0 s)) =>
        assert (H : forall st, Forall isTrimmed (parts st) ->
                               Forall isTrimmed (parts (foldl step st s)));
        [|apply H; constructor]
    end.
    induction s as [|c s IH]; intros st Hst; [exact Hst|].
    simpl foldl. apply IH. cbv beta.
    destruct (_ || _); [exact Hst|].
    destruct (_ || _); [exact Hst|].
    destruct (_ && _); [|exact Hst].
    simpl. apply pushTrimmed_trimmed, Hst.
  - unfold normalizeBodyItems. apply List.Forall_forall. intros item Hitem.
    apply in_flat_map in Hitem as (line & _ & Hitem).
    destruct (isEmpty (trim line)); [destruct Hitem|].
    apply in_flat_map in Hitem as (part & _ & Hitem).
    destruct (isEmpty (trim (stripTrailingComma part))) eqn:E; [destruct Hitem|].
    destruct Hitem as [<-|[]]. apply isTrimmed_trim, E.
Qed.

(** The theorem applies to the body of a relation with a trailing comma
    and a blank line. *)
Lemma items_trimmed_contient :
  Forall isTrimmed (splitOutsideParens (txt " COMMANDE (1,n) , ARTICLE (0,n), "))
  /\ Forall isTrimmed
       (normalizeBodyItems (joinLines [txt "  COMMANDE (1,n),"; txt "   "; txt "quantite ,"])).
Proof.
  split.
  - apply (items_trimmed (txt " COMMANDE (1,n) , ARTICLE (0,n), ")). reflexivity.
  - apply (items_trimmed (joinLines [txt "  COMMANDE (1,n),"; txt "   "; txt "quantite ,"])).
    reflexivity.
Defined.

(** ** A source without block *)

Lemma scan_skipped lines :
  (forall l, In l lines -> isSkipped (trim l) = true) -> scan TopLevel lines = [].
Proof.
  induction lines as [|l ls IH]; intros H; [reflexivity|].
  cbn [scan]. rewrite (scanLine_skipped l (H l (or_introl eq_refl))).
  cbn [app]. apply IH. intros x Hx. apply H. right. exact Hx.
Qed.

(** X16.  A source in which every line is blank or a comment ([//] or [#])
    gives the empty model, without error or warning. *)
Theorem parseMcd_comments_only lines :
  (forall l, In l lines -> containsChar LF l = false) ->
  (forall l, In l lines -> isSkipped (trim l) = true) ->
  parseMcd (joinLines lines)
  = {| model := emptyModel; errors := []; warnings := [] |}.
Proof.
  intros Hlf Hskip. unfold parseMcd.
  rewrite (extractBlocks_joinLines _ Hlf), (scan_skipped _ Hskip). reflexivity.
Qed.

(** The theorem applies to two comments around a blank line. *)
Lemma parseMcd_comments_only_notes :
  parseMcd (joinLines [txt "// modele des ventes"; txt "   "; txt "# a completer"])
  = {| model := emptyModel; errors := []; warnings := [] |}.
Proof.
  apply (parseMcd_comments_only [txt "// modele des ventes"; txt "   "; txt "# a completer"]).
  - intros l [<-|[<-|[<-|[]]]]; reflexivity.
  - intros l [<-|[<-|[<-|[]]]]; reflexivity.
Defined.

(** ** Blocks *)

Lemma parseBlock_entities st block :
  forall e, In e (mcd_entities (fst st)) -> In e (mcd_entities (fst (parseBlock st block))).
Proof.
  destruct st as [m errs]. unfold parseBlock. intros e He.
  destruct (String.eqb _ "ENTITY").
  { unfold parseEntityBlock. simpl. apply in_or_app. left. exact He. }
  destruct (String.eqb _ "RELATION").
  { destruct (parseRelationBlock_spec block m errs) as (rel & Hm & _).
    rewrite Hm. exact He. }
  destruct (String.eqb _ "INHERITANCE").
  { unfold parseInheritanceBlock.
    destruct (foldl parseInheritanceLine _ _) as [inh errs1]. exact He. }
  destruct (String.eqb _ "ASSOCIATIVE").
  { unfold parseAssociativeBlock. destruct (matchKeywordName _ _); exact He. }
  exact He.
Qed.

Lemma parseBlocks_entities blocks st :
  forall e, In e (mcd_entities (fst st)) ->
            In e (mcd_entities (fst (foldl parseBlock st blocks))).
Proof.
  revert st. induction blocks as [|b bs IH]; intros st e He; simpl; [exact He|].
  apply IH, parseBlock_entities, He.
Qed.

(** X17.  In an ASCII source, a block whose keyword is none of ENTITY,
    RELATION, INHERITANCE and ASSOCIATIVE (letter case ignored) gives
    the error that quotes the keyword as it is written. *)
Theorem parseMcd_unknown_keyword source block :
  isAsciiText source = true ->
  In block (extractBlocks source) ->
  str (upperText (keyword block)) <> "ENTITY" ->
  str (upperText (keyword block)) <> "RELATION" ->
  str (upperText (keyword block)) <> "INHERITANCE" ->
  str (upperText (keyword block)) <> "ASSOCIATIVE" ->
  In (unknownKeywordError (keyword block)) (errors (parseMcd source)).
Proof.
  intros _ Hblock H1 H2 H3 H4. unfold parseMcd, parseBlocks.
  destruct (in_split _ _ Hblock) as (pre & post & ->).
  rewrite foldl_app. simpl.
  destruct (parseBlocks_mono post (parseBlock (foldl parseBlock (emptyModel, []) pre) block))
    as [He _].
  destruct (foldl parseBlock (parseBlock _ block) post) as [m2 errs2] eqn:E.
  simpl in *. apply He. unfold parseBlock.
  rewrite (proj2 (String.eqb_neq _ _) H1), (proj2 (String.eqb_neq _ _) H2),
          (proj2 (String.eqb_neq _ _) H3), (proj2 (String.eqb_neq _ _) H4).
  simpl. apply in_or_app. right. left. reflexivity.
Qed.

(** The theorem applies to a block written with the keyword of the
    logical model. *)
Lemma parseMcd_unknown_keyword_table :
  In (unknownKeywordError (txt "Table"))
     (errors (parseMcd (txt "Table CLIENT { id_client [PK] }"))).
Proof.
  apply (parseMcd_unknown_keyword (txt "Table CLIENT { id_client [PK] }")
           {| keyword := txt "Table"; name := txt "CLIENT";
              extra := txt "{ id_client [PK] }"; body := txt "id_client [PK]" |}).
  - reflexivity.
  - vm_compute. left. reflexivity.
  - vm_compute. discriminate.
  - vm_compute. discriminate.
  - vm_compute. discriminate.
  - vm_compute. discriminate.
Defined.

Lemma parseEntityBlock_spec block m errs :
  In (entityOf block) (mcd_entities (fst (parseEntityBlock block (m, errs))))
  /\ (existsb attr_isPrimaryKey (ent_attributes (entityOf block)) = false ->
      In (missingIdentifierError (name block)) (snd (parseEntityBlock block (m, errs)))).
Proof.
  unfold parseEntityBlock. fold (entityOf block). cbn [fst snd mcd_entities]. split.
  - apply in_or_app. right. left. reflexivity.
  - intros Hpk.
    assert (Hnone : List.filter attr_isPrimaryKey (ent_attributes (entityOf block)) = []).
    { apply SqlScriptFacts.filter_none. intros a Ha.
      destruct (attr_isPrimaryKey a) eqn:Hk; [|reflexivity].
      rewrite <- Hpk. symmetry. apply existsb_exists. exists a. split; assumption. }
    rewrite Hnone. cbn [isEmpty]. apply in_or_app. right. left. reflexivity.
Qed.

(** X18.  In an ASCII source, every ENTITY block (letter case of the keyword
    ignored) gives an entity of the model, named after the block, with
    the attributes that [parseAttribute] reads in the items of the body;
    when none of them is a primary key the entity is kept and the error
    about the missing identifier is recorded. *)
Theorem parseMcd_entity_block source block :
  isAsciiText source = true ->
  In block (extractBlocks source) ->
  str (upperText (keyword block)) = "ENTITY" ->
  In (entityOf block) (mcd_entities (model (parseMcd source)))
  /\ (if existsb attr_isPrimaryKey (ent_attributes (entityOf block)) then True
      else In (missingIdentifierError (name block)) (errors (parseMcd source))).
Proof.
  intros _ Hblock Hkw. unfold parseMcd, parseBlocks.
  destruct (in_split _ _ Hblock) as (pre & post & ->).
  rewrite foldl_app. cbn [foldl].
  destruct (foldl parseBlock (emptyModel, []) pre) as [m0 errs0].
  assert (Hstep : parseBlock (m0, errs0) block = parseEntityBlock block (m0, errs0)).
  { unfold parseBlock. rewrite Hkw. reflexivity. }
  rewrite Hstep.
  destruct (parseEntityBlock_spec block m0 errs0) as [Hin Herr].
  destruct (parseBlocks_mono post (parseEntityBlock block (m0, errs0))) as [He _].
  pose proof (parseBlocks_entities post (parseEntityBlock block (m0, errs0))) as Hent.
  destruct (foldl parseBlock (parseEntityBlock block (m0, errs0)) post) as [m2 errs2].
  cbn [model errors fst snd] in *. split.
  - apply Hent, Hin.
  - destruct (existsb attr_isPrimaryKey (ent_attributes (entityOf block)));
      [exact I|apply He, Herr; reflexivity].
Qed.

(** The theorem applies to an entity written on one line, without
    identifier. *)
Lemma parseMcd_entity_block_note :
  In (entityOf {| keyword := txt "entity"; name := txt "NOTE";
                  extra := txt "{ texte, auteur [DERIVED] }";
                  body := txt "texte, auteur [DERIVED]" |})
     (mcd_entities (model (parseMcd (txt "entity NOTE { texte, auteur [DERIVED] }"))))
  /\ (if existsb attr_isPrimaryKey
           (ent_attributes
              (entityOf {| keyword := txt "entity"; name := txt "NOTE";
                           extra := txt "{ texte, auteur [DERIVED] }";
                           body := txt "texte, auteur [DERIVED]" |}))
      then True
      else In (missingIdentifierError (txt "NOTE"))
              (errors (parseMcd (txt "entity NOTE { texte, auteur [DERIVED] }")))).
Proof.
  apply (parseMcd_entity_block (txt "entity NOTE { texte, auteur [DERIVED] }")
           {| keyword := txt "entity"; name := txt "NOTE";
              extra := txt "{ texte, auteur [DERIVED] }";
              body := txt "texte, auteur [DERIVED]" |}).
  - reflexivity.
  - vm_compute. left. reflexivity.
  - vm_compute. reflexivity.
Defined.

End ParserMore.

(* ================================================================== *)
(** * Converted models and their text *)
(* ================================================================== *)

Module PipelineFacts.

Import Js Text TextFacts MldToMpd MldToMpdFacts Serializer SerializerFacts.

(** ** The types of the converter are types of the grammar *)

Lemma txt_append a b : txt (a +:+ b) = txt a ++ txt b.
Proof.
  unfold txt. induction a as [|c a IH]; [reflexivity|].
  simpl. f_equal. exact IH.
Qed.

Lemma uint_digits d : forallb isDigit (txt (NilEmpty.string_of_uint d)) = true.
Proof. induction d; simpl; try reflexivity; exact IHd. Qed.

Lemma ofNumber_digits n :
  forallb isDigit (txt (ofNumber n)) = true /\ isEmpty (txt (ofNumber n)) = false.
Proof.
  split; [apply uint_digits|]. unfold ofNumber. destruct n as [|p]; [reflexivity|].
  simpl N.to_uint. pose proof (Unsigned.to_uint_nonnil p) as Hp.
  destruct (Pos.to_uint p); [congruence|reflexivity..].
Qed.

Lemma varchar_grammar n : isSqlType ("VARCHAR(" +:+ ofNumber n +:+ ")") = true.
Proof.
  destruct (ofNumber_digits n) as [Hd Hne].
  unfold isSqlType. rewrite !txt_append.
  change (txt "VARCHAR(") with (txt "VARCHAR" ++ [ch "("]). rewrite <- !app_assoc.
  rewrite (takeWhile_stop isWord (txt "VARCHAR") _ (ch " ")) by reflexivity.
  rewrite (dropWhile_stop isWord (txt "VARCHAR") _ (ch " ")) by reflexivity.
  simpl app. unfold isSizeSuffix.
  rewrite (takeWhile_stop isDigit _ [")"%char] (ch " ") Hd) by reflexivity.
  rewrite (dropWhile_stop isDigit _ [")"%char] (ch " ") Hd) by reflexivity.
  rewrite Hne. reflexivity.
Qed.

Lemma inferSqlType_grammar name pk dialect len :
  isSqlType (inferSqlType name pk dialect len) = true.
Proof.
  unfold inferSqlType.
  repeat match goal with
         | |- context [if ?b then _ else _] => destruct b
         end;
    try destruct dialect; try reflexivity; apply varchar_grammar.
Qed.

Lemma propagatedType_grammar dialect len (m : gmap string string) fk :
  map_Forall (fun _ ty => isSqlType ty = true) m ->
  isSqlType (propagatedType dialect len m fk) = true.
Proof.
  intros Hm. unfold propagatedType.
  destruct (m !! _) as [ty|] eqn:E; [|apply inferSqlType_grammar].
  destruct (truthy ty); [|apply inferSqlType_grammar].
  destruct (String.eqb ty "SERIAL"); [reflexivity|exact (Hm _ _ E)].
Qed.

Lemma passes_grammar dialect len mld :
  map_Forall (fun _ ty => isSqlType ty = true)
             (secondPass dialect len mld (firstPass dialect len mld)).
Proof.
  rewrite secondPass_entries, firstPass_entries.
  assert (H1 : forall es m, map_Forall (fun _ ty => isSqlType ty = true) m ->
             map_Forall (fun _ ty => isSqlType ty = true) (foldl (own dialect len) m es)).
  { induction es as [|e es IH]; intros m Hm; [exact Hm|]. simpl. apply IH.
    unfold own, resolveOwn. destruct (lcol_foreignKey (snd e)); [exact Hm|].
    apply map_Forall_insert_2; [apply inferSqlType_grammar|exact Hm]. }
  assert (H2 : forall es m, map_Forall (fun _ ty => isSqlType ty = true) m ->
             map_Forall (fun _ ty => isSqlType ty = true) (foldl (foreign dialect len) m es)).
  { induction es as [|e es IH]; intros m Hm; [exact Hm|]. simpl. apply IH.
    unfold foreign, resolveForeign. destruct (lcol_foreignKey (snd e)); [|exact Hm].
    apply map_Forall_insert_2; [apply propagatedType_grammar, Hm|exact Hm]. }
  apply H2, H1, map_Forall_empty.
Qed.

Lemma buildColumn_grammar dialect len (m : gmap string string) tn c :
  map_Forall (fun _ ty => isSqlType ty = true) m ->
  isSqlType (pcol_sqlType (buildColumn dialect len m tn c)) = true.
Proof.
  intros Hm.
  assert (H : isSqlType
    match m !! typeKey tn (lcol_name c) with
    | Some ty =>
        if truthy ty then ty
        else inferSqlType (lcol_name c) (lcol_isPrimaryKey c) dialect len
    | None => inferSqlType (lcol_name c) (lcol_isPrimaryKey c) dialect len
    end = true).
  { destruct (m !! _) as [ty|] eqn:E; [|apply inferSqlType_grammar].
    destruct (truthy ty); [exact (Hm _ _ E)|apply inferSqlType_grammar]. }
  unfold buildColumn. destruct (lcol_foreignKey c); exact H.
Qed.

Lemma buildColumn_canonical dialect len m tn c :
  keepsOrder c = true ->
  canonicalConstraints (pcol_constraints (buildColumn dialect len m tn c)) = true.
Proof.
  unfold keepsOrder, buildColumn.
  destruct (Js.includes (toLowerCase (lcol_name c)) "email");
    destruct c as [name [|] [fk|]]; simpl; intros H; try reflexivity; discriminate H.
Qed.

Lemma buildColumn_wellFormed dialect len (m : gmap string string) tn c :
  map_Forall (fun _ ty => isSqlType ty = true) m ->
  wellFormedMldColumn c = true -> keepsOrder c = true ->
  wellFormedMpdColumn (buildColumn dialect len m tn c) = true.
Proof.
  intros Hm Hwf Hord. unfold wellFormedMpdColumn.
  rewrite buildColumn_name, (buildColumn_grammar _ _ _ _ _ Hm),
          (buildColumn_canonical _ _ _ _ _ Hord).
  unfold wellFormedMldColumn in Hwf. apply andb_prop in Hwf as [Hn Hfk]. rewrite Hn.
  unfold buildColumn. destruct (lcol_foreignKey c) as [fk|]; [exact Hfk|reflexivity].
Qed.

Lemma convertMldToMpd_wellFormed dialect len mld :
  wellFormedMld mld = true ->
  forallb (fun t => forallb keepsOrder (ltab_columns t)) (mld_tables mld) = true ->
  wellFormedMpd (convertMldToMpd dialect len mld) = true.
Proof.
  intros Hwf Hord. unfold wellFormedMpd, convertMldToMpd. cbn [mpd_tables].
  pose proof (passes_grammar dialect len mld) as Hm.
  unfold wellFormedMld in Hwf.
  apply forallb_forall. intros t Ht. apply in_map_iff in Ht as (t0 & <- & Ht0).
  pose proof (proj1 (forallb_forall _ _) Hwf _ Ht0) as Ht1.
  pose proof (proj1 (forallb_forall _ _) Hord _ Ht0) as Ht2. cbv beta in Ht1, Ht2.
  apply andb_prop in Ht1 as [Hn Hcols]. cbn [buildTable ptab_name ptab_columns].
  rewrite Hn. apply forallb_forall. intros c Hc.
  apply in_map_iff in Hc as (c0 & <- & Hc0).
  apply buildColumn_wellFormed;
    [exact Hm|exact (proj1 (forallb_forall _ _) Hcols _ Hc0)
             |exact (proj1 (forallb_forall _ _) Ht2 _ Hc0)].
Qed.

(** X19.  The text that [generateMpdText] writes for the physical model that
    [convertMldToMpd] makes of a logical model is read back by [parseMpd]
    as that very model, without error, when the default length is at
    most 2^53 - 1 (so that it is printed with all its digits), the names
    of the logical model are words, its foreign keys are named after
    their columns, and no foreign-key column outside of the primary key
    has [email] in its name. *)
Theorem convertMldToMpd_text_round_trip dialect len mld :
  (len <= maxSafeInteger)%N ->
  wellFormedMld mld = true ->
  forallb (fun t => forallb keepsOrder (ltab_columns t)) (mld_tables mld) = true ->
  MpdParser.parseMpd (generateMpdText (convertMldToMpd dialect len mld))
  = {| MpdParser.model := convertMldToMpd dialect len mld; MpdParser.errors := [] |}.
Proof.
  intros _ Hwf Hord. apply parseMpd_generateMpdText, convertMldToMpd_wellFormed; assumption.
Qed.

(** The theorem applies to the model of clients and orders. *)
Lemma convertMldToMpd_text_round_trip_orders :
  MpdParser.parseMpd (generateMpdText (convertMldToMpd postgresql 255 orders))
  = {| MpdParser.model := convertMldToMpd postgresql 255 orders; MpdParser.errors := [] |}.
Proof.
  apply (convertMldToMpd_text_round_trip postgresql 255 orders).
  - vm_compute. discriminate.
  - vm_compute. reflexivity.
  - vm_compute. reflexivity.
Defined.

End PipelineFacts.

(* ================================================================== *)
(** * From the conceptual model to the text of the logical model *)
(* ================================================================== *)

Module McdPipelineFacts.

Import Js Text TextFacts McdToMld Serializer SerializerFacts.

(** ** Names that are words *)

Lemma isName_append a b : isName a = true -> isName b = true -> isName (a +:+ "_" +:+ b) = true.
Proof.
  unfold isName. intros [Ha1 Ha2]%andb_prop [Hb1 Hb2]%andb_prop.
  rewrite !PipelineFacts.txt_append, !forallb_app, Ha2, Hb2.
  destruct (txt a); [discriminate Ha1|reflexivity].
Qed.

Lemma toLowerChar_word c : isWord c = true -> isWord (toLowerChar c) = true.
Proof. destruct c as [[] [] [] [] [] [] [] []]; intros H; try discriminate H; reflexivity. Qed.

Lemma isName_lower s : isName s = true -> isName (toLowerCase s) = true.
Proof.
  unfold isName. intros [H1 H2]%andb_prop. apply andb_true_intro. split.
  - destruct s; [discriminate H1|reflexivity].
  - clear H1. unfold txt in *. induction s as [|c s IH]; [reflexivity|].
    simpl in *. apply andb_prop in H2 as [Hc Hs].
    rewrite (toLowerChar_word _ Hc). exact (IH Hs).
Qed.

Lemma wellFormed_plain name pk :
  isName name = true -> wellFormedMldColumn (plainColumn name pk) = true.
Proof. intros H. unfold wellFormedMldColumn. simpl. rewrite H. reflexivity. Qed.

Lemma wellFormed_foreign name pk tbl col :
  isName name = true -> isName tbl = true -> isName col = true ->
  wellFormedMldColumn (foreignColumn name pk tbl col) = true.
Proof.
  intros H1 H2 H3. unfold wellFormedMldColumn. simpl.
  rewrite H1, H2, H3, String.eqb_refl. reflexivity.
Qed.

(** ** Lists updated in place *)

Lemma forallb_snoc {A} (q : A -> bool) l x :
  forallb q l = true -> q x = true -> forallb q (l ++ [x]) = true.
Proof. intros Hl Hx. rewrite forallb_app, Hl. simpl. rewrite Hx. reflexivity. Qed.

Lemma forallb_updateFirst {A} (q p : A -> bool) g l :
  forallb q l = true -> (forall x, q x = true -> q (g x) = true) ->
  forallb q (updateFirst p g l) = true.
Proof.
  intros Hl Hg. induction l as [|a l IH]; [reflexivity|].
  simpl in *. apply andb_prop in Hl as [Ha Hl].
  destruct (p a); simpl; [rewrite (Hg _ Ha), Hl|rewrite Ha, (IH Hl)]; reflexivity.
Qed.

Lemma forallb_removeFirst {A} (q p : A -> bool) l :
  forallb q l = true -> forallb q (removeFirst p l) = true.
Proof.
  intros Hl. induction l as [|a l IH]; [reflexivity|].
  simpl in *. apply andb_prop in Hl as [Ha Hl].
  destruct (p a); simpl; [exact Hl|rewrite Ha, (IH Hl); reflexivity].
Qed.

Lemma foldl_invariant {S A} (P : S -> Prop) (step : S -> A -> S) (l : list A) s :
  (forall s a, In a l -> P s -> P (step s a)) -> P s -> P (foldl step s l).
Proof.
  revert s. induction l as [|a l IH]; intros s Hstep Hs; simpl; [exact Hs|].
  apply IH; [intros; apply Hstep; [right|]; assumption|].
  apply Hstep; [left; reflexivity|exact Hs].
Qed.

Section Words.

Variable entityMap : gmap string McdEntity.

Hypothesis entityMap_words :
  forall name e, entityMap !! name = Some e ->
    isName name = true /\ wordAttributes (ent_attributes e) = true.

Local Abbreviation wellFormedTable :=
  (fun t => isName (ltab_name t) && forallb wellFormedMldColumn (ltab_columns t)).

Lemma wordAttributes_In attrs a :
  wordAttributes attrs = true -> In a attrs -> isName (attr_name a) = true.
Proof using Type. intros H Ha. exact (proj1 (forallb_forall _ _) H a Ha). Qed.

Lemma getPrimaryKey_word name pk :
  whenTruthy (getPrimaryKey (entityMap !! name)) = Some pk ->
  isName name = true /\ isName pk = true.
Proof using entityMap_words.
  destruct (entityMap !! name) as [e|] eqn:He; [|discriminate].
  destruct (entityMap_words _ _ He) as [Hn Hattrs]. simpl.
  destruct (List.find attr_isPrimaryKey (ent_attributes e)) as [a|] eqn:Hf; [|discriminate].
  simpl. destruct (truthy (attr_name a)); [|discriminate]. intros [= <-].
  split; [exact Hn|]. apply find_some in Hf as [Hin _].
  exact (wordAttributes_In _ _ Hattrs Hin).
Qed.

Lemma wellFormed_updateFirst (p : MldTable -> bool) f ts :
  forallb wellFormedTable ts = true ->
  (forall cs, forallb wellFormedMldColumn cs = true ->
              forallb wellFormedMldColumn (f cs) = true) ->
  forallb wellFormedTable (updateFirst p (withColumns f) ts) = true.
Proof using Type.
  intros Hts Hf. apply forallb_updateFirst; [exact Hts|].
  intros t [Hn Hc]%andb_prop. simpl. rewrite Hn, (Hf _ Hc). reflexivity.
Qed.

Lemma wellFormed_pushMissing flag cs attrs :
  wordAttributes attrs = true ->
  forallb wellFormedMldColumn cs = true ->
  forallb wellFormedMldColumn (pushMissing flag cs attrs) = true.
Proof using Type.
  unfold pushMissing. intros Hattrs.
  apply (foldl_invariant (fun cs => forallb wellFormedMldColumn cs = true)).
  intros cs0 a Ha Hcs. destruct (existsb _ cs0); [exact Hcs|].
  apply forallb_snoc; [exact Hcs|].
  apply wellFormed_plain, (wordAttributes_In _ _ Hattrs Ha).
Qed.

Lemma wellFormed_addForeignKey ts owner target role :
  (forall r, whenTruthy role = Some r -> isName r = true) ->
  forallb wellFormedTable ts = true ->
  forallb wellFormedTable (addForeignKey entityMap ts owner target role) = true.
Proof using entityMap_words.
  intros Hrole Hts. unfold addForeignKey.
  destruct (List.find _ ts); [|exact Hts].
  destruct (entityMap !! target) as [e|] eqn:He; [|exact Hts].
  destruct (whenTruthy (getPrimaryKey (Some e))) as [pk|] eqn:Hpk; [|exact Hts].
  destruct (existsb _ _); [exact Hts|].
  rewrite <- He in Hpk. destruct (getPrimaryKey_word _ _ Hpk) as [Ht Hk].
  apply wellFormed_updateFirst; [exact Hts|]. intros cs Hcs.
  apply forallb_snoc; [exact Hcs|]. apply wellFormed_foreign; [|exact Ht|exact Hk].
  destruct (whenTruthy role) as [r|]; [|exact Hk].
  apply isName_append; [exact Hk|apply Hrole; reflexivity].
Qed.

Lemma wellFormed_addRelationAttributes ts owner rel :
  wordAttributes (rel_attributes rel) = true ->
  forallb wellFormedTable ts = true ->
  forallb wellFormedTable (addRelationAttributes ts owner rel) = true.
Proof using Type.
  intros Hattrs Hts. apply wellFormed_updateFirst; [exact Hts|].
  intros cs Hcs. apply wellFormed_pushMissing; assumption.
Qed.

Lemma wellFormed_createAssociativeTable rel ts :
  isName (rel_name rel) = true -> wordAttributes (rel_attributes rel) = true ->
  forallb wellFormedTable ts = true ->
  forallb wellFormedTable (createAssociativeTable entityMap rel ts) = true.
Proof using entityMap_words.
  intros Hn Hattrs Hts. unfold createAssociativeTable.
  apply forallb_snoc; [exact Hts|]. simpl. rewrite Hn. simpl.
  rewrite forallb_app. apply andb_true_intro. split.
  - apply forallb_forall. intros c Hc. unfold associativeKeyColumns in Hc.
    apply in_flat_map in Hc as (p & _ & Hc).
    destruct (whenTruthy _) as [pk|] eqn:Hpk; [|destruct Hc].
    destruct (getPrimaryKey_word _ _ Hpk) as [Ht Hk].
    destruct Hc as [<-|[]]. apply wellFormed_foreign; [|exact Ht|exact Hk].
    destruct (1 <? _); [|exact Hk]. apply isName_append; [exact Hk|].
    apply isName_lower, Ht.
  - apply forallb_forall. intros c Hc. apply in_map_iff in Hc as (a & <- & Ha).
    apply wellFormed_plain, (wordAttributes_In _ _ Hattrs Ha).
Qed.

Lemma wellFormed_handleRelation pairCount ts rel :
  isName (rel_name rel) = true -> wordAttributes (rel_attributes rel) = true ->
  forallb wellFormedTable ts = true ->
  forallb wellFormedTable (handleRelation entityMap pairCount ts rel) = true.
Proof using entityMap_words.
  intros Hn Hattrs Hts.
  assert (Hfk : forall owner target,
            forallb wellFormedTable
              (addRelationAttributes
                 (addForeignKey entityMap ts owner target
                    (if isMultipleRelation rel pairCount then Some (rel_name rel) else None))
                 owner rel) = true).
  { intros. apply wellFormed_addRelationAttributes; [exact Hattrs|].
    apply wellFormed_addForeignKey; [|exact Hts].
    intros r Hr. destruct (isMultipleRelation rel pairCount); [|discriminate Hr].
    simpl in Hr. destruct (truthy (rel_name rel)); [|discriminate Hr].
    injection Hr as <-. exact Hn. }
  pose proof (wellFormed_createAssociativeTable rel ts Hn Hattrs Hts) as Hassoc.
  unfold handleRelation, handleNaryRelation, handleBinaryRelation.
  destruct (rel_participants rel) as [|p1 [|p2 [|p3 ps]]]; try exact Hassoc.
  repeat match goal with |- context [if ?b && ?c then _ else _] => destruct (b && c) end;
    try destruct (Cardinality_eqb _ _); try apply Hfk; exact Hassoc.
Qed.

Lemma wellFormed_inheritKey parentName parentPk cs :
  isName parentName = true -> isName parentPk = true ->
  forallb wellFormedMldColumn cs = true ->
  forallb wellFormedMldColumn (inheritKey parentName parentPk cs) = true.
Proof using Type.
  intros Hn Hk Hcs. unfold inheritKey. destruct (existsb _ cs); [exact Hcs|].
  assert (H1 : forallb wellFormedMldColumn
                 (foreignColumn parentPk true parentName parentPk :: cs) = true).
  { simpl forallb. rewrite (wellFormed_foreign _ true _ _ Hk Hn Hk). exact Hcs. }
  destruct (1 <? _); [apply forallb_removeFirst|]; exact H1.
Qed.

Lemma wellFormed_absorbChild parentName st childName :
  forallb wellFormedTable (fst st) = true ->
  forallb wellFormedTable (fst (absorbChild entityMap parentName st childName)) = true.
Proof using entityMap_words.
  destruct st as [ts attached]. simpl. intros Hts. apply forallb_removeFirst.
  destruct (entityMap !! childName) as [child|] eqn:He; [|exact Hts].
  destruct attached; [|exact Hts].
  destruct (entityMap_words _ _ He) as [_ Hattrs].
  apply wellFormed_updateFirst; [exact Hts|]. intros cs.
  apply (foldl_invariant (fun cs => forallb wellFormedMldColumn cs = true)).
  intros cs0 a Ha Hcs. destruct (_ && _); [|exact Hcs].
  apply forallb_snoc; [exact Hcs|].
  apply wellFormed_plain, (wordAttributes_In _ _ Hattrs Ha).
Qed.

Lemma wellFormed_inheritAttributes parent cs :
  wordAttributes (ent_attributes parent) = true ->
  forallb wellFormedMldColumn cs = true ->
  forallb wellFormedMldColumn (inheritAttributes parent cs) = true.
Proof using Type.
  intros Hattrs. unfold inheritAttributes.
  apply (foldl_invariant (fun cs => forallb wellFormedMldColumn cs = true)).
  intros cs0 a Ha Hcs. destruct (existsb _ cs0); [exact Hcs|].
  simpl forallb. rewrite Hcs, (wellFormed_plain _ _ (wordAttributes_In _ _ Hattrs Ha)).
  reflexivity.
Qed.

Lemma wellFormed_handleInheritance parentName childNames strategy ts :
  forallb wellFormedTable ts = true ->
  forallb wellFormedTable
    (handleInheritance entityMap parentName childNames strategy ts) = true.
Proof using entityMap_words.
  intros Hts. unfold handleInheritance.
  destruct (whenTruthy _) as [parentPk|] eqn:Hpk; [|exact Hts].
  destruct (getPrimaryKey_word _ _ Hpk) as [Hn Hk].
  destruct strategy.
  - apply (foldl_invariant (fun ts => forallb wellFormedTable ts = true)); [|exact Hts].
    intros ts0 child _ Hts0. apply wellFormed_updateFirst; [exact Hts0|].
    intros cs. apply wellFormed_inheritKey; assumption.
  - destruct (existsb _ ts); [|exact Hts].
    match goal with
    | |- context [foldl ?step (?ts1, true) childNames] =>
        apply (foldl_invariant (fun st => forallb wellFormedTable (fst st) = true) step)
    end.
    + intros st child _. apply wellFormed_absorbChild.
    + simpl fst. apply wellFormed_updateFirst; [exact Hts|]. intros cs Hcs.
      destruct (existsb _ cs); [exact Hcs|]. apply forallb_snoc; [exact Hcs|reflexivity].
  - destruct (entityMap !! parentName) as [parent|] eqn:He; [|exact Hts].
    destruct (entityMap_words _ _ He) as [_ Hattrs]. apply forallb_removeFirst.
    apply (foldl_invariant (fun ts => forallb wellFormedTable ts = true)); [|exact Hts].
    intros ts0 child _ Hts0. apply wellFormed_updateFirst; [exact Hts0|].
    intros cs. apply wellFormed_inheritAttributes, Hattrs.
Qed.

Lemma wellFormed_handleAssociativeEntity relations ts assoc :
  isName (assoc_name assoc) = true -> wordAttributes (assoc_attributes assoc) = true ->
  forallb wellFormedTable ts = true ->
  forallb wellFormedTable (handleAssociativeEntity entityMap relations ts assoc) = true.
Proof using entityMap_words.
  intros Hn Hattrs Hts. unfold handleAssociativeEntity.
  destruct (List.find _ relations) as [rel|]; [|exact Hts].
  apply wellFormed_updateFirst.
  - destruct (existsb _ ts); [exact Hts|].
    apply forallb_snoc; [exact Hts|]. simpl. rewrite Hn. simpl.
    apply forallb_forall. intros c Hc. apply in_flat_map in Hc as (p & _ & Hc).
    destruct (whenTruthy _) as [pk|] eqn:Hpk; [|destruct Hc].
    destruct (getPrimaryKey_word _ _ Hpk) as [Ht Hk].
    destruct Hc as [<-|[]]. apply wellFormed_foreign; assumption.
  - intros cs Hcs. apply wellFormed_pushMissing; assumption.
Qed.

End Words.

Lemma buildEntityMap_In entities name e :
  buildEntityMap entities !! name = Some e -> In e entities /\ ent_name e = name.
Proof.
  unfold buildEntityMap. induction entities as [|a es IH] using rev_ind; [discriminate|].
  rewrite foldl_app. simpl. intros H.
  destruct (String.eqb_spec (ent_name a) name) as [Heq|Hne].
  - rewrite <- Heq, lookup_insert_eq in H. injection H as <-.
    split; [apply in_or_app; right; left; reflexivity|exact Heq].
  - rewrite lookup_insert_ne in H by exact Hne. destruct (IH H) as [Hin Hname].
    split; [apply in_or_app; left; exact Hin|exact Hname].
Qed.

Lemma convertMcdToMld_wellFormed mcd strategy :
  wordNames mcd = true -> wellFormedMld (convertMcdToMld mcd strategy) = true.
Proof.
  unfold wordNames. intros [[He Hr]%andb_prop Ha]%andb_prop.
  assert (Hmap : forall name e, buildEntityMap (mcd_entities mcd) !! name = Some e ->
            isName name = true /\ wordAttributes (ent_attributes e) = true).
  { intros name e H. apply buildEntityMap_In in H as [Hin <-].
    exact (proj1 (andb_true_iff _ _) (proj1 (forallb_forall _ _) He e Hin)). }
  unfold wellFormedMld, convertMcdToMld, afterInheritances, afterRelations. cbn [mld_tables].
  apply (foldl_invariant
           (fun ts => forallb (fun t => isName (ltab_name t)
                                        && forallb wellFormedMldColumn (ltab_columns t)) ts
                      = true)).
  { intros ts a Hin. destruct (andb_prop _ _ (proj1 (forallb_forall _ _) Ha a Hin)) as [H1 H2].
    apply wellFormed_handleAssociativeEntity; assumption. }
  apply (foldl_invariant
           (fun ts => forallb (fun t => isName (ltab_name t)
                                        && forallb wellFormedMldColumn (ltab_columns t)) ts
                      = true)).
  { intros ts inh _. apply wellFormed_handleInheritance, Hmap. }
  apply (foldl_invariant
           (fun ts => forallb (fun t => isName (ltab_name t)
                                        && forallb wellFormedMldColumn (ltab_columns t)) ts
                      = true)).
  { intros ts r Hin. destruct (andb_prop _ _ (proj1 (forallb_forall _ _) Hr r Hin)) as [H1 H2].
    apply wellFormed_handleRelation; assumption. }
  unfold afterEntities. apply forallb_forall. intros t Ht.
  apply in_map_iff in Ht as (e & <- & Hin).
  destruct (andb_prop _ _ (proj1 (forallb_forall _ _) He e Hin)) as [H1 H2].
  simpl. rewrite H1. simpl. apply forallb_forall. intros c Hc.
  apply in_map_iff in Hc as (a & <- & Hain). apply filter_In in Hain as [Hain _].
  apply wellFormed_plain, (wordAttributes_In _ _ H2 Hain).
Qed.

(** X20.  When the names of the entities, the relations, the associative
    entities and their attributes are words, the text that
    [generateMldText] writes for the result of [convertMcdToMld] is read
    back by [parseMld] as that very model, without error, whatever the
    inheritance strategy: every name that the converter makes (role and
    conflict suffixes, the discriminator) is a word, and every foreign
    key is named after its column. *)
Theorem convertMcdToMld_text_round_trip mcd strategy :
  wordNames mcd = true ->
  MldParser.parseMld (generateMldText (convertMcdToMld mcd strategy))
  = {| MldParser.model := convertMcdToMld mcd strategy; MldParser.errors := [] |}.
Proof.
  intros H. apply parseMld_generateMldText, convertMcdToMld_wellFormed, H.
Qed.

(** The theorem applies to a model with an inheritance, a ternary
    relation and an associative entity. *)
Lemma convertMcdToMld_text_round_trip_library :
  MldParser.parseMld (generateMldText (convertMcdToMld library single_table))
  = {| MldParser.model := convertMcdToMld library single_table; MldParser.errors := [] |}.
Proof. apply (convertMcdToMld_text_round_trip library single_table). vm_compute. reflexivity. Defined.

End McdPipelineFacts.

(* ================================================================== *)
(** * From the source of the conceptual model to the logical model *)
(* ================================================================== *)

Module McdSourceFacts.

Import Js Text TextFacts McdParser McdParserFacts Serializer SerializerFacts.

Lemma isName_str t : isName (str t) = isWordText t.
Proof. unfold isName, isWordText. rewrite txt_str. reflexivity. Qed.

(** ** The names of the blocks *)

Lemma matchHeader_word line kw nm ex :
  matchHeader line = Some (kw, nm, ex) -> isWordText nm = true.
Proof.
  unfold matchHeader.
  destruct (negb (isEmpty (takeWhile isWord line))); [|discriminate].
  destruct (negb (isEmpty (takeWhile isSpace (dropWhile isWord line)))); [|discriminate].
  destruct (negb (isEmpty (takeWhile isWord (dropWhile isSpace (dropWhile isWord line)))))
    eqn:Hnm; [|discriminate].
  destruct (negb (hasLineTerminator _)); [|discriminate].
  simpl. intros [= _ <- _]. unfold isWordText. rewrite Hnm. apply takeWhile_forallb.
Qed.

Lemma scanLine_words st raw :
  match st with
  | TopLevel => True
  | SeekBrace _ nm _ | InBody _ nm _ _ _ => isWordText nm = true
  end ->
  match fst (scanLine st raw) with
  | TopLevel => True
  | SeekBrace _ nm _ | InBody _ nm _ _ _ => isWordText nm = true
  end
  /\ forallb (fun b => isWordText (name b)) (snd (scanLine st raw)) = true.
Proof.
  destruct st as [|kw nm ex|kw nm ex bd depth]; intros Hst; unfold scanLine.
  - destruct (isSkipped (trim raw)); [split; [exact I|reflexivity]|].
    destruct (matchHeader (trim raw)) as [[[kw nm] ex]|] eqn:Hh; [|split; [exact I|reflexivity]].
    pose proof (matchHeader_word _ _ _ _ Hh) as Hnm.
    destruct (containsChar _ _); [|split; [exact Hnm|reflexivity]].
    destruct (endsWith _ _); simpl; [rewrite Hnm|]; split; auto.
  - destruct (startsWith _ _); split; auto.
  - destruct (0 <? _); simpl; [|rewrite Hst]; split; auto.
Qed.

Lemma scan_words lines st :
  match st with
  | TopLevel => True
  | SeekBrace _ nm _ | InBody _ nm _ _ _ => isWordText nm = true
  end ->
  forallb (fun b => isWordText (name b)) (scan st lines) = true.
Proof.
  revert st. induction lines as [|l ls IH]; intros st Hst.
  - destruct st; simpl; [reflexivity|rewrite Hst; reflexivity..].
  - cbn [scan]. destruct (scanLine_words st l Hst) as [H1 H2].
    destruct (scanLine st l) as [st' blocks]. rewrite forallb_app.
    simpl in H1, H2. rewrite H2. exact (IH st' H1).
Qed.

(** ** The names of the attributes *)

Lemma parseAttribute_word s a :
  parseAttribute s = Some a -> isName (attr_name a) = true.
Proof.
  unfold parseAttribute.
  destruct (matchAttribute s) as [[nm flags]|] eqn:Hm; [|discriminate].
  intros [= <-]. simpl. rewrite isName_str. unfold matchAttribute in Hm.
  destruct (isEmpty (takeWhile isWord s)) eqn:Hnm; [discriminate|].
  assert (Hw : isWordText (takeWhile isWord s) = true).
  { unfold isWordText. rewrite Hnm. apply takeWhile_forallb. }
  destruct (isEmpty (dropWhile isSpace (dropWhile isWord s))).
  - injection Hm as <- _. exact Hw.
  - destruct (_ && _); [|discriminate]. injection Hm as <- _. exact Hw.
Qed.

Lemma parseAttributes_words items : wordAttributes (parseAttributes items) = true.
Proof.
  unfold wordAttributes, parseAttributes. induction items as [|s items IH]; [reflexivity|].
  cbn [omap list_omap]. destruct (parseAttribute s) as [a|] eqn:Hs; [|exact IH].
  cbn [forallb]. rewrite (parseAttribute_word _ _ Hs). exact IH.
Qed.

Lemma parseRelationItem_words relationName st item :
  wordAttributes (rel_attributes (fst st)) = true ->
  rel_name (fst (parseRelationItem relationName st item)) = rel_name (fst st)
  /\ wordAttributes (rel_attributes (fst (parseRelationItem relationName st item))) = true.
Proof.
  destruct st as [relation errs]. simpl fst. intros Hw. unfold parseRelationItem.
  destruct (matchParticipant item) as [[entityName cardinality]|].
  - destruct (validCardinality cardinality); simpl; auto.
  - destruct (parseAttribute item) as [attr|] eqn:Ha; simpl; [|auto].
    split; [reflexivity|]. unfold wordAttributes in *. rewrite forallb_app, Hw. simpl.
    rewrite (parseAttribute_word _ _ Ha). reflexivity.
Qed.

(** ** The names of the model *)

Lemma wordNames_parseBlock st block :
  isWordText (name block) = true ->
  wordNames (fst st) = true -> wordNames (fst (parseBlock st block)) = true.
Proof.
  destruct st as [m errs]. simpl fst. intros Hn Hm.
  unfold wordNames in Hm. apply andb_prop in Hm as [[He Hr]%andb_prop Ha].
  unfold parseBlock.
  destruct (String.eqb _ "ENTITY").
  { unfold parseEntityBlock, wordNames. cbn [fst mcd_entities mcd_relations mcd_associativeEntities].
    rewrite Hr, Ha, forallb_app, He. cbn [forallb ent_name ent_attributes].
    rewrite isName_str, Hn, parseAttributes_words. reflexivity. }
  destruct (String.eqb _ "RELATION").
  { unfold parseRelationBlock.
    assert (Hrel : forall items st0,
              rel_name (fst st0) = str (name block) ->
              wordAttributes (rel_attributes (fst st0)) = true ->
              rel_name (fst (foldl (parseRelationItem (name block)) st0 items))
              = str (name block)
              /\ wordAttributes
                   (rel_attributes (fst (foldl (parseRelationItem (name block)) st0 items)))
                 = true).
    { induction items as [|item items IH]; intros st0 H1 H2; [auto|].
      simpl. destruct (parseRelationItem_words (name block) st0 item H2) as [H3 H4].
      apply IH; [rewrite H3; exact H1|exact H4]. }
    destruct (Hrel (normalizeBodyItems (body block))
                ({| rel_name := str (name block); rel_participants := [];
                    rel_attributes := [] |}, errs) eq_refl eq_refl) as [H1 H2].
    destruct (foldl _ _ _) as [relation errs1]. simpl in H1, H2.
    unfold wordNames. cbn [fst mcd_entities mcd_relations mcd_associativeEntities].
    rewrite He, Ha, forallb_app, Hr. cbn [forallb].
    rewrite H1, isName_str, Hn, H2. reflexivity. }
  destruct (String.eqb _ "INHERITANCE").
  { unfold parseInheritanceBlock. destruct (foldl parseInheritanceLine _ _) as [inh errs1].
    unfold wordNames. cbn [fst mcd_entities mcd_relations mcd_associativeEntities].
    rewrite He, Hr, Ha. reflexivity. }
  destruct (String.eqb _ "ASSOCIATIVE").
  { unfold parseAssociativeBlock. destruct (matchKeywordName _ _).
    - unfold wordNames. cbn [fst mcd_entities mcd_relations mcd_associativeEntities].
      rewrite He, Hr, forallb_app, Ha. cbn [forallb assoc_name assoc_attributes].
      rewrite isName_str, Hn, parseAttributes_words. reflexivity.
    - unfold wordNames. cbn [fst]. rewrite He, Hr, Ha. reflexivity. }
  unfold wordNames. cbn [fst]. rewrite He, Hr, Ha. reflexivity.
Qed.

Lemma wordNames_parseMcd source : wordNames (model (parseMcd source)) = true.
Proof.
  unfold parseMcd, parseBlocks.
  pose proof (scan_words (splitLines source) TopLevel I) as Hblocks.
  fold (extractBlocks source) in Hblocks.
  assert (H : wordNames (fst (foldl parseBlock (emptyModel, []) (extractBlocks source))) = true).
  { apply (McdPipelineFacts.foldl_invariant (fun st => wordNames (fst st) = true));
      [|reflexivity].
    intros st b Hb. apply wordNames_parseBlock.
    exact (proj1 (forallb_forall _ _) Hblocks b Hb). }
  destruct (foldl parseBlock _ _) as [m errs]. exact H.
Qed.

(** X21.  For every ASCII source, the names of the entities, relations,
    associative entities and attributes of the model that [parseMcd]
    returns are words; the logical model that [convertMcdToMld] makes of
    it, written by [generateMldText], is read back unchanged and without
    error by [parseMld], for every inheritance strategy. *)
Theorem parseMcd_to_mld_text source strategy :
  isAsciiText source = true ->
  wordNames (model (parseMcd source)) = true
  /\ MldParser.parseMld
       (generateMldText (McdToMld.convertMcdToMld (model (parseMcd source)) strategy))
     = {| MldParser.model := McdToMld.convertMcdToMld (model (parseMcd source)) strategy;
          MldParser.errors := [] |}.
Proof.
  intros _. split; [apply wordNames_parseMcd|].
  apply parseMld_generateMldText, McdPipelineFacts.convertMcdToMld_wellFormed,
    wordNames_parseMcd.
Qed.

(** The theorem applies to a source with an error: the relation names
    an entity that is not declared. *)
Lemma parseMcd_to_mld_text_commande :
  wordNames (model (parseMcd (joinLines
    [ txt "ENTITY COMMANDE {"; txt "    id_commande [PK],"; txt "    date_commande"; txt "}";
      txt "// les lignes";
      txt "RELATION contient { COMMANDE (1,n), ARTICLE (0,n), quantite }" ]))) = true
  /\ MldParser.parseMld
       (generateMldText (McdToMld.convertMcdToMld (model (parseMcd (joinLines
          [ txt "ENTITY COMMANDE {"; txt "    id_commande [PK],"; txt "    date_commande";
            txt "}"; txt "// les lignes";
            txt "RELATION contient { COMMANDE (1,n), ARTICLE (0,n), quantite }" ])))
          single_table))
     = {| MldParser.model := McdToMld.convertMcdToMld (model (parseMcd (joinLines
             [ txt "ENTITY COMMANDE {"; txt "    id_commande [PK],"; txt "    date_commande";
               txt "}"; txt "// les lignes";
               txt "RELATION contient { COMMANDE (1,n), ARTICLE (0,n), quantite }" ])))
             single_table;
          MldParser.errors := [] |}.
Proof.
  apply (parseMcd_to_mld_text (joinLines
    [ txt "ENTITY COMMANDE {"; txt "    id_commande [PK],"; txt "    date_commande"; txt "}";
      txt "// les lignes";
      txt "RELATION contient { COMMANDE (1,n), ARTICLE (0,n), quantite }" ]) single_table).
  reflexivity.
Defined.

End McdSourceFacts.

(* ================================================================== *)
(** * The text of a logical model read as a physical model *)
(* ================================================================== *)

Module MpdParserMore.

Import Js Text TextFacts Serializer SerializerFacts.

Lemma matchBase_untyped name fs :
  isWordText name = true -> forallb wellFormedFlag fs = true ->
  MpdParser.matchBase (name ++ flagSuffix fs) = None.
Proof.
  intros Hn Hfs. unfold MpdParser.matchBase.
  rewrite (dropWhile_stop isWord name _ (ch " ") (isWordText_words _ Hn) eq_refl
             (suffix_head_plain fs)).
  rewrite (flagSuffix_flags _ Hfs).
  assert (Hty : takeWhile isWord (joinSpaces (map flagText fs)) = []).
  { destruct (joinSpaces_head _ Hfs) as [->|(r & ->)]; reflexivity. }
  rewrite Hty. destruct (MpdParser.matchSize _) as [size r2].
  rewrite !andb_false_r. reflexivity.
Qed.

Lemma parseMpdColumn_untyped col tableName :
  wellFormedMldColumn col = true ->
  MpdParser.parseMpdColumn (trim (mldColumnLine col)) tableName
  = inr (untypedColumnError tableName col).
Proof.
  intros Hcol. unfold MpdParser.parseMpdColumn, untypedColumnError.
  rewrite (trim_mldColumnLine _ Hcol).
  pose proof Hcol as Hn. unfold wellFormedMldColumn in Hn. apply andb_prop in Hn as [Hn _].
  apply isName_word in Hn. destruct (word_line_ends _ Hn) as (H1 & H2 & H3).
  rewrite (line_clean _ (mldFlags col) H1 H2 H3).
  rewrite (matchBase_untyped _ _ Hn (mldFlags_wellFormed _ Hcol)). reflexivity.
Qed.

Lemma parseLine_header acc es name :
  isName name = true ->
  MpdParser.parseLine
    {| MpdParser.tables := acc; MpdParser.errs := es; MpdParser.open := None |}
    (txt "TABLE " ++ txt name ++ txt " {")
  = {| MpdParser.tables := acc; MpdParser.errs := es;
       MpdParser.open := Some {| ptab_name := name; ptab_columns := [] |} |}.
Proof.
  intros Hn. unfold MpdParser.parseLine. simpl MpdParser.open.
  rewrite (matchTableHeader_header _ (isName_word _ Hn)), str_txt. reflexivity.
Qed.

Lemma parseLine_untyped acc es t col :
  wellFormedMldColumn col = true ->
  MpdParser.parseLine
    {| MpdParser.tables := acc; MpdParser.errs := es; MpdParser.open := Some t |}
    (mldColumnLine col)
  = {| MpdParser.tables := acc;
       MpdParser.errs := es ++ [untypedColumnError (ptab_name t) col];
       MpdParser.open := Some t |}.
Proof.
  intros Hcol. unfold MpdParser.parseLine.
  cbn [MpdParser.open MpdParser.tables MpdParser.errs]. cbv zeta iota.
  rewrite (parseMpdColumn_untyped _ _ Hcol), (trim_mldColumnLine _ Hcol).
  unfold wellFormedMldColumn in Hcol. apply andb_prop in Hcol as [Hn _].
  destruct (word_line_open _ (flagSuffix (mldFlags col)) (isName_word _ Hn)) as (_ & -> & ->).
  reflexivity.
Qed.

Lemma parseLine_untyped_columns acc es t cols :
  forallb wellFormedMldColumn cols = true ->
  foldl MpdParser.parseLine
    {| MpdParser.tables := acc; MpdParser.errs := es; MpdParser.open := Some t |}
    (map mldColumnLine cols)
  = {| MpdParser.tables := acc;
       MpdParser.errs := es ++ map (untypedColumnError (ptab_name t)) cols;
       MpdParser.open := Some t |}.
Proof.
  revert es. induction cols as [|c cols IH]; intros es Hcols.
  - rewrite app_nil_r. reflexivity.
  - simpl in Hcols. apply andb_prop in Hcols as [Hc Hcols].
    simpl map. simpl foldl. rewrite (parseLine_untyped _ _ _ _ Hc), (IH _ Hcols).
    rewrite <- app_assoc. reflexivity.
Qed.

Lemma parseLine_untyped_table acc es t :
  isName (ltab_name t) = true ->
  forallb wellFormedMldColumn (ltab_columns t) = true ->
  foldl MpdParser.parseLine
    {| MpdParser.tables := acc; MpdParser.errs := es; MpdParser.open := None |}
    (mldTableLines t)
  = {| MpdParser.tables := acc ++ [emptyTable t];
       MpdParser.errs := es ++ map (untypedColumnError (ltab_name t)) (ltab_columns t);
       MpdParser.open := None |}.
Proof.
  intros Hn Hcols. unfold mldTableLines.
  rewrite !foldl_app. simpl foldl at 3.
  rewrite (parseLine_header _ _ _ Hn), (parseLine_untyped_columns _ _ _ _ Hcols).
  reflexivity.
Qed.

Lemma parseLine_untyped_tables acc es ts :
  forallb (fun t => isName (ltab_name t) && forallb wellFormedMldColumn (ltab_columns t)) ts
  = true ->
  foldl MpdParser.parseLine
    {| MpdParser.tables := acc; MpdParser.errs := es; MpdParser.open := None |}
    (flat_map mldTableLines ts)
  = {| MpdParser.tables := acc ++ map emptyTable ts;
       MpdParser.errs :=
         es ++ flat_map (fun t => map (untypedColumnError (ltab_name t)) (ltab_columns t)) ts;
       MpdParser.open := None |}.
Proof.
  revert acc es. induction ts as [|t ts IH]; intros acc es Hts.
  - simpl. rewrite !app_nil_r. reflexivity.
  - simpl in Hts. apply andb_prop in Hts as [[Hn Hc]%andb_prop Hts].
    change (flat_map mldTableLines (t :: ts))
      with (mldTableLines t ++ flat_map mldTableLines ts).
    rewrite foldl_app, (parseLine_untyped_table _ _ _ Hn Hc), (IH _ _ Hts).
    simpl map. simpl flat_map. rewrite <- !app_assoc. reflexivity.
Qed.

(** X22.  [parseMpd] applied to the text that [generateMldText] writes for a
    logical model (names that are words, foreign keys named after their
    columns) keeps every table, in order and without any column, and
    reports one error per column, in order, that names the table and
    quotes the line: a column line without a type is never accepted. *)
Theorem parseMpd_of_mld_text m :
  wellFormedMld m = true ->
  MpdParser.parseMpd (generateMldText m)
  = {| MpdParser.model := {| mpd_tables := map emptyTable (mld_tables m) |};
       MpdParser.errors :=
         flat_map (fun t => map (untypedColumnError (ltab_name t)) (ltab_columns t))
                  (mld_tables m) |}.
Proof.
  destruct m as [ts]. unfold wellFormedMld. simpl mld_tables. intros Hts.
  destruct ts as [|t0 ts0] eqn:Ets; [reflexivity|]. rewrite <- Ets in *.
  assert (Hne : ts <> []) by (subst ts; discriminate). clear Ets t0 ts0.
  unfold MpdParser.parseMpd, generateMldText, MpdParser.parseLines. simpl mld_tables.
  rewrite forallb_forall in Hts.
  destruct (generated_lines mldTableLines
              (fun t => txt "TABLE " ++ txt (ltab_name t) ++ txt " {")
              (fun t => map mldColumnLine (ltab_columns t))
              (fun t => eq_refl) ts Hne) as (body & Hbody & ->).
  - intros t _. reflexivity.
  - intros t l Ht Hl. apply Hts in Ht. apply andb_prop in Ht as [Hn Hc].
    unfold mldTableLines in Hl. apply in_app_or in Hl as [Hl|Hl].
    + destruct Hl as [<-|[]]. apply header_no_LF, isName_word, Hn.
    + apply in_app_or in Hl as [Hl|Hl].
      * apply in_map_iff in Hl as (c & <- & Hin).
        rewrite forallb_forall in Hc. apply mldColumnLine_no_LF, Hc, Hin.
      * destruct Hl as [<-|[<-|[]]]; reflexivity.
  - pose proof (parseLine_untyped_tables [] [] ts (proj2 (forallb_forall _ _) Hts)) as H.
    rewrite Hbody, foldl_app in H. cbn [foldl] in H.
    rewrite mpd_parseLine_empty in H. rewrite H. reflexivity.
Qed.

(** The theorem applies to the model of clients and orders. *)
Lemma parseMpd_of_mld_text_clients :
  MpdParser.parseMpd (generateMldText clients)
  = {| MpdParser.model := {| mpd_tables := map emptyTable (mld_tables clients) |};
       MpdParser.errors :=
         flat_map (fun t => map (untypedColumnError (ltab_name t)) (ltab_columns t))
                  (mld_tables clients) |}.
Proof. apply (parseMpd_of_mld_text clients). vm_compute. reflexivity. Defined.

End MpdParserMore.

(* ================================================================== *)
(** * The lines of a table of the logical model *)
(* ================================================================== *)

Module MldParserMore.

Import Js Text TextFacts MldParser Serializer SerializerFacts.

Lemma forallb_rev {A} (p : A -> bool) l : forallb p l = true -> forallb p (rev l) = true.
Proof.
  intros H. apply forallb_forall. intros x Hx. apply in_rev in Hx.
  exact (proj1 (forallb_forall _ _) H x Hx).
Qed.

Lemma takeWhile_cut p (a b : text) d :
  p d = false -> p (hd d b) = false -> takeWhile p (a ++ b) = takeWhile p a.
Proof.
  intros Hd Hb. induction a as [|c a IH]; simpl.
  - destruct b as [|x b]; [reflexivity|]. simpl in *. rewrite Hb. reflexivity.
  - destruct (p c); [rewrite IH|]; reflexivity.
Qed.

Lemma stripTrailingComma_prefix s :
  exists t, s = stripTrailingComma s ++ t /\ isWord (hd (ch " ") t) = false.
Proof.
  unfold stripTrailingComma.
  destruct (dropWhile isSpace (rev s)) as [|c r] eqn:E.
  - exists []. rewrite app_nil_r. split; reflexivity.
  - destruct (Ascii.eqb_spec c (ch ",")) as [->|_].
    + exists (ch "," :: rev (takeWhile isSpace (rev s))). split; [|reflexivity].
      rewrite <- (rev_involutive s) at 1.
      rewrite <- (takeWhile_dropWhile isSpace (rev s)) at 1.
      rewrite E, rev_app_distr. simpl. rewrite <- app_assoc. reflexivity.
    + exists []. rewrite app_nil_r. split; reflexivity.
Qed.

Lemma trimEnd_spaces s : exists t, s = trimEnd s ++ t /\ forallb isSpace t = true.
Proof.
  unfold trimEnd. exists (rev (takeWhile isSpace (rev s))). split.
  - rewrite <- rev_app_distr, takeWhile_dropWhile, rev_involutive. reflexivity.
  - apply forallb_rev, takeWhile_forallb.
Qed.

Lemma space_plain c : isSpace c = true -> isWord c = false.
Proof.
  intros Hs. destruct (isWord c) eqn:Hw; [|reflexivity].
  rewrite (isWord_not_space _ Hw) in Hs. discriminate Hs.
Qed.

(** The text that [parseMldColumn] matches is the line without a tail
    that starts with no word character. *)
Lemma cleaned_prefix line :
  isSpace (hd (ch " ") line) = false ->
  exists t, line = trim (stripTrailingComma line) ++ t /\ isWord (hd (ch " ") t) = false.
Proof.
  intros Hh. destruct (stripTrailingComma_prefix line) as (t1 & H1 & Ht1).
  remember (stripTrailingComma line) as P eqn:EP. unfold trim.
  assert (Hs : trimStart P = P).
  { destruct P as [|c p]; [reflexivity|]. apply trimStart_id.
    rewrite H1 in Hh. exact Hh. }
  rewrite Hs. destruct (trimEnd_spaces P) as (t2 & H2 & Ht2).
  exists (t2 ++ t1). split.
  - rewrite app_assoc, <- H2. exact H1.
  - destruct t2 as [|x t2]; [exact Ht1|].
    simpl in *. apply andb_prop in Ht2 as [Hx _]. apply space_plain, Hx.
Qed.

Lemma hasLineTerminator_dropWhile p s :
  hasLineTerminator s = false -> hasLineTerminator (dropWhile p s) = false.
Proof.
  intros H. rewrite <- (takeWhile_dropWhile p s), hasLineTerminator_app in H.
  apply orb_false_elim in H as [_ H]. exact H.
Qed.

(** The column that a line gives: its name is the longest run of word
    characters at the start of the line. *)
Lemma parseMldColumn_word line c r :
  line = c :: r -> isSpace c = false -> hasLineTerminator line = false ->
  parseMldColumn line
  = if isWord c
    then Some {| lcol_name := str (takeWhile isWord line);
                 lcol_isPrimaryKey :=
                   hasFlag "[PK]"
                     (dropWhile isSpace
                        (dropWhile isWord (trim (stripTrailingComma line))));
                 lcol_foreignKey :=
                   match firstMatch matchForeignKeyAt
                           (dropWhile isSpace
                              (dropWhile isWord (trim (stripTrailingComma line)))) with
                   | Some (tbl, col) =>
                       Some {| lfk_columnName := str (takeWhile isWord line);
                               lfk_referencedTable := str tbl;
                               lfk_referencedColumn := str col |}
                   | None => None
                   end |}
    else None.
Proof.
  intros Hline Hc Hlt.
  destruct (cleaned_prefix line) as (t & Ht & Hhd); [rewrite Hline; exact Hc|].
  unfold parseMldColumn, matchColumn.
  remember (trim (stripTrailingComma line)) as Q eqn:EQ.
  assert (Hnm : takeWhile isWord Q = takeWhile isWord line).
  { rewrite Ht. symmetry. apply (takeWhile_cut isWord Q t (ch " ") eq_refl Hhd). }
  assert (Hfl : hasLineTerminator (dropWhile isSpace (dropWhile isWord Q)) = false).
  { apply hasLineTerminator_dropWhile, hasLineTerminator_dropWhile.
    rewrite Ht, hasLineTerminator_app in Hlt. apply orb_false_elim in Hlt as [H _]. exact H. }
  rewrite Hnm, Hfl. rewrite Hline at 1. simpl takeWhile.
  destruct (isWord c); reflexivity.
Qed.

(** X23.  Inside a table, an ASCII line (trimmed, not empty, without line
    terminator) that starts with a letter, a digit or an underscore
    always gives a
    column, named by its first word, even when it holds a brace or is
    the header of another table; any other line closes the table when it
    holds a closing brace, and is otherwise reported as an invalid
    column, the table staying open. *)
Theorem parseMld_line_in_table st table raw c r :
  isAsciiText raw = true ->
  open st = Some table ->
  trim raw = c :: r ->
  hasLineTerminator (trim raw) = false ->
  if isWord c then
    exists col,
      lcol_name col = str (takeWhile isWord (trim raw))
      /\ parseLine st raw
         = {| tables := tables st; errs := errs st;
              open := Some (pushColumn table col) |}
  else
    parseLine st raw
    = if containsChar (ch "}") (trim raw)
      then {| tables := tables st ++ [table]; errs := errs st; open := None |}
      else {| tables := tables st;
              errs := errs st ++ [invalidColumnError (trim raw) (ltab_name table)];
              open := Some table |}.
Proof.
  intros _ Hopen Hline Hlt.
  assert (Hc : isSpace c = false).
  { destruct (ParserMore.trim_ends raw) as [H _]; [rewrite Hline; discriminate|].
    rewrite Hline in H. exact H. }
  pose proof (parseMldColumn_word _ _ _ Hline Hc Hlt) as Hcol.
  unfold parseLine. cbv zeta. rewrite Hopen.
  destruct (isWord c) eqn:Hw.
  - eexists. split; [|rewrite Hcol].
    2:{ destruct (word_line_open [c] r) as (H1 & H2 & _).
        { unfold isWordText. simpl. rewrite Hw. reflexivity. }
        simpl app in H1, H2. rewrite <- Hline in H1, H2. rewrite H1, H2. reflexivity. }
    reflexivity.
  - rewrite Hcol. destruct (String.eqb_spec (str (trim raw)) "}") as [Heq|Hne].
    + assert (Hb : trim raw = txt "}") by (rewrite <- (txt_str (trim raw)), Heq; reflexivity).
      rewrite Hb. reflexivity.
    + assert (H2 : isEmpty (trim raw) = false) by (rewrite Hline; reflexivity).
      rewrite H2. reflexivity.
Qed.

(** The theorem applies to the header of a second table read while the
    first one is still open: it becomes a column named TABLE. *)
Lemma parseMld_line_in_table_header :
  if isWord (ch "T") then
    exists col,
      lcol_name col = str (takeWhile isWord (trim (txt "TABLE COMMANDE {")))
      /\ parseLine {| tables := []; errs := [];
                      open := Some {| ltab_name := "CLIENT"; ltab_columns := [] |} |}
                   (txt "TABLE COMMANDE {")
         = {| tables := []; errs := [];
              open := Some (pushColumn {| ltab_name := "CLIENT"; ltab_columns := [] |} col) |}
  else
    parseLine {| tables := []; errs := [];
                 open := Some {| ltab_name := "CLIENT"; ltab_columns := [] |} |}
              (txt "TABLE COMMANDE {")
    = if containsChar (ch "}") (trim (txt "TABLE COMMANDE {"))
      then {| tables := [] ++ [ {| ltab_name := "CLIENT"; ltab_columns := [] |} ];
              errs := []; open := None |}
      else {| tables := [];
              errs := [] ++ [invalidColumnError (trim (txt "TABLE COMMANDE {")) "CLIENT"];
              open := Some {| ltab_name := "CLIENT"; ltab_columns := [] |} |}.
Proof.
  apply (parseMld_line_in_table
           {| tables := []; errs := [];
              open := Some {| ltab_name := "CLIENT"; ltab_columns := [] |} |}
           {| ltab_name := "CLIENT"; ltab_columns := [] |}
           (txt "TABLE COMMANDE {") (ch "T") (txt "ABLE COMMANDE {")).
  - reflexivity.
  - reflexivity.
  - reflexivity.
  - reflexivity.
Defined.

End MldParserMore.
